(** * TwoLayerNet: a verified model of [Neural_Networks/TwoLayerNN.py]

    The development embeds the two-layer fully connected classifier
    (construction, [loss], [train], [predict] and [ReLU]) and the parts of
    numpy it relies on, and proves what the specification says of them.

    Modelling decisions.
    - numpy's float64 numbers are idealised as the real numbers [R]: every
      statement below is about exact arithmetic; rounding, overflow, [nan]
      and [inf] are not represented.
    - A 2-D ndarray is a record carrying its shape and its rows; entries are
      read with [get], and every array an operation produces is tabulated
      from its shape.  Arrays live in a heap and are named by their location,
      so that aliasing ([dscores = probs]) and the in-place operators ([-=],
      [/=], [+=], masked assignment) are visible.
    - 1-D arrays (labels, sample indices, predictions, per-example losses)
      are never mutated by the program and are carried by value.
    - A raised Python exception is an outcome [Raise e]; the heap at the
      moment of the raise is kept.
    - numpy's global random state is part of the world.
    - The source is Python 2: [/] on two integers is floor division, and
      [xrange(1, n)] is empty for [n <= 1].  Console output is not
      modelled. *)

From Stdlib Require Import List Arith ZArith Bool Lia Reals Lra Permutation.
Import ListNotations.

Set Implicit Arguments.

#[local] Open Scope R_scope.

(** ** Sums and tabulated lists *)

Definition sumR (l : list R) : R := fold_right Rplus 0 l.

(** [sum_upto n f] is the sum of [f 0 .. f (n-1)]. *)
Definition sum_upto (n : nat) (f : nat -> R) : R := sumR (map f (seq 0 n)).

(** ** Two-dimensional arrays *)

Record ndarray : Type := mkArr {
  nrows : nat;
  ncols : nat;
  rows  : list (list R)
}.

Definition shape (A : ndarray) : nat * nat := (nrows A, ncols A).

(** [A[i, j]] for in-range naturals. *)
Definition get (A : ndarray) (i j : nat) : R := nth j (nth i (rows A) []) 0.

(** The array of shape [(n, m)] whose entry [(i, j)] is [f i j]. *)
Definition tabulate (n m : nat) (f : nat -> nat -> R) : ndarray :=
  mkArr n m (map (fun i => map (fun j => f i j) (seq 0 m)) (seq 0 n)).

(** ** Outcomes: a value or a raised exception *)

Inductive exn : Type := ValueError | IndexError | ZeroDivisionError.

Inductive outcome (A : Type) : Type :=
| Ok (a : A)
| Raise (e : exn).

Arguments Ok {A} a.
Arguments Raise {A} e.

(** ** numpy on values *)

Module np.

(** Broadcasting of one dimension: equal sizes, or one of them is 1. *)
Definition bdim (a b : nat) : option nat :=
  if a =? b then Some a
  else if a =? 1 then Some b
  else if b =? 1 then Some a
  else None.

(** The index read along a dimension of size [d] for output index [i]. *)
Definition bidx (d i : nat) : nat := if d =? 1 then 0%nat else i.

(** Element-wise binary operation with 2-D broadcasting. *)
Definition broadcast2 (f : R -> R -> R) (A B : ndarray) : outcome ndarray :=
  match bdim (nrows A) (nrows B), bdim (ncols A) (ncols B) with
  | Some n, Some m =>
      Ok (tabulate n m (fun i j =>
            f (get A (bidx (nrows A) i) (bidx (ncols A) j))
              (get B (bidx (nrows B) i) (bidx (ncols B) j))))
  | _, _ => Raise ValueError
  end.

Definition add := broadcast2 Rplus.
Definition subtract := broadcast2 Rminus.
Definition multiply := broadcast2 Rmult.
Definition divide := broadcast2 Rdiv.

(** Element-wise map, and operations with a Python scalar. *)
Definition map1 (f : R -> R) (A : ndarray) : ndarray :=
  tabulate (nrows A) (ncols A) (fun i j => f (get A i j)).

Definition exp (A : ndarray) : ndarray := map1 Rtrigo_def.exp A.
Definition maximum (c : R) (A : ndarray) : ndarray := map1 (Rmax c) A.
Definition scale (c : R) (A : ndarray) : ndarray := map1 (Rmult c) A.
Definition div_scalar (A : ndarray) (c : R) : ndarray := map1 (fun x => x / c) A.

(** [np.dot] of two 2-D arrays. *)
Definition dot (A B : ndarray) : outcome ndarray :=
  if ncols A =? nrows B then
    Ok (tabulate (nrows A) (ncols B) (fun i j =>
          sum_upto (ncols A) (fun k => get A i k * get B k j)))
  else Raise ValueError.

(** [A.T] *)
Definition transpose (A : ndarray) : ndarray :=
  tabulate (ncols A) (nrows A) (fun i j => get A j i).

(** [np.zeros((n, m))] *)
Definition zeros (n m : nat) : ndarray := tabulate n m (fun _ _ => 0).

(** [np.sum(A)] over all entries. *)
Definition sum (A : ndarray) : R :=
  sum_upto (nrows A) (fun i => sum_upto (ncols A) (fun j => get A i j)).

(** [np.sum(A, axis=1, keepdims=True)], of shape [(n, 1)]. *)
Definition sum_axis1 (A : ndarray) : ndarray :=
  tabulate (nrows A) 1 (fun i _ => sum_upto (ncols A) (fun j => get A i j)).

(** [np.sum(A, axis=0, keepdims=True)], of shape [(1, m)]. *)
Definition sum_axis0 (A : ndarray) : ndarray :=
  tabulate 1 (ncols A) (fun _ j => sum_upto (nrows A) (fun i => get A i j)).

(** The maximum of a non-empty run of numbers, scanned left to right. *)
Definition max_list (x : R) (l : list R) : R := fold_left Rmax l x.

Definition row (A : ndarray) (i : nat) : list R :=
  map (fun j => get A i j) (seq 0 (ncols A)).

(** [np.max(A, axis=1, keepdims=True)]: a reduction without identity, so a
    zero-length axis raises. *)
Definition max_axis1 (A : ndarray) : outcome ndarray :=
  if ncols A =? 0 then Raise ValueError
  else Ok (tabulate (nrows A) 1 (fun i _ =>
             max_list (get A i 0) (tl (row A i)))).

(** The first position of the maximum: the scan keeps the best position
    so far and moves only on a strictly larger entry. *)
Fixpoint argmax_scan (best_i : nat) (best : R) (i : nat) (l : list R) : nat :=
  match l with
  | [] => best_i
  | x :: t =>
      if Rlt_dec best x then argmax_scan i x (S i) t
      else argmax_scan best_i best (S i) t
  end.

Definition argmax_list (l : list R) : nat :=
  match l with
  | [] => 0%nat
  | x :: t => argmax_scan 0 x 1 t
  end.

(** [np.argmax(A, axis=1)], an integer vector of length [n]. *)
Definition argmax_axis1 (A : ndarray) : outcome (list Z) :=
  if ncols A =? 0 then Raise ValueError
  else Ok (map (fun i => Z.of_nat (argmax_list (row A i))) (seq 0 (nrows A))).

(** An integer index along an axis of size [d]: negative indices count
    from the end, anything else out of range raises. *)
Definition norm_index (d : nat) (k : Z) : outcome nat :=
  if ((0 <=? k) && (k <? Z.of_nat d))%Z then Ok (Z.to_nat k)
  else if ((- Z.of_nat d <=? k) && (k <? 0))%Z then Ok (Z.to_nat (k + Z.of_nat d))
  else Raise IndexError.

Fixpoint norm_indices (d : nat) (ks : list Z) : outcome (list nat) :=
  match ks with
  | [] => Ok []
  | k :: t =>
      match norm_index d k with
      | Ok j =>
          match norm_indices d t with
          | Ok js => Ok (j :: js)
          | Raise e => Raise e
          end
      | Raise e => Raise e
      end
  end.

(** The cells addressed by [A[range(N), y]]: the two index vectors are
    broadcast against each other, then each column index is normalised. *)
Definition fancy_cells (A : ndarray) (N : nat) (y : list Z)
  : outcome (list (nat * nat)) :=
  match bdim N (length y) with
  | Some n =>
      if existsb (fun i => negb (bidx N i <? nrows A)) (seq 0 n)
      then Raise IndexError
      else
        match norm_indices (ncols A)
                (map (fun i => nth (bidx (length y) i) y 0%Z) (seq 0 n)) with
        | Ok js => Ok (combine (map (bidx N) (seq 0 n)) js)
        | Raise e => Raise e
        end
  | None => Raise IndexError
  end.

Definition gather (A : ndarray) (cells : list (nat * nat)) : list R :=
  map (fun c => get A (fst c) (snd c)) cells.

(** Writing [vs] to [cells] in order: a cell written twice keeps the last
    value. *)
Definition scatter (A : ndarray) (cells : list (nat * nat)) (vs : list R)
  : ndarray :=
  tabulate (nrows A) (ncols A) (fun i j =>
    match find (fun cv => (fst (fst cv) =? i) && (snd (fst cv) =? j))
               (rev (combine cells vs)) with
    | Some cv => snd cv
    | None => get A i j
    end).

(** [A[B <= 0] = 0] with a boolean mask of the shape of [A]. *)
Definition mask_le0_zero (A B : ndarray) : outcome ndarray :=
  if (nrows A =? nrows B) && (ncols A =? ncols B) then
    Ok (tabulate (nrows A) (ncols A) (fun i j =>
          if Rle_dec (get B i j) 0 then 0 else get A i j))
  else Raise IndexError.

(** [A[idx, :]] for a vector of row numbers. *)
Definition take_rows (A : ndarray) (idx : list nat) : outcome ndarray :=
  if forallb (fun k => k <? nrows A) idx then
    Ok (tabulate (length idx) (ncols A) (fun i j => get A (nth i idx 0%nat) j))
  else Raise IndexError.

(** [y[idx]] for an integer vector [y]. *)
Definition take (y : list Z) (idx : list nat) : outcome (list Z) :=
  if forallb (fun k => k <? length y) idx then
    Ok (map (fun k => nth k y 0%Z) idx)
  else Raise IndexError.

(** [(a == b).mean()] for two integer vectors. *)
Definition mean_eq (a b : list Z) : outcome R :=
  match bdim (length a) (length b) with
  | Some n =>
      Ok (sum_upto n (fun i =>
            if Z.eqb (nth (bidx (length a) i) a 0%Z)
                     (nth (bidx (length b) i) b 0%Z)
            then 1 else 0) / INR n)
  | None => Raise ValueError
  end.

End np.

(** ** The world: a heap of arrays and numpy's random state *)

Definition loc := nat.

(** The random state is an unbounded supply of raw draws together with the
    number of draws consumed so far.  Any sequence of results of the random
    calls made by a run is produced by some supply. *)
Record random_state : Type := mkRandom {
  raw_int   : nat -> nat;
  raw_gauss : nat -> R;
  used_int   : nat;
  used_gauss : nat
}.

Record world : Type := mkWorld {
  heap   : list ndarray;
  random : random_state
}.

Definition lookup (w : world) (l : loc) : option ndarray := nth_error (heap w) l.

Fixpoint replace_nth (h : list ndarray) (l : nat) (A : ndarray) : list ndarray :=
  match h, l with
  | [], _ => []
  | _ :: t, O => A :: t
  | x :: t, S l' => x :: replace_nth t l' A
  end.

Definition with_heap (w : world) (h : list ndarray) : world :=
  mkWorld h (random w).

(** The world after allocating [A] at the next free location. *)
Definition allocated (w : world) (A : ndarray) : world :=
  with_heap w (heap w ++ [A]).

(** The world after overwriting the array at [l]. *)
Definition stored (w : world) (l : loc) (A : ndarray) : world :=
  with_heap w (replace_nth (heap w) l A).

(** ** The monad of Python computations *)

Definition Py (A : Type) : Type := world -> outcome A * world.

Definition ret {A} (a : A) : Py A := fun w => (Ok a, w).

Definition bind {A B} (c : Py A) (k : A -> Py B) : Py B :=
  fun w =>
    match c w with
    | (Ok a, w') => k a w'
    | (Raise e, w') => (Raise e, w')
    end.

Definition raise {A} (e : exn) : Py A := fun w => (Raise e, w).

Definition lift {A} (o : outcome A) : Py A := fun w => (o, w).

Declare Scope py_scope.
Delimit Scope py_scope with py.
Notation "x <- c ;; k" := (bind c (fun x => k))
  (at level 61, c at next level, right associativity) : py_scope.
Notation "c ;;; k" := (bind c (fun _ => k))
  (at level 61, right associativity) : py_scope.
#[local] Open Scope py_scope.

Definition alloc (A : ndarray) : Py loc :=
  fun w => (Ok (length (heap w)), allocated w A).

(** Reading through a reference.  A location outside the heap does not
    arise in a Python program; the model stops with an exception there. *)
Definition load (l : loc) : Py ndarray :=
  fun w =>
    match lookup w l with
    | Some A => (Ok A, w)
    | None => (Raise ValueError, w)
    end.

Definition store (l : loc) (A : ndarray) : Py unit :=
  fun w =>
    match lookup w l with
    | Some _ => (Ok tt, stored w l A)
    | None => (Raise ValueError, w)
    end.

(** An array operation that allocates its result. *)
Definition fresh1 (f : ndarray -> outcome ndarray) (a : loc) : Py loc :=
  A <- load a ;; R <- lift (f A) ;; alloc R.

Definition fresh2 (f : ndarray -> ndarray -> outcome ndarray) (a b : loc) : Py loc :=
  A <- load a ;; B <- load b ;; R <- lift (f A B) ;; alloc R.

(** An array operation that writes its result over its first operand. *)
Definition inplace1 (f : ndarray -> outcome ndarray) (a : loc) : Py unit :=
  A <- load a ;; R <- lift (f A) ;; store a R.

Definition inplace2 (f : ndarray -> ndarray -> outcome ndarray) (a b : loc) : Py unit :=
  A <- load a ;; B <- load b ;; R <- lift (f A B) ;; store a R.

(** The next [n] indices below [a] drawn from the random state, and the
    random state after [n] integer draws. *)
Definition draw_ints (r : random_state) (a n : nat) : list nat :=
  map (fun k => raw_int r (used_int r + k) mod a) (seq 0 n).

Definition skip_ints (r : random_state) (n : nat) : random_state :=
  mkRandom (raw_int r) (raw_gauss r) (used_int r + n) (used_gauss r).

(** ** numpy on references *)

Module npy.

Definition dot : loc -> loc -> Py loc := fresh2 np.dot.
Definition add : loc -> loc -> Py loc := fresh2 np.add.
Definition subtract : loc -> loc -> Py loc := fresh2 np.subtract.
Definition multiply : loc -> loc -> Py loc := fresh2 np.multiply.
Definition divide : loc -> loc -> Py loc := fresh2 np.divide.
Definition exp : loc -> Py loc := fresh1 (fun A => Ok (np.exp A)).
Definition maximum (c : R) : loc -> Py loc := fresh1 (fun A => Ok (np.maximum c A)).
Definition scale (c : R) : loc -> Py loc := fresh1 (fun A => Ok (np.scale c A)).
Definition max_axis1 : loc -> Py loc := fresh1 np.max_axis1.
Definition sum_axis1 : loc -> Py loc := fresh1 (fun A => Ok (np.sum_axis1 A)).
Definition sum_axis0 : loc -> Py loc := fresh1 (fun A => Ok (np.sum_axis0 A)).
Definition take_rows (a : loc) (idx : list nat) : Py loc :=
  fresh1 (fun A => np.take_rows A idx) a.
Definition zeros (n m : nat) : Py loc := alloc (np.zeros n m).

Definition sum (a : loc) : Py R := A <- load a ;; ret (np.sum A).

(** [np.dot(a.T, b)] and [np.dot(a, b.T)]: a transpose is a view, nothing
    is allocated for it. *)
Definition dot_T_l : loc -> loc -> Py loc :=
  fresh2 (fun A B => np.dot (np.transpose A) B).
Definition dot_T_r : loc -> loc -> Py loc :=
  fresh2 (fun A B => np.dot A (np.transpose B)).

Definition argmax_axis1 (a : loc) : Py (list Z) :=
  A <- load a ;; lift (np.argmax_axis1 A).

(** [a[range(N), y]] *)
Definition fancy_get (a : loc) (N : nat) (y : list Z) : Py (list R) :=
  A <- load a ;;
  cells <- lift (np.fancy_cells A N y) ;;
  ret (np.gather A cells).

(** [a[range(N), y] -= c]: the addressed entries are read, decreased, and
    written back. *)
Definition fancy_isub (a : loc) (N : nat) (y : list Z) (c : R) : Py unit :=
  inplace1 (fun A =>
    match np.fancy_cells A N y with
    | Ok cells =>
        Ok (np.scatter A cells (map (fun x => x - c) (np.gather A cells)))
    | Raise e => Raise e
    end) a.

(** [a /= c] for a Python number [c]. *)
Definition idiv_scalar (a : loc) (c : R) : Py unit :=
  inplace1 (fun A => Ok (np.div_scalar A c)) a.

(** [a[b <= 0] = 0] *)
Definition mask_le0_zero : loc -> loc -> Py unit := inplace2 np.mask_le0_zero.

(** [a += b]: the broadcast result must have the shape of [a]. *)
Definition iadd_val (A B : ndarray) : outcome ndarray :=
  match np.add A B with
  | Ok C =>
      if (nrows C =? nrows A) && (ncols C =? ncols A) then Ok C
      else Raise ValueError
  | Raise e => Raise e
  end.

Definition iadd : loc -> loc -> Py unit := inplace2 iadd_val.

(** [np.random.randn(n, m)] *)
Definition random_randn (n m : nat) : Py loc :=
  fun w =>
    let r := random w in
    alloc (tabulate n m (fun i j => raw_gauss r (used_gauss r + i * m + j)))
          (mkWorld (heap w)
             (mkRandom (raw_int r) (raw_gauss r) (used_int r)
                       (used_gauss r + n * m))).

(** [np.random.choice(a, size, replace=True)]: [size] indices below [a],
    repetitions allowed. *)
Definition random_choice (a : nat) (size : Z) : Py (list nat) :=
  fun w =>
    if (a =? 0) || (size <? 0)%Z then (Raise ValueError, w)
    else
      let n := Z.to_nat size in
      (Ok (draw_ints (random w) a n),
       mkWorld (heap w) (skip_ints (random w) n)).

End npy.

(** ** The network *)

(** A dictionary with the keys ['W1'], ['b1'], ['W2'], ['b2'], as used for
    both [self.params] and [grads]. *)
Record param_dict : Type := mkParams {
  W1 : loc;
  b1 : loc;
  W2 : loc;
  b2 : loc
}.

Record TwoLayerNet : Type := mkNet { params : param_dict }.

(** The two results of [loss]: the scores alone, or the loss with the
    gradients. *)
Inductive loss_result : Type :=
| Scores (scores : loc)
| LossGrads (loss : R) (grads : param_dict).

(** The velocity of a parameter is the Python float [0.0] before the first
    update and an array afterwards. *)
Inductive velocity : Type :=
| PyFloat (r : R)
| Arr (l : loc).

Record loop_state : Type := mkLoop {
  v_W2 : velocity;
  v_b2 : velocity;
  v_W1 : velocity;
  v_b1 : velocity;
  learning_rate : R;
  mu : R;
  loss_history : list R;
  train_acc_history : list R;
  val_acc_history : list R
}.

Record history : Type := mkHistory {
  h_loss_history : list R;
  h_train_acc_history : list R;
  h_val_acc_history : list R
}.

(** [xrange(a, b)] *)
Definition xrange (a b : Z) : list Z :=
  map (fun k => (a + Z.of_nat k)%Z) (seq 0 (Z.to_nat (b - a))).

(** [ReLU(x)]: [np.maximum(0, x)] *)
Definition ReLU (x : loc) : Py loc := npy.maximum 0 x.

(** [TwoLayerNet.__init__] *)
Definition init (input_size hidden_size output_size : nat) (std : R)
  : Py TwoLayerNet :=
  r1 <- npy.random_randn input_size hidden_size ;;
  pW1 <- npy.scale std r1 ;;
  pb1 <- npy.zeros 1 hidden_size ;;
  r2 <- npy.random_randn hidden_size output_size ;;
  pW2 <- npy.scale std r2 ;;
  pb2 <- npy.zeros 1 output_size ;;
  ret (mkNet (mkParams pW1 pb1 pW2 pb2)).

(** The forward pass, written out twice in the source (in [loss] and in
    [predict]); it returns the hidden activations and the scores. *)
Definition forward (p : param_dict) (X : loc) : Py (loc * loc) :=
  xw <- npy.dot X (W1 p) ;;
  pre <- npy.add xw (b1 p) ;;
  h1 <- ReLU pre ;;
  hw <- npy.dot h1 (W2 p) ;;
  out <- npy.add hw (b2 p) ;;
  ret (h1, out).

(** [TwoLayerNet.loss] *)
Definition loss (self : TwoLayerNet) (X : loc) (y : option (list Z)) (reg : R)
  : Py loss_result :=
  let p := params self in
  XA <- load X ;;
  let N := nrows XA in
  hs <- forward p X ;;
  let h1 := fst hs in
  let scores := snd hs in
  match y with
  | None => ret (Scores scores)
  | Some y =>
      scores_max <- npy.max_axis1 scores ;;
      shifted <- npy.subtract scores scores_max ;;
      exp_scores <- npy.exp shifted ;;
      denom <- npy.sum_axis1 exp_scores ;;
      probs <- npy.divide exp_scores denom ;;
      picked <- npy.fancy_get probs N y ;;
      let correct_logprobs := map (fun p => - ln p) picked in
      let data_loss := sumR correct_logprobs / INR N in
      sq1 <- npy.multiply (W1 p) (W1 p) ;;
      s1 <- npy.sum sq1 ;;
      sq2 <- npy.multiply (W2 p) (W2 p) ;;
      s2 <- npy.sum sq2 ;;
      let reg_loss := 0.5 * reg * s1 + 0.5 * reg * s2 in
      let loss := data_loss + reg_loss in
      let dscores := probs in
      npy.fancy_isub dscores N y 1 ;;;
      npy.idiv_scalar dscores (INR N) ;;;
      dW2 <- npy.dot_T_l h1 dscores ;;
      db2 <- npy.sum_axis0 dscores ;;
      dh1 <- npy.dot_T_r dscores (W2 p) ;;
      npy.mask_le0_zero dh1 h1 ;;;
      dW1 <- npy.dot_T_l X dh1 ;;
      db1 <- npy.sum_axis0 dh1 ;;
      rW2 <- npy.scale reg (W2 p) ;;
      npy.iadd dW2 rW2 ;;;
      rW1 <- npy.scale reg (W1 p) ;;
      npy.iadd dW1 rW1 ;;;
      ret (LossGrads loss (mkParams dW1 db1 dW2 db2))
  end.

(** [TwoLayerNet.predict] *)
Definition predict (self : TwoLayerNet) (X : loc) : Py (list Z) :=
  hs <- forward (params self) X ;;
  npy.argmax_axis1 (snd hs).

(** [v = mu * v - learning_rate * g] *)
Definition momentum (mu : R) (v : velocity) (learning_rate : R) (g : loc)
  : Py velocity :=
  match v with
  | PyFloat r =>
      lg <- npy.scale learning_rate g ;;
      v' <- fresh1 (fun A => Ok (np.map1 (fun x => mu * r - x) A)) lg ;;
      ret (Arr v')
  | Arr l =>
      mv <- npy.scale mu l ;;
      lg <- npy.scale learning_rate g ;;
      v' <- npy.subtract mv lg ;;
      ret (Arr v')
  end.

(** [param += v] *)
Definition apply_velocity (param : loc) (v : velocity) : Py unit :=
  match v with
  | PyFloat r => inplace1 (fun A => Ok (np.map1 (fun x => x + r) A)) param
  | Arr l => npy.iadd param l
  end.

(** The update of one parameter:
    [v = mu * v - learning_rate * grads[name]; self.params[name] += v]. *)
Definition update_param (mu : R) (learning_rate : R) (param : loc)
    (v : velocity) (g : loc) : Py velocity :=
  v' <- momentum mu v learning_rate g ;;
  apply_velocity param v' ;;;
  ret v'.

(** The local state of [train] when the loop is entered. *)
Definition initial_loop_state (learning_rate mu : R) : loop_state :=
  mkLoop (PyFloat 0) (PyFloat 0) (PyFloat 0) (PyFloat 0)
    learning_rate mu [] [] [].

(** One pass through the body of the training loop, for iteration [it].
    [loss] is called with labels, so it returns the pair that the loop
    unpacks.  The line printed at the end of an epoch goes to the console
    and is not part of the state. *)
Definition train_step (self : TwoLayerNet) (X : loc) (y : list Z)
    (X_val : loc) (y_val : list Z)
    (learning_rate_decay reg mu_increase : R) (batch_size : Z) (verbose : bool)
    (num_train : nat) (iterations_per_epoch : Z)
    (it : Z) (s : loop_state) : Py loop_state :=
  let p := params self in
  sample_index <- npy.random_choice num_train batch_size ;;
  X_batch <- npy.take_rows X sample_index ;;
  y_batch <- lift (np.take y sample_index) ;;
  r <- loss self X_batch (Some y_batch) reg ;;
  match r with
  | Scores _ => raise ValueError
  | LossGrads loss grads =>
      let loss_history := loss_history s ++ [loss] in
      v_W2 <- update_param (mu s) (learning_rate s) (W2 p) (v_W2 s) (W2 grads) ;;
      v_b2 <- update_param (mu s) (learning_rate s) (b2 p) (v_b2 s) (b2 grads) ;;
      v_W1 <- update_param (mu s) (learning_rate s) (W1 p) (v_W1 s) (W1 grads) ;;
      v_b1 <- update_param (mu s) (learning_rate s) (b1 p) (v_b1 s) (b1 grads) ;;
      if verbose && (it mod iterations_per_epoch =? 0)%Z then
        pred_batch <- predict self X_batch ;;
        train_acc <- lift (np.mean_eq pred_batch y_batch) ;;
        pred_val <- predict self X_val ;;
        val_acc <- lift (np.mean_eq pred_val y_val) ;;
        ret (mkLoop v_W2 v_b2 v_W1 v_b1
               (learning_rate s * learning_rate_decay)
               (mu s * mu_increase)
               loss_history
               (train_acc_history s ++ [train_acc])
               (val_acc_history s ++ [val_acc]))
      else
        ret (mkLoop v_W2 v_b2 v_W1 v_b1 (learning_rate s) (mu s)
               loss_history (train_acc_history s) (val_acc_history s))
  end.

(** The [for] loop: the body is run for each value in turn. *)
Fixpoint for_each (body : Z -> loop_state -> Py loop_state) (its : list Z)
    (s : loop_state) : Py loop_state :=
  match its with
  | [] => ret s
  | it :: rest => s' <- body it s ;; for_each body rest s'
  end.

(** Python 2 integer division [a / b]. *)
Definition int_div (a b : Z) : Py Z :=
  if (b =? 0)%Z then raise ZeroDivisionError else ret (a / b)%Z.

(** The loop of [train] together with its final local state. *)
Definition train_run (self : TwoLayerNet) (X : loc) (y : list Z)
    (X_val : loc) (y_val : list Z)
    (learning_rate learning_rate_decay reg mu : R) (num_epochs : Z)
    (mu_increase : R) (batch_size : Z) (verbose : bool) : Py loop_state :=
  XA <- load X ;;
  let num_train := nrows XA in
  q <- int_div (Z.of_nat num_train) batch_size ;;
  let iterations_per_epoch := Z.max q 1 in
  for_each
    (train_step self X y X_val y_val learning_rate_decay reg mu_increase
       batch_size verbose num_train iterations_per_epoch)
    (xrange 1 (num_epochs * iterations_per_epoch + 1))
    (initial_loop_state learning_rate mu).

(** [TwoLayerNet.train] *)
Definition train (self : TwoLayerNet) (X : loc) (y : list Z)
    (X_val : loc) (y_val : list Z)
    (learning_rate learning_rate_decay reg mu : R) (num_epochs : Z)
    (mu_increase : R) (batch_size : Z) (verbose : bool) : Py history :=
  s <- train_run self X y X_val y_val learning_rate learning_rate_decay reg mu
         num_epochs mu_increase batch_size verbose ;;
  ret (mkHistory (loss_history s) (train_acc_history s) (val_acc_history s)).

(** * Vocabulary of the statements *)

(** ** Outcomes of computations *)

Definition returns {A} (c : Py A) (w : world) (Q : A -> world -> Prop) : Prop :=
  exists a w', c w = (Ok a, w') /\ Q a w'.

(** ** What a computation leaves untouched, on every path

    [preserves n c P]: started in a heap of at least [n] cells, [c] leaves the
    first [n] cells as they were, whether it returns or raises; if it
    returns [a], then [P a]. *)
Definition preserves (n : nat) {A} (c : Py A) (P : A -> Prop) : Prop :=
  forall w, (n <= length (heap w))%nat ->
    (n <= length (heap (snd (c w))))%nat /\
    (forall l, (l < n)%nat -> lookup (snd (c w)) l = lookup w l) /\
    (forall a, fst (c w) = Ok a -> P a).

(** ** Arrays, labels and maxima *)

(** [is_array A n m f]: [A] has shape [(n, m)] and entry [(i, j)] is [f i j]. *)
Definition is_array (A : ndarray) (n m : nat) (f : nat -> nat -> R) : Prop :=
  nrows A = n /\ ncols A = m /\
  forall i j, (i < n)%nat -> (j < m)%nat -> get A i j = f i j.

(** The row maximum in terms of the entries. *)
Definition row_max (f : nat -> nat -> R) (m i : nat) : R :=
  np.max_list (f i 0%nat) (map (f i) (seq 1 (m - 1))).

(** Labels are valid for [C] classes when each lies in [[0, C)]. *)
Definition valid_labels (C : nat) (y : list Z) : Prop :=
  Forall (fun k => (0 <= k < Z.of_nat C)%Z) y.

(** The class of example [i]. *)
Definition label (y : list Z) (i : nat) : nat := Z.to_nat (nth i y 0%Z).

(** The cells addressed by [A[range(N), y]] for valid labels. *)
Definition label_cells (N : nat) (y : list Z) : list (nat * nat) :=
  map (fun i => (i, label y i)) (seq 0 N).

(** [r] is the position of the first maximum of [l]. *)
Definition first_max (l : list R) (r : nat) : Prop :=
  (r < length l)%nat /\
  (forall j, (j < length l)%nat -> nth j l 0 <= nth r l 0) /\
  (forall j, (j < r)%nat -> nth j l 0 < nth r l 0).

(** ** What the network computes, as formulas

    The values of the four parameters, and the functions of the entries that
    the specification speaks of. *)

Record weights : Type := mkWeights {
  wW1 : ndarray;
  wb1 : ndarray;
  wW2 : ndarray;
  wb2 : ndarray
}.

(** The parameters of a network hold the values [v] in the world [w]. *)
Definition net_holds (w : world) (p : param_dict) (v : weights) : Prop :=
  lookup w (W1 p) = Some (wW1 v) /\ lookup w (b1 p) = Some (wb1 v) /\
  lookup w (W2 p) = Some (wW2 v) /\ lookup w (b2 p) = Some (wb2 v).

(** The shapes fixed at construction: [W1] is [D x H], [b1] is [1 x H],
    [W2] is [H x C] and [b2] is [1 x C]. *)
Definition weights_shape (D H C : nat) (v : weights) : Prop :=
  shape (wW1 v) = (D, H) /\ shape (wb1 v) = (1%nat, H) /\
  shape (wW2 v) = (H, C) /\ shape (wb2 v) = (1%nat, C).

Section Formulas.

Variable v : weights.
Variable X : ndarray.

(** [X.W1 + b1] *)
Definition pre_activation (i k : nat) : R :=
  sum_upto (ncols X) (fun d => get X i d * get (wW1 v) d k) + get (wb1 v) 0 k.

(** [ReLU(X.W1 + b1)] *)
Definition hidden (i k : nat) : R := Rmax 0 (pre_activation i k).

(** [ReLU(X.W1 + b1).W2 + b2] *)
Definition score (i j : nat) : R :=
  sum_upto (nrows (wW2 v)) (fun k => hidden i k * get (wW2 v) k j)
  + get (wb2 v) 0 j.

End Formulas.

(** The softmax of the scores [s 0 .. s (C-1)], as defined: no shift. *)
Definition softmax (C : nat) (s : nat -> R) (j : nat) : R :=
  exp (s j) / sum_upto C (fun c => exp (s c)).

(** The softmax as the code computes it, after subtracting [t] from every
    score. *)
Definition shifted_softmax (C : nat) (t : R) (s : nat -> R) (j : nat) : R :=
  exp (s j - t) / sum_upto C (fun c => exp (s c - t)).

Definition sum_squares (A : ndarray) : R :=
  sum_upto (nrows A) (fun i => sum_upto (ncols A) (fun j => get A i j * get A i j)).

Section LossFormulas.

Variable v : weights.
Variable X : ndarray.
Variable y : list Z.
Variable reg : R.

Let N := nrows X.
Let C := ncols (wW2 v).

Definition prob (i j : nat) : R := softmax C (score v X i) j.

(** The cross-entropy of example [i]. *)
Definition cross_entropy (i : nat) : R := - ln (prob i (label y i)).

Definition data_loss_formula : R := (1 / INR N) * sum_upto N cross_entropy.

Definition reg_loss_formula : R :=
  0.5 * reg * sum_squares (wW1 v) + 0.5 * reg * sum_squares (wW2 v).

Definition loss_formula : R := data_loss_formula + reg_loss_formula.

Definition one_hot (i j : nat) : R := if (j =? label y i)%nat then 1 else 0.

(** (softmax probabilities - one-hot(y)) / N *)
Definition dscores_formula (i j : nat) : R := (prob i j - one_hot i j) / INR N.

(** h1^T . dscores + reg . W2 *)
Definition grad_W2_formula (k j : nat) : R :=
  sum_upto N (fun i => hidden v X i k * dscores_formula i j)
  + reg * get (wW2 v) k j.

(** column sums of dscores *)
Definition grad_b2_formula (_ j : nat) : R :=
  sum_upto N (fun i => dscores_formula i j).

(** dscores . W2^T *)
Definition dhidden_formula (i k : nat) : R :=
  sum_upto C (fun j => dscores_formula i j * get (wW2 v) k j).

(** ... zeroed where the hidden pre-activation is [<= 0] *)
Definition gated_formula (i k : nat) : R :=
  if Rle_dec (pre_activation v X i k) 0 then 0 else dhidden_formula i k.

(** X^T . gated + reg . W1 *)
Definition grad_W1_formula (d k : nat) : R :=
  sum_upto N (fun i => get X i d * gated_formula i k)
  + reg * get (wW1 v) d k.

(** column sums of the gated gradient *)
Definition grad_b1_formula (_ k : nat) : R :=
  sum_upto N (fun i => gated_formula i k).

End LossFormulas.

(** The loss as the code computes it: each row's softmax is taken after
    subtracting that row's maximum score. *)
Definition stable_loss_formula (v : weights) (X : ndarray) (y : list Z) (reg : R) : R :=
  (1 / INR (nrows X)) *
    sum_upto (nrows X) (fun i =>
      - ln (shifted_softmax (ncols (wW2 v))
              (row_max (score v X) (ncols (wW2 v)) i)
              (score v X i) (label y i)))
  + reg_loss_formula v reg.

(** The arrays that [loss] builds on its way from the scores to the
    probabilities, as they are found in the world [w'] after the call.
    They were allocated, in this order, after the heap had [n] cells: the
    scores; the maximum of each row of the scores; the scores minus the
    maximum of their row; the exponentials of these differences; the sum of
    each row of exponentials.  [l] is the mean over the batch of
    [-log(exp_scores[i, y_i] / sum_i)] plus the regularisation terms. *)
Definition softmax_trace (w' : world) (n N C : nat) (v : weights)
    (X : ndarray) (y : list Z) (reg : R) (l : R) : Prop :=
  exists scores scores_max shifted exp_scores denom S M SH E DN,
    ((n <= scores)%nat /\ (scores < scores_max)%nat /\
     (scores_max < shifted)%nat /\ (shifted < exp_scores)%nat /\
     (exp_scores < denom)%nat) /\
    (lookup w' scores = Some S /\ lookup w' scores_max = Some M /\
     lookup w' shifted = Some SH /\ lookup w' exp_scores = Some E /\
     lookup w' denom = Some DN) /\
    is_array S N C (score v X) /\
    is_array M N 1 (fun i _ => row_max (get S) C i) /\
    is_array SH N C (fun i j => get S i j - get M i 0) /\
    is_array E N C (fun i j => exp (get SH i j)) /\
    is_array DN N 1 (fun i _ => sum_upto C (fun c => get E i c)) /\
    l = (1 / INR N) *
          sum_upto N (fun i => - ln (get E i (label y i) / get DN i 0))
        + reg_loss_formula v reg.

(** ** Heaps that keep what an earlier heap held *)

Definition heap_kept (w w' : world) : Prop :=
  (length (heap w) <= length (heap w'))%nat /\
  forall l, (l < length (heap w))%nat -> lookup w' l = lookup w l.

(** [w'] keeps what [w] held, except possibly at the locations [ls]. *)
Definition kept_but (ls : list loc) (w w' : world) : Prop :=
  (length (heap w) <= length (heap w'))%nat /\
  forall l, (l < length (heap w))%nat -> ~ In l ls -> lookup w' l = lookup w l.

(** The gradient dictionary [g] holds, in [w], arrays of the parameters'
    shapes whose entries are given by the gradient formulas. *)
Definition grads_are (w : world) (g : param_dict) (D H C : nat)
    (v : weights) (X : ndarray) (y : list Z) (reg : R) : Prop :=
  exists G1 GB1 G2 GB2,
    (lookup w (W1 g) = Some G1 /\ is_array G1 D H (grad_W1_formula v X y reg)) /\
    (lookup w (b1 g) = Some GB1 /\ is_array GB1 1 H (grad_b1_formula v X y)) /\
    (lookup w (W2 g) = Some G2 /\ is_array G2 H C (grad_W2_formula v X y reg)) /\
    (lookup w (b2 g) = Some GB2 /\ is_array GB2 1 C (grad_b2_formula v X y)).

(** The four arrays of [g] were allocated after the heap had [n] cells, and
    are four different arrays. *)
Definition fresh_dict (n : nat) (g : param_dict) : Prop :=
  (n <= W1 g)%nat /\ (n <= b1 g)%nat /\ (n <= W2 g)%nat /\ (n <= b2 g)%nat /\
  NoDup [W1 g; b1 g; W2 g; b2 g].

(** ** Batches taken by index *)

(** [X[sigma, :]] and [y[sigma]] for in-range indices [sigma]. *)
Definition reordered_X (X : ndarray) (sigma : list nat) : ndarray :=
  tabulate (length sigma) (ncols X) (fun i j => get X (nth i sigma 0%nat) j).

Definition reordered_y (y : list Z) (sigma : list nat) : list Z :=
  map (fun k => nth k y 0%Z) sigma.

(** ** Predictions and accuracy *)

(** The class predicted for each row of [X] by the weights [v]. *)
Definition predictions (v : weights) (X : ndarray) : list Z :=
  map (fun i => Z.of_nat (np.argmax_list
                            (map (score v X i) (seq 0 (ncols (wW2 v))))))
      (seq 0 (nrows X)).

(** The fraction of positions at which [p] and [y] agree. *)
Definition accuracy (p y : list Z) : R :=
  sum_upto (length p)
    (fun i => if Z.eqb (nth i p 0%Z) (nth i y 0%Z) then 1 else 0)
  / INR (length p).

(** ** The state of a training run *)

Definition param_locs (p : param_dict) : list loc := [W1 p; b1 p; W2 p; b2 p].

(** The entry [(i, j)] of a velocity: a Python float stands for every
    entry. *)
Definition vel_entry (w : world) (v : velocity) (i j : nat) : R :=
  match v with
  | PyFloat r => r
  | Arr l => match lookup w l with Some V => get V i j | None => 0 end
  end.

(** A velocity is a float, or an array of shape [(n, m)] that is none of the
    arrays [ls]. *)
Definition vel_ok (w : world) (ls : list loc) (v : velocity) (n m : nat) : Prop :=
  match v with
  | PyFloat _ => True
  | Arr l => ~ In l ls /\ exists V, lookup w l = Some V /\ shape V = (n, m)
  end.

(** The velocity [v] is an array of shape [(n, m)] with entries [f]. *)
Definition vel_is (w : world) (v : velocity) (n m : nat) (f : nat -> nat -> R)
  : Prop :=
  exists l V, v = Arr l /\ lookup w l = Some V /\ is_array V n m f.

(** [mu * velocity - learning_rate * gradient], entry by entry. *)
Definition new_velocity (w : world) (old : velocity) (mu0 lr : R)
    (grad : nat -> nat -> R) (i j : nat) : R :=
  mu0 * vel_entry w old i j - lr * grad i j.

Section TrainingVocabulary.

Variables (self : TwoLayerNet) (X : loc) (XA : ndarray) (y : list Z).
Variables (X_val : loc) (XvA : ndarray) (y_val : list Z).
Variables (learning_rate_decay reg mu_increase : R).
Variables (batch_size : Z) (verbose : bool).
Variables (N D H C : nat).

(** The state of a training run between two iterations: the parameters hold
    [v], of the shapes fixed at construction; the data are where they were;
    each velocity is a float or an array of its parameter's shape. *)
Definition train_inv (w : world) (s : loop_state) (v : weights) : Prop :=
  net_holds w (params self) v /\ weights_shape D H C v /\
  lookup w X = Some XA /\ lookup w X_val = Some XvA /\
  vel_ok w (param_locs (params self)) (v_W2 s) H C /\
  vel_ok w (param_locs (params self)) (v_b2 s) 1 C /\
  vel_ok w (param_locs (params self)) (v_W1 s) D H /\
  vel_ok w (param_locs (params self)) (v_b1 s) 1 H.

(** The minibatch drawn in the world [w]. *)
Definition batch_index (w : world) : list nat :=
  draw_ints (random w) N (Z.to_nat batch_size).

Definition batch_X (w : world) : ndarray := reordered_X XA (batch_index w).

Definition batch_y (w : world) : list Z := reordered_y y (batch_index w).

(** What one iteration does to the loop state [s] and the world [w], the
    parameters holding [v] before. *)
Definition step_post (iterations_per_epoch it : Z)
    (w : world) (s : loop_state) (v : weights)
    (s' : loop_state) (w' : world) : Prop :=
  exists v',
    train_inv w' s' v' /\
    random w' = skip_ints (random w) (Z.to_nat batch_size) /\
    kept_but (param_locs (params self)) w w' /\
    loss_history s' =
      loss_history s ++ [loss_formula v (batch_X w) (batch_y w) reg] /\
    (vel_is w' (v_W2 s') H C
       (new_velocity w (v_W2 s) (mu s) (learning_rate s)
          (grad_W2_formula v (batch_X w) (batch_y w) reg)) /\
     is_array (wW2 v') H C (fun i j =>
       get (wW2 v) i j +
       new_velocity w (v_W2 s) (mu s) (learning_rate s)
         (grad_W2_formula v (batch_X w) (batch_y w) reg) i j)) /\
    (vel_is w' (v_b2 s') 1 C
       (new_velocity w (v_b2 s) (mu s) (learning_rate s)
          (grad_b2_formula v (batch_X w) (batch_y w))) /\
     is_array (wb2 v') 1 C (fun i j =>
       get (wb2 v) i j +
       new_velocity w (v_b2 s) (mu s) (learning_rate s)
         (grad_b2_formula v (batch_X w) (batch_y w)) i j)) /\
    (vel_is w' (v_W1 s') D H
       (new_velocity w (v_W1 s) (mu s) (learning_rate s)
          (grad_W1_formula v (batch_X w) (batch_y w) reg)) /\
     is_array (wW1 v') D H (fun i j =>
       get (wW1 v) i j +
       new_velocity w (v_W1 s) (mu s) (learning_rate s)
         (grad_W1_formula v (batch_X w) (batch_y w) reg) i j)) /\
    (vel_is w' (v_b1 s') 1 H
       (new_velocity w (v_b1 s) (mu s) (learning_rate s)
          (grad_b1_formula v (batch_X w) (batch_y w))) /\
     is_array (wb1 v') 1 H (fun i j =>
       get (wb1 v) i j +
       new_velocity w (v_b1 s) (mu s) (learning_rate s)
         (grad_b1_formula v (batch_X w) (batch_y w)) i j)) /\
    (if verbose && (it mod iterations_per_epoch =? 0)%Z then
       train_acc_history s' =
         train_acc_history s ++ [accuracy (predictions v' (batch_X w)) (batch_y w)] /\
       val_acc_history s' =
         val_acc_history s ++ [accuracy (predictions v' XvA) y_val] /\
       learning_rate s' = learning_rate s * learning_rate_decay /\
       mu s' = mu s * mu_increase
     else
       train_acc_history s' = train_acc_history s /\
       val_acc_history s' = val_acc_history s /\
       learning_rate s' = learning_rate s /\
       mu s' = mu s).

(** The iterations at which the end-of-epoch block runs. *)
Definition epoch_ends (iterations_per_epoch : Z) (its : list Z) : list Z :=
  filter (fun it => verbose && (it mod iterations_per_epoch =? 0)%Z) its.

(** What running the body for each of [its] does to the loop state and the
    world. *)
Definition run_post (iterations_per_epoch : Z) (its : list Z)
    (w : world) (s : loop_state) (s' : loop_state) (w' : world) : Prop :=
  exists v' ls ta va,
    train_inv w' s' v' /\
    loss_history s' = loss_history s ++ ls /\ length ls = length its /\
    train_acc_history s' = train_acc_history s ++ ta /\
    val_acc_history s' = val_acc_history s ++ va /\
    length ta = length (epoch_ends iterations_per_epoch its) /\
    length va = length (epoch_ends iterations_per_epoch its) /\
    learning_rate s' =
      learning_rate s *
      learning_rate_decay ^ length (epoch_ends iterations_per_epoch its) /\
    mu s' = mu s * mu_increase ^ length (epoch_ends iterations_per_epoch its) /\
    random w' = skip_ints (random w) (length its * Z.to_nat batch_size) /\
    kept_but (param_locs (params self)) w w'.

End TrainingVocabulary.

(** The number of iterations of the loop of [train]. *)
Definition iterations (num_train : nat) (num_epochs batch_size : Z) : nat :=
  Z.to_nat (num_epochs * Z.max (Z.of_nat num_train / batch_size) 1).

(** What the caller must provide for a training run: the data and the
    parameters are in the heap with consistent shapes, the batch is not
    empty, labels are valid, the batch size is positive, and the data are
    not the parameter arrays themselves. *)
Definition train_ready (self : TwoLayerNet) (X : loc) (XA : ndarray)
    (y : list Z) (X_val : loc) (XvA : ndarray) (y_val : list Z)
    (batch_size : Z) (N D H C Nv : nat) (v : weights) (w : world) : Prop :=
  lookup w X = Some XA /\ lookup w X_val = Some XvA /\
  net_holds w (params self) v /\ weights_shape D H C v /\
  shape XA = (N, D) /\ (1 <= N)%nat /\ length y = N /\ valid_labels C y /\
  (1 <= batch_size)%Z /\
  shape XvA = (Nv, D) /\ length y_val = Nv /\
  NoDup (param_locs (params self)) /\
  ~ In X (param_locs (params self)) /\ ~ In X_val (param_locs (params self)).

(** The entries of the four parameters after an update, [w0], [s0] and [v0]
    being the world, the loop state and the parameters before it. *)
Definition momentum_post (self : TwoLayerNet) (XA : ndarray) (y : list Z)
    (reg : R) (batch_size : Z) (N D H C : nat)
    (w0 : world) (s0 : loop_state) (v0 : weights)
    (s' : loop_state) (w' : world) : Prop :=
  let XB := batch_X XA batch_size N w0 in
  let yB := batch_y y batch_size N w0 in
  let vel old grad :=
    new_velocity w0 old (mu s0) (learning_rate s0) grad in
  exists v',
    net_holds w' (params self) v' /\
    vel_is w' (v_W2 s') H C (vel (v_W2 s0) (grad_W2_formula v0 XB yB reg)) /\
    is_array (wW2 v') H C (fun i j =>
      get (wW2 v0) i j + vel (v_W2 s0) (grad_W2_formula v0 XB yB reg) i j) /\
    vel_is w' (v_b2 s') 1 C (vel (v_b2 s0) (grad_b2_formula v0 XB yB)) /\
    is_array (wb2 v') 1 C (fun i j =>
      get (wb2 v0) i j + vel (v_b2 s0) (grad_b2_formula v0 XB yB) i j) /\
    vel_is w' (v_W1 s') D H (vel (v_W1 s0) (grad_W1_formula v0 XB yB reg)) /\
    is_array (wW1 v') D H (fun i j =>
      get (wW1 v0) i j + vel (v_W1 s0) (grad_W1_formula v0 XB yB reg) i j) /\
    vel_is w' (v_b1 s') 1 H (vel (v_b1 s0) (grad_b1_formula v0 XB yB)) /\
    is_array (wb1 v') 1 H (fun i j =>
      get (wb1 v0) i j + vel (v_b1 s0) (grad_b1_formula v0 XB yB) i j).

(** The entries of the four parameters after one plain gradient step of
    size [lr]. *)
Definition gradient_step_post (self : TwoLayerNet) (XA : ndarray) (y : list Z)
    (reg : R) (batch_size : Z) (N D H C : nat) (lr : R)
    (w0 : world) (v0 : weights) (w' : world) : Prop :=
  let XB := batch_X XA batch_size N w0 in
  let yB := batch_y y batch_size N w0 in
  exists v',
    net_holds w' (params self) v' /\
    is_array (wW2 v') H C (fun i j =>
      get (wW2 v0) i j - lr * grad_W2_formula v0 XB yB reg i j) /\
    is_array (wb2 v') 1 C (fun i j =>
      get (wb2 v0) i j - lr * grad_b2_formula v0 XB yB i j) /\
    is_array (wW1 v') D H (fun i j =>
      get (wW1 v0) i j - lr * grad_W1_formula v0 XB yB reg i j) /\
    is_array (wb1 v') 1 H (fun i j =>
      get (wb1 v0) i j - lr * grad_b1_formula v0 XB yB i j).

(** The parameters right after construction. *)
Definition init_post (D H C : nat) (std : R) (w : world)
    (net : TwoLayerNet) (w' : world) : Prop :=
  exists v,
    net_holds w' (params net) v /\ weights_shape D H C v /\
    (forall d k, (d < D)%nat -> (k < H)%nat ->
       get (wW1 v) d k =
         std * raw_gauss (random w) (used_gauss (random w) + d * H + k)) /\
    (forall k j, (k < H)%nat -> (j < C)%nat ->
       get (wW2 v) k j =
         std * raw_gauss (random w) (used_gauss (random w) + D * H + k * C + j)) /\
    (forall k, (k < H)%nat -> get (wb1 v) 0 k = 0) /\
    (forall j, (j < C)%nat -> get (wb2 v) 0 j = 0) /\
    NoDup (param_locs (params net)) /\
    heap_kept w w'.

(** ** Small worlds used to instantiate the statements *)

(** Two examples with two features, a network with two hidden units and two
    classes, and the same examples in the other order. *)
Definition example_X : ndarray := mkArr 2%nat 2%nat [[1; 2]; [3; -1]].

Definition example_weights : weights :=
  mkWeights (mkArr 2%nat 2%nat [[1; 0]; [0; 1]]) (mkArr 1%nat 2%nat [[0; 0]])
            (mkArr 2%nat 2%nat [[1; -1]; [2; 0]]) (mkArr 1%nat 2%nat [[0; 1]]).

Definition example_net : TwoLayerNet :=
  mkNet (mkParams 1%nat 2%nat 3%nat 4%nat).

Definition example_random : random_state :=
  mkRandom (fun k => k) (fun _ => 0) 0%nat 0%nat.

Definition example_X_swapped : ndarray := mkArr 2%nat 2%nat [[3; -1]; [1; 2]].

Definition example_world : world :=
  mkWorld [example_X; wW1 example_weights; wb1 example_weights;
           wW2 example_weights; wb2 example_weights; example_X;
           example_X_swapped]
          example_random.

Definition example_y : list Z := [1%Z; 0%Z].

(** A network with two classes whose parameters are all zero. *)
Definition uniform_weights : weights :=
  mkWeights (mkArr 1%nat 1%nat [[0]]) (mkArr 1%nat 1%nat [[0]])
            (mkArr 1%nat 2%nat [[0; 0]]) (mkArr 1%nat 2%nat [[0; 0]]).

Definition uniform_world : world :=
  mkWorld [mkArr 1%nat 1%nat [[5]]; wW1 uniform_weights; wb1 uniform_weights;
           wW2 uniform_weights; wb2 uniform_weights]
          example_random.

(** A network with a single class whose parameters are all zero. *)
Definition zero_cell : ndarray := mkArr 1%nat 1%nat [[0]].

Definition single_class_weights : weights :=
  mkWeights zero_cell zero_cell zero_cell zero_cell.

Definition single_class_world : world :=
  mkWorld [mkArr 1%nat 1%nat [[5]]; zero_cell; zero_cell; zero_cell; zero_cell]
          example_random.

(** ** Computations that raise, and labels that index the probabilities *)

(** [raises c w e Q]: started in [w], [c] stops with the exception [e], in a
    world that satisfies [Q]. *)
Definition raises {A} (c : Py A) (w : world) (e : exn) (Q : world -> Prop)
  : Prop :=
  exists w', c w = (Raise e, w') /\ Q w'.

(** Labels in [[-C, C)]: what [probs[range(N), y]] accepts as a column. *)
Definition indexable_labels (C : nat) (y : list Z) : Prop :=
  Forall (fun k => (- Z.of_nat C <= k < Z.of_nat C)%Z) y.

(** The class a label in [[-C, C)] stands for: negative labels count from
    the last class. *)
Definition wrap_labels (C : nat) (y : list Z) : list Z :=
  map (fun k => (k mod Z.of_nat C)%Z) y.

(** A network without classes: [W2] and [b2] have no columns. *)
Definition no_class_weights : weights :=
  mkWeights zero_cell zero_cell (mkArr 1%nat 0%nat [[]]) (mkArr 1%nat 0%nat [[]]).

Definition no_class_world : world :=
  mkWorld [mkArr 1%nat 1%nat [[5]]; wW1 no_class_weights; wb1 no_class_weights;
           wW2 no_class_weights; wb2 no_class_weights]
          example_random.

(** ** Entries of arrays and velocities, for the invariants of training *)

(** Every entry of the [(n, m)] array [A] is zero. *)
Definition zero_entries (A : ndarray) (n m : nat) : Prop :=
  forall i j, (i < n)%nat -> (j < m)%nat -> get A i j = 0.

(** [A] and [B] have the same entries as [(n, m)] arrays. *)
Definition same_entries (A B : ndarray) (n m : nat) : Prop :=
  forall i j, (i < n)%nat -> (j < m)%nat -> get A i j = get B i j.

(** Every entry of the velocity [v], of shape [(n, m)], is zero; the float
    [0.0] that a run starts with is such a velocity. *)
Definition vel_zero (w : world) (v : velocity) (n m : nat) : Prop :=
  forall i j, (i < n)%nat -> (j < m)%nat -> vel_entry w v i j = 0.

(** ** One parameter entry as a variable *)

(** The array [A] with its entry [(a, b)] set to [t]. *)
Definition with_entry (A : ndarray) (a b : nat) (t : R) : ndarray :=
  tabulate (nrows A) (ncols A)
    (fun i j => if (i =? a)%nat && (j =? b)%nat then t else get A i j).

(** The weights [v] with one entry of one parameter set to [t]. *)
Definition set_W1 (v : weights) (d k : nat) (t : R) : weights :=
  mkWeights (with_entry (wW1 v) d k t) (wb1 v) (wW2 v) (wb2 v).

Definition set_b1 (v : weights) (k : nat) (t : R) : weights :=
  mkWeights (wW1 v) (with_entry (wb1 v) 0 k t) (wW2 v) (wb2 v).

Definition set_W2 (v : weights) (k c : nat) (t : R) : weights :=
  mkWeights (wW1 v) (wb1 v) (with_entry (wW2 v) k c t) (wb2 v).

Definition set_b2 (v : weights) (c : nat) (t : R) : weights :=
  mkWeights (wW1 v) (wb1 v) (wW2 v) (with_entry (wb2 v) 0 c t).

(** The rectifier passes the gradient of unit [k] on example [i] where the
    pre-activation is positive. *)
Definition gate (v : weights) (X : ndarray) (i k : nat) : R :=
  if Rle_dec (pre_activation v X i k) 0 then 0 else 1.

(** ** Two training runs side by side *)

(** Two sets of parameter values with the same entries. *)
Definition same_weights (D H C : nat) (va vb : weights) : Prop :=
  same_entries (wW1 va) (wW1 vb) D H /\ same_entries (wb1 va) (wb1 vb) 1 H /\
  same_entries (wW2 va) (wW2 vb) H C /\ same_entries (wb2 va) (wb2 vb) 1 C.

(** Two velocities of shape [(n, m)], each in its world, with the same
    entries. *)
Definition same_velocity (wa : world) (va : velocity) (wb : world)
    (vb : velocity) (n m : nat) : Prop :=
  forall i j, (i < n)%nat -> (j < m)%nat ->
    vel_entry wa va i j = vel_entry wb vb i j.

(** The states of two runs of the training loop on the same training data
    (each run with its own validation data), after the same number of
    iterations: the same random state, parameters and velocities with the
    same entries, the same learning rate and momentum, the same losses so
    far. *)
Definition lockstep (self : TwoLayerNet) (X : loc) (XA : ndarray)
    (Xv_a : loc) (XvA_a : ndarray) (Xv_b : loc) (XvA_b : ndarray)
    (D H C : nat)
    (sa : loop_state) (wa : world) (sb : loop_state) (wb : world) : Prop :=
  exists va vb,
    train_inv self X XA Xv_a XvA_a D H C wa sa va /\
    train_inv self X XA Xv_b XvA_b D H C wb sb vb /\
    random wa = random wb /\ same_weights D H C va vb /\
    same_velocity wa (v_W2 sa) wb (v_W2 sb) H C /\
    same_velocity wa (v_b2 sa) wb (v_b2 sb) 1 C /\
    same_velocity wa (v_W1 sa) wb (v_W1 sb) D H /\
    same_velocity wa (v_b1 sa) wb (v_b1 sb) 1 H /\
    learning_rate sa = learning_rate sb /\ mu sa = mu sb /\
    loss_history sa = loss_history sb.

(** The factor applied at the end of iteration [it]: the end-of-epoch
    factor when the block runs, 1 otherwise. *)
Definition epoch_factor (verbose : bool) (iterations_per_epoch it : Z)
    (factor : R) : R :=
  if verbose && (it mod iterations_per_epoch =? 0)%Z then factor else 1.

(** ** A training run as a recurrence

    What the specification says of a run of [train], written as a recursion
    on the number of iterations done: velocities start at zero; an iteration
    takes the next [batch_size] draws as its sample, sets each velocity to
    [mu * velocity - learning_rate * gradient] and adds it to its parameter;
    at the end of an epoch, when [verbose] is set, the learning rate and the
    momentum coefficient are multiplied by their factors. *)

(** The parameters, the entries of the four velocities, the learning rate
    and the momentum coefficient between two iterations. *)
Record sgd_state : Type := mkSgd {
  sgd_weights : weights;
  sgd_vel_W2 : nat -> nat -> R;
  sgd_vel_b2 : nat -> nat -> R;
  sgd_vel_W1 : nat -> nat -> R;
  sgd_vel_b1 : nat -> nat -> R;
  sgd_lr : R;
  sgd_mu : R
}.

(** Before the first iteration every velocity is zero. *)
Definition sgd_start (v : weights) (lr mu0 : R) : sgd_state :=
  mkSgd v (fun _ _ => 0) (fun _ _ => 0) (fun _ _ => 0) (fun _ _ => 0) lr mu0.

(** [velocity = mu * velocity - learning_rate * gradient] *)
Definition momentum_rule (mu0 lr : R) (vel grad : nat -> nat -> R)
    (i j : nat) : R :=
  mu0 * vel i j - lr * grad i j.

(** [parameter += velocity] *)
Definition moved (A : ndarray) (vel : nat -> nat -> R) : ndarray :=
  tabulate (nrows A) (ncols A) (fun i j => get A i j + vel i j).

(** One iteration, numbered [it], on the minibatch of the rows [sample]. *)
Definition sgd_step (XA : ndarray) (y : list Z) (reg decay mu_increase : R)
    (verbose : bool) (iterations_per_epoch it : Z) (sample : list nat)
    (m : sgd_state) : sgd_state :=
  let XB := reordered_X XA sample in
  let yB := reordered_y y sample in
  let v := sgd_weights m in
  let vW2 := momentum_rule (sgd_mu m) (sgd_lr m) (sgd_vel_W2 m)
               (grad_W2_formula v XB yB reg) in
  let vb2 := momentum_rule (sgd_mu m) (sgd_lr m) (sgd_vel_b2 m)
               (grad_b2_formula v XB yB) in
  let vW1 := momentum_rule (sgd_mu m) (sgd_lr m) (sgd_vel_W1 m)
               (grad_W1_formula v XB yB reg) in
  let vb1 := momentum_rule (sgd_mu m) (sgd_lr m) (sgd_vel_b1 m)
               (grad_b1_formula v XB yB) in
  mkSgd (mkWeights (moved (wW1 v) vW1) (moved (wb1 v) vb1)
                   (moved (wW2 v) vW2) (moved (wb2 v) vb2))
        vW2 vb2 vW1 vb1
        (sgd_lr m * epoch_factor verbose iterations_per_epoch it decay)
        (sgd_mu m * epoch_factor verbose iterations_per_epoch it mu_increase).

(** The sample of iteration [k + 1] of a run that starts with the random
    state [r]: the indices given by the [k]-th block of [batch_size]
    draws. *)
Definition run_sample (r : random_state) (N : nat) (batch_size : Z) (k : nat)
  : list nat :=
  draw_ints (skip_ints r (k * Z.to_nat batch_size)) N (Z.to_nat batch_size).

Section Recurrence.

Variables (XA : ndarray) (y : list Z) (reg decay mu_increase : R).
Variables (batch_size : Z) (verbose : bool) (N : nat).
Variables (v : weights) (lr mu0 : R) (r : random_state).

(** The state after [k] iterations. *)
Fixpoint sgd_after (k : nat) : sgd_state :=
  match k with
  | O => sgd_start v lr mu0
  | S k' =>
      sgd_step XA y reg decay mu_increase verbose
        (Z.max (Z.of_nat N / batch_size) 1) (1 + Z.of_nat k')
        (run_sample r N batch_size k') (sgd_after k')
  end.

(** The loss of iteration [k + 1]: that of the parameters after [k]
    iterations on the minibatch of the [k]-th sample. *)
Definition run_loss (k : nat) : R :=
  loss_formula (sgd_weights (sgd_after k))
    (reordered_X XA (run_sample r N batch_size k))
    (reordered_y y (run_sample r N batch_size k)) reg.

End Recurrence.

(** The loop state [s] and the parameters [v] in the world [w] are the
    state [m] of the recurrence: the same entries in the parameters and in
    the velocities, the same learning rate and momentum coefficient. *)
Definition follows (D H C : nat) (w : world) (s : loop_state) (v : weights)
    (m : sgd_state) : Prop :=
  weights_shape D H C (sgd_weights m) /\
  same_weights D H C v (sgd_weights m) /\
  (forall i j, (i < H)%nat -> (j < C)%nat ->
     vel_entry w (v_W2 s) i j = sgd_vel_W2 m i j) /\
  (forall i j, (i < 1)%nat -> (j < C)%nat ->
     vel_entry w (v_b2 s) i j = sgd_vel_b2 m i j) /\
  (forall i j, (i < D)%nat -> (j < H)%nat ->
     vel_entry w (v_W1 s) i j = sgd_vel_W1 m i j) /\
  (forall i j, (i < 1)%nat -> (j < H)%nat ->
     vel_entry w (v_b1 s) i j = sgd_vel_b1 m i j) /\
  learning_rate s = sgd_lr m /\ mu s = sgd_mu m.

(** ** Samples and the raw draws they come from

    [np.random.choice] turns the raw draws of numpy's generator into
    indices.  To say how the indices are distributed, the next raw draws of
    a random state are made explicit and the sequences of raw draws below a
    bound are counted: under a generator whose raw draws are uniform, each
    of these sequences is as likely as any other. *)

(** The random state [r] with its next integer draws set to [t]. *)
Definition with_draws (r : random_state) (t : list nat) : random_state :=
  mkRandom
    (fun k => if k <? used_int r then raw_int r k
              else nth (k - used_int r) t (raw_int r k))
    (raw_gauss r) (used_int r) (used_gauss r).

(** All sequences of [n] raw draws below [B]. *)
Fixpoint raw_tuples (B n : nat) : list (list nat) :=
  match n with
  | O => [[]]
  | S n' => flat_map (fun x => map (cons x) (raw_tuples B n')) (seq 0 B)
  end.

Definition same_sample (a b : list nat) : bool :=
  if list_eq_dec Nat.eq_dec a b then true else false.

(** Among the sequences of [n] raw draws below [B], those for which the
    [n] indices below [a] drawn next are [idx]. *)
Definition supplies_giving (r : random_state) (a n B : nat) (idx : list nat)
  : list (list nat) :=
  filter (fun t => same_sample (draw_ints (with_draws r t) a n) idx)
         (raw_tuples B n).

(** * The model on small inputs *)

Example xrange_1_4 : xrange 1 4 = [1; 2; 3]%Z.
Proof. reflexivity. Qed.

Example xrange_empty : xrange 1 1 = [].
Proof. reflexivity. Qed.

Example iterations_small_batch : iterations 5 10 2 = 20%nat.
Proof. reflexivity. Qed.

Example iterations_large_batch : iterations 5 10 200 = 10%nat.
Proof. reflexivity. Qed.

Example broadcast_row : np.bdim 3 1 = Some 3%nat /\ np.bdim 2 3 = None.
Proof. split; reflexivity. Qed.

Example negative_index :
  np.norm_index 3 (-1) = Ok 2%nat /\ np.norm_index 3 3 = Raise IndexError.
Proof. split; reflexivity. Qed.

Example dot_shape_mismatch :
  np.dot (np.zeros 2 3) (np.zeros 2 3) = Raise ValueError.
Proof. reflexivity. Qed.

Example zeros_shape : shape (np.zeros 1 3) = (1%nat, 3%nat).
Proof. reflexivity. Qed.

Example argmax_tie : np.argmax_list [1; 3; 3; 2] = 1%nat.
Proof.
  unfold np.argmax_list, np.argmax_scan.
  destruct (Rlt_dec 1 3); [|lra].
  destruct (Rlt_dec 3 3); [lra|].
  destruct (Rlt_dec 3 2); [lra|]. reflexivity.
Qed.

Example max_of_row : np.max_list 1 [3; 2] = 3.
Proof.
  unfold np.max_list; simpl. unfold Rmax.
  destruct (Rle_dec 1 3); [|lra]. destruct (Rle_dec 3 2); lra.
Qed.

Example draw_with_repetition :
  draw_ints (mkRandom (fun _ => 7%nat) (fun _ => 0) 0 0) 5 3 = [2; 2; 2]%nat.
Proof. reflexivity. Qed.

Example division_by_zero w : int_div 5 0 w = (Raise ZeroDivisionError, w).
Proof. reflexivity. Qed.

Example choice_from_nothing w :
  npy.random_choice 0 3 w = (Raise ValueError, w).
Proof. reflexivity. Qed.

(** * Reasoning principles *)

(** ** Tabulated arrays *)

Lemma nth_map_seq (A : Type) (f : nat -> A) (d : A) (n i : nat) :
  (i < n)%nat -> nth i (map f (seq 0 n)) d = f i.
Proof.
  intros Hi.
  rewrite (nth_indep _ d (f 0%nat)) by (rewrite length_map, length_seq; exact Hi).
  rewrite (map_nth f (seq 0 n) 0%nat i), seq_nth by exact Hi.
  reflexivity.
Qed.

Lemma get_tabulate n m f i j :
  (i < n)%nat -> (j < m)%nat -> get (tabulate n m f) i j = f i j.
Proof.
  intros Hi Hj. unfold get, tabulate; simpl.
  rewrite (nth_map_seq (fun i => map (fun j => f i j) (seq 0 m)) [] Hi).
  apply nth_map_seq; exact Hj.
Qed.

Lemma tabulate_ext n m f g :
  (forall i j, (i < n)%nat -> (j < m)%nat -> f i j = g i j) ->
  tabulate n m f = tabulate n m g.
Proof.
  intros H. unfold tabulate. f_equal.
  apply map_ext_in; intros i Hi. apply in_seq in Hi.
  apply map_ext_in; intros j Hj. apply in_seq in Hj.
  apply H; lia.
Qed.

Lemma sum_upto_ext n f g :
  (forall i, (i < n)%nat -> f i = g i) -> sum_upto n f = sum_upto n g.
Proof.
  intros H. unfold sum_upto. f_equal.
  apply map_ext_in; intros i Hi. apply in_seq in Hi. apply H; lia.
Qed.

Lemma sumR_app l1 l2 : sumR (l1 ++ l2) = sumR l1 + sumR l2.
Proof. induction l1 as [|x l1 IH]; simpl; [lra | rewrite IH; lra]. Qed.

Lemma sum_upto_S n f : sum_upto (S n) f = sum_upto n f + f n.
Proof.
  unfold sum_upto. rewrite seq_S, map_app, sumR_app. simpl. lra.
Qed.

Lemma sum_upto_0 f : sum_upto 0 f = 0.
Proof. reflexivity. Qed.

Lemma sumR_permutation l1 l2 : Permutation l1 l2 -> sumR l1 = sumR l2.
Proof.
  induction 1; simpl; lra.
Qed.

Lemma sumR_nonneg l : Forall (fun x => 0 <= x) l -> 0 <= sumR l.
Proof. induction 1; simpl; lra. Qed.

Lemma sum_upto_nonneg n f :
  (forall i, (i < n)%nat -> 0 <= f i) -> 0 <= sum_upto n f.
Proof.
  intros H. apply sumR_nonneg, Forall_forall. intros x Hx.
  apply in_map_iff in Hx. destruct Hx as [i [<- Hi]]. apply in_seq in Hi.
  apply H; lia.
Qed.

Lemma sum_upto_pos n f k :
  (k < n)%nat -> (forall i, (i < n)%nat -> 0 <= f i) -> 0 < f k ->
  0 < sum_upto n f.
Proof.
  induction n as [|n IH]; intros Hk Hall Hpos; [lia|].
  rewrite sum_upto_S.
  destruct (Nat.eq_dec k n) as [->|Hne].
  - assert (0 <= sum_upto n f) by (apply sum_upto_nonneg; intros; apply Hall; lia).
    lra.
  - assert (0 < sum_upto n f) by (apply IH; [lia | intros; apply Hall; lia | exact Hpos]).
    assert (0 <= f n) by (apply Hall; lia). lra.
Qed.

Lemma sum_upto_scale n f c :
  sum_upto n (fun i => c * f i) = c * sum_upto n f.
Proof.
  induction n as [|n IH]; [unfold sum_upto; simpl; lra|].
  rewrite !sum_upto_S, IH. lra.
Qed.

(** ** The heap *)

Lemma heap_allocated w A : heap (allocated w A) = heap w ++ [A].
Proof. reflexivity. Qed.

Lemma length_allocated w A :
  length (heap (allocated w A)) = S (length (heap w)).
Proof. rewrite heap_allocated, length_app. simpl. lia. Qed.

Lemma lookup_allocated_new w A l :
  l = length (heap w) -> lookup (allocated w A) l = Some A.
Proof.
  intros ->. unfold lookup. rewrite heap_allocated.
  rewrite nth_error_app2 by lia. rewrite Nat.sub_diag. reflexivity.
Qed.

Lemma lookup_allocated_old w A l :
  (l < length (heap w))%nat -> lookup (allocated w A) l = lookup w l.
Proof.
  intros H. unfold lookup. rewrite heap_allocated.
  apply nth_error_app1; exact H.
Qed.

Lemma length_replace_nth h l A : length (replace_nth h l A) = length h.
Proof.
  revert l; induction h as [|x h IH]; intros [|l]; simpl; auto.
Qed.

Lemma nth_error_replace_same h l A :
  (l < length h)%nat -> nth_error (replace_nth h l A) l = Some A.
Proof.
  revert l; induction h as [|x h IH]; intros [|l]; simpl; intros H;
    try lia; auto. apply IH; lia.
Qed.

Lemma nth_error_replace_other h l l' A :
  l <> l' -> nth_error (replace_nth h l A) l' = nth_error h l'.
Proof.
  revert l l'; induction h as [|x h IH]; intros [|l] [|l'] H; simpl; auto;
    try congruence.
Qed.

Lemma length_stored w l A : length (heap (stored w l A)) = length (heap w).
Proof. apply length_replace_nth. Qed.

Lemma lookup_stored_same w l A :
  (l < length (heap w))%nat -> lookup (stored w l A) l = Some A.
Proof. apply nth_error_replace_same. Qed.

Lemma lookup_stored_other w l l' A :
  l <> l' -> lookup (stored w l A) l' = lookup w l'.
Proof. apply nth_error_replace_other. Qed.

Lemma lookup_lt w l A : lookup w l = Some A -> (l < length (heap w))%nat.
Proof.
  unfold lookup. intros H. apply nth_error_Some. congruence.
Qed.

Lemma random_allocated w A : random (allocated w A) = random w.
Proof. reflexivity. Qed.

Lemma random_stored w l A : random (stored w l A) = random w.
Proof. reflexivity. Qed.

(** ** Total correctness: the computation returns, and the result and the
    final world satisfy the postcondition *)

Lemma returns_ret A (a : A) w (Q : A -> world -> Prop) :
  Q a w -> returns (ret a) w Q.
Proof. intros H. exists a, w. split; [reflexivity | exact H]. Qed.

Lemma returns_bind A B (c : Py A) (k : A -> Py B) w (Q : B -> world -> Prop) :
  returns c w (fun a w' => returns (k a) w' Q) -> returns (bind c k) w Q.
Proof.
  intros (a & w' & Hc & b & w'' & Hk & HQ).
  exists b, w''. split; [|exact HQ].
  unfold bind. rewrite Hc. exact Hk.
Qed.

Lemma returns_mono A (c : Py A) w (P Q : A -> world -> Prop) :
  returns c w P -> (forall a w', P a w' -> Q a w') -> returns c w Q.
Proof.
  intros (a & w' & Hc & HP) H. exists a, w'. split; [exact Hc | apply H, HP].
Qed.

Lemma returns_lift A (o : outcome A) a w (Q : A -> world -> Prop) :
  o = Ok a -> Q a w -> returns (lift o) w Q.
Proof. intros -> H. exists a, w. split; [reflexivity | exact H]. Qed.

Lemma returns_alloc R w (Q : loc -> world -> Prop) :
  Q (length (heap w)) (allocated w R) -> returns (alloc R) w Q.
Proof. intros H. eexists _, _. split; [reflexivity | exact H]. Qed.

Lemma returns_load l A w (Q : ndarray -> world -> Prop) :
  lookup w l = Some A -> Q A w -> returns (load l) w Q.
Proof.
  intros Hl H. exists A, w. split; [|exact H]. unfold load. rewrite Hl. reflexivity.
Qed.

Lemma returns_store l A0 A w (Q : unit -> world -> Prop) :
  lookup w l = Some A0 -> Q tt (stored w l A) -> returns (store l A) w Q.
Proof.
  intros Hl H. exists tt, (stored w l A). split; [|exact H].
  unfold store. rewrite Hl. reflexivity.
Qed.

Lemma returns_fresh1 f a A R w (Q : loc -> world -> Prop) :
  lookup w a = Some A -> f A = Ok R ->
  Q (length (heap w)) (allocated w R) -> returns (fresh1 f a) w Q.
Proof.
  intros Ha Hf H. unfold fresh1.
  apply returns_bind; eapply returns_load; [exact Ha|].
  apply returns_bind; eapply returns_lift; [exact Hf|].
  apply returns_alloc, H.
Qed.

Lemma returns_fresh2 f a b A B R w (Q : loc -> world -> Prop) :
  lookup w a = Some A -> lookup w b = Some B -> f A B = Ok R ->
  Q (length (heap w)) (allocated w R) -> returns (fresh2 f a b) w Q.
Proof.
  intros Ha Hb Hf H. unfold fresh2.
  apply returns_bind; eapply returns_load; [exact Ha|].
  apply returns_bind; eapply returns_load; [exact Hb|].
  apply returns_bind; eapply returns_lift; [exact Hf|].
  apply returns_alloc, H.
Qed.

Lemma returns_inplace1 f a A R w (Q : unit -> world -> Prop) :
  lookup w a = Some A -> f A = Ok R ->
  Q tt (stored w a R) -> returns (inplace1 f a) w Q.
Proof.
  intros Ha Hf H. unfold inplace1.
  apply returns_bind; eapply returns_load; [exact Ha|].
  apply returns_bind; eapply returns_lift; [exact Hf|].
  eapply returns_store; [exact Ha | exact H].
Qed.

Lemma returns_inplace2 f a b A B R w (Q : unit -> world -> Prop) :
  lookup w a = Some A -> lookup w b = Some B -> f A B = Ok R ->
  Q tt (stored w a R) -> returns (inplace2 f a b) w Q.
Proof.
  intros Ha Hb Hf H. unfold inplace2.
  apply returns_bind; eapply returns_load; [exact Ha|].
  apply returns_bind; eapply returns_load; [exact Hb|].
  apply returns_bind; eapply returns_lift; [exact Hf|].
  eapply returns_store; [exact Ha | exact H].
Qed.

(** ** Arrays described by their shape and entries *)

Lemma is_array_self A : is_array A (nrows A) (ncols A) (get A).
Proof. repeat split. Qed.

Lemma is_array_get A n m : nrows A = n -> ncols A = m -> is_array A n m (get A).
Proof. intros <- <-. apply is_array_self. Qed.

Lemma is_array_tabulate n m f : is_array (tabulate n m f) n m f.
Proof. repeat split. intros. apply get_tabulate; assumption. Qed.

Lemma is_array_ext A n m f g :
  is_array A n m f ->
  (forall i j, (i < n)%nat -> (j < m)%nat -> f i j = g i j) ->
  is_array A n m g.
Proof.
  intros (Hn & Hm & Hf) H. repeat split; try assumption.
  intros i j Hi Hj. rewrite Hf by assumption. apply H; assumption.
Qed.

Lemma is_array_tabulate_ext n m f g :
  (forall i j, (i < n)%nat -> (j < m)%nat -> f i j = g i j) ->
  is_array (tabulate n m f) n m g.
Proof. intros H. eapply is_array_ext; [apply is_array_tabulate | exact H]. Qed.

Lemma is_array_nrows A n m f : is_array A n m f -> nrows A = n.
Proof. intros H; apply H. Qed.

Lemma is_array_ncols A n m f : is_array A n m f -> ncols A = m.
Proof. intros H; apply H. Qed.

Lemma is_array_at A n m f i j :
  is_array A n m f -> (i < n)%nat -> (j < m)%nat -> get A i j = f i j.
Proof. intros H; apply H. Qed.

Module np_facts.

Lemma bdim_same n : np.bdim n n = Some n.
Proof. unfold np.bdim. rewrite Nat.eqb_refl. reflexivity. Qed.

Lemma bdim_one_r n : np.bdim n 1 = Some n.
Proof.
  unfold np.bdim. destruct (n =? 1) eqn:E; [|reflexivity].
  apply Nat.eqb_eq in E. subst. reflexivity.
Qed.

Lemma bidx_lt d i : (i < d)%nat -> np.bidx d i = i.
Proof.
  unfold np.bidx. destruct (d =? 1) eqn:E; [|reflexivity].
  apply Nat.eqb_eq in E. lia.
Qed.

Lemma bidx_one i : np.bidx 1 i = 0%nat.
Proof. reflexivity. Qed.

Lemma map1_spec g A n m f :
  is_array A n m f -> is_array (np.map1 g A) n m (fun i j => g (f i j)).
Proof.
  intros (Hn & Hm & Hf). unfold np.map1. rewrite Hn, Hm.
  apply is_array_tabulate_ext. intros. rewrite Hf by assumption. reflexivity.
Qed.

Lemma same_shape_spec op A B n m f g :
  is_array A n m f -> is_array B n m g ->
  exists R, np.broadcast2 op A B = Ok R /\
            is_array R n m (fun i j => op (f i j) (g i j)).
Proof.
  intros (Hn & Hm & Hf) (Hn' & Hm' & Hg). unfold np.broadcast2.
  rewrite Hn, Hm, Hn', Hm', !bdim_same.
  eexists; split; [reflexivity|].
  apply is_array_tabulate_ext. intros i j Hi Hj.
  rewrite !bidx_lt by assumption. rewrite Hf, Hg by assumption. reflexivity.
Qed.

Lemma row_broadcast_spec op A B n m f g :
  is_array A n m f -> is_array B 1 m g ->
  exists R, np.broadcast2 op A B = Ok R /\
            is_array R n m (fun i j => op (f i j) (g 0%nat j)).
Proof.
  intros (Hn & Hm & Hf) (Hn' & Hm' & Hg). unfold np.broadcast2.
  rewrite Hn, Hm, Hn', Hm', bdim_same, bdim_one_r.
  eexists; split; [reflexivity|].
  apply is_array_tabulate_ext. intros i j Hi Hj.
  rewrite bidx_one, !bidx_lt by assumption.
  rewrite Hf, Hg by (assumption || lia). reflexivity.
Qed.

Lemma col_broadcast_spec op A B n m f g :
  is_array A n m f -> is_array B n 1 g ->
  exists R, np.broadcast2 op A B = Ok R /\
            is_array R n m (fun i j => op (f i j) (g i 0%nat)).
Proof.
  intros (Hn & Hm & Hf) (Hn' & Hm' & Hg). unfold np.broadcast2.
  rewrite Hn, Hm, Hn', Hm', bdim_same, bdim_one_r.
  eexists; split; [reflexivity|].
  apply is_array_tabulate_ext. intros i j Hi Hj.
  rewrite bidx_one, !bidx_lt by assumption.
  rewrite Hf, Hg by (assumption || lia). reflexivity.
Qed.

Lemma dot_spec A B n k m f g :
  is_array A n k f -> is_array B k m g ->
  exists R, np.dot A B = Ok R /\
            is_array R n m (fun i j => sum_upto k (fun x => f i x * g x j)).
Proof.
  intros (Hn & Hm & Hf) (Hn' & Hm' & Hg). unfold np.dot.
  rewrite Hn, Hm, Hn', Hm', Nat.eqb_refl.
  eexists; split; [reflexivity|].
  apply is_array_tabulate_ext. intros i j Hi Hj.
  apply sum_upto_ext. intros x Hx.
  rewrite Hf, Hg by assumption. reflexivity.
Qed.

Lemma transpose_spec A n m f :
  is_array A n m f -> is_array (np.transpose A) m n (fun i j => f j i).
Proof.
  intros (Hn & Hm & Hf). unfold np.transpose. rewrite Hn, Hm.
  apply is_array_tabulate_ext. intros. apply Hf; assumption.
Qed.

Lemma dot_T_l_spec A B n k m f g :
  is_array A k n f -> is_array B k m g ->
  exists R, np.dot (np.transpose A) B = Ok R /\
            is_array R n m (fun i j => sum_upto k (fun x => f x i * g x j)).
Proof.
  intros HA HB.
  exact (dot_spec (transpose_spec HA) HB).
Qed.

Lemma dot_T_r_spec A B n k m f g :
  is_array A n k f -> is_array B m k g ->
  exists R, np.dot A (np.transpose B) = Ok R /\
            is_array R n m (fun i j => sum_upto k (fun x => f i x * g j x)).
Proof.
  intros HA HB.
  exact (dot_spec HA (transpose_spec HB)).
Qed.

Lemma sum_spec A n m f :
  is_array A n m f ->
  np.sum A = sum_upto n (fun i => sum_upto m (fun j => f i j)).
Proof.
  intros (Hn & Hm & Hf). unfold np.sum. rewrite Hn, Hm.
  apply sum_upto_ext; intros i Hi. apply sum_upto_ext; intros j Hj.
  apply Hf; assumption.
Qed.

Lemma sum_axis1_spec A n m f :
  is_array A n m f ->
  is_array (np.sum_axis1 A) n 1 (fun i _ => sum_upto m (fun j => f i j)).
Proof.
  intros (Hn & Hm & Hf). unfold np.sum_axis1. rewrite Hn, Hm.
  apply is_array_tabulate_ext. intros i j Hi Hj.
  apply sum_upto_ext; intros x Hx. apply Hf; assumption.
Qed.

Lemma sum_axis0_spec A n m f :
  is_array A n m f ->
  is_array (np.sum_axis0 A) 1 m (fun _ j => sum_upto n (fun i => f i j)).
Proof.
  intros (Hn & Hm & Hf). unfold np.sum_axis0. rewrite Hn, Hm.
  apply is_array_tabulate_ext. intros i j Hi Hj.
  apply sum_upto_ext; intros x Hx. apply Hf; assumption.
Qed.

Lemma tl_row A i :
  tl (np.row A i) = map (fun j => get A i j) (seq 1 (ncols A - 1)).
Proof.
  unfold np.row. destruct (ncols A) as [|m]; [reflexivity|].
  simpl. rewrite Nat.sub_0_r. reflexivity.
Qed.

Lemma max_axis1_spec A n m f :
  is_array A n m f -> (0 < m)%nat ->
  exists R, np.max_axis1 A = Ok R /\
            is_array R n 1 (fun i _ => row_max f m i).
Proof.
  intros (Hn & Hm & Hf) Hpos. unfold np.max_axis1.
  destruct (ncols A =? 0) eqn:E; [apply Nat.eqb_eq in E; lia|].
  eexists; split; [reflexivity|]. rewrite Hn.
  apply is_array_tabulate_ext. intros i j Hi Hj.
  unfold row_max. rewrite tl_row, Hm, Hf by assumption.
  f_equal. apply map_ext_in. intros x Hx. apply in_seq in Hx.
  apply Hf; lia.
Qed.

Lemma mask_spec A B n m f g :
  is_array A n m f -> is_array B n m g ->
  exists R, np.mask_le0_zero A B = Ok R /\
            is_array R n m (fun i j => if Rle_dec (g i j) 0 then 0 else f i j).
Proof.
  intros (Hn & Hm & Hf) (Hn' & Hm' & Hg). unfold np.mask_le0_zero.
  rewrite Hn, Hm, Hn', Hm', !Nat.eqb_refl. simpl.
  eexists; split; [reflexivity|].
  apply is_array_tabulate_ext. intros i j Hi Hj.
  rewrite Hf, Hg by assumption. reflexivity.
Qed.

Lemma iadd_spec A B n m f g :
  is_array A n m f -> is_array B n m g ->
  exists R, npy.iadd_val A B = Ok R /\
            is_array R n m (fun i j => f i j + g i j).
Proof.
  intros HA HB. unfold npy.iadd_val, np.add.
  destruct (same_shape_spec Rplus HA HB) as (R & -> & HR).
  rewrite (is_array_nrows HR), (is_array_ncols HR),
          (is_array_nrows HA), (is_array_ncols HA), !Nat.eqb_refl.
  simpl. exists R. split; [reflexivity | exact HR].
Qed.

End np_facts.

(** ** Labels and fancy indexing *)

Lemma valid_label_lt C y i :
  valid_labels C y -> (i < length y)%nat -> (label y i < C)%nat.
Proof.
  intros Hv Hi. unfold label.
  pose proof (proj1 (Forall_forall _ _) Hv (nth i y 0%Z) (nth_In _ _ Hi)) as H.
  simpl in H. lia.
Qed.

Lemma find_unique (T : Type) (p : T -> bool) (l : list T) (x : T) :
  In x l -> p x = true ->
  (forall z, In z l -> p z = true -> z = x) ->
  find p l = Some x.
Proof.
  induction l as [|a l IH]; intros Hin Hp Huniq; [contradiction|].
  simpl. destruct (p a) eqn:E.
  - f_equal. apply Huniq; [left; reflexivity | exact E].
  - destruct Hin as [->|Hin]; [congruence|].
    apply IH; auto. intros z Hz. apply Huniq. right; exact Hz.
Qed.

Lemma find_none (T : Type) (p : T -> bool) (l : list T) :
  (forall z, In z l -> p z = false) -> find p l = None.
Proof.
  induction l as [|a l IH]; intros H; [reflexivity|].
  simpl. rewrite (H a) by (left; reflexivity).
  apply IH. intros z Hz. apply H. right; exact Hz.
Qed.

Lemma map_nth_seq (T : Type) (l : list T) (d : T) :
  map (fun i => nth i l d) (seq 0 (length l)) = l.
Proof.
  induction l as [|a l IH]; [reflexivity|].
  simpl. f_equal. rewrite <- seq_shift, map_map. exact IH.
Qed.

Lemma combine_map (S T U : Type) (f : S -> T) (g : S -> U) (l : list S) :
  combine (map f l) (map g l) = map (fun x => (f x, g x)) l.
Proof. induction l as [|a l IH]; simpl; [reflexivity | rewrite IH; reflexivity]. Qed.

Module fancy_facts.

Import np_facts.

Lemma norm_index_valid C k :
  (0 <= k < Z.of_nat C)%Z -> np.norm_index C k = Ok (Z.to_nat k).
Proof.
  intros H. unfold np.norm_index.
  replace ((0 <=? k)%Z && (k <? Z.of_nat C)%Z) with true; [reflexivity|].
  symmetry. apply andb_true_iff. split; [apply Z.leb_le | apply Z.ltb_lt]; lia.
Qed.

Lemma norm_indices_valid C ks :
  valid_labels C ks -> np.norm_indices C ks = Ok (map Z.to_nat ks).
Proof.
  induction 1 as [|k ks Hk Hks IH]; [reflexivity|].
  simpl. rewrite (norm_index_valid _ Hk), IH. reflexivity.
Qed.

Lemma fancy_cells_valid A N C y :
  nrows A = N -> ncols A = C -> length y = N -> valid_labels C y ->
  np.fancy_cells A N y = Ok (label_cells N y).
Proof.
  intros Hn Hc Hy Hv. unfold np.fancy_cells.
  rewrite Hy, bdim_same, Hn, Hc.
  destruct (existsb _ _) eqn:E.
  { apply existsb_exists in E. destruct E as (i & Hi & Hb).
    apply in_seq in Hi. rewrite bidx_lt in Hb by lia.
    apply negb_true_iff, Nat.ltb_ge in Hb. lia. }
  assert (Hmap : map (fun i => nth (np.bidx N i) y 0%Z) (seq 0 N) = y).
  { etransitivity; [|apply (map_nth_seq y 0%Z)]. rewrite Hy.
    apply map_ext_in. intros i Hi. apply in_seq in Hi.
    rewrite bidx_lt by lia. reflexivity. }
  rewrite Hmap, (norm_indices_valid Hv).
  unfold label_cells. f_equal.
  replace (map Z.to_nat y)
    with (map (fun i => Z.to_nat (nth i y 0%Z)) (seq 0 N))
    by (rewrite <- (map_map (fun i => nth i y 0%Z) Z.to_nat), <- Hy,
          map_nth_seq; reflexivity).
  rewrite combine_map. apply map_ext_in. intros i Hi. apply in_seq in Hi.
  rewrite bidx_lt by lia. reflexivity.
Qed.

Lemma gather_label_cells A N C f y :
  is_array A N C f -> length y = N -> valid_labels C y ->
  np.gather A (label_cells N y) = map (fun i => f i (label y i)) (seq 0 N).
Proof.
  intros HA Hy Hv. unfold np.gather, label_cells. rewrite map_map.
  apply map_ext_in. intros i Hi. apply in_seq in Hi. simpl.
  apply (is_array_at HA); [lia | apply valid_label_lt with (C := C); [exact Hv | lia]].
Qed.

Lemma scatter_label_cells A N C f (v : nat -> R) y :
  is_array A N C f ->
  is_array (np.scatter A (label_cells N y) (map v (seq 0 N))) N C
    (fun i j => if (j =? label y i)%nat then v i else f i j).
Proof.
  intros (Hn & Hc & Hf). unfold np.scatter. rewrite Hn, Hc.
  apply is_array_tabulate_ext. intros i j Hi Hj.
  unfold label_cells. rewrite combine_map.
  set (p := fun cv : nat * nat * R =>
              (fst (fst cv) =? i)%nat && (snd (fst cv) =? j)%nat).
  set (l := map (fun x => ((x, label y x), v x)) (seq 0 N)).
  destruct (j =? label y i)%nat eqn:E.
  - apply Nat.eqb_eq in E.
    rewrite (@find_unique _ p (rev l) ((i, label y i), v i)); [reflexivity| | |].
    + apply -> in_rev. unfold l. apply in_map_iff. exists i.
      split; [reflexivity | apply in_seq; lia].
    + unfold p; simpl. rewrite Nat.eqb_refl, E, Nat.eqb_refl. reflexivity.
    + intros z Hz Hp. apply in_rev in Hz. unfold l in Hz.
      apply in_map_iff in Hz. destruct Hz as (x & <- & _).
      unfold p in Hp; simpl in Hp. apply andb_true_iff in Hp.
      destruct Hp as [Hx _]. apply Nat.eqb_eq in Hx. subst x. reflexivity.
  - rewrite (@find_none _ p (rev l)); [apply Hf; assumption|].
    intros z Hz. apply in_rev in Hz. unfold l in Hz.
    apply in_map_iff in Hz. destruct Hz as (x & <- & _).
    unfold p; simpl. destruct (x =? i)%nat eqn:Ex; [|reflexivity].
    apply Nat.eqb_eq in Ex. subst x. simpl.
    rewrite Nat.eqb_sym. exact E.
Qed.

End fancy_facts.

(** ** Worlds that keep what an earlier world held *)

Lemma heap_kept_refl w : heap_kept w w.
Proof. split; [lia | reflexivity]. Qed.

Lemma heap_kept_trans w1 w2 w3 :
  heap_kept w1 w2 -> heap_kept w2 w3 -> heap_kept w1 w3.
Proof.
  intros [L1 K1] [L2 K2]. split; [lia|].
  intros l Hl. rewrite K2 by lia. apply K1, Hl.
Qed.

Lemma heap_kept_allocated w w' A :
  heap_kept w w' -> heap_kept w (allocated w' A).
Proof.
  intros [L K]. split; [rewrite length_allocated; lia|].
  intros l Hl. rewrite lookup_allocated_old by lia. apply K, Hl.
Qed.

Lemma heap_kept_stored w w' l A :
  heap_kept w w' -> (length (heap w) <= l)%nat -> heap_kept w (stored w' l A).
Proof.
  intros [L K] Hl. split; [rewrite length_stored; lia|].
  intros l' Hl'. rewrite lookup_stored_other by lia. apply K, Hl'.
Qed.

Lemma heap_kept_lookup w w' l A :
  heap_kept w w' -> lookup w l = Some A -> lookup w' l = Some A.
Proof.
  intros [L K] H. rewrite K; [exact H | eapply lookup_lt, H].
Qed.

Lemma net_holds_kept w w' p v :
  heap_kept w w' -> net_holds w p v -> net_holds w' p v.
Proof.
  intros K (H1 & H2 & H3 & H4).
  repeat split; eapply heap_kept_lookup; eassumption.
Qed.

(** ** Stepping through array operations *)

Lemma returns_fresh1_arr f a A n m h w (Q : loc -> world -> Prop) :
  lookup w a = Some A ->
  (exists R, f A = Ok R /\ is_array R n m h) ->
  (forall l R, l = length (heap w) -> is_array R n m h -> Q l (allocated w R)) ->
  returns (fresh1 f a) w Q.
Proof.
  intros Ha (R & Hf & HR) H.
  eapply returns_fresh1; [exact Ha | exact Hf | apply H; [reflexivity | exact HR]].
Qed.

Lemma returns_fresh1_map g a A n m h w (Q : loc -> world -> Prop) :
  lookup w a = Some A -> is_array A n m h ->
  (forall l R, l = length (heap w) -> is_array R n m (fun i j => g (h i j)) ->
               Q l (allocated w R)) ->
  returns (fresh1 (fun A => Ok (np.map1 g A)) a) w Q.
Proof.
  intros Ha HA H.
  eapply returns_fresh1; [exact Ha | reflexivity |].
  apply H; [reflexivity | apply np_facts.map1_spec, HA].
Qed.

Lemma returns_fresh2_arr f a b A B n m h w (Q : loc -> world -> Prop) :
  lookup w a = Some A -> lookup w b = Some B ->
  (exists R, f A B = Ok R /\ is_array R n m h) ->
  (forall l R, l = length (heap w) -> is_array R n m h -> Q l (allocated w R)) ->
  returns (fresh2 f a b) w Q.
Proof.
  intros Ha Hb (R & Hf & HR) H.
  eapply returns_fresh2; [exact Ha | exact Hb | exact Hf |].
  apply H; [reflexivity | exact HR].
Qed.

Lemma returns_inplace1_arr f a A n m h w (Q : unit -> world -> Prop) :
  lookup w a = Some A ->
  (exists R, f A = Ok R /\ is_array R n m h) ->
  (forall R, is_array R n m h -> Q tt (stored w a R)) ->
  returns (inplace1 f a) w Q.
Proof.
  intros Ha (R & Hf & HR) H.
  eapply returns_inplace1; [exact Ha | exact Hf | apply H, HR].
Qed.

Lemma returns_inplace2_arr f a b A B n m h w (Q : unit -> world -> Prop) :
  lookup w a = Some A -> lookup w b = Some B ->
  (exists R, f A B = Ok R /\ is_array R n m h) ->
  (forall R, is_array R n m h -> Q tt (stored w a R)) ->
  returns (inplace2 f a b) w Q.
Proof.
  intros Ha Hb (R & Hf & HR) H.
  eapply returns_inplace2; [exact Ha | exact Hb | exact Hf | apply H, HR].
Qed.

(** Lengths of heaps built by allocation and update. *)
Ltac heap_len :=
  repeat first [ rewrite length_allocated | rewrite length_stored ]; lia.

(** Naming the location and the array produced by an allocating step. *)
Tactic Notation "intro_fresh" ident(l) ident(R) ident(Hl) ident(HR) :=
  intros l R Hl HR;
  repeat first [ rewrite length_allocated in Hl | rewrite length_stored in Hl ].

(** Looking up a location in a world built by allocation and update. *)
Ltac solve_lookup :=
  lazymatch goal with
  | |- lookup (allocated _ _) _ = _ =>
      first [ apply lookup_allocated_new; heap_len
            | rewrite lookup_allocated_old by heap_len; solve_lookup ]
  | |- lookup (stored _ _ _) _ = _ =>
      first [ rewrite lookup_stored_other by heap_len; solve_lookup
            | rewrite lookup_stored_same by heap_len; reflexivity ]
  | |- _ => eassumption
  end.

(** A heap built by allocation and by updates of fresh locations keeps the
    starting heap. *)
Ltac solve_kept :=
  lazymatch goal with
  | |- heap_kept _ (allocated _ _) => apply heap_kept_allocated; solve_kept
  | |- heap_kept _ (stored _ _ _) =>
      apply heap_kept_stored; [solve_kept | heap_len]
  | |- heap_kept ?w ?w => apply heap_kept_refl
  | |- _ => eassumption
  end.

(** ** The forward pass *)

Lemma weights_shape_arrays D H C v :
  weights_shape D H C v ->
  is_array (wW1 v) D H (get (wW1 v)) /\ is_array (wb1 v) 1 H (get (wb1 v)) /\
  is_array (wW2 v) H C (get (wW2 v)) /\ is_array (wb2 v) 1 C (get (wb2 v)).
Proof.
  unfold weights_shape, shape. intros (E1 & E2 & E3 & E4).
  pose proof (f_equal fst E1); pose proof (f_equal snd E1).
  pose proof (f_equal fst E2); pose proof (f_equal snd E2).
  pose proof (f_equal fst E3); pose proof (f_equal snd E3).
  pose proof (f_equal fst E4); pose proof (f_equal snd E4).
  simpl in *.
  repeat split; first [assumption | intros; reflexivity].
Qed.

Lemma forward_spec p X XA v N D H C w (Q : loc * loc -> world -> Prop) :
  lookup w X = Some XA -> net_holds w p v ->
  nrows XA = N -> ncols XA = D -> weights_shape D H C v ->
  (forall h1 out H1 OUT w',
      heap_kept w w' -> random w' = random w ->
      (length (heap w) <= h1)%nat -> (length (heap w) <= out)%nat -> h1 <> out ->
      lookup w' h1 = Some H1 -> is_array H1 N H (hidden v XA) ->
      lookup w' out = Some OUT -> is_array OUT N C (score v XA) ->
      Q (h1, out) w') ->
  returns (forward p X) w Q.
Proof.
  intros HX (HW1 & Hb1 & HW2 & Hb2) HN HD Hshape HQ.
  destruct (weights_shape_arrays Hshape) as (A1 & AB1 & A2 & AB2).
  pose proof (is_array_get XA HN HD) as AX.
  pose proof (lookup_lt _ _ HX) as LX. pose proof (lookup_lt _ _ HW1) as LW1.
  pose proof (lookup_lt _ _ Hb1) as Lb1. pose proof (lookup_lt _ _ HW2) as LW2.
  pose proof (lookup_lt _ _ Hb2) as Lb2.
  unfold forward.
  apply returns_bind.
  eapply returns_fresh2_arr;
    [solve_lookup | solve_lookup | apply np_facts.dot_spec; eassumption |].
  intro_fresh xw XW Hxw AXW.
  apply returns_bind.
  eapply returns_fresh2_arr;
    [solve_lookup | solve_lookup
    | apply (np_facts.row_broadcast_spec Rplus AXW AB1) |].
  intro_fresh pre PRE Hpre APRE.
  apply returns_bind.
  eapply returns_fresh1_map; [solve_lookup | exact APRE |].
  intro_fresh h1 H1 Hh1 AH1.
  apply returns_bind.
  eapply returns_fresh2_arr;
    [solve_lookup | solve_lookup | apply (np_facts.dot_spec AH1 A2) |].
  intro_fresh hw HW Hhw AHW.
  apply returns_bind.
  eapply returns_fresh2_arr;
    [solve_lookup | solve_lookup
    | apply (np_facts.row_broadcast_spec Rplus AHW AB2) |].
  intro_fresh out OUT Hout AOUT.
  apply returns_ret.
  assert (EH : nrows (wW2 v) = H) by apply A2.
  eapply HQ with (H1 := H1) (OUT := OUT);
    try solve [solve_kept | reflexivity | heap_len | solve_lookup].
  - eapply is_array_ext; [exact AH1|]. intros i k Hi Hk.
    unfold hidden, pre_activation. rewrite HD. reflexivity.
  - eapply is_array_ext; [exact AOUT|]. intros i j Hi Hj. simpl.
    unfold score, hidden, pre_activation. rewrite EH, HD. reflexivity.
Qed.

(** ** Softmax *)

Lemma sum_exp_pos C (s : nat -> R) :
  (0 < C)%nat -> 0 < sum_upto C (fun c => exp (s c)).
Proof.
  intros HC. apply sum_upto_pos with (k := 0%nat); [exact HC | |apply exp_pos].
  intros; left; apply exp_pos.
Qed.

(** Subtracting the same number from every score leaves the softmax
    unchanged. *)
Lemma shifted_softmax_eq C t s j :
  (0 < C)%nat -> shifted_softmax C t s j = softmax C s j.
Proof.
  intros HC. unfold shifted_softmax, softmax.
  assert (E : forall x, exp (x - t) = exp (- t) * exp x).
  { intros x. replace (x - t) with (- t + x) by lra. apply exp_plus. }
  rewrite E.
  rewrite (@sum_upto_ext C (fun c => exp (s c - t)) (fun c => exp (- t) * exp (s c)))
    by (intros; apply E).
  rewrite sum_upto_scale.
  pose proof (sum_exp_pos s HC). pose proof (exp_pos (- t)).
  field. split; lra.
Qed.

Lemma softmax_pos C s j : (0 < C)%nat -> 0 < softmax C s j.
Proof.
  intros HC. unfold softmax.
  apply Rdiv_lt_0_compat; [apply exp_pos | apply sum_exp_pos, HC].
Qed.

(** ** The maximum of a row *)

Lemma max_list_ge_init x l : x <= np.max_list x l.
Proof.
  unfold np.max_list. revert x. induction l as [|a l IH]; intros x; simpl; [lra|].
  eapply Rle_trans; [apply (Rmax_l x a) | apply IH].
Qed.

Lemma max_list_ge x l a : In a l -> a <= np.max_list x l.
Proof.
  unfold np.max_list. revert x. induction l as [|b l IH]; intros x Hin; [contradiction|].
  simpl. destruct Hin as [->|Hin]; [|apply IH, Hin].
  eapply Rle_trans; [apply (Rmax_r x a) | apply max_list_ge_init].
Qed.

Lemma max_list_attained x l : np.max_list x l = x \/ In (np.max_list x l) l.
Proof.
  unfold np.max_list. revert x. induction l as [|a l IH]; intros x; simpl; [left; reflexivity|].
  destruct (IH (Rmax x a)) as [E|Hin]; [|right; right; exact Hin].
  rewrite E. unfold Rmax. destruct (Rle_dec x a); [right; left|left]; reflexivity.
Qed.

(** The number subtracted from row [i] is the largest score of that row. *)
Lemma row_max_is_max f m i :
  (0 < m)%nat ->
  (forall j, (j < m)%nat -> f i j <= row_max f m i) /\
  (exists j, (j < m)%nat /\ row_max f m i = f i j).
Proof.
  intros Hm. unfold row_max. split.
  - intros j Hj. destruct j as [|j]; [apply max_list_ge_init|].
    apply max_list_ge. apply in_map_iff. exists (S j).
    split; [reflexivity | apply in_seq; lia].
  - destruct (max_list_attained (f i 0%nat) (map (f i) (seq 1 (m - 1)))) as [E|Hin].
    + exists 0%nat. split; [exact Hm | exact E].
    + apply in_map_iff in Hin. destruct Hin as (j & E & Hj). apply in_seq in Hj.
      exists j. split; [lia | symmetry; exact E].
Qed.

(** ** The in-place decrement of the true-label entries *)

Lemma fancy_isub_spec A N C f y c :
  is_array A N C f -> length y = N -> valid_labels C y ->
  exists R,
    match np.fancy_cells A N y with
    | Ok cells => Ok (np.scatter A cells (map (fun x => x - c) (np.gather A cells)))
    | Raise e => Raise e
    end = Ok R /\
    is_array R N C (fun i j =>
      if (j =? label y i)%nat then f i (label y i) - c else f i j).
Proof.
  intros HA Hy Hv.
  rewrite (@fancy_facts.fancy_cells_valid A N C y
             (is_array_nrows HA) (is_array_ncols HA) Hy Hv).
  rewrite (fancy_facts.gather_label_cells HA Hy Hv), map_map.
  eexists; split; [reflexivity|].
  apply (fancy_facts.scatter_label_cells (fun i => f i (label y i) - c) y HA).
Qed.

Lemma relu_le0 x : Rmax 0 x <= 0 <-> x <= 0.
Proof.
  unfold Rmax. destruct (Rle_dec 0 x); lra.
Qed.

(** ** The loss and its gradients *)

Lemma valid_labels_classes C y :
  valid_labels C y -> (0 < length y)%nat -> (0 < C)%nat.
Proof.
  intros Hv Hy. pose proof (valid_label_lt (i := 0) Hv Hy). lia.
Qed.

Ltac step_fresh2 spec :=
  apply returns_bind;
  eapply returns_fresh2_arr; [solve_lookup | solve_lookup | spec |].

Ltac step_fresh1 spec :=
  apply returns_bind;
  eapply returns_fresh1_arr; [solve_lookup | spec |].

Ltac step_map HA :=
  apply returns_bind;
  eapply returns_fresh1_map; [solve_lookup | exact HA |].

Ltac nodup_locs :=
  repeat (constructor; [simpl; intuition heap_len|]); constructor.

Lemma row_max_ext f g m i :
  (0 < m)%nat -> (forall j, (j < m)%nat -> f i j = g i j) ->
  row_max f m i = row_max g m i.
Proof.
  intros Hm E. unfold row_max. rewrite (E 0%nat Hm). f_equal.
  apply map_ext_in. intros j Hj. apply in_seq in Hj. apply E. lia.
Qed.

(** The arrays of the softmax computation, described through one another
    as the code computes them. *)
Lemma softmax_arrays S M SH E DN N C v X y reg :
  (0 < C)%nat -> ncols (wW2 v) = C -> nrows X = N ->
  (forall i, (i < N)%nat -> (label y i < C)%nat) ->
  is_array S N C (score v X) ->
  is_array M N 1 (fun i _ => row_max (score v X) C i) ->
  is_array SH N C (fun i j => score v X i j - row_max (score v X) C i) ->
  is_array E N C (fun i j => exp (score v X i j - row_max (score v X) C i)) ->
  is_array DN N 1 (fun i _ =>
    sum_upto C (fun j => exp (score v X i j - row_max (score v X) C i))) ->
  is_array M N 1 (fun i _ => row_max (get S) C i) /\
  is_array SH N C (fun i j => get S i j - get M i 0) /\
  is_array E N C (fun i j => exp (get SH i j)) /\
  is_array DN N 1 (fun i _ => sum_upto C (fun c => get E i c)) /\
  loss_formula v X y reg =
    (1 / INR N) *
      sum_upto N (fun i => - ln (get E i (label y i) / get DN i 0))
    + reg_loss_formula v reg.
Proof.
  intros HC EC HN Hl AS AM ASH AE ADN.
  split; [|split; [|split; [|split]]].
  - eapply is_array_ext; [exact AM|]. intros i j Hi Hj. simpl.
    apply row_max_ext; [exact HC|]. intros c Hc.
    symmetry. apply (is_array_at AS Hi Hc).
  - eapply is_array_ext; [exact ASH|]. intros i j Hi Hj. simpl.
    rewrite (is_array_at AS Hi Hj), (is_array_at AM Hi Nat.lt_0_1). reflexivity.
  - eapply is_array_ext; [exact AE|]. intros i j Hi Hj. simpl.
    rewrite (is_array_at ASH Hi Hj). reflexivity.
  - eapply is_array_ext; [exact ADN|]. intros i j Hi Hj. simpl.
    apply sum_upto_ext. intros c Hc. symmetry. apply (is_array_at AE Hi Hc).
  - unfold loss_formula, data_loss_formula. rewrite HN. f_equal. f_equal.
    apply sum_upto_ext. intros i Hi.
    unfold cross_entropy, prob. rewrite EC.
    rewrite (is_array_at AE Hi (Hl i Hi)), (is_array_at ADN Hi Nat.lt_0_1).
    rewrite <- (shifted_softmax_eq (row_max (score v X) C i) (score v X i)
                  (label y i) HC).
    reflexivity.
Qed.

(** [loss] with labels: what it returns, the gradients it leaves in the
    heap, and the arrays of the softmax computation. *)
Lemma loss_spec_trace self X XA v y reg N D H C w
    (Q : loss_result -> world -> Prop) :
  lookup w X = Some XA -> net_holds w (params self) v ->
  nrows XA = N -> ncols XA = D -> weights_shape D H C v ->
  (1 <= N)%nat -> length y = N -> valid_labels C y ->
  (forall g w',
      heap_kept w w' -> random w' = random w ->
      grads_are w' g D H C v XA y reg ->
      fresh_dict (length (heap w)) g ->
      softmax_trace w' (length (heap w)) N C v XA y reg
        (loss_formula v XA y reg) ->
      Q (LossGrads (loss_formula v XA y reg) g) w') ->
  returns (loss self X (Some y) reg) w Q.
Proof.
  intros HX Hnet HN HD Hshape HN1 Hy Hv HQ.
  assert (HC : (0 < C)%nat) by (apply (valid_labels_classes Hv); lia).
  destruct (weights_shape_arrays Hshape) as (A1 & AB1 & A2 & AB2).
  assert (EC : ncols (wW2 v) = C) by apply A2.
  unfold loss.
  apply returns_bind. eapply returns_load; [exact HX|]. rewrite HN.
  apply returns_bind.
  eapply forward_spec; try eassumption.
  intros h1 out H1 OUT w0 K0 R0 Fh1 Fout Hne Lh1 AH1 Lout AOUT. simpl fst; simpl snd.
  pose proof (net_holds_kept K0 Hnet) as (HW1 & Hb1 & HW2 & Hb2).
  pose proof (heap_kept_lookup X K0 HX) as HX0.
  pose proof (lookup_lt _ _ HX0) as LX. pose proof (lookup_lt _ _ HW1) as LW1.
  pose proof (lookup_lt _ _ HW2) as LW2.
  pose proof (lookup_lt _ _ Lh1) as Lth1. pose proof (lookup_lt _ _ Lout) as Ltout.
  pose proof (proj1 K0) as Len0.
  (* softmax probabilities *)
  step_fresh1 ltac:(apply (np_facts.max_axis1_spec AOUT HC)).
  intro_fresh smax SMAX Hsmax ASMAX.
  step_fresh2 ltac:(apply (np_facts.col_broadcast_spec Rminus AOUT ASMAX)).
  intro_fresh shifted SHIFTED Hshifted ASHIFTED.
  step_map ASHIFTED.
  intro_fresh exp_scores EXPS Hexps AEXPS.
  step_fresh1 ltac:(eexists; split; [reflexivity | apply (np_facts.sum_axis1_spec AEXPS)]).
  intro_fresh denom DENOM Hdenom ADENOM.
  step_fresh2 ltac:(apply (np_facts.col_broadcast_spec Rdiv AEXPS ADENOM)).
  intro_fresh probs PROBS Hprobs APROBS0.
  assert (APROBS : is_array PROBS N C (prob v XA)).
  { eapply is_array_ext; [exact APROBS0|]. intros i j Hi Hj. simpl.
    unfold prob. rewrite EC.
    rewrite <- (shifted_softmax_eq (row_max (score v XA) C i) (score v XA i) j HC).
    reflexivity. }
  clear APROBS0.
  (* the data loss *)
  apply returns_bind. unfold npy.fancy_get.
  apply returns_bind. eapply returns_load; [solve_lookup|].
  apply returns_bind. eapply returns_lift.
  { apply (@fancy_facts.fancy_cells_valid PROBS N C y
             (is_array_nrows APROBS) (is_array_ncols APROBS) Hy Hv). }
  apply returns_ret.
  rewrite (fancy_facts.gather_label_cells APROBS Hy Hv), map_map.
  (* the regularisation loss *)
  step_fresh2 ltac:(apply (np_facts.same_shape_spec Rmult A1 A1)).
  intro_fresh sq1 SQ1 Hsq1 ASQ1.
  apply returns_bind. unfold npy.sum.
  apply returns_bind. eapply returns_load; [solve_lookup|]. apply returns_ret.
  step_fresh2 ltac:(apply (np_facts.same_shape_spec Rmult A2 A2)).
  intro_fresh sq2 SQ2 Hsq2 ASQ2.
  apply returns_bind.
  apply returns_bind. eapply returns_load; [solve_lookup|]. apply returns_ret.
  (* the gradient of the scores, computed in place in [probs] *)
  apply returns_bind. unfold npy.fancy_isub.
  eapply returns_inplace1_arr;
    [solve_lookup | apply (fancy_isub_spec 1 APROBS Hy Hv) |].
  intros DS0 ADS0.
  apply returns_bind. unfold npy.idiv_scalar.
  eapply returns_inplace1_arr;
    [solve_lookup
    | eexists; split; [reflexivity | apply (np_facts.map1_spec (fun x => x / INR N) ADS0)] |].
  intros DS ADS1.
  assert (ADS : is_array DS N C (dscores_formula v XA y)).
  { eapply is_array_ext; [exact ADS1|]. intros i j Hi Hj. simpl.
    unfold dscores_formula, one_hot. rewrite HN.
    destruct (j =? label y i)%nat eqn:E; [|f_equal; lra].
    apply Nat.eqb_eq in E. rewrite <- E. reflexivity. }
  clear ADS1.
  (* back through the second layer *)
  step_fresh2 ltac:(apply (np_facts.dot_T_l_spec AH1 ADS)).
  intro_fresh dW2 DW2 HdW2 ADW2.
  step_fresh1 ltac:(eexists; split; [reflexivity | apply (np_facts.sum_axis0_spec ADS)]).
  intro_fresh db2 DB2 Hdb2 ADB2.
  step_fresh2 ltac:(apply (np_facts.dot_T_r_spec ADS A2)).
  intro_fresh dh1 DH1 Hdh1 ADH1.
  (* back through the ReLU *)
  apply returns_bind.
  eapply returns_inplace2_arr;
    [solve_lookup | solve_lookup | apply (np_facts.mask_spec ADH1 AH1) |].
  intros GATED AG0.
  assert (AG : is_array GATED N H (gated_formula v XA y)).
  { eapply is_array_ext; [exact AG0|]. intros i k Hi Hk. simpl.
    unfold gated_formula, dhidden_formula, hidden. rewrite EC.
    destruct (Rle_dec (Rmax 0 (pre_activation v XA i k)) 0) as [L|L];
      destruct (Rle_dec (pre_activation v XA i k) 0) as [L'|L'];
      try reflexivity; exfalso; apply L || apply L'; apply relu_le0; assumption. }
  clear AG0.
  (* back through the first layer *)
  step_fresh2 ltac:(apply (np_facts.dot_T_l_spec (is_array_get XA HN HD) AG)).
  intro_fresh dW1 DW1 HdW1 ADW1.
  step_fresh1 ltac:(eexists; split; [reflexivity | apply (np_facts.sum_axis0_spec AG)]).
  intro_fresh db1 DB1 Hdb1 ADB1.
  (* the regularisation gradients *)
  step_map A2.
  intro_fresh rW2 RW2 HrW2 ARW2.
  apply returns_bind.
  eapply returns_inplace2_arr;
    [solve_lookup | solve_lookup | apply (np_facts.iadd_spec ADW2 ARW2) |].
  intros GW2 AGW2.
  step_map A1.
  intro_fresh rW1 RW1 HrW1 ARW1.
  apply returns_bind.
  eapply returns_inplace2_arr;
    [solve_lookup | solve_lookup | apply (np_facts.iadd_spec ADW1 ARW1) |].
  intros GW1 AGW1.
  apply returns_ret.
  replace (sumR (map (fun x => - ln (prob v XA x (label y x))) (seq 0 N)) / INR N
           + (0.5 * reg * np.sum SQ1 + 0.5 * reg * np.sum SQ2))
    with (loss_formula v XA y reg).
  2:{ unfold loss_formula, data_loss_formula, reg_loss_formula, sum_squares.
      rewrite (np_facts.sum_spec ASQ1), (np_facts.sum_spec ASQ2), HN.
      rewrite (is_array_nrows A1), (is_array_ncols A1),
              (is_array_nrows A2), (is_array_ncols A2).
      unfold sum_upto at 1, cross_entropy. lra. }
  apply HQ.
  - eapply heap_kept_trans; [exact K0 | solve_kept].
  - exact R0.
  - exists GW1, DB1, GW2, DB2. simpl.
    split; [|split; [|split]]; (split; [solve_lookup|]).
    + eapply is_array_ext; [exact AGW1|]. intros. simpl.
      unfold grad_W1_formula. rewrite HN. reflexivity.
    + eapply is_array_ext; [exact ADB1|]. intros. simpl.
      unfold grad_b1_formula. rewrite HN. reflexivity.
    + eapply is_array_ext; [exact AGW2|]. intros. simpl.
      unfold grad_W2_formula. rewrite HN. reflexivity.
    + eapply is_array_ext; [exact ADB2|]. intros. simpl.
      unfold grad_b2_formula. rewrite HN. reflexivity.
  - unfold fresh_dict; simpl. repeat split; try heap_len. nodup_locs.
  - assert (Hl : forall i, (i < N)%nat -> (label y i < C)%nat)
      by (intros i Hi; apply (valid_label_lt Hv); lia).
    destruct (softmax_arrays y reg HC EC HN Hl AOUT ASMAX ASHIFTED AEXPS ADENOM)
      as (TM & TSH & TE & TDN & TL).
    exists out, smax, shifted, exp_scores, denom, OUT, SMAX, SHIFTED, EXPS, DENOM.
    split; [repeat split; lia|].
    split; [repeat split; solve_lookup|].
    repeat (split; [assumption|]). exact TL.
Qed.

Lemma loss_spec self X XA v y reg N D H C w (Q : loss_result -> world -> Prop) :
  lookup w X = Some XA -> net_holds w (params self) v ->
  nrows XA = N -> ncols XA = D -> weights_shape D H C v ->
  (1 <= N)%nat -> length y = N -> valid_labels C y ->
  (forall g w',
      heap_kept w w' -> random w' = random w ->
      grads_are w' g D H C v XA y reg ->
      fresh_dict (length (heap w)) g ->
      Q (LossGrads (loss_formula v XA y reg) g) w') ->
  returns (loss self X (Some y) reg) w Q.
Proof.
  intros HX Hnet HN HD Hshape HN1 Hy Hv HQ.
  eapply loss_spec_trace; try eassumption.
  intros g w' K HR G F _. apply HQ; assumption.
Qed.

Lemma example_valid_labels : valid_labels 2%nat example_y.
Proof. repeat constructor; simpl; lia. Qed.

(** With all parameters zero and two classes the softmax is uniform and the
    loss is [ln 2], whatever the input and [reg]. *)
Example loss_uniform reg :
  returns (loss example_net 0%nat (Some [1%Z]) reg) uniform_world
    (fun r _ => exists g, r = LossGrads (ln 2) g).
Proof.
  eapply (@loss_spec example_net 0%nat (mkArr 1%nat 1%nat [[5]])
            uniform_weights [1%Z] reg 1%nat 1%nat 1%nat 2%nat).
  - reflexivity.
  - repeat split.
  - reflexivity.
  - reflexivity.
  - repeat split.
  - lia.
  - reflexivity.
  - repeat constructor; simpl; lia.
  - intros g w' _ _ _ _. exists g. f_equal.
    assert (S0 : forall j, (j < 2)%nat ->
              score uniform_weights (mkArr 1%nat 1%nat [[5]]) 0 j = 0).
    { intros j Hj. unfold score, hidden, pre_activation.
      cbn [nrows ncols uniform_weights wW1 wb1 wW2 wb2].
      rewrite !sum_upto_S, !sum_upto_0.
      destruct j as [|[|j]]; [| |lia]; unfold get; simpl; lra. }
    unfold loss_formula, data_loss_formula, reg_loss_formula, sum_squares.
    cbn [nrows ncols uniform_weights wW1 wW2].
    rewrite !sum_upto_S, !sum_upto_0.
    unfold cross_entropy, prob, softmax.
    cbn [ncols uniform_weights wW2].
    rewrite !sum_upto_S, !sum_upto_0.
    change (label [1%Z] 0) with 1%nat.
    rewrite !S0 by lia. rewrite exp_0.
    replace (1 / (0 + 1 + 1)) with (/ 2) by lra.
    rewrite ln_Rinv by lra.
    unfold get; simpl. lra.
Qed.

(** C1. For a batch [X] of shape [N x D] with [N >= 1], labels [y] of length
    [N] with entries in [[0, C)] and any [reg], [loss] returns, as its first
    component, [(1/N) . sum_i -log(softmax(scores_i)[y_i])
    + 0.5.reg.sum(W1^2) + 0.5.reg.sum(W2^2)] with
    [scores = ReLU(X.W1 + b1).W2 + b2].  The call computes each row's softmax
    after subtracting that row's maximum: among the arrays it has allocated
    are, in this order, the scores, their row maxima, the scores minus their
    row maximum, the exponentials of those differences and the row sums of
    the exponentials, and the number returned is the mean of
    [-log(exp_scores[i, y_i] / sum_i)] plus the regularisation terms.  In
    exact arithmetic the subtraction leaves the value unchanged, and the
    number subtracted is the largest score of the row. *)
Theorem loss_value self X XA v y reg N D H C w :
  lookup w X = Some XA -> net_holds w (params self) v ->
  shape XA = (N, D) -> weights_shape D H C v ->
  (1 <= N)%nat -> length y = N -> valid_labels C y ->
  returns (loss self X (Some y) reg) w
    (fun r w' => exists l g,
       r = LossGrads l g /\ l = loss_formula v XA y reg /\
       softmax_trace w' (length (heap w)) N C v XA y reg l)
  /\ loss_formula v XA y reg = stable_loss_formula v XA y reg
  /\ (forall i j, (j < C)%nat ->
        score v XA i j <= row_max (score v XA) C i)
  /\ (forall i, exists j, (j < C)%nat /\
        row_max (score v XA) C i = score v XA i j).
Proof.
  intros HX Hnet Hsh Hshape HN1 Hy Hv.
  assert (HN : nrows XA = N) by exact (f_equal fst Hsh).
  assert (HD : ncols XA = D) by exact (f_equal snd Hsh).
  assert (HC : (0 < C)%nat) by (apply (valid_labels_classes Hv); lia).
  assert (EC : ncols (wW2 v) = C)
    by apply (weights_shape_arrays Hshape).
  split; [|split; [|split]].
  - eapply loss_spec_trace; try eassumption.
    intros g w' _ _ _ _ Htrace.
    exists (loss_formula v XA y reg), g.
    split; [reflexivity|]. split; [reflexivity | exact Htrace].
  - unfold loss_formula, stable_loss_formula, data_loss_formula.
    f_equal. f_equal. apply sum_upto_ext. intros i Hi.
    unfold cross_entropy, prob. rewrite EC, shifted_softmax_eq by exact HC.
    reflexivity.
  - intros i j Hj. apply (proj1 (row_max_is_max (score v XA) i HC)), Hj.
  - intros i. apply (proj2 (row_max_is_max (score v XA) i HC)).
Qed.

Lemma loss_value_witness :
  returns (loss example_net 0%nat (Some example_y) 1) example_world
    (fun r w' => exists l g,
       r = LossGrads l g /\
       l = loss_formula example_weights example_X example_y 1 /\
       softmax_trace w' 7%nat 2%nat 2%nat example_weights example_X
         example_y 1 l)
  /\ loss_formula example_weights example_X example_y 1
     = stable_loss_formula example_weights example_X example_y 1
  /\ (forall i j, (j < 2)%nat ->
        score example_weights example_X i j
        <= row_max (score example_weights example_X) 2%nat i)
  /\ (forall i, exists j, (j < 2)%nat /\
        row_max (score example_weights example_X) 2%nat i
        = score example_weights example_X i j).
Proof.
  apply (@loss_value example_net 0%nat example_X example_weights example_y 1
           2%nat 2%nat 2%nat 2%nat example_world).
  - reflexivity.
  - repeat split.
  - reflexivity.
  - repeat split.
  - lia.
  - reflexivity.
  - exact example_valid_labels.
Defined.

(** C2. The gradients returned by [loss]: [dscores = (softmax - one_hot(y))/N];
    [grads['W2'] = h1^T.dscores + reg.W2], [grads['b2']] is the column sum of
    [dscores]; [dscores.W2^T] is zeroed wherever the hidden pre-activation is
    [<= 0]; [grads['W1'] = X^T.(gated) + reg.W1], [grads['b1']] is the column
    sum of the gated gradient; each gradient has the shape of its
    parameter. *)
Theorem loss_gradients self X XA v y reg N D H C w :
  lookup w X = Some XA -> net_holds w (params self) v ->
  shape XA = (N, D) -> weights_shape D H C v ->
  (1 <= N)%nat -> length y = N -> valid_labels C y ->
  returns (loss self X (Some y) reg) w
    (fun r w' => exists l g G1 GB1 G2 GB2,
       r = LossGrads l g /\
       lookup w' (W1 g) = Some G1 /\ lookup w' (b1 g) = Some GB1 /\
       lookup w' (W2 g) = Some G2 /\ lookup w' (b2 g) = Some GB2 /\
       shape G1 = shape (wW1 v) /\ shape GB1 = shape (wb1 v) /\
       shape G2 = shape (wW2 v) /\ shape GB2 = shape (wb2 v) /\
       (forall k j, (k < H)%nat -> (j < C)%nat ->
          get G2 k j =
            sum_upto N (fun i => hidden v XA i k * dscores_formula v XA y i j)
            + reg * get (wW2 v) k j) /\
       (forall j, (j < C)%nat ->
          get GB2 0 j = sum_upto N (fun i => dscores_formula v XA y i j)) /\
       (forall d k, (d < D)%nat -> (k < H)%nat ->
          get G1 d k =
            sum_upto N (fun i => get XA i d * gated_formula v XA y i k)
            + reg * get (wW1 v) d k) /\
       (forall k, (k < H)%nat ->
          get GB1 0 k = sum_upto N (fun i => gated_formula v XA y i k)))
  /\ (forall i j,
        dscores_formula v XA y i j =
          (softmax C (score v XA i) j - (if (j =? label y i)%nat then 1 else 0))
          / INR N)
  /\ (forall i k,
        gated_formula v XA y i k =
          if Rle_dec (pre_activation v XA i k) 0 then 0
          else sum_upto C (fun j => dscores_formula v XA y i j * get (wW2 v) k j)).
Proof.
  intros HX Hnet Hsh Hshape HN1 Hy Hv.
  assert (HN : nrows XA = N) by exact (f_equal fst Hsh).
  assert (HD : ncols XA = D) by exact (f_equal snd Hsh).
  assert (EC : ncols (wW2 v) = C)
    by apply (weights_shape_arrays Hshape).
  split; [|split].
  - eapply loss_spec; try eassumption.
    intros g w' _ _ (G1 & GB1 & G2 & GB2 & [L1 A1] & [L2 A2] & [L3 A3] & [L4 A4]) _.
    exists (loss_formula v XA y reg), g, G1, GB1, G2, GB2.
    destruct Hshape as (S1 & S2 & S3 & S4).
    split; [reflexivity|]. do 4 (split; [assumption|]).
    unfold shape in *.
    rewrite (is_array_nrows A1), (is_array_ncols A1), (is_array_nrows A2),
      (is_array_ncols A2), (is_array_nrows A3), (is_array_ncols A3),
      (is_array_nrows A4), (is_array_ncols A4).
    do 4 (split; [symmetry; assumption|]).
    split; [|split; [|split]].
    + intros k j Hk Hj. rewrite (is_array_at A3 Hk Hj).
      unfold grad_W2_formula. rewrite HN. reflexivity.
    + intros j Hj. rewrite (is_array_at A4 Nat.lt_0_1 Hj).
      unfold grad_b2_formula. rewrite HN. reflexivity.
    + intros d k Hd Hk. rewrite (is_array_at A1 Hd Hk).
      unfold grad_W1_formula. rewrite HN. reflexivity.
    + intros k Hk. rewrite (is_array_at A2 Nat.lt_0_1 Hk).
      unfold grad_b1_formula. rewrite HN. reflexivity.
  - intros i j. unfold dscores_formula, prob, one_hot. rewrite EC, HN. reflexivity.
  - intros i k. unfold gated_formula, dhidden_formula. rewrite EC. reflexivity.
Qed.

Lemma loss_gradients_witness :
  returns (loss example_net 0%nat (Some example_y) 1) example_world
    (fun r w' => exists l g G1,
       r = LossGrads l g /\ lookup w' (W1 g) = Some G1 /\
       shape G1 = shape (wW1 example_weights)).
Proof.
  eapply returns_mono.
  - apply (@loss_gradients example_net 0%nat example_X example_weights
             example_y 1 2%nat 2%nat 2%nat 2%nat example_world).
    + reflexivity.
    + repeat split.
    + reflexivity.
    + repeat split.
    + lia.
    + reflexivity.
    + exact example_valid_labels.
  - intros r w' (l & g & G1 & GB1 & G2 & GB2 & Hr & L1 & _ & _ & _ & S1 & _).
    exists l, g, G1. repeat split; assumption.
Defined.

(** ** What [loss] leaves untouched *)

Lemma preserves_ret n A (a : A) (P : A -> Prop) : P a -> preserves n (ret a) P.
Proof.
  intros H w Hw. simpl. repeat split; auto. intros a' E. inversion E; subst; exact H.
Qed.

Lemma preserves_raise n A e (P : A -> Prop) : preserves n (raise e) P.
Proof. intros w Hw. simpl. repeat split; auto. discriminate. Qed.

Lemma preserves_lift n A (o : outcome A) : preserves n (lift o) (fun _ => True).
Proof. intros w Hw. simpl. repeat split; auto. Qed.

Lemma preserves_weaken n A (c : Py A) (P Q : A -> Prop) :
  preserves n c P -> (forall a, P a -> Q a) -> preserves n c Q.
Proof.
  intros H HPQ w Hw. destruct (H w Hw) as (L & K & R).
  repeat split; auto.
Qed.

Lemma preserves_bind n A B (c : Py A) (k : A -> Py B) (P : A -> Prop) (Q : B -> Prop) :
  preserves n c P -> (forall a, P a -> preserves n (k a) Q) ->
  preserves n (bind c k) Q.
Proof.
  intros Hc Hk w Hw. destruct (Hc w Hw) as (L & K & R).
  unfold bind. destruct (c w) as [[a|e] w1]; simpl in *.
  - destruct (Hk a (R a eq_refl) w1 L) as (L' & K' & R').
    split; [exact L'|]. split; [|exact R'].
    intros l Hl. rewrite K' by exact Hl. apply K, Hl.
  - repeat split; auto. discriminate.
Qed.

Lemma preserves_alloc n R : preserves n (alloc R) (fun l => (n <= l)%nat).
Proof.
  intros w Hw. unfold alloc; simpl. split; [rewrite length_app; simpl; lia|].
  split.
  - intros l Hl. apply (lookup_allocated_old w R). lia.
  - intros a E. inversion E; subst. exact Hw.
Qed.

Lemma preserves_load n l : preserves n (load l) (fun _ => True).
Proof.
  intros w Hw. unfold load. destruct (lookup w l); simpl; repeat split; auto.
Qed.

Lemma preserves_store n l R :
  (n <= l)%nat -> preserves n (store l R) (fun _ => True).
Proof.
  intros Hl w Hw. unfold store. destruct (lookup w l); simpl; [|repeat split; auto].
  split; [rewrite length_replace_nth; exact Hw|]. split; [|auto].
  intros l' Hl'. apply (lookup_stored_other w R). lia.
Qed.

Lemma preserves_fresh1 n f a : preserves n (fresh1 f a) (fun l => (n <= l)%nat).
Proof.
  unfold fresh1.
  eapply preserves_bind; [apply preserves_load | intros A _].
  eapply preserves_bind; [apply preserves_lift | intros R _].
  apply preserves_alloc.
Qed.

Lemma preserves_fresh2 n f a b : preserves n (fresh2 f a b) (fun l => (n <= l)%nat).
Proof.
  unfold fresh2.
  eapply preserves_bind; [apply preserves_load | intros A _].
  eapply preserves_bind; [apply preserves_load | intros B _].
  eapply preserves_bind; [apply preserves_lift | intros R _].
  apply preserves_alloc.
Qed.

Lemma preserves_inplace1 n f a :
  (n <= a)%nat -> preserves n (inplace1 f a) (fun _ => True).
Proof.
  intros Ha. unfold inplace1.
  eapply preserves_bind; [apply preserves_load | intros A _].
  eapply preserves_bind; [apply preserves_lift | intros R _].
  apply preserves_store, Ha.
Qed.

Lemma preserves_inplace2 n f a b :
  (n <= a)%nat -> preserves n (inplace2 f a b) (fun _ => True).
Proof.
  intros Ha. unfold inplace2.
  eapply preserves_bind; [apply preserves_load | intros A _].
  eapply preserves_bind; [apply preserves_load | intros B _].
  eapply preserves_bind; [apply preserves_lift | intros R _].
  apply preserves_store, Ha.
Qed.

Lemma preserves_read n A a (k : ndarray -> Py A) :
  (forall M, preserves n (k M) (fun _ => True)) ->
  preserves n (bind (load a) k) (fun _ => True).
Proof.
  intros H. eapply preserves_bind; [apply preserves_load | intros M _; apply H].
Qed.

Lemma preserves_forward n p X :
  preserves n (forward p X) (fun hs => (n <= fst hs)%nat /\ (n <= snd hs)%nat).
Proof.
  unfold forward, ReLU.
  eapply preserves_bind; [apply preserves_fresh2 | intros xw _].
  eapply preserves_bind; [apply preserves_fresh2 | intros pre _].
  eapply preserves_bind; [apply preserves_fresh1 | intros h1 Hh1].
  eapply preserves_bind; [apply preserves_fresh2 | intros hw _].
  eapply preserves_bind; [apply preserves_fresh2 | intros out Hout].
  apply preserves_ret. simpl. split; assumption.
Qed.

(** A step that allocates, then the rest. *)
Ltac frame_fresh l H :=
  eapply preserves_bind;
  [ first [ apply preserves_fresh2 | apply preserves_fresh1 ] | intros l H ].

(** A step that only reads or updates a fresh array, then the rest. *)
Ltac frame_quiet :=
  eapply preserves_bind;
  [ first [ apply preserves_inplace1; assumption
          | apply preserves_inplace2; assumption
          | apply preserves_read; intros;
            first [ apply preserves_ret; exact I
                  | eapply preserves_bind;
                    [ apply preserves_lift
                    | intros; apply preserves_ret; exact I ] ] ]
  | intros ? _ ].

Lemma preserves_loss n self X y reg :
  preserves n (loss self X y reg) (fun _ => True).
Proof.
  unfold loss.
  apply preserves_read. intros XA.
  eapply preserves_bind; [apply preserves_forward | intros [h1 scores] [Hh1 Hs]].
  simpl fst; simpl snd.
  destruct y as [y|]; [|apply preserves_ret; exact I].
  frame_fresh scores_max Hmax.
  frame_fresh shifted Hshifted.
  frame_fresh exp_scores Hexp.
  frame_fresh denom Hdenom.
  frame_fresh probs Hprobs.
  frame_quiet.
  frame_fresh sq1 Hsq1.
  frame_quiet.
  frame_fresh sq2 Hsq2.
  frame_quiet.
  frame_quiet.
  frame_quiet.
  frame_fresh dW2 HdW2.
  frame_fresh db2 Hdb2.
  frame_fresh dh1 Hdh1.
  frame_quiet.
  frame_fresh dW1 HdW1.
  frame_fresh db1 Hdb1.
  frame_fresh rW2 HrW2.
  frame_quiet.
  frame_fresh rW1 HrW1.
  frame_quiet.
  apply preserves_ret. exact I.
Qed.

(** C10. Whatever the input, the labels (present or absent) and [reg], and
    whether the call returns or raises, [loss] leaves every array that
    existed before the call as it was; in particular [W1], [b1], [W2] and
    [b2] hold the values they held before.  The in-place updates of the
    backward pass touch only arrays allocated during the call. *)
Theorem loss_keeps_parameters self X y reg w :
  (forall l A, lookup w l = Some A ->
               lookup (snd (loss self X y reg w)) l = Some A)
  /\ (forall v, net_holds w (params self) v ->
                net_holds (snd (loss self X y reg w)) (params self) v).
Proof.
  assert (K : forall l A, lookup w l = Some A ->
                          lookup (snd (loss self X y reg w)) l = Some A).
  { intros l A Hl.
    destruct (@preserves_loss (length (heap w)) self X y reg w (le_n _))
      as (_ & Kept & _).
    rewrite Kept; [exact Hl | apply (lookup_lt _ _ Hl)]. }
  split; [exact K|].
  intros v (H1 & H2 & H3 & H4). repeat split; apply K; assumption.
Qed.

Lemma loss_keeps_parameters_witness :
  net_holds (snd (loss example_net 0%nat (Some example_y) 1 example_world))
    (params example_net) example_weights.
Proof.
  apply (proj2 (loss_keeps_parameters example_net 0%nat (Some example_y) 1
                  example_world)).
  repeat split.
Defined.

(** ** Sign of the loss *)

Lemma sum_upto_ge_term n f k :
  (k < n)%nat -> (forall i, (i < n)%nat -> 0 <= f i) -> f k <= sum_upto n f.
Proof.
  induction n as [|n IH]; intros Hk Hall; [lia|].
  rewrite sum_upto_S.
  destruct (Nat.eq_dec k n) as [->|Hne].
  - assert (0 <= sum_upto n f) by (apply sum_upto_nonneg; intros; apply Hall; lia).
    lra.
  - assert (f k <= sum_upto n f) by (apply IH; [lia | intros; apply Hall; lia]).
    assert (0 <= f n) by (apply Hall; lia). lra.
Qed.

Lemma sum_upto_gt_term n f k k' :
  (k < n)%nat -> (k' < n)%nat -> k <> k' ->
  (forall i, (i < n)%nat -> 0 <= f i) -> 0 < f k' -> f k < sum_upto n f.
Proof.
  induction n as [|n IH]; intros Hk Hk' Hne Hall Hpos; [lia|].
  rewrite sum_upto_S.
  assert (Hall' : forall i, (i < n)%nat -> 0 <= f i) by (intros; apply Hall; lia).
  destruct (Nat.eq_dec k n) as [->|Hkn].
  - assert (0 < sum_upto n f)
      by (apply sum_upto_pos with (k := k'); [lia | exact Hall' | exact Hpos]).
    lra.
  - destruct (Nat.eq_dec k' n) as [->|Hk'n].
    + assert (f k <= sum_upto n f) by (apply sum_upto_ge_term; [lia | exact Hall']).
      lra.
    + assert (f k < sum_upto n f) by (apply IH; auto; lia).
      assert (0 <= f n) by (apply Hall; lia). lra.
Qed.

Lemma softmax_le_1 C s j : (j < C)%nat -> softmax C s j <= 1.
Proof.
  intros Hj. unfold softmax.
  assert (HC : (0 < C)%nat) by lia.
  pose proof (sum_exp_pos s HC) as Hpos.
  apply Rmult_le_reg_r with (r := sum_upto C (fun c => exp (s c))); [exact Hpos|].
  unfold Rdiv. rewrite Rmult_assoc, Rinv_l, Rmult_1_r, Rmult_1_l by lra.
  apply (@sum_upto_ge_term C (fun c => exp (s c)) j Hj).
  intros; left; apply exp_pos.
Qed.

Lemma softmax_lt_1 C s j : (j < C)%nat -> (2 <= C)%nat -> softmax C s j < 1.
Proof.
  intros Hj HC2. unfold softmax.
  assert (HC : (0 < C)%nat) by lia.
  pose proof (sum_exp_pos s HC) as Hpos.
  apply Rmult_lt_reg_r with (r := sum_upto C (fun c => exp (s c))); [exact Hpos|].
  unfold Rdiv. rewrite Rmult_assoc, Rinv_l, Rmult_1_r, Rmult_1_l by lra.
  destruct (Nat.eq_dec j 0) as [->|Hj0].
  - apply (@sum_upto_gt_term C (fun c => exp (s c)) 0%nat 1%nat); try lia.
    + intros; left; apply exp_pos.
    + apply exp_pos.
  - apply (@sum_upto_gt_term C (fun c => exp (s c)) j 0%nat); try lia.
    + intros; left; apply exp_pos.
    + apply exp_pos.
Qed.

Lemma neg_ln_nonneg p : 0 < p -> p <= 1 -> 0 <= - ln p.
Proof.
  intros Hp [Hlt | ->]; [|rewrite ln_1; lra].
  pose proof (ln_increasing p 1 Hp Hlt) as H. rewrite ln_1 in H. lra.
Qed.

Lemma neg_ln_pos p : 0 < p -> p < 1 -> 0 < - ln p.
Proof.
  intros Hp Hlt.
  pose proof (ln_increasing p 1 Hp Hlt) as H. rewrite ln_1 in H. lra.
Qed.

Lemma sum_squares_nonneg A : 0 <= sum_squares A.
Proof.
  unfold sum_squares. apply sum_upto_nonneg; intros i _.
  apply sum_upto_nonneg; intros j _. apply Rle_0_sqr.
Qed.

Lemma sum_squares_pos A i j :
  (i < nrows A)%nat -> (j < ncols A)%nat -> get A i j <> 0 -> 0 < sum_squares A.
Proof.
  intros Hi Hj Hne. unfold sum_squares.
  apply sum_upto_pos with (k := i); [exact Hi | |].
  - intros i' _. apply sum_upto_nonneg; intros j' _. apply Rle_0_sqr.
  - apply sum_upto_pos with (k := j); [exact Hj | |].
    + intros j' _. apply Rle_0_sqr.
    + apply Rsqr_pos_lt in Hne. exact Hne.
Qed.

Section LossSign.

Variables (v : weights) (X : ndarray) (y : list Z) (reg : R).
Variables (N D H C : nat).
Hypothesis HN : nrows X = N.
Hypothesis Hshape : weights_shape D H C v.
Hypothesis HN1 : (1 <= N)%nat.
Hypothesis Hy : length y = N.
Hypothesis Hv : valid_labels C y.

Lemma ncols_W2 : ncols (wW2 v) = C.
Proof. apply (weights_shape_arrays Hshape). Qed.

Lemma classes_pos : (0 < C)%nat.
Proof. apply (valid_labels_classes Hv); lia. Qed.

Lemma cross_entropy_nonneg i : (i < N)%nat -> 0 <= cross_entropy v X y i.
Proof.
  intros Hi. unfold cross_entropy, prob. rewrite ncols_W2.
  apply neg_ln_nonneg; [apply softmax_pos, classes_pos|].
  apply softmax_le_1, (valid_label_lt Hv). lia.
Qed.

Lemma cross_entropy_pos i :
  (i < N)%nat -> (2 <= C)%nat -> 0 < cross_entropy v X y i.
Proof.
  intros Hi HC2. unfold cross_entropy, prob. rewrite ncols_W2.
  apply neg_ln_pos; [apply softmax_pos, classes_pos|].
  apply softmax_lt_1; [apply (valid_label_lt Hv); lia | exact HC2].
Qed.

Lemma inv_N_pos : 0 < 1 / INR N.
Proof.
  apply Rdiv_lt_0_compat; [lra | apply lt_0_INR; lia].
Qed.

Lemma data_loss_nonneg : 0 <= data_loss_formula v X y.
Proof.
  unfold data_loss_formula. rewrite HN.
  apply Rmult_le_pos; [left; apply inv_N_pos|].
  apply sum_upto_nonneg, cross_entropy_nonneg.
Qed.

Lemma data_loss_pos : (2 <= C)%nat -> 0 < data_loss_formula v X y.
Proof.
  intros HC2. unfold data_loss_formula. rewrite HN.
  apply Rmult_lt_0_compat; [apply inv_N_pos|].
  apply sum_upto_pos with (k := 0%nat); [lia | apply cross_entropy_nonneg|].
  apply cross_entropy_pos; [lia | exact HC2].
Qed.

Lemma reg_loss_nonneg : 0 <= reg -> 0 <= reg_loss_formula v reg.
Proof.
  intros Hreg. unfold reg_loss_formula.
  pose proof (sum_squares_nonneg (wW1 v)). pose proof (sum_squares_nonneg (wW2 v)).
  nra.
Qed.

Lemma loss_nonneg : 0 <= reg -> 0 <= loss_formula v X y reg.
Proof.
  intros Hreg. unfold loss_formula.
  pose proof data_loss_nonneg. pose proof (reg_loss_nonneg Hreg). lra.
Qed.

Lemma loss_pos_classes : 0 <= reg -> (2 <= C)%nat -> 0 < loss_formula v X y reg.
Proof.
  intros Hreg HC2. unfold loss_formula.
  pose proof (data_loss_pos HC2). pose proof (reg_loss_nonneg Hreg). lra.
Qed.

Lemma loss_pos_weights :
  0 < reg -> 0 < sum_squares (wW1 v) + sum_squares (wW2 v) ->
  0 < loss_formula v X y reg.
Proof.
  intros Hreg Hsq. unfold loss_formula, reg_loss_formula.
  pose proof data_loss_nonneg. nra.
Qed.

End LossSign.

(** ** Reordering a batch together with its labels *)

Section Reordering.

Variables (v : weights) (X : ndarray) (y : list Z) (reg : R).
Variables (N D : nat) (sigma : list nat).
Hypothesis HN : nrows X = N.
Hypothesis HD : ncols X = D.
Hypothesis Hy : length y = N.
Hypothesis Hperm : Permutation sigma (seq 0 N).

Lemma sigma_length : length sigma = N.
Proof. rewrite (Permutation_length Hperm). apply length_seq. Qed.

Lemma sigma_in k : In k sigma -> (k < N)%nat.
Proof.
  intros Hk. apply (Permutation_in _ Hperm) in Hk. apply in_seq in Hk. lia.
Qed.

Lemma sigma_lt i : (i < N)%nat -> (nth i sigma 0 < N)%nat.
Proof.
  intros Hi. apply sigma_in, nth_In. rewrite sigma_length. exact Hi.
Qed.

Lemma take_rows_sigma : np.take_rows X sigma = Ok (reordered_X X sigma).
Proof.
  unfold np.take_rows.
  replace (forallb (fun k => k <? nrows X) sigma) with true; [reflexivity|].
  symmetry. apply forallb_forall. intros k Hk. apply Nat.ltb_lt.
  rewrite HN. apply sigma_in, Hk.
Qed.

Lemma take_sigma : np.take y sigma = Ok (reordered_y y sigma).
Proof.
  unfold np.take.
  replace (forallb (fun k => k <? length y) sigma) with true; [reflexivity|].
  symmetry. apply forallb_forall. intros k Hk. apply Nat.ltb_lt.
  rewrite Hy. apply sigma_in, Hk.
Qed.

Lemma reordered_shape : shape (reordered_X X sigma) = (N, D).
Proof. unfold shape, reordered_X; simpl. rewrite sigma_length, HD. reflexivity. Qed.

Lemma reordered_y_length : length (reordered_y y sigma) = N.
Proof. unfold reordered_y. rewrite length_map. apply sigma_length. Qed.

Lemma reordered_y_valid C : valid_labels C y -> valid_labels C (reordered_y y sigma).
Proof.
  intros Hv. apply Forall_forall. intros z Hz.
  apply in_map_iff in Hz. destruct Hz as (k & <- & Hk).
  apply (proj1 (Forall_forall _ _) Hv). apply nth_In.
  rewrite Hy. apply sigma_in, Hk.
Qed.

Lemma reordered_label i :
  (i < N)%nat -> label (reordered_y y sigma) i = label y (nth i sigma 0%nat).
Proof.
  intros Hi. unfold label, reordered_y. f_equal.
  rewrite (nth_indep _ 0%Z (nth 0 y 0%Z))
    by (rewrite length_map, sigma_length; exact Hi).
  apply (map_nth (fun k => nth k y 0%Z)).
Qed.

Lemma reordered_get i d :
  (i < N)%nat -> (d < D)%nat ->
  get (reordered_X X sigma) i d = get X (nth i sigma 0%nat) d.
Proof.
  intros Hi Hd. unfold reordered_X. rewrite get_tabulate; [reflexivity | |].
  - rewrite sigma_length; exact Hi.
  - rewrite HD; exact Hd.
Qed.

Lemma reordered_pre_activation i k :
  (i < N)%nat ->
  pre_activation v (reordered_X X sigma) i k = pre_activation v X (nth i sigma 0%nat) k.
Proof.
  intros Hi. unfold pre_activation. f_equal.
  replace (ncols (reordered_X X sigma)) with (ncols X) by reflexivity.
  apply sum_upto_ext. intros d Hd.
  rewrite reordered_get by (rewrite <- ?HD; assumption). reflexivity.
Qed.

Lemma reordered_score i j :
  (i < N)%nat -> score v (reordered_X X sigma) i j = score v X (nth i sigma 0%nat) j.
Proof.
  intros Hi. unfold score, hidden. f_equal.
  apply sum_upto_ext. intros k Hk.
  rewrite reordered_pre_activation by exact Hi. reflexivity.
Qed.

Lemma reordered_cross_entropy i :
  (i < N)%nat ->
  cross_entropy v (reordered_X X sigma) (reordered_y y sigma) i
  = cross_entropy v X y (nth i sigma 0%nat).
Proof.
  intros Hi. unfold cross_entropy, prob, softmax.
  rewrite reordered_label by exact Hi.
  rewrite reordered_score by exact Hi.
  do 3 f_equal. apply sum_upto_ext. intros c Hc.
  rewrite reordered_score by exact Hi. reflexivity.
Qed.

(** The loss of the reordered batch is the loss of the batch. *)
Lemma loss_formula_reordered :
  loss_formula v (reordered_X X sigma) (reordered_y y sigma) reg = loss_formula v X y reg.
Proof.
  unfold loss_formula, data_loss_formula. f_equal.
  replace (nrows (reordered_X X sigma)) with N
    by (symmetry; apply (f_equal fst reordered_shape)).
  rewrite HN. f_equal.
  rewrite (@sum_upto_ext N _ (fun i => cross_entropy v X y (nth i sigma 0%nat))
             reordered_cross_entropy).
  unfold sum_upto.
  rewrite <- (map_map (fun i => nth i sigma 0%nat) (cross_entropy v X y)).
  rewrite <- sigma_length, map_nth_seq, sigma_length.
  apply sumR_permutation, Permutation_map, Hperm.
Qed.

End Reordering.

Lemma returns_unique A (c : Py A) w (P Q : A -> world -> Prop) :
  returns c w P -> returns c w Q -> returns c w (fun a w' => P a w' /\ Q a w').
Proof.
  intros (a & w1 & E1 & HP) (b & w2 & E2 & HQ).
  rewrite E1 in E2. inversion E2; subst.
  exists b, w2. repeat split; assumption.
Qed.

Lemma single_class_loss_formula :
  loss_formula single_class_weights (mkArr 1%nat 1%nat [[5]]) [0%Z] 1 = 0.
Proof.
  unfold loss_formula, data_loss_formula, reg_loss_formula, sum_squares.
  cbn [nrows ncols single_class_weights wW1 wW2 zero_cell].
  rewrite !sum_upto_S, !sum_upto_0.
  unfold cross_entropy, prob, softmax.
  cbn [nrows ncols single_class_weights wW1 wW2 zero_cell].
  rewrite !sum_upto_S, !sum_upto_0.
  change (label [0%Z] 0) with 0%nat.
  set (s := score _ _ 0%nat 0%nat).
  replace (exp s / (0 + exp s)) with 1
    by (field; apply Rgt_not_eq, Rlt_gt, exp_pos).
  rewrite ln_1. unfold get; simpl. lra.
Qed.

(** C9 as stated fails: the loss is not strictly positive for every batch
    with [reg > 0].  With one class and all parameters zero, [loss] returns
    exactly [0] for [reg = 1]. *)
Lemma loss_zero_single_class :
  returns (loss example_net 0%nat (Some [0%Z]) 1) single_class_world
          (fun r _ => exists g, r = LossGrads 0 g)
  /\ ~ returns (loss example_net 0%nat (Some [0%Z]) 1) single_class_world
         (fun r _ => exists l g, r = LossGrads l g /\ 0 < l).
Proof.
  assert (E : returns (loss example_net 0%nat (Some [0%Z]) 1) single_class_world
                (fun r _ => exists g, r = LossGrads 0 g)).
  { eapply (@loss_spec example_net 0%nat (mkArr 1%nat 1%nat [[5]])
              single_class_weights [0%Z] 1 1%nat 1%nat 1%nat 1%nat).
    - reflexivity.
    - repeat split.
    - reflexivity.
    - reflexivity.
    - repeat split.
    - lia.
    - reflexivity.
    - repeat constructor; simpl; lia.
    - intros g w' _ _ _ _. exists g.
      rewrite single_class_loss_formula. reflexivity. }
  split; [exact E|].
  intros F. destruct (returns_unique E F) as (r & w' & _ & (g & Hr) & (l & g' & Hr' & Hl)).
  rewrite Hr in Hr'. inversion Hr'. lra.
Qed.

(** C9 (amended).  In exact real arithmetic: for a batch [X] ([N x D],
    [N >= 1]) with valid labels and [reg > 0], the loss returned by [loss]
    is never negative, and it is strictly positive when there are at least
    two classes or some entry of [W1] or [W2] is not zero; reordering the
    rows of [X] together with the entries of [y] leaves the loss
    unchanged. *)
Theorem loss_sign_and_reordering self X X2 XA XP yP v y reg N D H C sigma w :
  lookup w X = Some XA -> net_holds w (params self) v ->
  shape XA = (N, D) -> weights_shape D H C v ->
  (1 <= N)%nat -> length y = N -> valid_labels C y -> 0 < reg ->
  Permutation sigma (seq 0 N) ->
  np.take_rows XA sigma = Ok XP -> np.take y sigma = Ok yP ->
  lookup w X2 = Some XP ->
  returns (loss self X (Some y) reg) w
    (fun r _ => exists l g,
       r = LossGrads l g /\ 0 <= l /\
       ((2 <= C)%nat \/
        (exists d k, (d < D)%nat /\ (k < H)%nat /\ get (wW1 v) d k <> 0) \/
        (exists k j, (k < H)%nat /\ (j < C)%nat /\ get (wW2 v) k j <> 0) ->
        0 < l) /\
       returns (loss self X2 (Some yP) reg) w
         (fun r2 _ => exists g2, r2 = LossGrads l g2)).
Proof.
  intros HX Hnet Hsh Hshape HN1 Hy Hv Hreg Hperm HXP HyP HX2.
  assert (HN : nrows XA = N) by exact (f_equal fst Hsh).
  assert (HD : ncols XA = D) by exact (f_equal snd Hsh).
  rewrite (@take_rows_sigma XA y N D sigma HN HD Hy Hperm) in HXP. inversion HXP; subst XP; clear HXP.
  rewrite (@take_sigma XA y N D sigma HN HD Hy Hperm) in HyP. inversion HyP; subst yP; clear HyP.
  eapply loss_spec; try eassumption.
  intros g w' _ _ _ _. exists (loss_formula v XA y reg), g.
  split; [reflexivity|]. split; [|split].
  - apply (@loss_nonneg v XA y reg N D H C HN Hshape HN1 Hy Hv). lra.
  - destruct (weights_shape_arrays Hshape) as (A1 & _ & A2 & _).
    intros [HC2 | [(d & k & Hd & Hk & Hne) | (k & j & Hk & Hj & Hne)]].
    + apply (@loss_pos_classes v XA y reg N D H C HN Hshape HN1 Hy Hv);
        [lra | exact HC2].
    + apply (@loss_pos_weights v XA y reg N D H C HN Hshape HN1 Hy Hv Hreg).
      pose proof (sum_squares_nonneg (wW2 v)).
      assert (0 < sum_squares (wW1 v)); [|lra].
      apply sum_squares_pos with (i := d) (j := k); [| |exact Hne].
      * rewrite (is_array_nrows A1); exact Hd.
      * rewrite (is_array_ncols A1); exact Hk.
    + apply (@loss_pos_weights v XA y reg N D H C HN Hshape HN1 Hy Hv Hreg).
      pose proof (sum_squares_nonneg (wW1 v)).
      assert (0 < sum_squares (wW2 v)); [|lra].
      apply sum_squares_pos with (i := k) (j := j); [| |exact Hne].
      * rewrite (is_array_nrows A2); exact Hk.
      * rewrite (is_array_ncols A2); exact Hj.
  - eapply (@loss_spec self X2 (reordered_X XA sigma) v (reordered_y y sigma)
              reg N D H C w); try eassumption.
    + unfold reordered_X; simpl. eapply sigma_length; eassumption.
    + eapply reordered_y_length; eassumption.
    + eapply reordered_y_valid; eassumption.
    + intros g2 w2 _ _ _ _. exists g2.
      erewrite loss_formula_reordered by eassumption. reflexivity.
Qed.

Lemma loss_sign_and_reordering_witness :
  returns (loss example_net 0%nat (Some example_y) 1) example_world
    (fun r _ => exists l g,
       r = LossGrads l g /\ 0 < l /\
       returns (loss example_net 6%nat (Some [0%Z; 1%Z]) 1) example_world
         (fun r2 _ => exists g2, r2 = LossGrads l g2)).
Proof.
  eapply returns_mono.
  - apply (@loss_sign_and_reordering example_net 0%nat 6%nat example_X
             example_X_swapped [0%Z; 1%Z] example_weights example_y 1
             2%nat 2%nat 2%nat 2%nat [1%nat; 0%nat] example_world).
    + reflexivity.
    + repeat split.
    + reflexivity.
    + repeat split.
    + lia.
    + reflexivity.
    + exact example_valid_labels.
    + lra.
    + apply perm_swap.
    + reflexivity.
    + reflexivity.
    + reflexivity.
  - intros r w' (l & g & Hr & _ & Hpos & Hsym).
    exists l, g. split; [exact Hr|]. split; [|exact Hsym].
    apply Hpos. left. lia.
Defined.

(** ** Prediction *)

Lemma argmax_scan_spec t : forall pre best_i best,
  (best_i < length pre)%nat -> best = nth best_i pre 0 ->
  (forall j, (j < length pre)%nat -> nth j pre 0 <= best) ->
  (forall j, (j < best_i)%nat -> nth j pre 0 < best) ->
  first_max (pre ++ t) (np.argmax_scan best_i best (length pre) t).
Proof.
  induction t as [|x t IH]; intros pre bi b Hbi Hb Hle Hlt.
  - simpl. rewrite app_nil_r. subst b. repeat split; assumption.
  - simpl.
    replace (pre ++ x :: t) with ((pre ++ [x]) ++ t)
      by (rewrite <- app_assoc; reflexivity).
    replace (S (length pre)) with (length (pre ++ [x]))
      by (rewrite length_app; simpl; lia).
    assert (Hnth : forall j, (j < length pre)%nat ->
                             nth j (pre ++ [x]) 0 = nth j pre 0)
      by (intros; apply app_nth1; assumption).
    assert (Hlast : nth (length pre) (pre ++ [x]) 0 = x)
      by (rewrite app_nth2, Nat.sub_diag by lia; reflexivity).
    destruct (Rlt_dec b x) as [Hbx|Hbx].
    + apply IH.
      * rewrite length_app; simpl; lia.
      * symmetry; exact Hlast.
      * intros j Hj. rewrite length_app in Hj; simpl in Hj.
        destruct (Nat.eq_dec j (length pre)) as [->|Hne]; [rewrite Hlast; lra|].
        rewrite Hnth by lia. specialize (Hle j ltac:(lia)). lra.
      * intros j Hj. rewrite Hnth by exact Hj. specialize (Hle j Hj). lra.
    + apply IH.
      * rewrite length_app; simpl; lia.
      * rewrite Hnth by exact Hbi. exact Hb.
      * intros j Hj. rewrite length_app in Hj; simpl in Hj.
        destruct (Nat.eq_dec j (length pre)) as [->|Hne]; [rewrite Hlast; lra|].
        rewrite Hnth by lia. apply Hle. lia.
      * intros j Hj. rewrite Hnth by lia. apply Hlt, Hj.
Qed.

Lemma argmax_list_spec l : l <> [] -> first_max l (np.argmax_list l).
Proof.
  destruct l as [|x t]; [congruence|]. intros _. simpl.
  apply (@argmax_scan_spec t [x] 0%nat x); simpl.
  - lia.
  - reflexivity.
  - intros j Hj. replace j with 0%nat by lia. lra.
  - intros j Hj. lia.
Qed.

Lemma nth_row A i j : (j < ncols A)%nat -> nth j (np.row A i) 0 = get A i j.
Proof. intros Hj. unfold np.row. apply (nth_map_seq (fun j => get A i j) 0 Hj). Qed.

Lemma length_row A i : length (np.row A i) = ncols A.
Proof. unfold np.row. rewrite length_map, length_seq. reflexivity. Qed.

(** What [np.argmax(A, axis=1)] returns for an array with at least one
    column. *)
Lemma argmax_axis1_spec A n m f :
  is_array A n m f -> (0 < m)%nat ->
  exists p, np.argmax_axis1 A = Ok p /\ length p = n /\
    forall i, (i < n)%nat ->
      exists k, nth i p 0%Z = Z.of_nat k /\ (k < m)%nat /\
        (forall j, (j < m)%nat -> f i j <= f i k) /\
        (forall j, (j < k)%nat -> f i j < f i k).
Proof.
  intros (Hn & Hm & Hf) Hpos. unfold np.argmax_axis1.
  destruct (ncols A =? 0) eqn:E; [apply Nat.eqb_eq in E; lia|].
  eexists; split; [reflexivity|]. split; [rewrite length_map, length_seq; exact Hn|].
  intros i Hi. exists (np.argmax_list (np.row A i)).
  assert (Hne : np.row A i <> []).
  { intros Hnil. pose proof (length_row A i) as L. rewrite Hnil in L. simpl in L. lia. }
  destruct (argmax_list_spec Hne) as (Hr & Hmax & Hfirst).
  rewrite length_row, Hm in Hr, Hmax.
  split; [|split; [exact Hr|split]].
  - rewrite Hn. apply (nth_map_seq (fun i => Z.of_nat (np.argmax_list (np.row A i)))).
    exact Hi.
  - intros j Hj. specialize (Hmax j Hj).
    rewrite !nth_row, !Hf in Hmax by (rewrite ?Hm; assumption). exact Hmax.
  - intros j Hj. specialize (Hfirst j Hj).
    rewrite !nth_row, !Hf in Hfirst by (rewrite ?Hm; lia). exact Hfirst.
Qed.

(** C6. For an input [X] with [M] rows, [predict] computes
    [scores = ReLU(X.W1 + b1).W2 + b2] and returns a vector of length [M]
    whose entry [i] is a class [k] in [[0, C)] with the largest score of row
    [i], every earlier class scoring strictly less (ties go to the lowest
    index); every array that existed before the call, the parameters among
    them, is left as it was. *)
Theorem predict_argmax self X XA v M D H C w :
  lookup w X = Some XA -> net_holds w (params self) v ->
  shape XA = (M, D) -> weights_shape D H C v -> (1 <= C)%nat ->
  returns (predict self X) w
    (fun y_pred w' =>
       length y_pred = M /\
       (forall i, (i < M)%nat ->
          exists k, nth i y_pred 0%Z = Z.of_nat k /\ (k < C)%nat /\
            (forall j, (j < C)%nat -> score v XA i j <= score v XA i k) /\
            (forall j, (j < k)%nat -> score v XA i j < score v XA i k)) /\
       (forall i, (i < M)%nat -> (0 <= nth i y_pred 0%Z < Z.of_nat C)%Z) /\
       net_holds w' (params self) v /\
       (forall l A, lookup w l = Some A -> lookup w' l = Some A)).
Proof.
  intros HX Hnet Hsh Hshape HC.
  assert (HN : nrows XA = M) by exact (f_equal fst Hsh).
  assert (HD : ncols XA = D) by exact (f_equal snd Hsh).
  unfold predict.
  apply returns_bind.
  eapply forward_spec; try eassumption.
  intros h1 out H1 OUT w' K _ _ _ _ _ _ Lout AOUT. simpl snd.
  unfold npy.argmax_axis1.
  apply returns_bind. eapply returns_load; [exact Lout|].
  destruct (argmax_axis1_spec AOUT HC) as (p & Hp & Hlen & Hmax).
  eapply returns_lift; [exact Hp|].
  split; [exact Hlen|]. split; [exact Hmax|]. split; [|split].
  - intros i Hi. destruct (Hmax i Hi) as (k & -> & Hk & _). lia.
  - apply (net_holds_kept K Hnet).
  - intros l A Hl. apply (heap_kept_lookup l K Hl).
Qed.

Lemma predict_argmax_witness :
  returns (predict example_net 0%nat) example_world
    (fun y_pred _ => length y_pred = 2%nat).
Proof.
  eapply returns_mono.
  - apply (@predict_argmax example_net 0%nat example_X example_weights
             2%nat 2%nat 2%nat 2%nat example_world).
    + reflexivity.
    + repeat split.
    + reflexivity.
    + repeat split.
    + lia.
  - intros p w' (Hlen & _). exact Hlen.
Defined.

(** ** One parameter update *)

Lemma kept_but_refl ls w : kept_but ls w w.
Proof. split; [lia | reflexivity]. Qed.

Lemma kept_but_trans ls w1 w2 w3 :
  kept_but ls w1 w2 -> kept_but ls w2 w3 -> kept_but ls w1 w3.
Proof.
  intros [L1 K1] [L2 K2]. split; [lia|].
  intros l Hl Hn. rewrite K2 by (lia || assumption). apply K1; assumption.
Qed.

Lemma kept_but_weaken ls ls' w w' :
  kept_but ls w w' -> incl ls ls' -> kept_but ls' w w'.
Proof.
  intros [L K] Hi. split; [exact L|].
  intros l Hl Hn. apply K; [exact Hl|]. intros Hin. apply Hn, Hi, Hin.
Qed.

Lemma heap_kept_but w w' : heap_kept w w' -> kept_but [] w w'.
Proof. intros [L K]. split; [exact L|]. intros l Hl _. apply K, Hl. Qed.

Lemma kept_but_allocated ls w w' A :
  kept_but ls w w' -> kept_but ls w (allocated w' A).
Proof.
  intros [L K]. split; [rewrite length_allocated; lia|].
  intros l Hl Hn. rewrite lookup_allocated_old by lia. apply K; assumption.
Qed.

Lemma kept_but_stored ls w w' l A :
  kept_but ls w w' -> In l ls \/ (length (heap w) <= l)%nat ->
  kept_but ls w (stored w' l A).
Proof.
  intros [L K] Hl. split; [rewrite length_stored; lia|].
  intros l' Hl' Hn. rewrite lookup_stored_other; [apply K; assumption|].
  intros ->. destruct Hl as [Hin|Hge]; [contradiction | lia].
Qed.

Lemma kept_but_lookup ls w w' l A :
  kept_but ls w w' -> ~ In l ls -> lookup w l = Some A -> lookup w' l = Some A.
Proof.
  intros [L K] Hn H. rewrite K; [exact H | eapply lookup_lt, H | exact Hn].
Qed.

Lemma shape_is_array A n m : shape A = (n, m) -> is_array A n m (get A).
Proof.
  intros E. apply is_array_get; [exact (f_equal fst E) | exact (f_equal snd E)].
Qed.

Lemma is_array_shape A n m f : is_array A n m f -> shape A = (n, m).
Proof. intros (Hn & Hm & _). unfold shape. rewrite Hn, Hm. reflexivity. Qed.

Lemma update_param_spec mu0 lr param v g P G n m ls w
    (Q : velocity -> world -> Prop) :
  lookup w param = Some P -> shape P = (n, m) ->
  lookup w g = Some G -> shape G = (n, m) ->
  vel_ok w ls v n m ->
  (forall lv V' P' w',
      kept_but [param] w w' -> random w' = random w ->
      (length (heap w) <= lv)%nat ->
      lookup w' lv = Some V' ->
      is_array V' n m (fun i j => mu0 * vel_entry w v i j - lr * get G i j) ->
      lookup w' param = Some P' ->
      is_array P' n m
        (fun i j => get P i j + (mu0 * vel_entry w v i j - lr * get G i j)) ->
      Q (Arr lv) w') ->
  returns (update_param mu0 lr param v g) w Q.
Proof.
  intros HP SP HG SG Hv HQ.
  pose proof (shape_is_array SP) as AP. pose proof (shape_is_array SG) as AG.
  pose proof (lookup_lt _ _ HP) as LP. pose proof (lookup_lt _ _ HG) as LG.
  unfold update_param.
  destruct v as [r|l]; simpl momentum.
  - apply returns_bind.
    step_map AG. intro_fresh lg LGA Hlg ALG.
    step_map ALG. intro_fresh lv V' Hlv AV.
    apply returns_ret.
    apply returns_bind. simpl apply_velocity.
    eapply returns_inplace2_arr;
      [solve_lookup | solve_lookup | apply (np_facts.iadd_spec AP AV) |].
    intros P' AP'. apply returns_ret.
    eapply HQ with (V' := V') (P' := P').
    + repeat first [ apply kept_but_stored; [|left; left; reflexivity]
                   | apply kept_but_allocated ]. apply kept_but_refl.
    + reflexivity.
    + heap_len.
    + solve_lookup.
    + exact AV.
    + solve_lookup.
    + exact AP'.
  - destruct Hv as (Hnl & V & HV & SV).
    pose proof (shape_is_array SV) as AV0.
    pose proof (lookup_lt _ _ HV) as LV.
    apply returns_bind.
    step_map AV0. intro_fresh mv MV Hmv AMV.
    step_map AG. intro_fresh lg LGA Hlg ALG.
    step_fresh2 ltac:(apply (np_facts.same_shape_spec Rminus AMV ALG)).
    intro_fresh lv V' Hlv AV.
    apply returns_ret.
    apply returns_bind. simpl apply_velocity.
    eapply returns_inplace2_arr;
      [solve_lookup | solve_lookup | apply (np_facts.iadd_spec AP AV) |].
    intros P' AP'. apply returns_ret.
    assert (AV' : is_array V' n m
                    (fun i j => mu0 * vel_entry w (Arr l) i j - lr * get G i j))
      by (simpl; rewrite HV; exact AV).
    eapply HQ with (V' := V') (P' := P').
    + repeat first [ apply kept_but_stored; [|left; left; reflexivity]
                   | apply kept_but_allocated ]. apply kept_but_refl.
    + reflexivity.
    + heap_len.
    + solve_lookup.
    + exact AV'.
    + solve_lookup.
    + eapply is_array_ext; [exact AP'|]. intros i j Hi Hj. simpl.
      rewrite HV. reflexivity.
Qed.

(** ** Predictions and accuracy *)

Lemma predictions_length v X : length (predictions v X) = nrows X.
Proof. unfold predictions. rewrite length_map, length_seq. reflexivity. Qed.

Lemma mean_eq_same_length p y :
  length p = length y -> np.mean_eq p y = Ok (accuracy p y).
Proof.
  intros E. unfold np.mean_eq, accuracy. rewrite <- E, np_facts.bdim_same.
  do 2 f_equal. apply sum_upto_ext. intros i Hi.
  rewrite np_facts.bidx_lt by exact Hi. reflexivity.
Qed.

Lemma predict_spec self X XA v M D H C w (Q : list Z -> world -> Prop) :
  lookup w X = Some XA -> net_holds w (params self) v ->
  shape XA = (M, D) -> weights_shape D H C v -> (1 <= C)%nat ->
  (forall w', heap_kept w w' -> random w' = random w ->
              Q (predictions v XA) w') ->
  returns (predict self X) w Q.
Proof.
  intros HX Hnet Hsh Hshape HC HQ.
  assert (HN : nrows XA = M) by exact (f_equal fst Hsh).
  assert (HD : ncols XA = D) by exact (f_equal snd Hsh).
  assert (EC : ncols (wW2 v) = C) by apply (weights_shape_arrays Hshape).
  unfold predict.
  apply returns_bind.
  eapply forward_spec; try eassumption.
  intros h1 out H1 OUT w' K Hr _ _ _ _ _ Lout (On & Om & Of). simpl snd.
  unfold npy.argmax_axis1.
  apply returns_bind. eapply returns_load; [exact Lout|].
  eapply returns_lift; [|apply (HQ w' K Hr)].
  unfold np.argmax_axis1, predictions.
  destruct (ncols OUT =? 0) eqn:E; [apply Nat.eqb_eq in E; lia|].
  f_equal. rewrite On, HN. apply map_ext_in. intros i Hi. apply in_seq in Hi.
  do 2 f_equal. unfold np.row. rewrite Om, EC.
  apply map_ext_in. intros j Hj. apply in_seq in Hj. apply Of; lia.
Qed.

(** ** Drawing a minibatch *)

Lemma draw_ints_length r a n : length (draw_ints r a n) = n.
Proof. unfold draw_ints. rewrite length_map, length_seq. reflexivity. Qed.

Lemma draw_ints_below r a n k :
  (0 < a)%nat -> In k (draw_ints r a n) -> (k < a)%nat.
Proof.
  intros Ha Hk. unfold draw_ints in Hk. apply in_map_iff in Hk.
  destruct Hk as (i & <- & _). apply Nat.mod_upper_bound. lia.
Qed.

Lemma returns_random_choice a size w (Q : list nat -> world -> Prop) :
  (0 < a)%nat -> (0 <= size)%Z ->
  (forall w', heap w' = heap w ->
              random w' = skip_ints (random w) (Z.to_nat size) ->
              Q (draw_ints (random w) a (Z.to_nat size)) w') ->
  returns (npy.random_choice a size) w Q.
Proof.
  intros Ha Hs HQ. unfold npy.random_choice.
  replace ((a =? 0) || (size <? 0)%Z) with false.
  - eexists _, _. split; [reflexivity|]. apply HQ; reflexivity.
  - symmetry. apply orb_false_iff. split; [apply Nat.eqb_neq | apply Z.ltb_ge]; lia.
Qed.

Lemma take_rows_below X idx :
  (forall k, In k idx -> (k < nrows X)%nat) ->
  np.take_rows X idx = Ok (reordered_X X idx).
Proof.
  intros H. unfold np.take_rows.
  replace (forallb (fun k => k <? nrows X) idx) with true; [reflexivity|].
  symmetry. apply forallb_forall. intros k Hk. apply Nat.ltb_lt, H, Hk.
Qed.

Lemma take_below y idx :
  (forall k, In k idx -> (k < length y)%nat) ->
  np.take y idx = Ok (reordered_y y idx).
Proof.
  intros H. unfold np.take.
  replace (forallb (fun k => k <? length y) idx) with true; [reflexivity|].
  symmetry. apply forallb_forall. intros k Hk. apply Nat.ltb_lt, H, Hk.
Qed.

Lemma reordered_valid C y idx :
  valid_labels C y -> (forall k, In k idx -> (k < length y)%nat) ->
  valid_labels C (reordered_y y idx).
Proof.
  intros Hv H. apply Forall_forall. intros z Hz.
  apply in_map_iff in Hz. destruct Hz as (k & <- & Hk).
  apply (proj1 (Forall_forall _ _) Hv). apply nth_In, H, Hk.
Qed.

Lemma nodup4 (a b c d : loc) :
  NoDup [a; b; c; d] ->
  a <> b /\ a <> c /\ a <> d /\ b <> c /\ b <> d /\ c <> d.
Proof.
  intros Hnd. inversion Hnd as [|? ? Ha Hnd1]; subst.
  inversion Hnd1 as [|? ? Hb Hnd2]; subst.
  inversion Hnd2 as [|? ? Hc _]; subst.
  simpl in *. intuition.
Qed.

Lemma vel_ok_kept ls w w' v n m :
  kept_but ls w w' -> vel_ok w ls v n m -> vel_ok w' ls v n m.
Proof.
  intros K. destruct v as [r|l]; simpl; [auto|].
  intros (Hn & V & HV & SV). split; [exact Hn|].
  exists V. split; [apply (kept_but_lookup l K Hn HV) | exact SV].
Qed.

Lemma vel_entry_kept ls w w' v n m i j :
  kept_but ls w w' -> vel_ok w ls v n m ->
  vel_entry w' v i j = vel_entry w v i j.
Proof.
  intros K. destruct v as [r|l]; simpl; [reflexivity|].
  intros (Hn & V & HV & SV).
  rewrite (kept_but_lookup l K Hn HV), HV. reflexivity.
Qed.

(** ** One iteration of training *)

Section Training.

Variables (self : TwoLayerNet) (X : loc) (XA : ndarray) (y : list Z).
Variables (X_val : loc) (XvA : ndarray) (y_val : list Z).
Variables (learning_rate_decay reg mu_increase : R).
Variables (batch_size : Z) (verbose : bool).
Variables (N D H C Nv : nat).

Hypothesis HXshape : shape XA = (N, D).
Hypothesis HN1 : (1 <= N)%nat.
Hypothesis Hy : length y = N.
Hypothesis Hv : valid_labels C y.
Hypothesis Hbatch : (1 <= batch_size)%Z.
Hypothesis HXvshape : shape XvA = (Nv, D).
Hypothesis Hyv : length y_val = Nv.
Hypothesis Hnodup : NoDup (param_locs (params self)).
Hypothesis HXp : ~ In X (param_locs (params self)).
Hypothesis HXvp : ~ In X_val (param_locs (params self)).

Lemma batch_index_below w k : In k (batch_index batch_size N w) -> (k < N)%nat.
Proof. apply draw_ints_below. lia. Qed.

Lemma batch_X_shape w : shape (batch_X XA batch_size N w) = (Z.to_nat batch_size, D).
Proof.
  unfold shape, batch_X, reordered_X, batch_index; simpl.
  rewrite draw_ints_length. f_equal. exact (f_equal snd HXshape).
Qed.

Lemma batch_y_length w : length (batch_y y batch_size N w) = Z.to_nat batch_size.
Proof.
  unfold batch_y, reordered_y, batch_index.
  rewrite length_map, draw_ints_length. reflexivity.
Qed.

Lemma batch_y_valid w : valid_labels C (batch_y y batch_size N w).
Proof.
  apply reordered_valid; [exact Hv|]. intros k Hk. rewrite Hy.
  apply (batch_index_below w), Hk.
Qed.


Ltac not_in_locs := unfold param_locs; simpl; intuition lia.

(** Carrying a lookup across a step that kept everything but [ls]. *)
Ltac carry K H :=
  eapply kept_but_lookup; [exact K | not_in_locs | exact H].

Ltac widen K :=
  eapply kept_but_weaken; [exact K | intros ? [<-|[]]; unfold param_locs; simpl; auto].

Lemma train_step_spec ipe it w s v :
  train_inv self X XA X_val XvA D H C w s v ->
  returns (train_step self X y X_val y_val learning_rate_decay reg mu_increase
             batch_size verbose N ipe it s) w
          (step_post self X XA y X_val XvA y_val learning_rate_decay reg
            mu_increase batch_size verbose N D H C ipe it w s v).
Proof.
  intros (Hnet & Hshape & HX & HXv & V2 & VB2 & V1 & VB1).
  pose proof Hnet as (HW1 & Hb1 & HW2 & Hb2).
  destruct (nodup4 Hnodup) as (N12 & N13 & N14 & N23 & N24 & N34).
  pose proof (lookup_lt _ _ HW1) as LW1. pose proof (lookup_lt _ _ Hb1) as Lb1.
  pose proof (lookup_lt _ _ HW2) as LW2. pose proof (lookup_lt _ _ Hb2) as Lb2.
  pose proof (lookup_lt _ _ HX) as LX. pose proof (lookup_lt _ _ HXv) as LXv.
  destruct (weights_shape_arrays Hshape) as (A1 & AB1 & A2 & AB2).
  assert (HB : (1 <= Z.to_nat batch_size)%nat) by lia.
  assert (HNr : nrows XA = N) by exact (f_equal fst HXshape).
  unfold train_step.
  (* the minibatch *)
  apply returns_bind.
  apply returns_random_choice; [lia | lia |].
  intros w1 Hheap1 Hrnd1.
  assert (K1 : heap_kept w w1).
  { split; [rewrite Hheap1; lia|]. intros l _. unfold lookup. rewrite Hheap1. reflexivity. }
  fold (batch_index batch_size N w).
  apply returns_bind.
  eapply returns_fresh1;
    [apply (heap_kept_lookup X K1 HX)
    | apply take_rows_below; intros k Hk; rewrite HNr;
      apply (batch_index_below w), Hk |].
  fold (batch_X XA batch_size N w).
  apply returns_bind.
  eapply returns_lift;
    [apply take_below; intros k Hk; rewrite Hy; apply (batch_index_below w), Hk|].
  fold (batch_y y batch_size N w).
  set (xb := length (heap w1)).
  assert (K1a : heap_kept w (allocated w1 (batch_X XA batch_size N w)))
    by (apply heap_kept_allocated, K1).
  (* the loss and the gradients *)
  apply returns_bind.
  eapply (@loss_spec self xb (batch_X XA batch_size N w) v (batch_y y batch_size N w) reg
            (Z.to_nat batch_size) D H C).
  { apply lookup_allocated_new. reflexivity. }
  { apply (net_holds_kept K1a Hnet). }
  { exact (f_equal fst (batch_X_shape w)). }
  { exact (f_equal snd (batch_X_shape w)). }
  { exact Hshape. }
  { exact HB. }
  { apply batch_y_length. }
  { apply batch_y_valid. }
  intros g w2 K2 R2 (G1 & GB1 & G2 & GB2 & [LG1 AG1] & [LGB1 AGB1] & [LG2 AG2] & [LGB2 AGB2])
         (F1 & FB1 & F2 & FB2 & _).
  rewrite length_allocated in F1, FB1, F2, FB2.
  assert (K02 : heap_kept w w2) by (eapply heap_kept_trans; [exact K1a | exact K2]).
  assert (Lxb : lookup w2 xb = Some (batch_X XA batch_size N w)).
  { apply (heap_kept_lookup xb K2). apply lookup_allocated_new. reflexivity. }
  assert (Len1 : length (heap w1) = length (heap w)) by (rewrite Hheap1; reflexivity).
  pose proof (proj1 K02) as Len2.
  assert (KP2 : kept_but (param_locs (params self)) w w2)
    by (apply kept_but_weaken with (ls := []);
        [apply heap_kept_but, K02 | intros ? []]).
  assert (LXv2 : lookup w2 X_val = Some XvA) by apply (heap_kept_lookup X_val K02 HXv).
  assert (LX2 : lookup w2 X = Some XA) by apply (heap_kept_lookup X K02 HX).
  pose proof (net_holds_kept K02 Hnet) as (HW1_2 & Hb1_2 & HW2_2 & Hb2_2).
  (* W2 *)
  apply returns_bind.
  eapply (@update_param_spec (mu s) (learning_rate s) (W2 (params self))
            (v_W2 s) (W2 g) (wW2 v) G2 H C (param_locs (params self)) w2);
    [ exact HW2_2 | apply (is_array_shape A2) | exact LG2
    | apply (is_array_shape AG2) | eapply vel_ok_kept; [exact KP2 | exact V2] |].
  intros lv2 NV2 P2 w3 K3 R3 Flv2 LV2 AV2 LP2 AP2.
  pose proof (proj1 K3) as Len3.
  assert (KP3 : kept_but (param_locs (params self)) w w3)
    by (eapply kept_but_trans; [exact KP2 | widen K3]).
  assert (HW1_3 : lookup w3 (W1 (params self)) = Some (wW1 v)) by carry K3 HW1_2.
  assert (Hb1_3 : lookup w3 (b1 (params self)) = Some (wb1 v)) by carry K3 Hb1_2.
  assert (Hb2_3 : lookup w3 (b2 (params self)) = Some (wb2 v)) by carry K3 Hb2_2.
  assert (LG1_3 : lookup w3 (W1 g) = Some G1) by carry K3 LG1.
  assert (LGB1_3 : lookup w3 (b1 g) = Some GB1) by carry K3 LGB1.
  assert (LGB2_3 : lookup w3 (b2 g) = Some GB2) by carry K3 LGB2.
  (* b2 *)
  apply returns_bind.
  eapply (@update_param_spec (mu s) (learning_rate s) (b2 (params self))
            (v_b2 s) (b2 g) (wb2 v) GB2 1%nat C (param_locs (params self)) w3);
    [ exact Hb2_3 | apply (is_array_shape AB2) | exact LGB2_3
    | apply (is_array_shape AGB2) | eapply vel_ok_kept; [exact KP3 | exact VB2] |].
  intros lvb2 NVB2 PB2 w4 K4 R4 Flvb2 LVB2 AVB2 LPB2 APB2.
  pose proof (proj1 K4) as Len4.
  assert (KP4 : kept_but (param_locs (params self)) w w4)
    by (eapply kept_but_trans; [exact KP3 | widen K4]).
  assert (HW1_4 : lookup w4 (W1 (params self)) = Some (wW1 v)) by carry K4 HW1_3.
  assert (Hb1_4 : lookup w4 (b1 (params self)) = Some (wb1 v)) by carry K4 Hb1_3.
  assert (LP2_4 : lookup w4 (W2 (params self)) = Some P2) by carry K4 LP2.
  assert (LG1_4 : lookup w4 (W1 g) = Some G1) by carry K4 LG1_3.
  assert (LGB1_4 : lookup w4 (b1 g) = Some GB1) by carry K4 LGB1_3.
  assert (LV2_4 : lookup w4 lv2 = Some NV2) by carry K4 LV2.
  (* W1 *)
  apply returns_bind.
  eapply (@update_param_spec (mu s) (learning_rate s) (W1 (params self))
            (v_W1 s) (W1 g) (wW1 v) G1 D H (param_locs (params self)) w4);
    [ exact HW1_4 | apply (is_array_shape A1) | exact LG1_4
    | apply (is_array_shape AG1) | eapply vel_ok_kept; [exact KP4 | exact V1] |].
  intros lv1 NV1 P1 w5 K5 R5 Flv1 LV1 AV1 LP1 AP1.
  pose proof (proj1 K5) as Len5.
  assert (KP5 : kept_but (param_locs (params self)) w w5)
    by (eapply kept_but_trans; [exact KP4 | widen K5]).
  assert (Hb1_5 : lookup w5 (b1 (params self)) = Some (wb1 v)) by carry K5 Hb1_4.
  assert (LP2_5 : lookup w5 (W2 (params self)) = Some P2) by carry K5 LP2_4.
  assert (LPB2_5 : lookup w5 (b2 (params self)) = Some PB2) by carry K5 LPB2.
  assert (LGB1_5 : lookup w5 (b1 g) = Some GB1) by carry K5 LGB1_4.
  assert (LV2_5 : lookup w5 lv2 = Some NV2) by carry K5 LV2_4.
  assert (LVB2_5 : lookup w5 lvb2 = Some NVB2) by carry K5 LVB2.
  (* b1 *)
  apply returns_bind.
  eapply (@update_param_spec (mu s) (learning_rate s) (b1 (params self))
            (v_b1 s) (b1 g) (wb1 v) GB1 1%nat H (param_locs (params self)) w5);
    [ exact Hb1_5 | apply (is_array_shape AB1) | exact LGB1_5
    | apply (is_array_shape AGB1) | eapply vel_ok_kept; [exact KP5 | exact VB1] |].
  intros lvb1 NVB1 PB1 w6 K6 R6 Flvb1 LVB1 AVB1 LPB1 APB1.
  pose proof (proj1 K6) as Len6.
  assert (KP6 : kept_but (param_locs (params self)) w w6)
    by (eapply kept_but_trans; [exact KP5 | widen K6]).
  assert (LP2_6 : lookup w6 (W2 (params self)) = Some P2) by carry K6 LP2_5.
  assert (LPB2_6 : lookup w6 (b2 (params self)) = Some PB2) by carry K6 LPB2_5.
  assert (LP1_6 : lookup w6 (W1 (params self)) = Some P1) by carry K6 LP1.
  assert (LV2_6 : lookup w6 lv2 = Some NV2) by carry K6 LV2_5.
  assert (LVB2_6 : lookup w6 lvb2 = Some NVB2) by carry K6 LVB2_5.
  assert (LV1_6 : lookup w6 lv1 = Some NV1) by carry K6 LV1.
  assert (LX6 : lookup w6 X = Some XA)
    by (eapply kept_but_lookup; [exact KP6 | exact HXp | exact HX]).
  assert (LXv6 : lookup w6 X_val = Some XvA)
    by (eapply kept_but_lookup; [exact KP6 | exact HXvp | exact HXv]).
  assert (Lxb6 : lookup w6 xb = Some (batch_X XA batch_size N w)).
  { apply kept_but_lookup with (ls := param_locs (params self)) (w := w2);
      [ | subst xb; not_in_locs | exact Lxb].
    apply kept_but_trans with (w2 := w3); [widen K3|].
    apply kept_but_trans with (w2 := w4); [widen K4|].
    apply kept_but_trans with (w2 := w5); [widen K5 | widen K6]. }
  (* the state after the four updates *)
  set (v' := mkWeights P1 PB1 P2 PB2).
  assert (Hshape' : weights_shape D H C v').
  { unfold weights_shape; simpl.
    rewrite (is_array_shape AP1), (is_array_shape APB1),
            (is_array_shape AP2), (is_array_shape APB2). auto. }
  assert (Hnet6 : net_holds w6 (params self) v') by (repeat split; assumption).
  assert (HC : (1 <= C)%nat) by (apply (valid_labels_classes Hv); lia).
  assert (EV2 : forall i j, vel_entry w2 (v_W2 s) i j = vel_entry w (v_W2 s) i j)
    by (intros; eapply vel_entry_kept; [exact KP2 | exact V2]).
  assert (EVB2 : forall i j, vel_entry w3 (v_b2 s) i j = vel_entry w (v_b2 s) i j)
    by (intros; eapply vel_entry_kept; [exact KP3 | exact VB2]).
  assert (EV1 : forall i j, vel_entry w4 (v_W1 s) i j = vel_entry w (v_W1 s) i j)
    by (intros; eapply vel_entry_kept; [exact KP4 | exact V1]).
  assert (EVB1 : forall i j, vel_entry w5 (v_b1 s) i j = vel_entry w (v_b1 s) i j)
    by (intros; eapply vel_entry_kept; [exact KP5 | exact VB1]).
  assert (Common : forall w' s',
    heap_kept w6 w' -> random w' = random w6 ->
    v_W2 s' = Arr lv2 -> v_b2 s' = Arr lvb2 ->
    v_W1 s' = Arr lv1 -> v_b1 s' = Arr lvb1 ->
    loss_history s' =
      loss_history s ++ [loss_formula v (batch_X XA batch_size N w) (batch_y y batch_size N w) reg] ->
    (if verbose && (it mod ipe =? 0)%Z then
       train_acc_history s' =
         train_acc_history s ++ [accuracy (predictions v' (batch_X XA batch_size N w)) (batch_y y batch_size N w)] /\
       val_acc_history s' =
         val_acc_history s ++ [accuracy (predictions v' XvA) y_val] /\
       learning_rate s' = learning_rate s * learning_rate_decay /\
       mu s' = mu s * mu_increase
     else
       train_acc_history s' = train_acc_history s /\
       val_acc_history s' = val_acc_history s /\
       learning_rate s' = learning_rate s /\
       mu s' = mu s) ->
    step_post self X XA y X_val XvA y_val learning_rate_decay reg
            mu_increase batch_size verbose N D H C ipe it w s v s' w').
  { intros w' s' K' R' E2 EB2 E1 EB1 EL Hif.
    pose proof (proj1 K') as Len'.
    exists v'. split; [|split; [|split; [|split; [exact EL|]]]].
    - unfold train_inv. rewrite E2, EB2, E1, EB1.
      split; [apply (net_holds_kept K' Hnet6)|]. split; [exact Hshape'|].
      split; [apply (heap_kept_lookup X K' LX6)|].
      split; [apply (heap_kept_lookup X_val K' LXv6)|].
      simpl. repeat split.
      + not_in_locs.
      + exists NV2. split; [apply (heap_kept_lookup lv2 K' LV2_6) | apply (is_array_shape AV2)].
      + not_in_locs.
      + exists NVB2. split; [apply (heap_kept_lookup lvb2 K' LVB2_6) | apply (is_array_shape AVB2)].
      + not_in_locs.
      + exists NV1. split; [apply (heap_kept_lookup lv1 K' LV1_6) | apply (is_array_shape AV1)].
      + not_in_locs.
      + exists NVB1. split; [apply (heap_kept_lookup lvb1 K' LVB1) | apply (is_array_shape AVB1)].
    - rewrite R', R6, R5, R4, R3, R2. exact Hrnd1.
    - eapply kept_but_trans; [exact KP6|].
      apply kept_but_weaken with (ls := []); [apply heap_kept_but, K' | intros ? []].
    - rewrite E2, EB2, E1, EB1. unfold vel_is, new_velocity.
      split; [|split; [|split; [|split; [|exact Hif]]]]; (split;
        [ eexists _, _; split; [reflexivity|]; split;
          [ first [ apply (heap_kept_lookup lv2 K' LV2_6)
                  | apply (heap_kept_lookup lvb2 K' LVB2_6)
                  | apply (heap_kept_lookup lv1 K' LV1_6)
                  | apply (heap_kept_lookup lvb1 K' LVB1) ] | ]
        | ]).
      + eapply is_array_ext; [exact AV2|]. intros i j Hi Hj. simpl.
        rewrite EV2, (is_array_at AG2 Hi Hj). reflexivity.
      + eapply is_array_ext; [exact AP2|]. intros i j Hi Hj. simpl.
        rewrite EV2, (is_array_at AG2 Hi Hj). reflexivity.
      + eapply is_array_ext; [exact AVB2|]. intros i j Hi Hj. simpl.
        rewrite EVB2, (is_array_at AGB2 Hi Hj). reflexivity.
      + eapply is_array_ext; [exact APB2|]. intros i j Hi Hj. simpl.
        rewrite EVB2, (is_array_at AGB2 Hi Hj). reflexivity.
      + eapply is_array_ext; [exact AV1|]. intros i j Hi Hj. simpl.
        rewrite EV1, (is_array_at AG1 Hi Hj). reflexivity.
      + eapply is_array_ext; [exact AP1|]. intros i j Hi Hj. simpl.
        rewrite EV1, (is_array_at AG1 Hi Hj). reflexivity.
      + eapply is_array_ext; [exact AVB1|]. intros i j Hi Hj. simpl.
        rewrite EVB1, (is_array_at AGB1 Hi Hj). reflexivity.
      + eapply is_array_ext; [exact APB1|]. intros i j Hi Hj. simpl.
        rewrite EVB1, (is_array_at AGB1 Hi Hj). reflexivity. }
  (* the end-of-epoch block *)
  destruct (verbose && (it mod ipe =? 0)%Z) eqn:Eif.
  - apply returns_bind.
    eapply (@predict_spec self xb (batch_X XA batch_size N w) v' (Z.to_nat batch_size) D H C w6);
      [exact Lxb6 | exact Hnet6 | apply batch_X_shape | exact Hshape' | exact HC |].
    intros w7 K7 R7.
    apply returns_bind. eapply returns_lift.
    { apply mean_eq_same_length.
      rewrite predictions_length, batch_y_length.
      exact (f_equal fst (batch_X_shape w)). }
    apply returns_bind.
    eapply (@predict_spec self X_val XvA v' Nv D H C w7);
      [ apply (heap_kept_lookup X_val K7 LXv6) | apply (net_holds_kept K7 Hnet6)
      | exact HXvshape | exact Hshape' | exact HC |].
    intros w8 K8 R8.
    apply returns_bind. eapply returns_lift.
    { apply mean_eq_same_length.
      rewrite predictions_length, Hyv. exact (f_equal fst HXvshape). }
    apply returns_ret.
    apply Common; try reflexivity.
    + eapply heap_kept_trans; [exact K7 | exact K8].
    + rewrite R8, R7. reflexivity.
    + simpl. auto.
  - apply returns_ret.
    apply Common; try reflexivity.
    + apply heap_kept_refl.
    + simpl. auto.
Qed.

(** ** The training loop *)

Lemma skip_ints_0 r : skip_ints r 0 = r.
Proof. destruct r. unfold skip_ints; simpl. rewrite Nat.add_0_r. reflexivity. Qed.

Lemma skip_ints_skip r a b : skip_ints (skip_ints r a) b = skip_ints r (a + b).
Proof. unfold skip_ints; simpl. rewrite Nat.add_assoc. reflexivity. Qed.

Lemma for_each_spec ipe its : forall w s v,
  train_inv self X XA X_val XvA D H C w s v ->
  returns (for_each (train_step self X y X_val y_val learning_rate_decay reg
                       mu_increase batch_size verbose N ipe) its s) w
          (run_post self X XA X_val XvA learning_rate_decay mu_increase
             batch_size verbose D H C ipe its w s).
Proof.
  induction its as [|it its IH]; intros w s v Inv.
  - simpl. apply returns_ret.
    exists v, [], [], []. simpl.
    rewrite !app_nil_r, !Rmult_1_r, skip_ints_0.
    repeat split; try reflexivity; try exact Inv; try apply kept_but_refl;
      try apply Inv.
  - simpl. apply returns_bind.
    eapply returns_mono; [apply (train_step_spec ipe it Inv)|].
    intros s1 w1 (v1 & Inv1 & R1 & KP1 & EL & _ & _ & _ & _ & Hif).
    eapply returns_mono; [apply (IH w1 s1 v1 Inv1)|].
    intros s2 w2 (v2 & ls & ta & va & Inv2 & EL2 & Hls & ET & EV & Hta & Hva & Elr & Emu & R2 & KP2).
    unfold run_post.
    change (epoch_ends verbose ipe (it :: its))
      with (if verbose && (it mod ipe =? 0)%Z
            then it :: epoch_ends verbose ipe its else epoch_ends verbose ipe its).
    destruct (verbose && (it mod ipe =? 0)%Z).
    + destruct Hif as (ET1 & EV1 & Elr1 & Emu1).
      exists v2, (loss_formula v (batch_X XA batch_size N w) (batch_y y batch_size N w) reg :: ls),
             (accuracy (predictions v1 (batch_X XA batch_size N w)) (batch_y y batch_size N w) :: ta),
             (accuracy (predictions v1 XvA) y_val :: va).
      split; [exact Inv2|].
      split; [rewrite EL2, EL, <- app_assoc; reflexivity|].
      split; [simpl; rewrite Hls; reflexivity|].
      split; [rewrite ET, ET1, <- app_assoc; reflexivity|].
      split; [rewrite EV, EV1, <- app_assoc; reflexivity|].
      split; [simpl; rewrite Hta; reflexivity|].
      split; [simpl; rewrite Hva; reflexivity|].
      split; [rewrite Elr, Elr1; simpl; ring|].
      split; [rewrite Emu, Emu1; simpl; ring|].
      split; [rewrite R2, R1, skip_ints_skip; reflexivity|].
      eapply kept_but_trans; eassumption.
    + destruct Hif as (ET1 & EV1 & Elr1 & Emu1).
      exists v2, (loss_formula v (batch_X XA batch_size N w) (batch_y y batch_size N w) reg :: ls), ta, va.
      split; [exact Inv2|].
      split; [rewrite EL2, EL, <- app_assoc; reflexivity|].
      split; [simpl; rewrite Hls; reflexivity|].
      split; [rewrite ET, ET1; reflexivity|].
      split; [rewrite EV, EV1; reflexivity|].
      split; [exact Hta|]. split; [exact Hva|].
      split; [rewrite Elr, Elr1; reflexivity|].
      split; [rewrite Emu, Emu1; reflexivity|].
      split; [rewrite R2, R1, skip_ints_skip; reflexivity|].
      eapply kept_but_trans; eassumption.
Qed.

End Training.

(** ** A whole training run *)

Lemma xrange_length a b : length (xrange a b) = Z.to_nat (b - a).
Proof. unfold xrange. rewrite length_map, length_seq. reflexivity. Qed.

Lemma xrange_iterations N num_epochs batch_size :
  length (xrange 1 (num_epochs * Z.max (Z.of_nat N / batch_size) 1 + 1))
  = iterations N num_epochs batch_size.
Proof. rewrite xrange_length. unfold iterations. f_equal. lia. Qed.

Lemma train_ready_inv self X XA y X_val XvA y_val batch_size N D H C Nv v w
    lr mu0 :
  train_ready self X XA y X_val XvA y_val batch_size N D H C Nv v w ->
  train_inv self X XA X_val XvA D H C w (initial_loop_state lr mu0) v.
Proof.
  intros (HX & HXv & Hnet & Hshape & _).
  unfold train_inv, initial_loop_state; simpl.
  split; [exact Hnet|]. split; [exact Hshape|]. repeat split; assumption.
Qed.

Lemma train_run_spec self X XA y X_val XvA y_val lr decay reg mu0 num_epochs
    mu_increase batch_size verbose N D H C Nv v w :
  train_ready self X XA y X_val XvA y_val batch_size N D H C Nv v w ->
  returns (train_run self X y X_val y_val lr decay reg mu0 num_epochs
             mu_increase batch_size verbose) w
    (run_post self X XA X_val XvA decay mu_increase batch_size verbose D H C
       (Z.max (Z.of_nat N / batch_size) 1)
       (xrange 1 (num_epochs * Z.max (Z.of_nat N / batch_size) 1 + 1))
       w (initial_loop_state lr mu0)).
Proof.
  intros Hready.
  pose proof (train_ready_inv lr mu0 Hready) as Inv.
  destruct Hready as (HX & HXv & Hnet & Hshape & HXs & HN1 & Hy & Hv & Hb &
                      HXvs & Hyv & Hnd & HXp & HXvp).
  unfold train_run.
  apply returns_bind. eapply returns_load; [exact HX|].
  rewrite (f_equal fst HXs : nrows XA = N).
  apply returns_bind. unfold int_div.
  replace (batch_size =? 0)%Z with false by (symmetry; apply Z.eqb_neq; lia).
  apply returns_ret.
  apply (@for_each_spec self X XA y X_val XvA y_val decay reg mu_increase
           batch_size verbose N D H C Nv HXs HN1 Hy Hv Hb HXvs Hyv Hnd HXp HXvp
           (Z.max (Z.of_nat N / batch_size) 1)
           (xrange 1 (num_epochs * Z.max (Z.of_nat N / batch_size) 1 + 1))
           w (initial_loop_state lr mu0) v Inv).
Qed.

Lemma example_train_ready batch_size :
  (1 <= batch_size)%Z ->
  train_ready example_net 0%nat example_X example_y 5%nat example_X example_y
    batch_size 2%nat 2%nat 2%nat 2%nat 2%nat example_weights example_world.
Proof.
  intros Hb. unfold train_ready.
  split; [reflexivity|]. split; [reflexivity|].
  split; [repeat split|]. split; [repeat split|].
  split; [reflexivity|]. split; [lia|]. split; [reflexivity|].
  split; [exact example_valid_labels|]. split; [exact Hb|].
  split; [reflexivity|]. split; [reflexivity|].
  split; [repeat constructor; simpl; lia|].
  split; simpl; lia.
Qed.

Lemma train_ready_step_inv self X XA y X_val XvA y_val batch_size N D H C Nv v w
    ipe it decay reg mu_increase verbose w0 s0 v0 :
  train_ready self X XA y X_val XvA y_val batch_size N D H C Nv v w ->
  train_inv self X XA X_val XvA D H C w0 s0 v0 ->
  returns (train_step self X y X_val y_val decay reg mu_increase batch_size
             verbose N ipe it s0) w0
    (step_post self X XA y X_val XvA y_val decay reg mu_increase batch_size
       verbose N D H C ipe it w0 s0 v0).
Proof.
  intros (HX & HXv & Hnet & Hshape & HXs & HN1 & Hy & Hv & Hb &
          HXvs & Hyv & Hnd & HXp & HXvp) Inv.
  apply (@train_step_spec self X XA y X_val XvA y_val decay reg mu_increase
           batch_size verbose N D H C Nv HXs HN1 Hy Hv Hb HXvs Hyv Hnd HXp HXvp
           ipe it w0 s0 v0 Inv).
Qed.

Lemma epoch_ends_quiet ipe its : epoch_ends false ipe its = [].
Proof. induction its as [|it its IH]; [reflexivity | exact IH]. Qed.

Lemma div_succ m ipe :
  (1 <= ipe)%Z -> (0 <= m)%Z ->
  ((m + 1) / ipe = m / ipe + (if (m + 1) mod ipe =? 0 then 1 else 0))%Z.
Proof.
  intros Hi Hm.
  pose proof (Z.div_mod (m + 1) ipe ltac:(lia)) as E.
  pose proof (Z.mod_pos_bound (m + 1) ipe ltac:(lia)) as B.
  destruct ((m + 1) mod ipe =? 0)%Z eqn:Z0.
  - apply Z.eqb_eq in Z0.
    assert (m / ipe = (m + 1) / ipe - 1)%Z; [|lia].
    symmetry. apply Z.div_unique with (r := (ipe - 1)%Z); lia.
  - apply Z.eqb_neq in Z0.
    assert (m / ipe = (m + 1) / ipe)%Z; [|lia].
    symmetry. apply Z.div_unique with (r := ((m + 1) mod ipe - 1)%Z); lia.
Qed.

Lemma xrange_snoc n :
  xrange 1 (Z.of_nat (S n) + 1) = xrange 1 (Z.of_nat n + 1) ++ [Z.of_nat (S n)].
Proof.
  unfold xrange.
  replace (Z.to_nat (Z.of_nat (S n) + 1 - 1)) with (S n) by lia.
  replace (Z.to_nat (Z.of_nat n + 1 - 1)) with n by lia.
  rewrite seq_S, map_app. f_equal. cbn [map]. f_equal. lia.
Qed.

(** Among the iterations [1 .. n] the multiples of the iterations per epoch
    are [n / iterations_per_epoch] many. *)
Lemma epoch_ends_upto ipe n :
  (1 <= ipe)%Z ->
  length (epoch_ends true ipe (xrange 1 (Z.of_nat n + 1)))
  = Z.to_nat (Z.of_nat n / ipe).
Proof.
  intros Hi. induction n as [|n IH].
  - change (Z.of_nat 0) with 0%Z. rewrite Z.div_0_l by lia. reflexivity.
  - rewrite xrange_snoc. unfold epoch_ends in *.
    rewrite filter_app, length_app, IH.
    replace (Z.of_nat (S n)) with (Z.of_nat n + 1)%Z by lia.
    rewrite (div_succ Hi (Nat2Z.is_nonneg n)).
    pose proof (Z.div_pos (Z.of_nat n) ipe (Nat2Z.is_nonneg n) ltac:(lia)).
    simpl. destruct ((Z.of_nat n + 1) mod ipe =? 0)%Z; simpl; lia.
Qed.

(** In a run of [num_epochs] epochs the end-of-epoch block runs
    [num_epochs] times when [verbose] is set. *)
Lemma epoch_ends_run ipe num_epochs :
  (1 <= ipe)%Z ->
  length (epoch_ends true ipe (xrange 1 (num_epochs * ipe + 1)))
  = Z.to_nat num_epochs.
Proof.
  intros Hi. destruct (Z.le_gt_cases 0 num_epochs) as [Hn|Hn].
  - replace (num_epochs * ipe)%Z with (Z.of_nat (Z.to_nat (num_epochs * ipe)))
      by nia.
    rewrite (epoch_ends_upto _ Hi).
    replace (Z.of_nat (Z.to_nat (num_epochs * ipe))) with (num_epochs * ipe)%Z
      by nia.
    rewrite Z.div_mul by lia. reflexivity.
  - unfold xrange.
    replace (Z.to_nat (num_epochs * ipe + 1 - 1)) with 0%nat by nia.
    simpl. lia.
Qed.

(** C5. In an iteration of [train] the end-of-epoch block runs exactly when
    [verbose] is set and the iteration counter is a multiple of the
    iterations per epoch.  It then appends the accuracy of the updated
    parameters on the current minibatch and on the whole validation set to
    the two accuracy histories and multiplies the learning rate by the decay
    factor and the momentum coefficient by its increase factor; otherwise
    the four are left as they were.  With [verbose] off, the accuracy
    histories returned are empty and the learning rate and the momentum
    coefficient at the end of the run are those passed in; with [verbose]
    on, the block has run once per epoch. *)
Theorem train_epoch_block self X XA y X_val XvA y_val lr decay reg mu0
    num_epochs mu_increase batch_size verbose N D H C Nv v w :
  train_ready self X XA y X_val XvA y_val batch_size N D H C Nv v w ->
  (forall ipe it w0 s0 v0,
      train_inv self X XA X_val XvA D H C w0 s0 v0 ->
      returns (train_step self X y X_val y_val decay reg mu_increase batch_size
                 verbose N ipe it s0) w0
        (fun s' w' => exists v',
           net_holds w' (params self) v' /\
           if verbose && (it mod ipe =? 0)%Z then
             train_acc_history s' =
               train_acc_history s0 ++
               [accuracy (predictions v' (batch_X XA batch_size N w0))
                  (batch_y y batch_size N w0)] /\
             val_acc_history s' =
               val_acc_history s0 ++ [accuracy (predictions v' XvA) y_val] /\
             learning_rate s' = learning_rate s0 * decay /\
             mu s' = mu s0 * mu_increase
           else
             train_acc_history s' = train_acc_history s0 /\
             val_acc_history s' = val_acc_history s0 /\
             learning_rate s' = learning_rate s0 /\
             mu s' = mu s0))
  /\ (verbose = false ->
      returns (train_run self X y X_val y_val lr decay reg mu0 num_epochs
                 mu_increase batch_size verbose) w
        (fun s' _ =>
           train_acc_history s' = [] /\ val_acc_history s' = [] /\
           learning_rate s' = lr /\ mu s' = mu0)
      /\
      returns (train self X y X_val y_val lr decay reg mu0 num_epochs
                 mu_increase batch_size verbose) w
        (fun hist _ =>
           h_train_acc_history hist = [] /\ h_val_acc_history hist = []))
  /\ (verbose = true ->
      returns (train_run self X y X_val y_val lr decay reg mu0 num_epochs
                 mu_increase batch_size verbose) w
        (fun s' _ =>
           length (train_acc_history s') = Z.to_nat num_epochs /\
           length (val_acc_history s') = Z.to_nat num_epochs /\
           learning_rate s' = lr * decay ^ Z.to_nat num_epochs /\
           mu s' = mu0 * mu_increase ^ Z.to_nat num_epochs)).
Proof.
  intros Hready. split; [|split].
  - intros ipe it w0 s0 v0 Inv.
    eapply returns_mono;
      [apply (train_ready_step_inv ipe it decay reg mu_increase verbose Hready Inv)|].
    intros s' w' (v' & Inv' & _ & _ & _ & _ & _ & _ & _ & Hif).
    exists v'. split; [apply Inv' | exact Hif].
  - intros ->.
    assert (Hrun : returns (train_run self X y X_val y_val lr decay reg mu0
                              num_epochs mu_increase batch_size false) w
              (fun s' _ =>
                 train_acc_history s' = [] /\ val_acc_history s' = [] /\
                 learning_rate s' = lr /\ mu s' = mu0)).
    { eapply returns_mono;
        [apply (train_run_spec lr decay reg mu0 num_epochs mu_increase false Hready)|].
      intros s' w' (v' & ls & ta & va & _ & _ & _ & ET & EV & Hta & Hva & Elr & Emu & _).
      rewrite epoch_ends_quiet in Hta, Hva, Elr, Emu. simpl in *.
      destruct ta; [|discriminate]. destruct va; [|discriminate].
      rewrite ET, EV, Elr, Emu, !Rmult_1_r. auto. }
    split; [exact Hrun|].
    unfold train. apply returns_bind.
    eapply returns_mono; [exact Hrun|].
    intros s' w' (ET & EV & _). apply returns_ret. simpl. auto.
  - intros ->.
    eapply returns_mono;
      [apply (train_run_spec lr decay reg mu0 num_epochs mu_increase true Hready)|].
    intros s' w' (v' & ls & ta & va & _ & _ & _ & ET & EV & Hta & Hva & Elr & Emu & _).
    rewrite epoch_ends_run in Hta, Hva, Elr, Emu by lia.
    simpl in ET, EV, Elr, Emu. rewrite ET, EV.
    repeat split; assumption.
Qed.

Lemma train_epoch_block_witness :
  returns (train example_net 0%nat example_y 5%nat example_y
             1 0.5 0 0.5 3%Z 2 1%Z false) example_world
    (fun hist _ =>
       h_train_acc_history hist = [] /\ h_val_acc_history hist = []).
Proof.
  apply (proj1 (proj2 (@train_epoch_block example_net 0%nat example_X example_y
           5%nat example_X example_y 1 0.5 0 0.5 3%Z 2 1%Z false
           2%nat 2%nat 2%nat 2%nat 2%nat example_weights example_world
           (example_train_ready (Z.le_refl 1))))).
  reflexivity.
Defined.

Lemma momentum_gradient_step self XA y reg batch_size N D H C w0 s0 v0 s' w' :
  momentum_post self XA y reg batch_size N D H C w0 s0 v0 s' w' ->
  (mu s0 = 0 \/
   (v_W2 s0 = PyFloat 0 /\ v_b2 s0 = PyFloat 0 /\
    v_W1 s0 = PyFloat 0 /\ v_b1 s0 = PyFloat 0)) ->
  gradient_step_post self XA y reg batch_size N D H C (learning_rate s0) w0 v0 w'.
Proof.
  intros (v' & Hnet & _ & P2 & _ & PB2 & _ & P1 & _ & PB1) Hzero.
  exists v'. split; [exact Hnet|].
  assert (E : forall old grad i j,
            (old = v_W2 s0 \/ old = v_b2 s0 \/ old = v_W1 s0 \/ old = v_b1 s0) ->
            new_velocity w0 old (mu s0) (learning_rate s0) grad i j
            = - (learning_rate s0 * grad i j)).
  { intros old grad i j Hold. unfold new_velocity.
    destruct Hzero as [-> | (E2 & EB2 & E1 & EB1)]; [lra|].
    destruct Hold as [-> | [-> | [-> | ->]]];
      rewrite ?E2, ?EB2, ?E1, ?EB1; simpl; lra. }
  repeat split; try apply P2; try apply PB2; try apply P1; try apply PB1;
    intros i j Hi Hj.
  - rewrite (is_array_at P2 Hi Hj), E by auto. lra.
  - rewrite (is_array_at PB2 Hi Hj), E by auto. lra.
  - rewrite (is_array_at P1 Hi Hj), E by auto. lra.
  - rewrite (is_array_at PB1 Hi Hj), E by auto. lra.
Qed.

Lemma step_post_momentum self X XA y X_val XvA y_val decay reg mu_increase
    batch_size verbose N D H C ipe it w0 s0 v0 s' w' :
  step_post self X XA y X_val XvA y_val decay reg mu_increase batch_size
    verbose N D H C ipe it w0 s0 v0 s' w' ->
  momentum_post self XA y reg batch_size N D H C w0 s0 v0 s' w'.
Proof.
  intros (v' & Inv' & _ & _ & _ & [V2 P2] & [VB2 PB2] & [V1 P1] & [VB1 PB1] & _).
  exists v'. split; [apply Inv'|].
  split; [exact V2|]. split; [exact P2|].
  split; [exact VB2|]. split; [exact PB2|].
  split; [exact V1|]. split; [exact P1|].
  split; [exact VB1 | exact PB1].
Qed.

Lemma xrange_single n : Z.to_nat n = 1%nat -> xrange 1 (n + 1) = [1%Z].
Proof.
  intros E. unfold xrange.
  replace (n + 1 - 1)%Z with n by lia. rewrite E. reflexivity.
Qed.

(** C8. With [num_epochs = 0] the loop of [train] is not entered: the call
    returns three empty histories and the world, the four parameters in
    it, is exactly as before.  (With [batch_size = 0] the division that
    precedes the loop raises; the world is again as before.) *)
Theorem train_zero_epochs self X XA y X_val y_val lr decay reg mu0 mu_increase
    batch_size verbose w :
  lookup w X = Some XA ->
  (batch_size <> 0%Z ->
   train self X y X_val y_val lr decay reg mu0 0 mu_increase batch_size verbose w
   = (Ok (mkHistory [] [] []), w))
  /\ snd (train self X y X_val y_val lr decay reg mu0 0 mu_increase batch_size
            verbose w) = w
  /\ (forall v, net_holds w (params self) v ->
        net_holds
          (snd (train self X y X_val y_val lr decay reg mu0 0 mu_increase
                  batch_size verbose w)) (params self) v).
Proof.
  intros HX.
  assert (E : batch_size <> 0%Z ->
              train self X y X_val y_val lr decay reg mu0 0 mu_increase
                batch_size verbose w = (Ok (mkHistory [] [] []), w)).
  { intros Hb. unfold train, train_run, bind, load, int_div. rewrite HX.
    replace (batch_size =? 0)%Z with false by (symmetry; apply Z.eqb_neq; exact Hb).
    reflexivity. }
  assert (S : snd (train self X y X_val y_val lr decay reg mu0 0 mu_increase
                     batch_size verbose w) = w).
  { destruct (Z.eq_dec batch_size 0) as [->|Hb]; [|rewrite (E Hb); reflexivity].
    unfold train, train_run, bind, load, int_div. rewrite HX. reflexivity. }
  split; [exact E|]. split; [exact S|].
  intros v Hnet. rewrite S. exact Hnet.
Qed.

Lemma train_zero_epochs_witness :
  train example_net 0%nat example_y 5%nat example_y 1 1 0 0 0 1 2%Z true
    example_world
  = (Ok (mkHistory [] [] []), example_world).
Proof.
  apply (proj1 (@train_zero_epochs example_net 0%nat example_X example_y 5%nat
                  example_y 1 1 0 0 1 2%Z true example_world eq_refl)).
  discriminate.
Defined.

(** ** Construction *)

Lemma returns_random_randn n m w (Q : loc -> world -> Prop) :
  (forall w0,
      heap w0 = heap w ->
      raw_gauss (random w0) = raw_gauss (random w) ->
      used_gauss (random w0) = (used_gauss (random w) + n * m)%nat ->
      Q (length (heap w0))
        (allocated w0
           (tabulate n m (fun i j =>
              raw_gauss (random w) (used_gauss (random w) + i * m + j))))) ->
  returns (npy.random_randn n m) w Q.
Proof.
  intros HQ. unfold npy.random_randn, alloc.
  eexists _, _. split; [reflexivity|].
  apply (HQ (mkWorld (heap w)
               (mkRandom (raw_int (random w)) (raw_gauss (random w))
                  (used_int (random w)) (used_gauss (random w) + n * m))));
    reflexivity.
Qed.

Lemma heap_eq_kept w w' : heap w' = heap w -> heap_kept w w'.
Proof.
  intros E. split; [rewrite E; lia|].
  intros l _. unfold lookup. rewrite E. reflexivity.
Qed.

Lemma init_spec D H C std w :
  returns (init D H C std) w (init_post D H C std w).
Proof.
  unfold init.
  apply returns_bind. apply returns_random_randn.
  intros w0 Hh0 Hg0 Hu0.
  pose proof (f_equal (@length _) Hh0) as Len0.
  pose proof (is_array_tabulate D H (fun i j =>
                raw_gauss (random w) (used_gauss (random w) + i * H + j))) as AT1.
  set (T1 := tabulate D H _) in *.
  step_map AT1. intro_fresh pW1 S1 HpW1 AS1.
  apply returns_bind. apply returns_alloc.
  set (a3 := allocated (allocated (allocated w0 T1) S1) (np.zeros 1 H)).
  set (pb1 := length (heap (allocated (allocated w0 T1) S1))).
  assert (Hpb1 : pb1 = S (S (length (heap w))))
    by (subst pb1; rewrite !length_allocated; lia).
  assert (LS1 : lookup a3 pW1 = Some S1) by (subst a3; solve_lookup).
  assert (LZ1 : lookup a3 pb1 = Some (np.zeros 1 H))
    by (subst a3 pb1; solve_lookup).
  assert (Len3 : length (heap a3) = S (S (S (length (heap w)))))
    by (subst a3; rewrite !length_allocated; lia).
  assert (K3 : heap_kept w a3).
  { subst a3. eapply heap_kept_trans; [apply heap_eq_kept, Hh0 | solve_kept]. }
  assert (Rg3 : raw_gauss (random a3) = raw_gauss (random w)) by exact Hg0.
  assert (Ru3 : used_gauss (random a3) = (used_gauss (random w) + D * H)%nat)
    by exact Hu0.
  clearbody a3 pb1. rewrite Len0 in HpW1.
  apply returns_bind. apply returns_random_randn.
  intros w4 Hh4 _ _.
  pose proof (f_equal (@length _) Hh4) as Len4. rewrite Len3 in Len4.
  pose proof (@heap_eq_kept a3 w4 Hh4) as K4.
  pose proof (heap_kept_lookup pW1 K4 LS1) as LS1'.
  pose proof (heap_kept_lookup pb1 K4 LZ1) as LZ1'.
  pose proof (is_array_tabulate H C (fun i j =>
                raw_gauss (random a3) (used_gauss (random a3) + i * C + j))) as AT2.
  set (T2 := tabulate H C _) in *.
  step_map AT2. intro_fresh pW2 S2 HpW2 AS2.
  apply returns_bind. apply returns_alloc.
  set (pb2 := length (heap (allocated (allocated w4 T2) S2))).
  assert (Hpb2 : pb2 = S (S (length (heap w4))))
    by (subst pb2; rewrite !length_allocated; lia).
  clearbody pb2.
  apply returns_ret.
  exists (mkWeights S1 (np.zeros 1 H) S2 (np.zeros 1 C)).
  unfold net_holds, param_locs.
  cbn [params W1 b1 W2 b2 wW1 wb1 wW2 wb2].
  split; [|split; [|split; [|split; [|split; [|split; [|split]]]]]].
  - repeat split; solve_lookup.
  - unfold weights_shape; cbn [wW1 wb1 wW2 wb2].
    rewrite (is_array_shape AS1), (is_array_shape AS2). auto.
  - intros d k Hd Hk. rewrite (is_array_at AS1 Hd Hk). reflexivity.
  - intros k j Hk Hj. rewrite (is_array_at AS2 Hk Hj). cbv beta.
    rewrite Rg3, Ru3. reflexivity.
  - intros k Hk. unfold np.zeros. rewrite get_tabulate; [reflexivity | lia | exact Hk].
  - intros j Hj. unfold np.zeros. rewrite get_tabulate; [reflexivity | lia | exact Hj].
  - nodup_locs.
  - eapply heap_kept_trans; [exact K3|].
    eapply heap_kept_trans; [exact K4 | solve_kept].
Qed.

(** C7. After construction with [(D, H, C, std)] the network holds four
    separate arrays: [W1] of shape [D x H] and [W2] of shape [H x C], filled
    with [std] times the normal draws, and [b1] of shape [1 x H] and [b2] of
    shape [1 x C], filled with zeros.  Every training iteration, and so a
    whole call of [train], leaves the four parameters at the same places
    with the same shapes; no other array that existed is changed. *)
Theorem parameter_shapes self X XA y X_val XvA y_val lr decay reg mu0
    num_epochs mu_increase batch_size verbose N D H C Nv v w std w_init :
  returns (init D H C std) w_init (init_post D H C std w_init)
  /\ (train_ready self X XA y X_val XvA y_val batch_size N D H C Nv v w ->
      (forall ipe it w0 s0 v0,
          train_inv self X XA X_val XvA D H C w0 s0 v0 ->
          returns (train_step self X y X_val y_val decay reg mu_increase
                     batch_size verbose N ipe it s0) w0
            (fun s' w' => exists v',
               net_holds w' (params self) v' /\ weights_shape D H C v' /\
               kept_but (param_locs (params self)) w0 w'))
      /\ returns (train self X y X_val y_val lr decay reg mu0 num_epochs
                    mu_increase batch_size verbose) w
           (fun _ w' => exists v',
              net_holds w' (params self) v' /\ weights_shape D H C v' /\
              kept_but (param_locs (params self)) w w')).
Proof.
  split; [apply init_spec|].
  intros Hready. split.
  - intros ipe it w0 s0 v0 Inv.
    eapply returns_mono;
      [apply (train_ready_step_inv ipe it decay reg mu_increase verbose Hready Inv)|].
    intros s' w' (v' & (Hnet & Hshape & _) & _ & KP & _).
    exists v'. split; [exact Hnet|]. split; [exact Hshape | exact KP].
  - unfold train. apply returns_bind.
    eapply returns_mono;
      [apply (train_run_spec lr decay reg mu0 num_epochs mu_increase verbose Hready)|].
    intros s' w' (v' & ls & ta & va & (Hnet & Hshape & _) & _ & _ & _ & _ & _ & _ & _ & _ & _ & KP).
    apply returns_ret. exists v'.
    split; [exact Hnet|]. split; [exact Hshape | exact KP].
Qed.

Lemma parameter_shapes_witness :
  returns (train example_net 0%nat example_y 5%nat example_y
             1 1 0 0.5 2%Z 1 1%Z true) example_world
    (fun _ w' => exists v',
       net_holds w' (params example_net) v' /\
       weights_shape 2%nat 2%nat 2%nat v').
Proof.
  eapply returns_mono.
  - apply (proj2 (@parameter_shapes example_net 0%nat example_X example_y
             5%nat example_X example_y 1 1 0 0.5 2%Z 1 1%Z true
             2%nat 2%nat 2%nat 2%nat 2%nat example_weights example_world
             1 example_world)).
    apply (example_train_ready (Z.le_refl 1)).
  - intros h w' (v' & Hnet & Hshape & _). exists v'. split; assumption.
Defined.

(** * Beyond the specification: errors and edge cases of [loss] and [predict] *)

(** ** Computations that raise *)

Lemma raises_bind A B (c : Py A) (k : A -> Py B) w e (Q : world -> Prop) :
  returns c w (fun a w' => raises (k a) w' e Q) -> raises (bind c k) w e Q.
Proof.
  intros (a & w' & Hc & w'' & Hk & HQ). exists w''. split; [|exact HQ].
  unfold bind. rewrite Hc. exact Hk.
Qed.

Lemma raises_bind_raises A B (c : Py A) (k : A -> Py B) w e (Q : world -> Prop) :
  raises c w e Q -> raises (bind c k) w e Q.
Proof.
  intros (w' & Hc & HQ). exists w'. split; [|exact HQ].
  unfold bind. rewrite Hc. reflexivity.
Qed.

Lemma raises_lift A (o : outcome A) e w (Q : world -> Prop) :
  o = Raise e -> Q w -> raises (lift o) w e Q.
Proof. intros -> H. exists w. split; [reflexivity | exact H]. Qed.

Lemma raises_fresh1 f a A e w (Q : world -> Prop) :
  lookup w a = Some A -> f A = Raise e -> Q w -> raises (fresh1 f a) w e Q.
Proof.
  intros Ha Hf H. unfold fresh1.
  apply raises_bind; eapply returns_load; [exact Ha|].
  exists w. split; [|exact H]. unfold bind, lift. rewrite Hf. reflexivity.
Qed.

Lemma raises_not_returns A (c : Py A) w e (Q : world -> Prop) a w' :
  raises c w e Q -> c w <> (Ok a, w').
Proof. intros (w1 & E & _) E'. rewrite E in E'. discriminate. Qed.

(** Two computations that start in the same way agree when their
    continuations agree on what the common start returns. *)
Lemma bind_agree A B (c : Py A) (k1 k2 : A -> Py B) w :
  returns c w (fun a w' => k1 a w' = k2 a w') -> bind c k1 w = bind c k2 w.
Proof. intros (a & w' & Hc & E). unfold bind. rewrite Hc. exact E. Qed.

Lemma bind_same A B (c1 c2 : Py A) (k : A -> Py B) w :
  c1 w = c2 w -> bind c1 k w = bind c2 k w.
Proof. intros E. unfold bind. rewrite E. reflexivity. Qed.

(** ** The scores alone *)

Lemma argmax_axis1_predictions S v XA N C :
  is_array S N C (score v XA) -> nrows XA = N -> ncols (wW2 v) = C ->
  (1 <= C)%nat -> np.argmax_axis1 S = Ok (predictions v XA).
Proof.
  intros (On & Om & Of) HN EC HC.
  unfold np.argmax_axis1, predictions.
  destruct (ncols S =? 0) eqn:E; [apply Nat.eqb_eq in E; lia|].
  f_equal. rewrite On, HN. apply map_ext_in. intros i Hi. apply in_seq in Hi.
  do 2 f_equal. unfold np.row. rewrite Om, EC.
  apply map_ext_in. intros j Hj. apply in_seq in Hj. apply Of; lia.
Qed.

Lemma loss_scores_spec self X XA v reg N D H C w
    (Q : loss_result -> world -> Prop) :
  lookup w X = Some XA -> net_holds w (params self) v ->
  shape XA = (N, D) -> weights_shape D H C v ->
  (forall l S w',
      heap_kept w w' -> random w' = random w ->
      (length (heap w) <= l)%nat ->
      lookup w' l = Some S -> is_array S N C (score v XA) ->
      Q (Scores l) w') ->
  returns (loss self X None reg) w Q.
Proof.
  intros HX Hnet Hsh Hshape HQ.
  unfold loss.
  apply returns_bind. eapply returns_load; [exact HX|].
  apply returns_bind.
  eapply forward_spec;
    [exact HX | exact Hnet | exact (f_equal fst Hsh) | exact (f_equal snd Hsh)
    | exact Hshape |].
  intros h1 out H1 OUT w' K Hr _ Fout _ _ _ Lout AOUT. simpl snd.
  apply returns_ret. apply (HQ out OUT w' K Hr Fout Lout AOUT).
Qed.

(** X1. Called without labels, [loss] returns a new [N x C] array whose
    entry [(i, c)] is the score of class [c] on example [i]; nothing is
    required of [N] and [C], no random number is drawn and every array that
    existed is kept. *)
Theorem loss_without_labels self X XA v reg N D H C w :
  lookup w X = Some XA -> net_holds w (params self) v ->
  shape XA = (N, D) -> weights_shape D H C v ->
  returns (loss self X None reg) w
    (fun r w' => exists l S,
       r = Scores l /\ (length (heap w) <= l)%nat /\
       lookup w' l = Some S /\ is_array S N C (score v XA) /\
       heap_kept w w' /\ random w' = random w).
Proof.
  intros HX Hnet Hsh Hshape.
  eapply loss_scores_spec; [exact HX | exact Hnet | exact Hsh | exact Hshape |].
  intros l S w' K Hr Fl Hl AS. exists l, S.
  repeat (split; [first [reflexivity | assumption]|]). exact Hr.
Qed.

Lemma loss_without_labels_witness :
  returns (loss example_net 0%nat None 0) example_world
    (fun r w' => exists l S,
       r = Scores l /\ (7 <= l)%nat /\
       lookup w' l = Some S /\
       is_array S 2%nat 2%nat (score example_weights example_X) /\
       heap_kept example_world w' /\ random w' = example_random).
Proof.
  apply (@loss_without_labels example_net 0%nat example_X example_weights 0
           2%nat 2%nat 2%nat 2%nat example_world).
  - reflexivity.
  - repeat split.
  - reflexivity.
  - repeat split.
Defined.

(** X2. The two entry points agree: what [predict] returns for [X] is the
    row-wise [argmax] of the score array that [loss] returns for [X]
    without labels. *)
Theorem predict_is_argmax_of_scores self X XA v reg N D H C w :
  lookup w X = Some XA -> net_holds w (params self) v ->
  shape XA = (N, D) -> weights_shape D H C v -> (1 <= C)%nat ->
  returns (loss self X None reg) w
    (fun r w1 => exists l S,
       r = Scores l /\ lookup w1 l = Some S /\
       returns (predict self X) w1
         (fun y_pred _ => np.argmax_axis1 S = Ok y_pred)).
Proof.
  intros HX Hnet Hsh Hshape HC.
  eapply loss_scores_spec; [exact HX | exact Hnet | exact Hsh | exact Hshape |].
  intros l S w1 K _ _ Hl AS.
  exists l, S. split; [reflexivity|]. split; [exact Hl|].
  eapply predict_spec;
    [apply (heap_kept_lookup X K HX) | apply (net_holds_kept K Hnet)
    | exact Hsh | exact Hshape | exact HC |].
  intros w2 _ _.
  apply (argmax_axis1_predictions AS (f_equal fst Hsh)); [|exact HC].
  apply (weights_shape_arrays Hshape).
Qed.

Lemma predict_is_argmax_of_scores_witness :
  returns (loss example_net 0%nat None 0) example_world
    (fun r w1 => exists l S,
       r = Scores l /\ lookup w1 l = Some S /\
       returns (predict example_net 0%nat) w1
         (fun y_pred _ => np.argmax_axis1 S = Ok y_pred)).
Proof.
  apply (@predict_is_argmax_of_scores example_net 0%nat example_X
           example_weights 0 2%nat 2%nat 2%nat 2%nat example_world).
  - reflexivity.
  - repeat split.
  - reflexivity.
  - repeat split.
  - lia.
Defined.

(** ** Inputs the network cannot take *)

(** X3. An input whose rows are not as long as [W1] has rows is rejected by
    the first matrix product: [loss], with or without labels, and [predict]
    raise [ValueError] before anything is allocated, so the world is exactly
    as it was. *)
Theorem input_width_mismatch self X XA A1 y reg w :
  lookup w X = Some XA -> lookup w (W1 (params self)) = Some A1 ->
  ncols XA <> nrows A1 ->
  loss self X y reg w = (Raise ValueError, w) /\
  predict self X w = (Raise ValueError, w).
Proof.
  intros HX HW1 Hne.
  assert (E : forward (params self) X w = (Raise ValueError, w)).
  { unfold forward, npy.dot, fresh2, bind, load, lift. rewrite HX, HW1.
    unfold np.dot. apply Nat.eqb_neq in Hne. rewrite Hne. reflexivity. }
  split.
  - unfold loss, bind at 1, load. rewrite HX. unfold bind. rewrite E. reflexivity.
  - unfold predict, bind. rewrite E. reflexivity.
Qed.

Lemma input_width_mismatch_witness :
  loss example_net 3%nat (Some [0%Z]) 0 uniform_world
    = (Raise ValueError, uniform_world) /\
  predict example_net 3%nat uniform_world = (Raise ValueError, uniform_world).
Proof.
  apply (@input_width_mismatch example_net 3%nat (wW2 uniform_weights)
           (wW1 uniform_weights) (Some [0%Z]) 0 uniform_world).
  - reflexivity.
  - reflexivity.
  - simpl. lia.
Defined.

(** X4. A network without classes ([C = 0]) still computes its (empty)
    scores, but [loss] with labels raises [ValueError] at the row maximum
    and [predict] raises [ValueError] at the [argmax]: both reductions have
    nothing to reduce.  The arrays that existed are kept. *)
Theorem no_classes self X XA v y reg N D H w :
  lookup w X = Some XA -> net_holds w (params self) v ->
  shape XA = (N, D) -> weights_shape D H 0 v ->
  raises (loss self X (Some y) reg) w ValueError (heap_kept w) /\
  raises (predict self X) w ValueError (heap_kept w).
Proof.
  intros HX Hnet Hsh Hshape.
  split.
  - unfold loss.
    apply raises_bind. eapply returns_load; [exact HX|].
    apply raises_bind.
    eapply forward_spec;
      [exact HX | exact Hnet | exact (f_equal fst Hsh) | exact (f_equal snd Hsh)
      | exact Hshape |].
    intros h1 out H1 OUT w' K _ _ _ _ _ _ Lout (_ & Om & _). simpl snd.
    apply raises_bind_raises.
    eapply raises_fresh1; [exact Lout | | exact K].
    unfold np.max_axis1. rewrite Om. reflexivity.
  - unfold predict.
    apply raises_bind.
    eapply forward_spec;
      [exact HX | exact Hnet | exact (f_equal fst Hsh) | exact (f_equal snd Hsh)
      | exact Hshape |].
    intros h1 out H1 OUT w' K _ _ _ _ _ _ Lout (_ & Om & _). simpl snd.
    unfold npy.argmax_axis1.
    apply raises_bind. eapply returns_load; [exact Lout|].
    apply raises_lift; [|exact K].
    unfold np.argmax_axis1. rewrite Om. reflexivity.
Qed.

Lemma no_classes_witness :
  raises (loss example_net 0%nat (Some [0%Z]) 0) no_class_world ValueError
    (heap_kept no_class_world) /\
  raises (predict example_net 0%nat) no_class_world ValueError
    (heap_kept no_class_world).
Proof.
  apply (@no_classes example_net 0%nat (mkArr 1%nat 1%nat [[5]])
           no_class_weights [0%Z] 0 1%nat 1%nat 1%nat no_class_world).
  - reflexivity.
  - repeat split.
  - reflexivity.
  - repeat split.
Defined.

(** ** Labels that do not index the probabilities *)

Ltac step_fresh2_by B spec :=
  apply B; eapply returns_fresh2_arr; [solve_lookup | solve_lookup | spec |].

Ltac step_fresh1_by B spec :=
  apply B; eapply returns_fresh1_arr; [solve_lookup | spec |].

Ltac step_map_by B HA :=
  apply B; eapply returns_fresh1_map; [solve_lookup | exact HA |].

Lemma norm_index_raises d k e : np.norm_index d k = Raise e -> e = IndexError.
Proof.
  unfold np.norm_index.
  destruct ((0 <=? k)%Z && (k <? Z.of_nat d)%Z); [discriminate|].
  destruct ((- Z.of_nat d <=? k)%Z && (k <? 0)%Z); [discriminate|].
  intros E. injection E as <-. reflexivity.
Qed.

Lemma norm_index_bad d k :
  (k < - Z.of_nat d \/ Z.of_nat d <= k)%Z -> np.norm_index d k = Raise IndexError.
Proof.
  intros Hk. unfold np.norm_index.
  replace ((0 <=? k)%Z && (k <? Z.of_nat d)%Z) with false.
  2:{ symmetry. apply andb_false_iff.
      destruct (Z.leb_spec 0 k); [right; apply Z.ltb_ge; lia | left; reflexivity]. }
  replace ((- Z.of_nat d <=? k)%Z && (k <? 0)%Z) with false; [reflexivity|].
  symmetry. apply andb_false_iff.
  destruct (Z.ltb_spec k 0); [left; apply Z.leb_gt; lia | right; reflexivity].
Qed.

Lemma norm_indices_bad d ks :
  Exists (fun k => (k < - Z.of_nat d \/ Z.of_nat d <= k)%Z) ks ->
  np.norm_indices d ks = Raise IndexError.
Proof.
  induction ks as [|k ks IH]; intros Hex; [inversion Hex|].
  simpl. destruct (np.norm_index d k) as [j|e] eqn:Ek.
  - inversion Hex as [? ? Hk|? ? Hks]; subst.
    + rewrite (norm_index_bad _ Hk) in Ek. discriminate.
    + rewrite (IH Hks). reflexivity.
  - rewrite (norm_index_raises _ _ Ek). reflexivity.
Qed.

Lemma fancy_cells_bad_label A N y :
  nrows A = N -> length y = N ->
  Exists (fun k => (k < - Z.of_nat (ncols A) \/ Z.of_nat (ncols A) <= k)%Z) y ->
  np.fancy_cells A N y = Raise IndexError.
Proof.
  intros Hn Hy Hex. unfold np.fancy_cells.
  rewrite Hy, np_facts.bdim_same, Hn.
  destruct (existsb _ _); [reflexivity|].
  assert (Hmap : map (fun i => nth (np.bidx N i) y 0%Z) (seq 0 N) = y).
  { etransitivity; [|apply (map_nth_seq y 0%Z)]. rewrite Hy.
    apply map_ext_in. intros i Hi. apply in_seq in Hi.
    rewrite np_facts.bidx_lt by lia. reflexivity. }
  rewrite Hmap, (norm_indices_bad _ Hex). reflexivity.
Qed.

Lemma fancy_cells_bad_length A N y :
  length y <> N -> length y <> 1%nat -> N <> 1%nat ->
  np.fancy_cells A N y = Raise IndexError.
Proof.
  intros H1 H2 H3. unfold np.fancy_cells, np.bdim.
  apply Nat.eqb_neq in H2, H3. rewrite H2, H3.
  replace (N =? length y) with false
    by (symmetry; apply Nat.eqb_neq; intros E; apply H1; symmetry; exact E).
  reflexivity.
Qed.

(** X5. Labels that cannot index the [N x C] probabilities are rejected: if
    [y] has as many entries as [X] has rows and one of them lies outside
    [[-C, C)], or if the length of [y] is neither [N] nor 1 (and [N] is not
    1, so that nothing can be broadcast), [loss] raises [IndexError] at
    [probs[range(N), y]]; the arrays that existed are kept. *)
Theorem labels_rejected self X XA v y reg N D H C w :
  lookup w X = Some XA -> net_holds w (params self) v ->
  shape XA = (N, D) -> weights_shape D H C v -> (1 <= C)%nat ->
  (length y = N /\
   Exists (fun k => (k < - Z.of_nat C \/ Z.of_nat C <= k)%Z) y)
  \/ (length y <> N /\ length y <> 1%nat /\ N <> 1%nat) ->
  raises (loss self X (Some y) reg) w IndexError (heap_kept w).
Proof.
  intros HX Hnet Hsh Hshape HC Hbad.
  assert (HN : nrows XA = N) by exact (f_equal fst Hsh).
  assert (HD : ncols XA = D) by exact (f_equal snd Hsh).
  unfold loss.
  apply raises_bind. eapply returns_load; [exact HX|]. rewrite HN.
  apply raises_bind.
  eapply forward_spec; try eassumption.
  intros h1 out H1 OUT w0 K0 R0 Fh1 Fout Hne Lh1 AH1 Lout AOUT. simpl fst; simpl snd.
  pose proof (lookup_lt _ _ Lout) as Ltout.
  step_fresh1_by raises_bind ltac:(apply (np_facts.max_axis1_spec AOUT HC)).
  intro_fresh smax SMAX Hsmax ASMAX.
  step_fresh2_by raises_bind ltac:(apply (np_facts.col_broadcast_spec Rminus AOUT ASMAX)).
  intro_fresh shifted SHIFTED Hshifted ASHIFTED.
  step_map_by raises_bind ASHIFTED.
  intro_fresh exp_scores EXPS Hexps AEXPS.
  step_fresh1_by raises_bind
    ltac:(eexists; split; [reflexivity | apply (np_facts.sum_axis1_spec AEXPS)]).
  intro_fresh denom DENOM Hdenom ADENOM.
  step_fresh2_by raises_bind ltac:(apply (np_facts.col_broadcast_spec Rdiv AEXPS ADENOM)).
  intro_fresh probs PROBS Hprobs APROBS.
  apply raises_bind_raises. unfold npy.fancy_get.
  apply raises_bind. eapply returns_load; [solve_lookup|].
  apply raises_bind_raises. apply raises_lift.
  - destruct Hbad as [[Hy Hex] | (L1 & L2 & L3)].
    + apply fancy_cells_bad_label;
        [apply (is_array_nrows APROBS) | exact Hy
        | rewrite (is_array_ncols APROBS); exact Hex].
    + apply fancy_cells_bad_length; assumption.
  - eapply heap_kept_trans; [exact K0 | solve_kept].
Qed.

Lemma labels_rejected_witness :
  raises (loss example_net 0%nat (Some [2%Z; 0%Z]) 0) example_world IndexError
    (heap_kept example_world).
Proof.
  apply (@labels_rejected example_net 0%nat example_X example_weights
           [2%Z; 0%Z] 0 2%nat 2%nat 2%nat 2%nat example_world).
  - reflexivity.
  - repeat split.
  - reflexivity.
  - repeat split.
  - lia.
  - left. split; [reflexivity|]. apply Exists_cons_hd. right. simpl. lia.
Defined.

(** ** Labels that index the same cells *)

Lemma fancy_get_agree a A N y y' w :
  lookup w a = Some A -> np.fancy_cells A N y = np.fancy_cells A N y' ->
  npy.fancy_get a N y w = npy.fancy_get a N y' w.
Proof.
  intros Ha E. unfold npy.fancy_get, bind, load, lift. rewrite Ha, E. reflexivity.
Qed.

Lemma fancy_get_world a N y w r w' :
  npy.fancy_get a N y w = (Ok r, w') -> w' = w.
Proof.
  unfold npy.fancy_get, bind, load, lift, ret.
  destruct (lookup w a) as [A|]; [|discriminate].
  destruct (np.fancy_cells A N y); [|discriminate].
  intros E. injection E as _ <-. reflexivity.
Qed.

Lemma fancy_isub_agree a A N y y' c w :
  lookup w a = Some A -> np.fancy_cells A N y = np.fancy_cells A N y' ->
  npy.fancy_isub a N y c w = npy.fancy_isub a N y' c w.
Proof.
  intros Ha E. unfold npy.fancy_isub, inplace1, bind, load, lift.
  rewrite Ha, E. reflexivity.
Qed.

Lemma bind_agree_with A B (c1 c2 : Py A) (k1 k2 : A -> Py B) w :
  c1 w = c2 w ->
  (forall a w', c2 w = (Ok a, w') -> k1 a w' = k2 a w') ->
  bind c1 k1 w = bind c2 k2 w.
Proof.
  intros E Hk. unfold bind. rewrite E.
  destruct (c2 w) as [[a|e] w'] eqn:Ec; [apply Hk; reflexivity | reflexivity].
Qed.

(** [loss] looks at the labels only through the cells they address in the
    [N x C] probabilities. *)
Lemma loss_labels_agree self X XA v y y' reg N D H C w :
  lookup w X = Some XA -> net_holds w (params self) v ->
  shape XA = (N, D) -> weights_shape D H C v -> (1 <= C)%nat ->
  (forall A, nrows A = N -> ncols A = C ->
             np.fancy_cells A N y = np.fancy_cells A N y') ->
  loss self X (Some y) reg w = loss self X (Some y') reg w.
Proof.
  intros HX Hnet Hsh Hshape HC Hcells.
  assert (HN : nrows XA = N) by exact (f_equal fst Hsh).
  assert (HD : ncols XA = D) by exact (f_equal snd Hsh).
  destruct (weights_shape_arrays Hshape) as (A1 & AB1 & A2 & AB2).
  unfold loss.
  apply bind_agree. eapply returns_load; [exact HX|]. rewrite HN.
  apply bind_agree.
  eapply forward_spec; try eassumption.
  intros h1 out H1 OUT w0 K0 R0 Fh1 Fout Hne Lh1 AH1 Lout AOUT. simpl fst; simpl snd.
  pose proof (net_holds_kept K0 Hnet) as (HW1 & Hb1 & HW2 & Hb2).
  pose proof (lookup_lt _ _ HW1) as LW1. pose proof (lookup_lt _ _ HW2) as LW2.
  pose proof (lookup_lt _ _ Lout) as Ltout.
  step_fresh1_by bind_agree ltac:(apply (np_facts.max_axis1_spec AOUT HC)).
  intro_fresh smax SMAX Hsmax ASMAX.
  step_fresh2_by bind_agree ltac:(apply (np_facts.col_broadcast_spec Rminus AOUT ASMAX)).
  intro_fresh shifted SHIFTED Hshifted ASHIFTED.
  step_map_by bind_agree ASHIFTED.
  intro_fresh exp_scores EXPS Hexps AEXPS.
  step_fresh1_by bind_agree
    ltac:(eexists; split; [reflexivity | apply (np_facts.sum_axis1_spec AEXPS)]).
  intro_fresh denom DENOM Hdenom ADENOM.
  step_fresh2_by bind_agree ltac:(apply (np_facts.col_broadcast_spec Rdiv AEXPS ADENOM)).
  intro_fresh probs PROBS Hprobs APROBS.
  pose proof (Hcells PROBS (is_array_nrows APROBS) (is_array_ncols APROBS)) as EP.
  apply bind_agree_with.
  { eapply fancy_get_agree; [solve_lookup | exact EP]. }
  intros picked w1 Eget. apply fancy_get_world in Eget. subst w1.
  step_fresh2_by bind_agree ltac:(apply (np_facts.same_shape_spec Rmult A1 A1)).
  intro_fresh sq1 SQ1 Hsq1 ASQ1.
  apply bind_agree. unfold npy.sum.
  apply returns_bind. eapply returns_load; [solve_lookup|]. apply returns_ret.
  step_fresh2_by bind_agree ltac:(apply (np_facts.same_shape_spec Rmult A2 A2)).
  intro_fresh sq2 SQ2 Hsq2 ASQ2.
  apply bind_agree.
  apply returns_bind. eapply returns_load; [solve_lookup|]. apply returns_ret.
  apply bind_same.
  eapply fancy_isub_agree; [solve_lookup | exact EP].
Qed.

Lemma norm_index_wrap C k :
  (- Z.of_nat C <= k < Z.of_nat C)%Z ->
  np.norm_index C (k mod Z.of_nat C) = np.norm_index C k.
Proof.
  intros Hk. destruct (Z.ltb_spec k 0) as [Hneg|Hpos].
  - replace (k mod Z.of_nat C)%Z with (k + Z.of_nat C)%Z.
    2:{ apply Z.mod_unique with (q := (-1)%Z); lia. }
    rewrite fancy_facts.norm_index_valid by lia.
    unfold np.norm_index.
    replace ((0 <=? k)%Z && (k <? Z.of_nat C)%Z) with false
      by (symmetry; apply andb_false_iff; left; apply Z.leb_gt; lia).
    replace ((- Z.of_nat C <=? k)%Z && (k <? 0)%Z) with true; [reflexivity|].
    symmetry. apply andb_true_iff. split; [apply Z.leb_le | apply Z.ltb_lt]; lia.
  - rewrite Z.mod_small by lia. reflexivity.
Qed.

Lemma norm_indices_ext (T : Type) d (f g : T -> Z) (l : list T) :
  (forall i, In i l -> np.norm_index d (f i) = np.norm_index d (g i)) ->
  np.norm_indices d (map f l) = np.norm_indices d (map g l).
Proof.
  induction l as [|a l IH]; intros Hfg; [reflexivity|].
  simpl. rewrite (Hfg a) by (left; reflexivity).
  rewrite IH by (intros i Hi; apply Hfg; right; exact Hi). reflexivity.
Qed.

Lemma wrap_labels_valid C y :
  (1 <= C)%nat -> valid_labels C (wrap_labels C y).
Proof.
  intros HC. unfold valid_labels, wrap_labels. apply Forall_forall.
  intros k Hk. apply in_map_iff in Hk. destruct Hk as (k0 & <- & _).
  apply Z.mod_pos_bound. lia.
Qed.

Lemma nth_wrap c y j :
  nth j (map (fun k => (k mod c)%Z) y) 0%Z = ((nth j y 0) mod c)%Z.
Proof. exact (map_nth (fun k => (k mod c)%Z) y 0%Z j). Qed.

Lemma fancy_cells_wrap A N y :
  (1 <= ncols A)%nat -> indexable_labels (ncols A) y ->
  np.fancy_cells A N y = np.fancy_cells A N (wrap_labels (ncols A) y).
Proof.
  intros HC Hy. unfold np.fancy_cells, wrap_labels. rewrite length_map.
  destruct (np.bdim N (length y)) as [n|]; [|reflexivity].
  destruct (existsb _ _); [reflexivity|].
  rewrite (@norm_indices_ext nat (ncols A)
             (fun i => nth (np.bidx (length y) i) y 0%Z)
             (fun i => nth (np.bidx (length y) i)
                         (map (fun k => (k mod Z.of_nat (ncols A))%Z) y) 0%Z));
    [reflexivity|].
  intros i _. cbv beta. rewrite nth_wrap. symmetry. apply norm_index_wrap.
  destruct (nth_in_or_default (np.bidx (length y) i) y 0%Z) as [Hin | ->]; [|lia].
  apply (proj1 (Forall_forall _ _) Hy _ Hin).
Qed.

(** X6. A negative label counts from the last class: for labels in
    [[-C, C)], [loss] does exactly what it does for the labels reduced
    modulo [C] (the same result, the same arrays), so the loss it returns is
    the one of the classes [y_i mod C]; no exception reports the negative
    label. *)
Theorem negative_labels_wrap self X XA v y reg N D H C w :
  lookup w X = Some XA -> net_holds w (params self) v ->
  shape XA = (N, D) -> weights_shape D H C v ->
  (1 <= N)%nat -> length y = N -> (1 <= C)%nat -> indexable_labels C y ->
  loss self X (Some y) reg w = loss self X (Some (wrap_labels C y)) reg w
  /\ returns (loss self X (Some y) reg) w
       (fun r _ => exists g,
          r = LossGrads (loss_formula v XA (wrap_labels C y) reg) g).
Proof.
  intros HX Hnet Hsh Hshape HN1 Hy HC Hidx.
  assert (E : loss self X (Some y) reg w
              = loss self X (Some (wrap_labels C y)) reg w).
  { eapply loss_labels_agree; try eassumption.
    intros A _ Hc. subst C. apply fancy_cells_wrap; assumption. }
  split; [exact E|].
  unfold returns. rewrite E.
  eapply loss_spec;
    [exact HX | exact Hnet | exact (f_equal fst Hsh) | exact (f_equal snd Hsh)
    | exact Hshape | exact HN1
    | unfold wrap_labels; rewrite length_map; exact Hy
    | apply wrap_labels_valid; exact HC |].
  intros g w' _ _ _ _. exists g. reflexivity.
Qed.

Lemma negative_labels_wrap_witness :
  loss example_net 0%nat (Some [(-1)%Z; (-2)%Z]) 0 example_world
  = loss example_net 0%nat (Some (wrap_labels 2 [(-1)%Z; (-2)%Z])) 0 example_world
  /\ returns (loss example_net 0%nat (Some [(-1)%Z; (-2)%Z]) 0) example_world
       (fun r _ => exists g,
          r = LossGrads
                (loss_formula example_weights example_X
                   (wrap_labels 2 [(-1)%Z; (-2)%Z]) 0) g).
Proof.
  apply (@negative_labels_wrap example_net 0%nat example_X example_weights
           [(-1)%Z; (-2)%Z] 0 2%nat 2%nat 2%nat 2%nat example_world).
  - reflexivity.
  - repeat split.
  - reflexivity.
  - repeat split.
  - lia.
  - reflexivity.
  - lia.
  - repeat constructor; simpl; lia.
Defined.

Lemma nth_repeat_lt (T : Type) (a d : T) n i :
  (i < n)%nat -> nth i (repeat a n) d = a.
Proof.
  intros Hi. rewrite (nth_indep _ d a) by (rewrite repeat_length; exact Hi).
  apply nth_repeat.
Qed.

Lemma fancy_cells_broadcast A N k :
  np.fancy_cells A N [k] = np.fancy_cells A N (repeat k N).
Proof.
  unfold np.fancy_cells. rewrite repeat_length. simpl length.
  rewrite np_facts.bdim_one_r, np_facts.bdim_same.
  destruct (existsb _ _); [reflexivity|].
  rewrite (@norm_indices_ext nat (ncols A)
             (fun i => nth (np.bidx 1 i) [k] 0%Z)
             (fun i => nth (np.bidx N i) (repeat k N) 0%Z)); [reflexivity|].
  intros i Hi. apply in_seq in Hi. f_equal.
  rewrite np_facts.bidx_one. simpl nth.
  symmetry. apply nth_repeat_lt. unfold np.bidx.
  destruct (N =? 1); lia.
Qed.

(** X7. A label vector with a single entry is not rejected for a batch of
    [N] examples: it is broadcast, and [loss] does exactly what it does when
    every example carries that label. *)
Theorem single_label_broadcast self X XA v k reg N D H C w :
  lookup w X = Some XA -> net_holds w (params self) v ->
  shape XA = (N, D) -> weights_shape D H C v ->
  (1 <= N)%nat -> (0 <= k < Z.of_nat C)%Z ->
  loss self X (Some [k]) reg w = loss self X (Some (repeat k N)) reg w
  /\ returns (loss self X (Some [k]) reg) w
       (fun r _ => exists g,
          r = LossGrads (loss_formula v XA (repeat k N) reg) g).
Proof.
  intros HX Hnet Hsh Hshape HN1 Hk.
  assert (E : loss self X (Some [k]) reg w
              = loss self X (Some (repeat k N)) reg w).
  { eapply loss_labels_agree; try eassumption; [lia|].
    intros A _ _. apply fancy_cells_broadcast. }
  split; [exact E|].
  unfold returns. rewrite E.
  eapply loss_spec;
    [exact HX | exact Hnet | exact (f_equal fst Hsh) | exact (f_equal snd Hsh)
    | exact Hshape | exact HN1 | apply repeat_length | |].
  - apply Forall_forall. intros z Hz. apply repeat_spec in Hz. subst z. exact Hk.
  - intros g w' _ _ _ _. exists g. reflexivity.
Qed.

Lemma single_label_broadcast_witness :
  loss example_net 0%nat (Some [1%Z]) 0 example_world
  = loss example_net 0%nat (Some (repeat 1%Z 2)) 0 example_world
  /\ returns (loss example_net 0%nat (Some [1%Z]) 0) example_world
       (fun r _ => exists g,
          r = LossGrads
                (loss_formula example_weights example_X (repeat 1%Z 2) 0) g).
Proof.
  apply (@single_label_broadcast example_net 0%nat example_X example_weights
           1%Z 0 2%nat 2%nat 2%nat 2%nat example_world).
  - reflexivity.
  - repeat split.
  - reflexivity.
  - repeat split.
  - lia.
  - simpl. lia.
Defined.

(** * Beyond the specification: edge cases of [train] *)

Lemma xrange_cons n :
  (1 <= n)%Z -> exists rest, xrange 1 (n + 1) = 1%Z :: rest.
Proof.
  intros Hn. unfold xrange.
  replace (n + 1 - 1)%Z with n by lia.
  destruct (Z.to_nat n) as [|m] eqn:E; [lia|].
  eexists. simpl. reflexivity.
Qed.

Lemma xrange_nonpos n : (n <= 0)%Z -> xrange 1 (n + 1) = [].
Proof.
  intros Hn. unfold xrange.
  replace (Z.to_nat (n + 1 - 1)) with 0%nat by lia. reflexivity.
Qed.

Lemma div_by_negative a b : (0 <= a)%Z -> (b < 0)%Z -> (a / b <= 0)%Z.
Proof.
  intros Ha Hb.
  pose proof (Z.div_mod a b ltac:(lia)) as E.
  pose proof (Z.mod_neg_bound a b Hb) as Hm. nia.
Qed.

(** X8. What [train] rejects, it rejects before anything has changed.  A
    batch size of 0 stops the call with [ZeroDivisionError] at
    [num_train / batch_size], whatever the number of epochs.  A negative
    batch size, or a training set without examples, gets past that line;
    if the loop is entered at all ([num_epochs >= 1]) its first
    [np.random.choice] raises [ValueError].  In each case the world after
    the call, the random state included, is the world before. *)
Theorem train_rejects self X XA y X_val y_val lr decay reg mu0 num_epochs
    mu_increase batch_size verbose w :
  lookup w X = Some XA ->
  (batch_size = 0%Z ->
   train self X y X_val y_val lr decay reg mu0 num_epochs mu_increase
     batch_size verbose w = (Raise ZeroDivisionError, w))
  /\ ((batch_size < 0)%Z \/ (nrows XA = 0%nat /\ (0 < batch_size)%Z) ->
      (1 <= num_epochs)%Z ->
      train self X y X_val y_val lr decay reg mu0 num_epochs mu_increase
        batch_size verbose w = (Raise ValueError, w)).
Proof.
  intros HX. split.
  - intros ->. unfold train, train_run, bind, load, int_div. rewrite HX.
    reflexivity.
  - intros Hbad Hep.
    assert (Hb0 : (batch_size =? 0)%Z = false)
      by (apply Z.eqb_neq; destruct Hbad as [?|[_ ?]]; lia).
    assert (Hq : Z.max (Z.of_nat (nrows XA) / batch_size) 1 = 1%Z).
    { apply Z.max_r. destruct Hbad as [Hneg|[HN Hpos]].
      - assert (Z.of_nat (nrows XA) / batch_size <= 0)%Z; [|lia].
        apply div_by_negative; lia.
      - rewrite HN. simpl. rewrite Z.div_0_l by lia. lia. }
    destruct (xrange_cons Hep) as (rest & Hx).
    unfold train, train_run, bind at 1 2, load. rewrite HX.
    unfold bind at 1, int_div. rewrite Hb0. unfold ret at 1.
    rewrite Hq, Z.mul_1_r, Hx.
    simpl for_each. unfold bind at 1, train_step, bind at 1.
    unfold npy.random_choice.
    replace ((nrows XA =? 0) || (batch_size <? 0)%Z) with true; [reflexivity|].
    symmetry. apply orb_true_iff.
    destruct Hbad as [Hneg|[HN _]];
      [right; apply Z.ltb_lt; exact Hneg | left; apply Nat.eqb_eq; exact HN].
Qed.

Lemma train_rejects_witness :
  train example_net 0%nat example_y 5%nat example_y 1 1 0 0 3%Z 1 0%Z true
    example_world
  = (Raise ZeroDivisionError, example_world)
  /\ train example_net 0%nat example_y 5%nat example_y 1 1 0 0 3%Z 1 (-2)%Z true
       example_world
     = (Raise ValueError, example_world).
Proof.
  split.
  - apply (proj1 (@train_rejects example_net 0%nat example_X example_y 5%nat
                    example_y 1 1 0 0 3%Z 1 0%Z true example_world eq_refl)).
    reflexivity.
  - apply (proj2 (@train_rejects example_net 0%nat example_X example_y 5%nat
                    example_y 1 1 0 0 3%Z 1 (-2)%Z true example_world eq_refl)).
    + left. lia.
    + lia.
Defined.

(** X9. A negative number of epochs is taken for none: for
    [num_epochs <= 0] (and a batch size other than 0) the loop is not
    entered, [train] returns three empty histories, and the world, the
    parameters and the random state in it, is the world before. *)
Theorem train_no_epochs self X XA y X_val y_val lr decay reg mu0 num_epochs
    mu_increase batch_size verbose w :
  lookup w X = Some XA -> batch_size <> 0%Z -> (num_epochs <= 0)%Z ->
  train self X y X_val y_val lr decay reg mu0 num_epochs mu_increase
    batch_size verbose w
  = (Ok (mkHistory [] [] []), w).
Proof.
  intros HX Hb Hep.
  unfold train, train_run, bind at 1 2, load. rewrite HX.
  unfold bind at 1, int_div.
  replace (batch_size =? 0)%Z with false by (symmetry; apply Z.eqb_neq; exact Hb).
  unfold ret at 1.
  rewrite xrange_nonpos; [reflexivity|].
  assert (1 <= Z.max (Z.of_nat (nrows XA) / batch_size) 1)%Z by lia.
  nia.
Qed.

Lemma train_no_epochs_witness :
  train example_net 0%nat example_y 5%nat example_y 1 1 0 0 (-3)%Z 1 2%Z true
    example_world
  = (Ok (mkHistory [] [] []), example_world).
Proof.
  apply (@train_no_epochs example_net 0%nat example_X example_y 5%nat example_y
           1 1 0 0 (-3)%Z 1 2%Z true example_world eq_refl).
  - discriminate.
  - lia.
Defined.

(** * Beyond the specification: what training keeps *)

(** ** More on finite sums *)

Lemma sum_upto_plus n f g :
  sum_upto n (fun i => f i + g i) = sum_upto n f + sum_upto n g.
Proof.
  induction n as [|n IH]; [rewrite !sum_upto_0; lra|].
  rewrite !sum_upto_S, IH. lra.
Qed.

Lemma sum_upto_minus n f g :
  sum_upto n (fun i => f i - g i) = sum_upto n f - sum_upto n g.
Proof.
  induction n as [|n IH]; [rewrite !sum_upto_0; lra|].
  rewrite !sum_upto_S, IH. lra.
Qed.

Lemma sum_upto_div n f c :
  sum_upto n (fun i => f i / c) = sum_upto n f / c.
Proof.
  induction n as [|n IH]; [rewrite !sum_upto_0; unfold Rdiv; lra|].
  rewrite !sum_upto_S, IH. unfold Rdiv. lra.
Qed.

Lemma sum_upto_zero n f :
  (forall i, (i < n)%nat -> f i = 0) -> sum_upto n f = 0.
Proof.
  induction n as [|n IH]; intros Hf; [apply sum_upto_0|].
  rewrite sum_upto_S, IH, Hf by (intros; try apply Hf; lia). lra.
Qed.

Lemma sum_upto_le n f g :
  (forall i, (i < n)%nat -> f i <= g i) -> sum_upto n f <= sum_upto n g.
Proof.
  induction n as [|n IH]; intros Hfg; [rewrite !sum_upto_0; lra|].
  rewrite !sum_upto_S.
  pose proof (Hfg n ltac:(lia)). pose proof (IH ltac:(intros; apply Hfg; lia)).
  lra.
Qed.

Lemma sum_upto_ones n : sum_upto n (fun _ => 1) = INR n.
Proof.
  induction n as [|n IH]; [apply sum_upto_0|].
  rewrite sum_upto_S, IH, S_INR. reflexivity.
Qed.

Lemma sum_upto_constant n c : sum_upto n (fun _ => c) = INR n * c.
Proof.
  induction n as [|n IH]; [rewrite sum_upto_0; simpl; lra|].
  rewrite sum_upto_S, IH, S_INR. lra.
Qed.

Lemma sum_upto_swap n m (f : nat -> nat -> R) :
  sum_upto n (fun i => sum_upto m (fun j => f i j))
  = sum_upto m (fun j => sum_upto n (fun i => f i j)).
Proof.
  induction n as [|n IH].
  - rewrite sum_upto_0. symmetry. apply sum_upto_zero.
    intros j _. apply sum_upto_0.
  - rewrite sum_upto_S, IH, <- sum_upto_plus.
    apply sum_upto_ext. intros j _. rewrite sum_upto_S. reflexivity.
Qed.

(** A sum with a single term. *)
Lemma sum_upto_single n k (a : nat -> R) :
  (k < n)%nat -> sum_upto n (fun j => if (j =? k)%nat then a j else 0) = a k.
Proof.
  induction n as [|n IH]; intros Hk; [lia|].
  rewrite sum_upto_S. destruct (Nat.eq_dec k n) as [->|Hne].
  - rewrite Nat.eqb_refl, sum_upto_zero; [lra|].
    intros j Hj. replace (j =? n)%nat with false; [reflexivity|].
    symmetry. apply Nat.eqb_neq. lia.
  - rewrite IH by lia. replace (n =? k)%nat with false; [lra|].
    symmetry. apply Nat.eqb_neq. lia.
Qed.

(** ** Invariants of the training loop *)

Lemma for_each_invariant (I : loop_state -> world -> Prop) body its :
  (forall it s w, I s w -> returns (body it s) w I) ->
  forall s w, I s w -> returns (for_each body its s) w I.
Proof.
  intros Hbody. induction its as [|it its IH]; intros s w HI; simpl.
  - apply returns_ret. exact HI.
  - apply returns_bind.
    eapply returns_mono; [apply (Hbody it s w HI)|].
    intros s1 w1 HI1. apply IH. exact HI1.
Qed.

(** A property [J] of the world, the loop state and the parameter values
    that holds when the loop is entered and that every iteration maintains
    holds when [train] returns. *)
Lemma train_invariant self X XA y X_val XvA y_val lr decay reg mu0 num_epochs
    mu_increase batch_size verbose N D H C Nv v w
    (J : world -> loop_state -> weights -> Prop) :
  train_ready self X XA y X_val XvA y_val batch_size N D H C Nv v w ->
  J w (initial_loop_state lr mu0) v ->
  (forall ipe it w0 s0 v0 s' w',
      train_inv self X XA X_val XvA D H C w0 s0 v0 -> J w0 s0 v0 ->
      step_post self X XA y X_val XvA y_val decay reg mu_increase batch_size
        verbose N D H C ipe it w0 s0 v0 s' w' ->
      exists v', train_inv self X XA X_val XvA D H C w' s' v' /\ J w' s' v') ->
  returns (train self X y X_val y_val lr decay reg mu0 num_epochs mu_increase
             batch_size verbose) w
    (fun hist w' => exists s' v',
       hist = mkHistory (loss_history s') (train_acc_history s')
                (val_acc_history s') /\
       net_holds w' (params self) v' /\ weights_shape D H C v' /\
       J w' s' v').
Proof.
  intros Hready HJ Hstep.
  pose proof (train_ready_inv lr mu0 Hready) as Inv.
  pose proof Hready as (HX & _ & _ & _ & HXs & _ & _ & _ & Hb & _).
  unfold train, train_run.
  apply returns_bind.
  apply returns_bind. eapply returns_load; [exact HX|].
  rewrite (f_equal fst HXs : nrows XA = N).
  apply returns_bind. unfold int_div.
  replace (batch_size =? 0)%Z with false by (symmetry; apply Z.eqb_neq; lia).
  apply returns_ret.
  eapply returns_mono.
  - apply (@for_each_invariant
             (fun s w0 => exists v0,
                train_inv self X XA X_val XvA D H C w0 s v0 /\ J w0 s v0)).
    + intros it s0 w0 (v0 & Inv0 & HJ0).
      eapply returns_mono;
        [apply (train_ready_step_inv _ it decay reg mu_increase verbose
                  Hready Inv0)|].
      intros s' w' Hpost. apply (Hstep _ it w0 s0 v0 s' w' Inv0 HJ0 Hpost).
    + exists v. split; [exact Inv | exact HJ].
  - intros s' w' (v' & Inv' & HJ'). apply returns_ret.
    exists s', v'. split; [reflexivity|].
    split; [apply Inv'|]. split; [apply Inv' | exact HJ'].
Qed.

(** ** The recorded losses and accuracies *)

Lemma Forall_snoc (T : Type) (P : T -> Prop) l a :
  Forall P l -> P a -> Forall P (l ++ [a]).
Proof.
  intros Hl Ha. apply Forall_app. split; [exact Hl | constructor; [exact Ha | constructor]].
Qed.

Lemma batch_ready self X XA y X_val XvA y_val batch_size N D H C Nv v w w0 :
  train_ready self X XA y X_val XvA y_val batch_size N D H C Nv v w ->
  nrows (batch_X XA batch_size N w0) = Z.to_nat batch_size /\
  (1 <= Z.to_nat batch_size)%nat /\
  length (batch_y y batch_size N w0) = Z.to_nat batch_size /\
  valid_labels C (batch_y y batch_size N w0).
Proof.
  intros (_ & _ & _ & _ & HXs & HN1 & Hy & Hv & Hb & _ & Hyv & _).
  split; [exact (f_equal fst (@batch_X_shape XA batch_size N D HXs w0))|].
  split; [lia|]. split; [apply batch_y_length|].
  apply (@batch_y_valid y y_val batch_size N C Nv HN1 Hy Hv Hyv w0).
Qed.

(** X10. With [reg >= 0] every loss that [train] records is non-negative,
    and with at least two classes every one of them is strictly
    positive. *)
Theorem train_losses_nonneg self X XA y X_val XvA y_val lr decay reg mu0
    num_epochs mu_increase batch_size verbose N D H C Nv v w :
  train_ready self X XA y X_val XvA y_val batch_size N D H C Nv v w ->
  0 <= reg ->
  returns (train self X y X_val y_val lr decay reg mu0 num_epochs mu_increase
             batch_size verbose) w
    (fun hist _ =>
       Forall (fun l => 0 <= l) (h_loss_history hist) /\
       ((2 <= C)%nat -> Forall (fun l => 0 < l) (h_loss_history hist))).
Proof.
  intros Hready Hreg.
  eapply returns_mono.
  - apply (@train_invariant self X XA y X_val XvA y_val lr decay reg mu0
             num_epochs mu_increase batch_size verbose N D H C Nv v w
             (fun _ s _ =>
                Forall (fun l => 0 <= l) (loss_history s) /\
                ((2 <= C)%nat -> Forall (fun l => 0 < l) (loss_history s)))
             Hready).
    + split; [constructor | intros _; constructor].
    + intros ipe it w0 s0 v0 s' w' Inv0 [J0 J0'] (v' & Inv' & _ & _ & EL & _).
      exists v'. split; [exact Inv'|].
      destruct (batch_ready w0 Hready) as (BN & B1 & By & Bv).
      destruct Inv0 as (_ & Hshape0 & _).
      rewrite EL. split.
      * apply Forall_snoc; [exact J0|].
        apply (@loss_nonneg v0 (batch_X XA batch_size N w0) (batch_y y batch_size N w0)
                 reg (Z.to_nat batch_size) D H C BN Hshape0 B1 By Bv Hreg).
      * intros HC. apply Forall_snoc; [exact (J0' HC)|].
        apply (@loss_pos_classes v0 (batch_X XA batch_size N w0)
                 (batch_y y batch_size N w0) reg (Z.to_nat batch_size) D H C
                 BN Hshape0 B1 By Bv Hreg HC).
  - intros hist w' (s' & v' & -> & _ & _ & HJ). exact HJ.
Qed.

Lemma train_losses_nonneg_witness :
  returns (train example_net 0%nat example_y 5%nat example_y
             1 1 0 0.5 3%Z 1 1%Z true) example_world
    (fun hist _ =>
       Forall (fun l => 0 <= l) (h_loss_history hist) /\
       ((2 <= 2)%nat -> Forall (fun l => 0 < l) (h_loss_history hist))).
Proof.
  apply (@train_losses_nonneg example_net 0%nat example_X example_y
           5%nat example_X example_y 1 1 0 0.5 3%Z 1 1%Z true
           2%nat 2%nat 2%nat 2%nat 2%nat example_weights example_world
           (example_train_ready (Z.le_refl 1))).
  lra.
Defined.

Lemma accuracy_bounds p y : (1 <= length p)%nat -> 0 <= accuracy p y <= 1.
Proof.
  intros Hp. unfold accuracy.
  assert (Hpos : 0 < INR (length p)) by (apply lt_0_INR; lia).
  set (f := fun i => if Z.eqb (nth i p 0%Z) (nth i y 0%Z) then 1 else 0).
  assert (H0 : 0 <= sum_upto (length p) f).
  { apply sum_upto_nonneg. intros i _. unfold f.
    destruct (Z.eqb _ _); lra. }
  assert (H1 : sum_upto (length p) f <= INR (length p)).
  { rewrite <- sum_upto_ones. apply sum_upto_le. intros i _. unfold f.
    destruct (Z.eqb _ _); lra. }
  split.
  - apply Rmult_le_pos; [exact H0 | left; apply Rinv_0_lt_compat; exact Hpos].
  - apply (Rmult_le_reg_r (INR (length p))); [exact Hpos|].
    unfold Rdiv. rewrite Rmult_assoc, Rinv_l by lra. lra.
Qed.

(** X11. Every accuracy that [train] records, on the minibatch and on a
    validation set with at least one example, lies in [[0, 1]]. *)
Theorem train_accuracies_bounded self X XA y X_val XvA y_val lr decay reg mu0
    num_epochs mu_increase batch_size verbose N D H C Nv v w :
  train_ready self X XA y X_val XvA y_val batch_size N D H C Nv v w ->
  (1 <= Nv)%nat ->
  returns (train self X y X_val y_val lr decay reg mu0 num_epochs mu_increase
             batch_size verbose) w
    (fun hist _ =>
       Forall (fun a => 0 <= a <= 1) (h_train_acc_history hist) /\
       Forall (fun a => 0 <= a <= 1) (h_val_acc_history hist)).
Proof.
  intros Hready HNv.
  eapply returns_mono.
  - apply (@train_invariant self X XA y X_val XvA y_val lr decay reg mu0
             num_epochs mu_increase batch_size verbose N D H C Nv v w
             (fun _ s _ =>
                Forall (fun a => 0 <= a <= 1) (train_acc_history s) /\
                Forall (fun a => 0 <= a <= 1) (val_acc_history s))
             Hready).
    + split; constructor.
    + intros ipe it w0 s0 v0 s' w' Inv0 [JT JV]
        (v' & Inv' & _ & _ & _ & _ & _ & _ & _ & Hif).
      exists v'. split; [exact Inv'|].
      destruct (batch_ready w0 Hready) as (BN & B1 & _ & _).
      destruct (verbose && (it mod ipe =? 0)%Z).
      * destruct Hif as (ET & EV & _). rewrite ET, EV.
        pose proof Hready as (_ & _ & _ & _ & _ & _ & _ & _ & _ & HXvs & _).
        split; (apply Forall_snoc; [assumption|]); apply accuracy_bounds;
          rewrite predictions_length.
        -- rewrite BN. exact B1.
        -- rewrite (f_equal fst HXvs : nrows XvA = Nv). exact HNv.
      * destruct Hif as (ET & EV & _). rewrite ET, EV. split; assumption.
  - intros hist w' (s' & v' & -> & _ & _ & HJ). exact HJ.
Qed.

Lemma train_accuracies_bounded_witness :
  returns (train example_net 0%nat example_y 5%nat example_y
             1 1 0 0.5 3%Z 1 1%Z true) example_world
    (fun hist _ =>
       Forall (fun a => 0 <= a <= 1) (h_train_acc_history hist) /\
       Forall (fun a => 0 <= a <= 1) (h_val_acc_history hist)).
Proof.
  apply (@train_accuracies_bounded example_net 0%nat example_X example_y
           5%nat example_X example_y 1 1 0 0.5 3%Z 1 1%Z true
           2%nat 2%nat 2%nat 2%nat 2%nat example_weights example_world
           (example_train_ready (Z.le_refl 1))).
  lia.
Defined.

(** ** A learning rate of zero *)

Lemma vel_is_entry w v n m f i j :
  vel_is w v n m f -> (i < n)%nat -> (j < m)%nat -> vel_entry w v i j = f i j.
Proof.
  intros (l & V & -> & Hl & AV) Hi Hj. simpl. rewrite Hl.
  apply (is_array_at AV Hi Hj).
Qed.

Lemma vel_zero_float w n m : vel_zero w (PyFloat 0) n m.
Proof. intros i j _ _. reflexivity. Qed.

(** An update whose gradient term [lr * grad] vanishes, applied to a
    velocity that is zero: the velocity stays zero and the parameter keeps
    its entries. *)
Lemma still_step w0 w' old new P P' n m mu0 lr grad :
  (forall i j, (i < n)%nat -> (j < m)%nat -> lr * grad i j = 0) ->
  vel_zero w0 old n m ->
  vel_is w' new n m (new_velocity w0 old mu0 lr grad) ->
  is_array P' n m (fun i j => get P i j + new_velocity w0 old mu0 lr grad i j) ->
  vel_zero w' new n m /\ same_entries P' P n m.
Proof.
  intros Hg Hz Hv HP.
  assert (E : forall i j, (i < n)%nat -> (j < m)%nat ->
                new_velocity w0 old mu0 lr grad i j = 0).
  { intros i j Hi Hj. unfold new_velocity. rewrite (Hz i j Hi Hj), (Hg i j Hi Hj).
    lra. }
  split.
  - intros i j Hi Hj. rewrite (vel_is_entry Hv Hi Hj). apply E; assumption.
  - intros i j Hi Hj. rewrite (is_array_at HP Hi Hj), E by assumption. lra.
Qed.

Lemma same_entries_refl A n m : same_entries A A n m.
Proof. intros i j _ _. reflexivity. Qed.

Lemma same_entries_trans A B C n m :
  same_entries A B n m -> same_entries B C n m -> same_entries A C n m.
Proof. intros H1 H2 i j Hi Hj. rewrite (H1 i j Hi Hj). apply H2; assumption. Qed.

Lemma train_loss_count self X XA y X_val XvA y_val lr decay reg mu0 num_epochs
    mu_increase batch_size verbose N D H C Nv v w :
  train_ready self X XA y X_val XvA y_val batch_size N D H C Nv v w ->
  returns (train self X y X_val y_val lr decay reg mu0 num_epochs mu_increase
             batch_size verbose) w
    (fun hist _ =>
       length (h_loss_history hist) = iterations N num_epochs batch_size).
Proof.
  intros Hready. unfold train. apply returns_bind.
  eapply returns_mono;
    [apply (train_run_spec lr decay reg mu0 num_epochs mu_increase verbose Hready)|].
  intros s' w' (v' & ls & ta & va & _ & EL & Hls & _).
  apply returns_ret. simpl.
  rewrite (xrange_iterations N num_epochs batch_size) in Hls.
  rewrite EL. exact Hls.
Qed.

(** X12. With a learning rate of 0, [train] goes through all its
    iterations (and records their losses) but learns nothing: when it
    returns, the four parameters have the entries they had before the call,
    whatever the momentum, the decay and the data. *)
Theorem train_zero_learning_rate self X XA y X_val XvA y_val decay reg mu0
    num_epochs mu_increase batch_size verbose N D H C Nv v w :
  train_ready self X XA y X_val XvA y_val batch_size N D H C Nv v w ->
  returns (train self X y X_val y_val 0 decay reg mu0 num_epochs mu_increase
             batch_size verbose) w
    (fun hist w' => exists v',
       net_holds w' (params self) v' /\ weights_shape D H C v' /\
       same_entries (wW1 v') (wW1 v) D H /\ same_entries (wb1 v') (wb1 v) 1 H /\
       same_entries (wW2 v') (wW2 v) H C /\ same_entries (wb2 v') (wb2 v) 1 C /\
       length (h_loss_history hist) = iterations N num_epochs batch_size).
Proof.
  intros Hready.
  eapply returns_mono.
  - apply returns_unique.
    + apply (@train_invariant self X XA y X_val XvA y_val 0 decay reg mu0
               num_epochs mu_increase batch_size verbose N D H C Nv v w
               (fun w0 s v0 =>
                  learning_rate s = 0 /\
                  (vel_zero w0 (v_W2 s) H C /\ same_entries (wW2 v0) (wW2 v) H C) /\
                  (vel_zero w0 (v_b2 s) 1 C /\ same_entries (wb2 v0) (wb2 v) 1 C) /\
                  (vel_zero w0 (v_W1 s) D H /\ same_entries (wW1 v0) (wW1 v) D H) /\
                  (vel_zero w0 (v_b1 s) 1 H /\ same_entries (wb1 v0) (wb1 v) 1 H))
               Hready).
      * split; [reflexivity|].
        repeat split; first [apply vel_zero_float | apply same_entries_refl].
      * intros ipe it w0 s0 v0 s' w' Inv0
          (Elr & [Z2 S2] & [ZB2 SB2] & [Z1 S1] & [ZB1 SB1])
          (v' & Inv' & _ & _ & _ & [V2 P2] & [VB2 PB2] & [V1 P1] & [VB1 PB1] & Hif).
        exists v'. split; [exact Inv'|].
        assert (Hg : forall (g : nat -> nat -> R) n m i j,
                   (i < n)%nat -> (j < m)%nat -> learning_rate s0 * g i j = 0)
          by (intros; rewrite Elr; lra).
        split.
        { destruct (verbose && (it mod ipe =? 0)%Z);
            destruct Hif as (_ & _ & -> & _); rewrite Elr; lra. }
        destruct (@still_step _ _ _ _ _ _ _ _ _ _ _ (Hg _ H C) Z2 V2 P2) as [Z2' S2'].
        destruct (@still_step _ _ _ _ _ _ _ _ _ _ _ (Hg _ 1%nat C) ZB2 VB2 PB2) as [ZB2' SB2'].
        destruct (@still_step _ _ _ _ _ _ _ _ _ _ _ (Hg _ D H) Z1 V1 P1) as [Z1' S1'].
        destruct (@still_step _ _ _ _ _ _ _ _ _ _ _ (Hg _ 1%nat H) ZB1 VB1 PB1) as [ZB1' SB1'].
        repeat split; try assumption;
          eapply same_entries_trans; eassumption.
    + apply (train_loss_count 0 decay reg mu0 num_epochs mu_increase verbose
               Hready).
  - intros hist w' [(s' & v' & -> & Hnet & Hshape & _ & [_ S2] & [_ SB2] & [_ S1] & [_ SB1]) Hlen].
    exists v'. repeat (split; [assumption|]). exact Hlen.
Qed.

Lemma train_zero_learning_rate_witness :
  returns (train example_net 0%nat example_y 5%nat example_y
             0 0.5 1 0.9 3%Z 1 1%Z true) example_world
    (fun hist w' => exists v',
       net_holds w' (params example_net) v' /\
       weights_shape 2%nat 2%nat 2%nat v' /\
       same_entries (wW1 v') (wW1 example_weights) 2%nat 2%nat /\
       same_entries (wb1 v') (wb1 example_weights) 1%nat 2%nat /\
       same_entries (wW2 v') (wW2 example_weights) 2%nat 2%nat /\
       same_entries (wb2 v') (wb2 example_weights) 1%nat 2%nat /\
       length (h_loss_history hist) = iterations 2%nat 3%Z 1%Z).
Proof.
  apply (@train_zero_learning_rate example_net 0%nat example_X example_y
           5%nat example_X example_y 0.5 1 0.9 3%Z 1 1%Z true
           2%nat 2%nat 2%nat 2%nat 2%nat example_weights example_world
           (example_train_ready (Z.le_refl 1))).
Defined.

(** ** The output bias moves on a hyperplane *)

Lemma softmax_sums_to_one C s : (0 < C)%nat -> sum_upto C (softmax C s) = 1.
Proof.
  intros HC. unfold softmax.
  rewrite (sum_upto_div C (fun j => exp (s j))).
  pose proof (sum_exp_pos s HC). unfold Rdiv. apply Rinv_r. lra.
Qed.

Lemma one_hot_sum y i C :
  (label y i < C)%nat -> sum_upto C (one_hot y i) = 1.
Proof.
  intros Hl. unfold one_hot.
  apply (sum_upto_single (fun _ => 1) Hl).
Qed.

Lemma dscores_row_sum v X y i :
  (label y i < ncols (wW2 v))%nat ->
  sum_upto (ncols (wW2 v)) (dscores_formula v X y i) = 0.
Proof.
  intros Hl. unfold dscores_formula.
  rewrite (sum_upto_div _ (fun j => prob v X i j - one_hot y i j)).
  rewrite (sum_upto_minus _ (prob v X i) (one_hot y i)).
  unfold prob. rewrite softmax_sums_to_one by lia.
  rewrite (one_hot_sum _ _ Hl). unfold Rdiv. lra.
Qed.

Lemma grad_b2_sum_zero v X y :
  (forall i, (i < nrows X)%nat -> (label y i < ncols (wW2 v))%nat) ->
  sum_upto (ncols (wW2 v)) (fun j => grad_b2_formula v X y 0 j) = 0.
Proof.
  intros Hl. unfold grad_b2_formula.
  rewrite <- (sum_upto_swap (nrows X) (ncols (wW2 v)) (dscores_formula v X y)).
  apply sum_upto_zero. intros i Hi. apply dscores_row_sum, Hl, Hi.
Qed.

Lemma dscores_bounded v X y i j :
  (0 < nrows X)%nat -> (j < ncols (wW2 v))%nat ->
  - / INR (nrows X) <= dscores_formula v X y i j <= / INR (nrows X).
Proof.
  intros HN Hj. unfold dscores_formula, prob.
  assert (HC : (0 < ncols (wW2 v))%nat) by lia.
  pose proof (softmax_pos (score v X i) j HC) as Hp0.
  pose proof (softmax_le_1 (score v X i) Hj) as Hp1.
  assert (Hinv : 0 < / INR (nrows X))
    by (apply Rinv_0_lt_compat, lt_0_INR; exact HN).
  unfold Rdiv, one_hot. destruct (j =? label y i)%nat; split; nra.
Qed.

Lemma grad_b2_bounded v X y j :
  (0 < nrows X)%nat -> (j < ncols (wW2 v))%nat ->
  -1 <= grad_b2_formula v X y 0 j <= 1.
Proof.
  intros HN Hj. unfold grad_b2_formula.
  assert (Hpos : 0 < INR (nrows X)) by (apply lt_0_INR; exact HN).
  assert (E : INR (nrows X) * / INR (nrows X) = 1) by (apply Rinv_r; lra).
  split.
  - replace (-1) with (INR (nrows X) * - / INR (nrows X)) by nra.
    rewrite <- sum_upto_constant. apply sum_upto_le.
    intros i _. apply (@dscores_bounded v X y i j HN Hj).
  - rewrite <- E, <- sum_upto_constant. apply sum_upto_le.
    intros i _. apply (@dscores_bounded v X y i j HN Hj).
Qed.

(** X13. The gradient that [loss] returns for [b2] has entries that sum to
    zero, each of them in [[-1, 1]]: each row of [dscores] is a probability
    vector minus a one-hot vector, divided by [N]. *)
Theorem loss_b2_gradient_sums_to_zero self X XA v y reg N D H C w :
  lookup w X = Some XA -> net_holds w (params self) v ->
  shape XA = (N, D) -> weights_shape D H C v ->
  (1 <= N)%nat -> length y = N -> valid_labels C y ->
  returns (loss self X (Some y) reg) w
    (fun r w' => exists l g GB2,
       r = LossGrads l g /\ lookup w' (b2 g) = Some GB2 /\
       shape GB2 = (1%nat, C) /\ sum_upto C (fun j => get GB2 0 j) = 0 /\
       (forall j, (j < C)%nat -> -1 <= get GB2 0 j <= 1)).
Proof.
  intros HX Hnet Hsh Hshape HN1 Hy Hv.
  assert (HN : nrows XA = N) by exact (f_equal fst Hsh).
  assert (EC : ncols (wW2 v) = C) by apply (weights_shape_arrays Hshape).
  eapply loss_spec;
    [exact HX | exact Hnet | exact HN | exact (f_equal snd Hsh)
    | exact Hshape | exact HN1 | exact Hy | exact Hv |].
  intros g w' _ _ (G1 & GB1 & G2 & GB2 & _ & _ & _ & [LB2 AB2]) _.
  exists (loss_formula v XA y reg), g, GB2.
  split; [reflexivity|]. split; [exact LB2|].
  split; [apply (is_array_shape AB2)|]. split.
  - rewrite (@sum_upto_ext C (fun j => get GB2 0 j) (grad_b2_formula v XA y 0%nat)).
    + rewrite <- EC. apply grad_b2_sum_zero. intros i Hi. rewrite EC.
      apply (valid_label_lt Hv). lia.
    + intros j Hj. apply (is_array_at AB2); [lia | exact Hj].
  - intros j Hj. rewrite (is_array_at AB2 Nat.lt_0_1 Hj).
    apply grad_b2_bounded; [rewrite HN; lia | rewrite EC; exact Hj].
Qed.

Lemma loss_b2_gradient_sums_to_zero_witness :
  returns (loss example_net 0%nat (Some example_y) 1) example_world
    (fun r w' => exists l g GB2,
       r = LossGrads l g /\ lookup w' (b2 g) = Some GB2 /\
       shape GB2 = (1%nat, 2%nat) /\ sum_upto 2 (fun j => get GB2 0 j) = 0 /\
       (forall j, (j < 2)%nat -> -1 <= get GB2 0 j <= 1)).
Proof.
  apply (@loss_b2_gradient_sums_to_zero example_net 0%nat example_X
           example_weights example_y 1 2%nat 2%nat 2%nat 2%nat example_world).
  - reflexivity.
  - repeat split.
  - reflexivity.
  - repeat split.
  - lia.
  - reflexivity.
  - exact example_valid_labels.
Defined.

(** X14. Training never changes the sum of the entries of [b2]: with
    velocities that start at zero, every momentum step adds to [b2] a
    vector whose entries sum to zero. *)
Theorem train_keeps_b2_sum self X XA y X_val XvA y_val lr decay reg mu0
    num_epochs mu_increase batch_size verbose N D H C Nv v w :
  train_ready self X XA y X_val XvA y_val batch_size N D H C Nv v w ->
  returns (train self X y X_val y_val lr decay reg mu0 num_epochs mu_increase
             batch_size verbose) w
    (fun _ w' => exists v',
       net_holds w' (params self) v' /\ weights_shape D H C v' /\
       sum_upto C (fun j => get (wb2 v') 0 j)
       = sum_upto C (fun j => get (wb2 v) 0 j)).
Proof.
  intros Hready.
  eapply returns_mono.
  - apply (@train_invariant self X XA y X_val XvA y_val lr decay reg mu0
             num_epochs mu_increase batch_size verbose N D H C Nv v w
             (fun w0 s v0 =>
                sum_upto C (fun j => vel_entry w0 (v_b2 s) 0 j) = 0 /\
                sum_upto C (fun j => get (wb2 v0) 0 j)
                = sum_upto C (fun j => get (wb2 v) 0 j))
             Hready).
    + split; [|reflexivity]. apply sum_upto_zero. intros j _. reflexivity.
    + intros ipe it w0 s0 v0 s' w' Inv0 [ZV SB]
        (v' & Inv' & _ & _ & _ & _ & [VB2 PB2] & _).
      exists v'. split; [exact Inv'|].
      destruct (batch_ready w0 Hready) as (BN & B1 & By & Bv).
      destruct Inv0 as (_ & Hshape0 & _).
      assert (EC : ncols (wW2 v0) = C) by apply (weights_shape_arrays Hshape0).
      set (g := grad_b2_formula v0 (batch_X XA batch_size N w0)
                  (batch_y y batch_size N w0)) in *.
      assert (Hg : sum_upto C (fun j => g 0%nat j) = 0).
      { unfold g. rewrite <- EC. apply grad_b2_sum_zero. intros i Hi.
        rewrite EC. apply (valid_label_lt Bv). rewrite By, <- BN. exact Hi. }
      assert (Hnew : sum_upto C (fun j =>
                new_velocity w0 (v_b2 s0) (mu s0) (learning_rate s0) g 0 j) = 0).
      { unfold new_velocity.
        rewrite (sum_upto_minus C
                   (fun j => mu s0 * vel_entry w0 (v_b2 s0) 0 j)
                   (fun j => learning_rate s0 * g 0%nat j)).
        rewrite (sum_upto_scale C (fun j => vel_entry w0 (v_b2 s0) 0 j) (mu s0)).
        rewrite (sum_upto_scale C (fun j => g 0%nat j) (learning_rate s0)).
        rewrite ZV, Hg. lra. }
      split.
      * rewrite <- Hnew. apply sum_upto_ext. intros j Hj.
        apply (vel_is_entry VB2); [lia | exact Hj].
      * rewrite <- SB.
        rewrite (@sum_upto_ext C (fun j => get (wb2 v') 0 j)
                   (fun j => get (wb2 v0) 0 j +
                      new_velocity w0 (v_b2 s0) (mu s0) (learning_rate s0) g 0 j)).
        -- rewrite (sum_upto_plus C (fun j => get (wb2 v0) 0 j)
                      (fun j => new_velocity w0 (v_b2 s0) (mu s0)
                                  (learning_rate s0) g 0 j)).
           rewrite Hnew. lra.
        -- intros j Hj. apply (is_array_at PB2); [lia | exact Hj].
  - intros hist w' (s' & v' & _ & Hnet & Hshape & _ & HS).
    exists v'. split; [exact Hnet|]. split; [exact Hshape | exact HS].
Qed.

Lemma train_keeps_b2_sum_witness :
  returns (train example_net 0%nat example_y 5%nat example_y
             1 0.5 1 0.9 3%Z 1 1%Z true) example_world
    (fun _ w' => exists v',
       net_holds w' (params example_net) v' /\
       weights_shape 2%nat 2%nat 2%nat v' /\
       sum_upto 2 (fun j => get (wb2 v') 0 j)
       = sum_upto 2 (fun j => get (wb2 example_weights) 0 j)).
Proof.
  apply (@train_keeps_b2_sum example_net 0%nat example_X example_y
           5%nat example_X example_y 1 0.5 1 0.9 3%Z 1 1%Z true
           2%nat 2%nat 2%nat 2%nat 2%nat example_weights example_world
           (example_train_ready (Z.le_refl 1))).
Defined.

(** ** A network of zeros stays a network of zeros *)

Lemma zero_pre_activation v X D H i k :
  ncols X = D -> zero_entries (wW1 v) D H -> zero_entries (wb1 v) 1 H ->
  (k < H)%nat -> pre_activation v X i k = 0.
Proof.
  intros HD Z1 ZB1 Hk. unfold pre_activation.
  rewrite sum_upto_zero; [rewrite ZB1 by (lia || exact Hk); lra|].
  intros d Hd. rewrite Z1 by (lia || exact Hk). lra.
Qed.

Lemma zero_weight_gradients v X y reg D H C :
  ncols X = D -> ncols (wW2 v) = C ->
  zero_entries (wW1 v) D H -> zero_entries (wb1 v) 1 H ->
  zero_entries (wW2 v) H C ->
  (forall k j, (k < H)%nat -> (j < C)%nat -> grad_W2_formula v X y reg k j = 0) /\
  (forall d k, (d < D)%nat -> (k < H)%nat -> grad_W1_formula v X y reg d k = 0) /\
  (forall i k, (k < H)%nat -> grad_b1_formula v X y i k = 0).
Proof.
  intros HD EC Z1 ZB1 Z2.
  assert (Hg : forall i k, (k < H)%nat -> gated_formula v X y i k = 0).
  { intros i k Hk. unfold gated_formula.
    rewrite (@zero_pre_activation v X D H i k HD Z1 ZB1 Hk).
    destruct (Rle_dec 0 0) as [_|Hn]; [reflexivity | exfalso; apply Hn; lra]. }
  split; [|split].
  - intros k j Hk Hj. unfold grad_W2_formula.
    rewrite sum_upto_zero; [rewrite Z2 by assumption; lra|].
    intros i _. unfold hidden. rewrite (@zero_pre_activation v X D H i k HD Z1 ZB1 Hk).
    rewrite Rmax_left by lra. lra.
  - intros d k Hd Hk. unfold grad_W1_formula.
    rewrite sum_upto_zero; [rewrite Z1 by assumption; lra|].
    intros i _. rewrite (Hg i k Hk). lra.
  - intros i k Hk. unfold grad_b1_formula.
    apply sum_upto_zero. intros i' _. apply Hg, Hk.
Qed.

Lemma zero_entries_same A B n m :
  same_entries A B n m -> zero_entries B n m -> zero_entries A n m.
Proof. intros HS HZ i j Hi Hj. rewrite (HS i j Hi Hj). apply HZ; assumption. Qed.

Lemma train_zero_weights self X XA y X_val XvA y_val lr decay reg mu0
    num_epochs mu_increase batch_size verbose N D H C Nv v w :
  train_ready self X XA y X_val XvA y_val batch_size N D H C Nv v w ->
  zero_entries (wW1 v) D H -> zero_entries (wb1 v) 1 H ->
  zero_entries (wW2 v) H C ->
  returns (train self X y X_val y_val lr decay reg mu0 num_epochs mu_increase
             batch_size verbose) w
    (fun _ w' => exists v',
       net_holds w' (params self) v' /\ weights_shape D H C v' /\
       zero_entries (wW1 v') D H /\ zero_entries (wb1 v') 1 H /\
       zero_entries (wW2 v') H C).
Proof.
  intros Hready Z1 ZB1 Z2.
  eapply returns_mono.
  - apply (@train_invariant self X XA y X_val XvA y_val lr decay reg mu0
             num_epochs mu_increase batch_size verbose N D H C Nv v w
             (fun w0 s v0 =>
                (vel_zero w0 (v_W2 s) H C /\ zero_entries (wW2 v0) H C) /\
                (vel_zero w0 (v_W1 s) D H /\ zero_entries (wW1 v0) D H) /\
                (vel_zero w0 (v_b1 s) 1 H /\ zero_entries (wb1 v0) 1 H))
             Hready).
    + repeat split; first [apply vel_zero_float | assumption].
    + intros ipe it w0 s0 v0 s' w' Inv0
        ([V2 Z2'] & [V1 Z1'] & [VB1 ZB1'])
        (v' & Inv' & _ & _ & _ & [N2 P2] & _ & [N1 P1] & [NB1 PB1] & _).
      exists v'. split; [exact Inv'|].
      destruct Inv0 as (_ & Hshape0 & _).
      pose proof Hready as (_ & _ & _ & _ & HXs & _).
      destruct (@zero_weight_gradients v0 (batch_X XA batch_size N w0)
                  (batch_y y batch_size N w0) reg D H C
                  (f_equal snd (@batch_X_shape XA batch_size N D HXs w0))
                  (@ncols_W2 v0 D H C Hshape0)
                  Z1' ZB1' Z2') as (G2 & G1 & GB1).
      destruct (@still_step _ _ _ _ _ _ _ _ _ _ _
                  (fun i j Hi Hj => eq_trans
                     (f_equal (Rmult (learning_rate s0)) (G2 i j Hi Hj))
                     (Rmult_0_r _)) V2 N2 P2) as [V2' S2].
      destruct (@still_step _ _ _ _ _ _ _ _ _ _ _
                  (fun i j Hi Hj => eq_trans
                     (f_equal (Rmult (learning_rate s0)) (G1 i j Hi Hj))
                     (Rmult_0_r _)) V1 N1 P1) as [V1' S1].
      destruct (@still_step _ _ _ _ _ _ _ _ _ _ _
                  (fun i j (Hi : (i < 1)%nat) Hj => eq_trans
                     (f_equal (Rmult (learning_rate s0)) (GB1 i j Hj))
                     (Rmult_0_r _)) VB1 NB1 PB1) as [VB1' SB1].
      repeat split; try assumption; eapply zero_entries_same; eassumption.
  - intros hist w' (s' & v' & _ & Hnet & Hshape & [_ Z2'] & [_ Z1'] & [_ ZB1']).
    exists v'. repeat (split; [assumption|]). exact Z2'.
Qed.

(** ** Construction allocates, and draws what it needs *)

Lemma preserves_random_randn n a b :
  preserves n (npy.random_randn a b) (fun l => (n <= l)%nat).
Proof.
  intros w Hw. unfold npy.random_randn, alloc; simpl.
  split; [rewrite length_app; simpl; lia|]. split.
  - intros l Hl. unfold lookup; simpl. apply nth_error_app1. lia.
  - intros l E. inversion E; subst. exact Hw.
Qed.

Lemma preserves_init n D H C std :
  preserves n (init D H C std)
    (fun net => Forall (fun l => (n <= l)%nat) (param_locs (params net))).
Proof.
  unfold init, npy.scale, npy.zeros.
  eapply preserves_bind; [apply preserves_random_randn | intros r1 _].
  eapply preserves_bind; [apply preserves_fresh1 | intros pW1 HW1].
  eapply preserves_bind; [apply preserves_alloc | intros pb1 Hb1].
  eapply preserves_bind; [apply preserves_random_randn | intros r2 _].
  eapply preserves_bind; [apply preserves_fresh1 | intros pW2 HW2].
  eapply preserves_bind; [apply preserves_alloc | intros pb2 Hb2].
  apply preserves_ret. unfold param_locs; simpl.
  repeat (constructor; [assumption|]). constructor.
Qed.

(** The parameters of a new network are arrays that did not exist. *)
Lemma init_fresh D H C std w :
  returns (init D H C std) w
    (fun net w' =>
       init_post D H C std w net w' /\
       Forall (fun l => (length (heap w) <= l)%nat) (param_locs (params net))).
Proof.
  destruct (init_spec D H C std w) as (net & w' & E & HP).
  exists net, w'. split; [exact E|]. split; [exact HP|].
  destruct (@preserves_init (length (heap w)) D H C std w (le_n _))
    as (_ & _ & HR).
  apply HR. rewrite E. reflexivity.
Qed.

Lemma returns_randn_state n m w (Q : loc -> world -> Prop) :
  (forall w0,
      heap w0 = heap w ->
      random w0 = mkRandom (raw_int (random w)) (raw_gauss (random w))
                    (used_int (random w)) (used_gauss (random w) + n * m) ->
      forall T, Q (length (heap w0)) (allocated w0 T)) ->
  returns (npy.random_randn n m) w Q.
Proof.
  intros HQ. unfold npy.random_randn, alloc.
  eexists _, _. split; [reflexivity|].
  apply (HQ (mkWorld (heap w)
               (mkRandom (raw_int (random w)) (raw_gauss (random w))
                  (used_int (random w)) (used_gauss (random w) + n * m))));
    reflexivity.
Qed.

Lemma init_random D H C std w :
  returns (init D H C std) w
    (fun _ w' =>
       random w' = mkRandom (raw_int (random w)) (raw_gauss (random w))
                     (used_int (random w))
                     (used_gauss (random w) + D * H + H * C)).
Proof.
  unfold init.
  apply returns_bind. apply returns_randn_state. intros w0 _ R0 T1.
  apply returns_bind.
  eapply returns_fresh1; [solve_lookup | reflexivity |].
  apply returns_bind. apply returns_alloc.
  set (a3 := allocated (allocated (allocated w0 T1) _) _).
  assert (R3 : random a3 = random w0) by reflexivity.
  clearbody a3.
  apply returns_bind. apply returns_randn_state. intros w4 _ R4 T2.
  apply returns_bind.
  eapply returns_fresh1; [solve_lookup | reflexivity |].
  apply returns_bind. apply returns_alloc.
  apply returns_ret.
  rewrite !random_allocated, R4, R3, R0. reflexivity.
Qed.

(** X15. Constructing a network allocates: its four parameters are arrays
    that did not exist before, so two networks constructed one after the
    other share no parameter array.  It consumes exactly [D*H + H*C] normal
    draws of numpy's random state and no other random number. *)
Theorem init_allocates_and_draws D H C std D' H' C' std' w :
  returns (init D H C std) w
    (fun net w' =>
       Forall (fun l => (length (heap w) <= l)%nat) (param_locs (params net)) /\
       random w' = mkRandom (raw_int (random w)) (raw_gauss (random w))
                     (used_int (random w))
                     (used_gauss (random w) + D * H + H * C))
  /\ returns (net1 <- init D H C std ;;
              net2 <- init D' H' C' std' ;;
              ret (net1, net2)) w
       (fun nets _ =>
          forall l, In l (param_locs (params (fst nets))) ->
                    ~ In l (param_locs (params (snd nets)))).
Proof.
  split.
  - eapply returns_mono;
      [apply (returns_unique (init_fresh D H C std w) (init_random D H C std w))|].
    intros net w' [[_ HF] HR]. split; assumption.
  - apply returns_bind.
    eapply returns_mono; [apply init_spec|].
    intros net1 w1 (v1 & Hnet1 & _).
    apply returns_bind.
    eapply returns_mono; [apply init_fresh|].
    intros net2 w2 [_ HF]. apply returns_ret. simpl.
    intros l Hl1 Hl2.
    pose proof (proj1 (Forall_forall _ _) HF l Hl2) as Hge. simpl in Hge.
    destruct Hnet1 as (L1 & L2 & L3 & L4).
    apply lookup_lt in L1, L2, L3, L4.
    unfold param_locs in Hl1. simpl in Hl1.
    destruct Hl1 as [<-|[<-|[<-|[<-|[]]]]]; lia.
Qed.

Lemma uniform_train_ready :
  train_ready example_net 0%nat (mkArr 1%nat 1%nat [[5]]) [0%Z] 0%nat
    (mkArr 1%nat 1%nat [[5]]) [0%Z] 1%Z 1%nat 1%nat 1%nat 2%nat 1%nat
    uniform_weights uniform_world.
Proof.
  unfold train_ready.
  split; [reflexivity|]. split; [reflexivity|].
  split; [repeat split|]. split; [repeat split|].
  split; [reflexivity|]. split; [lia|]. split; [reflexivity|].
  split; [repeat constructor; simpl; lia|]. split; [lia|].
  split; [reflexivity|]. split; [reflexivity|].
  split; [repeat constructor; simpl; lia|].
  split; simpl; lia.
Qed.

Lemma zero_cell_entries n m :
  zero_entries (mkArr 1%nat 1%nat [[0]]) n m.
Proof.
  intros i j _ _. unfold get; simpl.
  destruct i as [|[|i]]; destruct j as [|[|j]]; reflexivity.
Qed.

(** X16. A network whose [W1], [b1] and [W2] are all zero cannot leave
    that state by training: the hidden activations are zero, the mask
    [h1 <= 0] cuts every gradient that flows back, and the regularisation
    gradient of a zero weight is zero, so whatever the data and the
    hyperparameters only [b2] is updated.  In particular a network
    constructed with [std = 0] still has zero [W1], [b1] and [W2] after
    [train]. *)
Theorem zero_network_stays_zero self X XA y X_val XvA y_val lr decay reg mu0
    num_epochs mu_increase batch_size verbose N D H C Nv v w :
  (train_ready self X XA y X_val XvA y_val batch_size N D H C Nv v w ->
   zero_entries (wW1 v) D H -> zero_entries (wb1 v) 1 H ->
   zero_entries (wW2 v) H C ->
   returns (train self X y X_val y_val lr decay reg mu0 num_epochs mu_increase
              batch_size verbose) w
     (fun _ w' => exists v',
        net_holds w' (params self) v' /\ weights_shape D H C v' /\
        zero_entries (wW1 v') D H /\ zero_entries (wb1 v') 1 H /\
        zero_entries (wW2 v') H C))
  /\ (lookup w X = Some XA -> lookup w X_val = Some XvA ->
      shape XA = (N, D) -> (1 <= N)%nat -> length y = N -> valid_labels C y ->
      (1 <= batch_size)%Z -> shape XvA = (Nv, D) -> length y_val = Nv ->
      returns (net <- init D H C 0 ;;
               train net X y X_val y_val lr decay reg mu0 num_epochs
                 mu_increase batch_size verbose ;;;
               ret net) w
        (fun net w' => exists v',
           net_holds w' (params net) v' /\ weights_shape D H C v' /\
           zero_entries (wW1 v') D H /\ zero_entries (wb1 v') 1 H /\
           zero_entries (wW2 v') H C)).
Proof.
  split; [apply train_zero_weights|].
  intros HX HXv HXs HN1 Hy Hv Hb HXvs Hyv.
  apply returns_bind.
  eapply returns_mono; [apply init_fresh|].
  intros net w1 [(v1 & Hnet & Hshape & E1 & E2 & EB1 & _ & Hnd & K) HF].
  assert (Hnot : forall l A, lookup w l = Some A ->
                   ~ In l (param_locs (params net))).
  { intros l A Hl Hin. apply lookup_lt in Hl.
    pose proof (proj1 (Forall_forall _ _) HF l Hin) as Hge. simpl in Hge. lia. }
  assert (Hready : train_ready net X XA y X_val XvA y_val batch_size
                     N D H C Nv v1 w1).
  { unfold train_ready.
    split; [apply (heap_kept_lookup X K HX)|].
    split; [apply (heap_kept_lookup X_val K HXv)|].
    repeat (split; [assumption|]).
    split; [apply (Hnot _ _ HX) | apply (Hnot _ _ HXv)]. }
  apply returns_bind.
  eapply returns_mono.
  - apply (@train_zero_weights net X XA y X_val XvA y_val lr decay reg mu0
             num_epochs mu_increase batch_size verbose N D H C Nv v1 w1 Hready).
    + intros d k Hd Hk. rewrite (E1 d k Hd Hk). lra.
    + intros i k Hi Hk. replace i with 0%nat by lia. apply EB1, Hk.
    + intros k j Hk Hj. rewrite (E2 k j Hk Hj). lra.
  - intros hist w2 Hpost. apply returns_ret. exact Hpost.
Qed.

Lemma zero_network_stays_zero_witness :
  returns (train example_net 0%nat [0%Z] 0%nat [0%Z] 1 0.5 1 0.9 3%Z 1 1%Z true)
    uniform_world
    (fun _ w' => exists v',
       net_holds w' (params example_net) v' /\
       weights_shape 1%nat 1%nat 2%nat v' /\
       zero_entries (wW1 v') 1%nat 1%nat /\ zero_entries (wb1 v') 1%nat 1%nat /\
       zero_entries (wW2 v') 1%nat 2%nat)
  /\ returns (net <- init 2 3 2 0 ;;
              train net 0%nat example_y 5%nat example_y 1 0.5 1 0.9 3%Z 1 1%Z true ;;;
              ret net) example_world
       (fun net w' => exists v',
          net_holds w' (params net) v' /\ weights_shape 2%nat 3%nat 2%nat v' /\
          zero_entries (wW1 v') 2%nat 3%nat /\ zero_entries (wb1 v') 1%nat 3%nat /\
          zero_entries (wW2 v') 3%nat 2%nat).
Proof.
  split.
  - apply (proj1 (@zero_network_stays_zero example_net 0%nat
             (mkArr 1%nat 1%nat [[5]]) [0%Z] 0%nat (mkArr 1%nat 1%nat [[5]])
             [0%Z] 1 0.5 1 0.9 3%Z 1 1%Z true 1%nat 1%nat 1%nat 2%nat 1%nat
             uniform_weights uniform_world)).
    + exact uniform_train_ready.
    + apply zero_cell_entries.
    + apply zero_cell_entries.
    + intros i j Hi Hj. unfold get; simpl.
      destruct i as [|i]; [|lia]. destruct j as [|[|j]]; [reflexivity..|lia].
  - apply (proj2 (@zero_network_stays_zero example_net 0%nat example_X
             example_y 5%nat example_X example_y 1 0.5 1 0.9 3%Z 1 1%Z true
             2%nat 2%nat 3%nat 2%nat 2%nat example_weights example_world)).
    + reflexivity.
    + reflexivity.
    + reflexivity.
    + lia.
    + reflexivity.
    + exact example_valid_labels.
    + lia.
    + reflexivity.
    + reflexivity.
Defined.

(** * Beyond the specification: the gradients are the derivatives of the loss *)

(** ** Derivatives of the building blocks *)

Lemma derivative_ext f g x l l' :
  (forall t, f t = g t) -> l = l' ->
  derivable_pt_lim f x l -> derivable_pt_lim g x l'.
Proof.
  intros Hfg <- Hf eps Heps. destruct (Hf eps Heps) as (delta & Hd).
  exists delta. intros h Hh0 Hh. rewrite <- !Hfg. apply Hd; assumption.
Qed.

Lemma derivative_const a x : derivable_pt_lim (fun _ => a) x 0.
Proof. exact (derivable_pt_lim_const a x). Qed.

(** [t |-> a + b * (t - t0)] *)
Lemma derivative_affine a b t0 x :
  derivable_pt_lim (fun t => a + b * (t - t0)) x b.
Proof.
  eapply derivative_ext;
    [| |apply (derivable_pt_lim_plus _ _ _ _ _
                 (derivable_pt_lim_const (a - b * t0) x)
                 (derivable_pt_lim_scal _ b _ _ (derivable_pt_lim_id x)))].
  - intros t. unfold plus_fct, fct_cte, mult_real_fct, id. lra.
  - lra.
Qed.

Lemma derivative_plus f g x l1 l2 :
  derivable_pt_lim f x l1 -> derivable_pt_lim g x l2 ->
  derivable_pt_lim (fun t => f t + g t) x (l1 + l2).
Proof. intros Hf Hg. exact (derivable_pt_lim_plus f g x l1 l2 Hf Hg). Qed.

Lemma derivative_minus f g x l1 l2 :
  derivable_pt_lim f x l1 -> derivable_pt_lim g x l2 ->
  derivable_pt_lim (fun t => f t - g t) x (l1 - l2).
Proof. intros Hf Hg. exact (derivable_pt_lim_minus f g x l1 l2 Hf Hg). Qed.

Lemma derivative_scal a f x l :
  derivable_pt_lim f x l -> derivable_pt_lim (fun t => a * f t) x (a * l).
Proof. intros Hf. exact (derivable_pt_lim_scal f a x l Hf). Qed.

Lemma derivative_scal_r a f x l :
  derivable_pt_lim f x l -> derivable_pt_lim (fun t => f t * a) x (l * a).
Proof.
  intros Hf. eapply derivative_ext; [| |apply (derivative_scal a Hf)].
  - intros t. simpl. lra.
  - lra.
Qed.

Lemma derivative_sum n (f : nat -> R -> R) (df : nat -> R) x :
  (forall j, (j < n)%nat -> derivable_pt_lim (f j) x (df j)) ->
  derivable_pt_lim (fun t => sum_upto n (fun j => f j t)) x (sum_upto n df).
Proof.
  induction n as [|n IH]; intros Hf.
  - eapply derivative_ext; [| |apply (derivative_const 0)].
    + intros t. rewrite sum_upto_0. reflexivity.
    + rewrite sum_upto_0. reflexivity.
  - eapply derivative_ext;
      [| |apply (derivative_plus (IH (fun j Hj => Hf j (Nat.lt_lt_succ_r _ _ Hj)))
                   (Hf n (Nat.lt_succ_diag_r n)))].
    + intros t. rewrite sum_upto_S. reflexivity.
    + rewrite sum_upto_S. reflexivity.
Qed.

Lemma derivative_exp u x du :
  derivable_pt_lim u x du ->
  derivable_pt_lim (fun t => exp (u t)) x (exp (u x) * du).
Proof.
  intros Hu.
  exact (derivable_pt_lim_comp u exp x du (exp (u x)) Hu
           (derivable_pt_lim_exp (u x))).
Qed.

Lemma derivative_ln u x du :
  0 < u x -> derivable_pt_lim u x du ->
  derivable_pt_lim (fun t => ln (u t)) x (/ u x * du).
Proof.
  intros Hpos Hu.
  exact (derivable_pt_lim_comp u ln x du (/ u x) Hu
           (derivable_pt_lim_ln (u x) Hpos)).
Qed.

(** The rectifier away from its kink: where [u] is not zero, [max(0, u)]
    has the derivative of [u] on the positive side and 0 on the negative
    side. *)
Lemma derivative_relu u x du :
  derivable_pt_lim u x du -> u x <> 0 ->
  derivable_pt_lim (fun t => Rmax 0 (u t)) x (if Rle_dec (u x) 0 then 0 else du).
Proof.
  intros Hu Hne.
  assert (Hc : continuity_pt u x)
    by (apply derivable_continuous_pt; exists du; exact Hu).
  destruct (Hc (Rabs (u x)) (Rabs_pos_lt _ Hne)) as (alp & Halp & Hnear).
  assert (Hclose : forall z, x - alp < z < x + alp ->
                     Rabs (u z - u x) < Rabs (u x)).
  { intros z Hz. destruct (Req_dec x z) as [<-|Hxz].
    - replace (u x - u x) with 0 by lra. rewrite Rabs_R0.
      apply Rabs_pos_lt, Hne.
    - apply (Hnear z). split; [split; [exact I | exact Hxz]|].
      simpl. unfold R_dist. apply Rabs_def1; lra. }
  destruct (Rle_dec (u x) 0) as [Hle|Hgt].
  - apply (derivable_pt_lim_locally_ext (fun _ => 0) _ x (x - alp) (x + alp));
      [lra | | apply derivative_const].
    intros z Hz. specialize (Hclose z Hz).
    rewrite (Rabs_left (u x)) in Hclose by lra.
    apply Rabs_def2 in Hclose. rewrite Rmax_left by lra. reflexivity.
  - apply (derivable_pt_lim_locally_ext u _ x (x - alp) (x + alp));
      [lra | | exact Hu].
    intros z Hz. specialize (Hclose z Hz).
    rewrite (Rabs_right (u x)) in Hclose by lra.
    apply Rabs_def2 in Hclose. rewrite Rmax_right by lra. reflexivity.
Qed.

(** ** The cross-entropy of a softmax *)

Lemma neg_ln_softmax C s y :
  (0 < C)%nat ->
  - ln (softmax C s y) = ln (sum_upto C (fun j => exp (s j))) - s y.
Proof.
  intros HC. unfold softmax, Rdiv.
  pose proof (sum_exp_pos s HC) as HZ.
  rewrite ln_mult, ln_Rinv, ln_exp;
    [lra | exact HZ | apply exp_pos | apply Rinv_0_lt_compat; exact HZ].
Qed.

(** If every score is differentiable in a parameter [t], so is the
    cross-entropy of an example, with derivative
    [sum_j (softmax_j - one_hot_j) * dscore_j]. *)
Lemma derivative_cross_entropy C (s : R -> nat -> R) (ds : nat -> R) x y :
  (y < C)%nat ->
  (forall j, (j < C)%nat -> derivable_pt_lim (fun t => s t j) x (ds j)) ->
  derivable_pt_lim (fun t => - ln (softmax C (s t) y)) x
    (sum_upto C (fun j =>
       (softmax C (s x) j - (if (j =? y)%nat then 1 else 0)) * ds j)).
Proof.
  intros Hy Hs.
  assert (HC : (0 < C)%nat) by lia.
  pose proof (sum_exp_pos (s x) HC) as HZ.
  assert (HdZ : derivable_pt_lim (fun t => sum_upto C (fun j => exp (s t j))) x
                  (sum_upto C (fun j => exp (s x j) * ds j))).
  { apply (derivative_sum (fun j t => exp (s t j))
             (fun j => exp (s x j) * ds j)).
    intros j Hj. apply (derivative_exp (Hs j Hj)). }
  eapply derivative_ext;
    [| |apply (derivative_minus
                 (derivative_ln (u := fun t => sum_upto C (fun j => exp (s t j)))
                    HZ HdZ)
                 (Hs y Hy))].
  - intros t. cbv beta. symmetry. apply (neg_ln_softmax (s t) y HC).
  - cbv beta.
    rewrite <- (sum_upto_single ds Hy).
    rewrite <- (sum_upto_scale C (fun j => exp (s x j) * ds j)
                  (/ sum_upto C (fun j => exp (s x j)))).
    rewrite <- (sum_upto_minus C
                  (fun j => / sum_upto C (fun c => exp (s x c))
                            * (exp (s x j) * ds j))
                  (fun j => if (j =? y)%nat then ds j else 0)).
    apply sum_upto_ext. intros j Hj. unfold softmax, Rdiv.
    destruct (j =? y)%nat; lra.
Qed.

(** ** The data loss as a function of the scores *)

Lemma softmax_ext C s s' j :
  (forall c, (c < C)%nat -> s c = s' c) -> (j < C)%nat ->
  softmax C s j = softmax C s' j.
Proof.
  intros Hs Hj. unfold softmax. rewrite (Hs j Hj). f_equal.
  apply sum_upto_ext. intros c Hc. rewrite (Hs c Hc). reflexivity.
Qed.

Lemma derivative_data_loss (vt : R -> weights) v X y x C (ds : nat -> nat -> R) :
  (forall t, ncols (wW2 (vt t)) = C) -> ncols (wW2 v) = C ->
  (forall i, (i < nrows X)%nat -> (label y i < C)%nat) ->
  (forall i j, (i < nrows X)%nat -> (j < C)%nat ->
     score (vt x) X i j = score v X i j) ->
  (forall i j, (i < nrows X)%nat -> (j < C)%nat ->
     derivable_pt_lim (fun t => score (vt t) X i j) x (ds i j)) ->
  derivable_pt_lim (fun t => data_loss_formula (vt t) X y) x
    (sum_upto (nrows X) (fun i =>
       sum_upto C (fun j => dscores_formula v X y i j * ds i j))).
Proof.
  intros HCt HC Hl Hx Hs.
  eapply derivative_ext;
    [| |apply (derivative_scal (1 / INR (nrows X))
                 (derivative_sum
                    (fun i t => - ln (softmax C (score (vt t) X i) (label y i)))
                    (fun i => sum_upto C (fun j =>
                       (softmax C (score (vt x) X i) j
                        - (if (j =? label y i)%nat then 1 else 0)) * ds i j))
                    (fun i Hi => derivative_cross_entropy
                       (fun t => score (vt t) X i) (ds i)
                       (Hl i Hi) (fun j Hj => Hs i j Hi Hj))))].
  - intros t. cbv beta. unfold data_loss_formula, cross_entropy, prob.
    rewrite (HCt t). reflexivity.
  - rewrite <- sum_upto_scale. apply sum_upto_ext. intros i Hi.
    rewrite <- sum_upto_scale. apply sum_upto_ext. intros j Hj.
    unfold dscores_formula, prob, one_hot. rewrite HC.
    rewrite (softmax_ext (score (vt x) X i) (score v X i)
               (fun c Hc => Hx i c Hi Hc) Hj).
    unfold Rdiv. lra.
Qed.

(** ** Setting one entry *)

Lemma get_with_entry A a b t i j :
  (i < nrows A)%nat -> (j < ncols A)%nat ->
  get (with_entry A a b t) i j
  = if (i =? a)%nat && (j =? b)%nat then t else get A i j.
Proof.
  intros Hi Hj. unfold with_entry. rewrite get_tabulate; [reflexivity | exact Hi | exact Hj].
Qed.

(** An entry set to [t] is the old entry plus [t - old] at that place. *)
Lemma get_with_entry_shift A a b t i j :
  (i < nrows A)%nat -> (j < ncols A)%nat ->
  get (with_entry A a b t) i j
  = get A i j + (if (i =? a)%nat && (j =? b)%nat then t - get A a b else 0).
Proof.
  intros Hi Hj. rewrite (get_with_entry A a b t Hi Hj).
  destruct (i =? a)%nat eqn:Ei; destruct (j =? b)%nat eqn:Ej; simpl; try lra.
  apply Nat.eqb_eq in Ei, Ej. subst. lra.
Qed.

Lemma set_entry_shapes D H C v :
  weights_shape D H C v ->
  (forall d k t, weights_shape D H C (set_W1 v d k t)) /\
  (forall k t, weights_shape D H C (set_b1 v k t)) /\
  (forall k c t, weights_shape D H C (set_W2 v k c t)) /\
  (forall c t, weights_shape D H C (set_b2 v c t)).
Proof.
  intros (E1 & E2 & E3 & E4).
  repeat split; intros; assumption.
Qed.

Lemma sum_squares_with_entry A a b t :
  (a < nrows A)%nat -> (b < ncols A)%nat ->
  sum_squares (with_entry A a b t)
  = sum_squares A + (t * t - get A a b * get A a b).
Proof.
  intros Ha Hb. unfold sum_squares.
  change (nrows (with_entry A a b t)) with (nrows A).
  change (ncols (with_entry A a b t)) with (ncols A).
  rewrite <- (sum_upto_single
                (fun i => t * t - get A a b * get A a b) Ha).
  rewrite <- sum_upto_plus. apply sum_upto_ext. intros i Hi.
  destruct (i =? a)%nat eqn:Ei.
  - rewrite <- (sum_upto_single
                  (fun j => t * t - get A a b * get A a b) Hb).
    rewrite <- sum_upto_plus. apply sum_upto_ext. intros j Hj.
    rewrite (get_with_entry A a b t Hi Hj), Ei.
    destruct (j =? b)%nat eqn:Ej; simpl; [|lra].
    apply Nat.eqb_eq in Ei, Ej. subst. lra.
  - rewrite Rplus_0_r. apply sum_upto_ext. intros j Hj.
    rewrite (get_with_entry A a b t Hi Hj), Ei. reflexivity.
Qed.

Lemma derivative_sum_squares A a b :
  (a < nrows A)%nat -> (b < ncols A)%nat ->
  derivable_pt_lim (fun t => sum_squares (with_entry A a b t)) (get A a b)
    (2 * get A a b).
Proof.
  intros Ha Hb.
  eapply derivative_ext;
    [| |apply (derivative_plus
                 (derivative_const (sum_squares A - get A a b * get A a b)
                    (get A a b))
                 (derivable_pt_lim_mult _ _ _ _ _
                    (derivable_pt_lim_id (get A a b))
                    (derivable_pt_lim_id (get A a b))))].
  - intros t. rewrite (sum_squares_with_entry A t Ha Hb).
    unfold mult_fct, id. lra.
  - unfold id. lra.
Qed.

(** ** The output layer *)

(** The scores as a function of one entry of [b2] and of [W2]. *)
Lemma score_set_b2 v X D H C c t i j :
  weights_shape D H C v -> (j < C)%nat ->
  score (set_b2 v c t) X i j
  = score v X i j + (if (j =? c)%nat then 1 else 0) * (t - get (wb2 v) 0 c).
Proof.
  intros Hshape Hj.
  destruct (weights_shape_arrays Hshape) as (_ & _ & _ & (Bn & Bm & _)).
  unfold score, set_b2; cbn [wW1 wb1 wW2 wb2].
  rewrite get_with_entry_shift by lia. simpl andb.
  change (hidden (mkWeights (wW1 v) (wb1 v) (wW2 v)
                    (with_entry (wb2 v) 0 c t)) X i)
    with (hidden v X i).
  destruct (j =? c)%nat; lra.
Qed.

Lemma score_set_W2 v X D H C k c t i j :
  weights_shape D H C v -> (k < H)%nat -> (j < C)%nat ->
  score (set_W2 v k c t) X i j
  = score v X i j
    + (if (j =? c)%nat then hidden v X i k else 0) * (t - get (wW2 v) k c).
Proof.
  intros Hshape Hk Hj.
  destruct (weights_shape_arrays Hshape) as (_ & _ & (Wn & Wm & _) & _).
  unfold score, set_W2; cbn [wW1 wb1 wW2 wb2].
  change (nrows (with_entry (wW2 v) k c t)) with (nrows (wW2 v)).
  rewrite Wn.
  rewrite (@sum_upto_ext H
             (fun k' => hidden (mkWeights (wW1 v) (wb1 v)
                                  (with_entry (wW2 v) k c t) (wb2 v)) X i k'
                        * get (with_entry (wW2 v) k c t) k' j)
             (fun k' => hidden v X i k' * get (wW2 v) k' j
                        + (if (k' =? k)%nat
                           then (if (j =? c)%nat then hidden v X i k' else 0)
                                * (t - get (wW2 v) k c)
                           else 0))).
  - rewrite sum_upto_plus, (sum_upto_single _ Hk). lra.
  - intros k' Hk'.
    change (hidden (mkWeights (wW1 v) (wb1 v)
                      (with_entry (wW2 v) k c t) (wb2 v)) X i k')
      with (hidden v X i k').
    rewrite get_with_entry_shift by lia.
    destruct (k' =? k)%nat; destruct (j =? c)%nat; simpl; lra.
Qed.

Lemma derivative_loss_b2 v X y reg N D H C c :
  nrows X = N -> weights_shape D H C v ->
  length y = N -> valid_labels C y -> (c < C)%nat ->
  derivable_pt_lim (fun t => loss_formula (set_b2 v c t) X y reg)
    (get (wb2 v) 0 c) (grad_b2_formula v X y 0 c).
Proof.
  intros HN Hshape Hy Hv Hc.
  pose proof (@ncols_W2 v D H C Hshape) as EC.
  assert (Hl : forall i, (i < nrows X)%nat -> (label y i < C)%nat)
    by (intros i Hi; apply (valid_label_lt Hv); lia).
  assert (Hx : forall i j, (i < nrows X)%nat -> (j < C)%nat ->
                 score (set_b2 v c (get (wb2 v) 0 c)) X i j = score v X i j).
  { intros i j Hi Hj. rewrite (score_set_b2 X c _ i Hshape Hj). lra. }
  assert (Hs : forall i j, (i < nrows X)%nat -> (j < C)%nat ->
                 derivable_pt_lim (fun t => score (set_b2 v c t) X i j)
                   (get (wb2 v) 0 c) (if (j =? c)%nat then 1 else 0)).
  { intros i j Hi Hj.
    eapply derivative_ext; [| |apply (derivative_affine (score v X i j)
                                        (if (j =? c)%nat then 1 else 0)
                                        (get (wb2 v) 0 c))].
    - intros t. cbv beta. rewrite (score_set_b2 X c t i Hshape Hj). reflexivity.
    - reflexivity. }
  unfold loss_formula.
  eapply derivative_ext;
    [| |apply (derivative_plus
                 (@derivative_data_loss (fun t => set_b2 v c t) v X y
                    (get (wb2 v) 0 c) C
                    (fun i j => if (j =? c)%nat then 1 else 0)
                    (fun t => EC) EC Hl Hx Hs)
                 (derivative_const (reg_loss_formula v reg) (get (wb2 v) 0 c)))].
  - intros t. reflexivity.
  - rewrite Rplus_0_r. unfold grad_b2_formula. rewrite HN.
    apply sum_upto_ext. intros i Hi.
    rewrite <- (sum_upto_single (dscores_formula v X y i) Hc).
    apply sum_upto_ext. intros j Hj.
    destruct (j =? c)%nat; lra.
Qed.

Lemma derivative_loss_W2 v X y reg N D H C k c :
  nrows X = N -> weights_shape D H C v ->
  length y = N -> valid_labels C y -> (k < H)%nat -> (c < C)%nat ->
  derivable_pt_lim (fun t => loss_formula (set_W2 v k c t) X y reg)
    (get (wW2 v) k c) (grad_W2_formula v X y reg k c).
Proof.
  intros HN Hshape Hy Hv Hk Hc.
  pose proof (@ncols_W2 v D H C Hshape) as EC.
  destruct (weights_shape_arrays Hshape) as (_ & _ & (Wn & Wm & _) & _).
  assert (Hl : forall i, (i < nrows X)%nat -> (label y i < C)%nat)
    by (intros i Hi; apply (valid_label_lt Hv); lia).
  assert (Hx : forall i j, (i < nrows X)%nat -> (j < C)%nat ->
                 score (set_W2 v k c (get (wW2 v) k c)) X i j = score v X i j).
  { intros i j Hi Hj. rewrite (score_set_W2 X c _ i Hshape Hk Hj). lra. }
  assert (Hs : forall i j, (i < nrows X)%nat -> (j < C)%nat ->
                 derivable_pt_lim (fun t => score (set_W2 v k c t) X i j)
                   (get (wW2 v) k c)
                   (if (j =? c)%nat then hidden v X i k else 0)).
  { intros i j Hi Hj.
    eapply derivative_ext; [| |apply (derivative_affine (score v X i j)
                                        (if (j =? c)%nat then hidden v X i k else 0)
                                        (get (wW2 v) k c))].
    - intros t. cbv beta. rewrite (score_set_W2 X c t i Hshape Hk Hj). reflexivity.
    - reflexivity. }
  unfold loss_formula.
  eapply derivative_ext;
    [| |apply (derivative_plus
                 (@derivative_data_loss (fun t => set_W2 v k c t) v X y
                    (get (wW2 v) k c) C
                    (fun i j => if (j =? c)%nat then hidden v X i k else 0)
                    (fun t => EC) EC Hl Hx Hs)
                 (derivative_plus
                    (derivative_const (0.5 * reg * sum_squares (wW1 v))
                       (get (wW2 v) k c))
                    (derivative_scal (0.5 * reg)
                       (@derivative_sum_squares (wW2 v) k c
                          ltac:(lia) ltac:(lia)))))].
  - intros t. reflexivity.
  - unfold grad_W2_formula. rewrite HN.
    replace (0 + 0.5 * reg * (2 * get (wW2 v) k c))
      with (reg * get (wW2 v) k c) by lra.
    f_equal. apply sum_upto_ext. intros i Hi.
    rewrite <- (sum_upto_single
                  (fun j => hidden v X i k * dscores_formula v X y i j) Hc).
    apply sum_upto_ext. intros j Hj.
    destruct (j =? c)%nat; lra.
Qed.

(** ** The hidden layer *)

Lemma pre_activation_set_b1 v X D H C k t i k' :
  weights_shape D H C v -> (k' < H)%nat ->
  pre_activation (set_b1 v k t) X i k'
  = pre_activation v X i k'
    + (if (k' =? k)%nat then 1 else 0) * (t - get (wb1 v) 0 k).
Proof.
  intros Hshape Hk'.
  destruct (weights_shape_arrays Hshape) as (_ & (Bn & Bm & _) & _).
  unfold pre_activation, set_b1; cbn [wW1 wb1 wW2 wb2].
  rewrite get_with_entry_shift by lia. simpl andb.
  destruct (k' =? k)%nat; lra.
Qed.

Lemma pre_activation_set_W1 v X D H C d k t i k' :
  weights_shape D H C v -> ncols X = D -> (d < D)%nat -> (k' < H)%nat ->
  pre_activation (set_W1 v d k t) X i k'
  = pre_activation v X i k'
    + (if (k' =? k)%nat then get X i d else 0) * (t - get (wW1 v) d k).
Proof.
  intros Hshape HD Hd Hk'.
  destruct (weights_shape_arrays Hshape) as ((Wn & Wm & _) & _).
  unfold pre_activation, set_W1; cbn [wW1 wb1 wW2 wb2].
  rewrite HD.
  rewrite (@sum_upto_ext D
             (fun d' => get X i d' * get (with_entry (wW1 v) d k t) d' k')
             (fun d' => get X i d' * get (wW1 v) d' k'
                        + (if (d' =? d)%nat
                           then (if (k' =? k)%nat then get X i d' else 0)
                                * (t - get (wW1 v) d k)
                           else 0))).
  - rewrite sum_upto_plus, (sum_upto_single _ Hd). lra.
  - intros d' Hd'. rewrite get_with_entry_shift by lia.
    destruct (d' =? d)%nat; destruct (k' =? k)%nat; simpl; lra.
Qed.

(** The scores as a function of a parameter of the first layer.  The
    pre-activation of unit [k] on example [i] moves with slope [a k]; a
    unit that moves must not sit on the kink of the rectifier. *)
Lemma derivative_score_hidden (vt : R -> weights) v X x H (a : nat -> R) i j :
  (forall t, wW2 (vt t) = wW2 v) -> (forall t, wb2 (vt t) = wb2 v) ->
  nrows (wW2 v) = H ->
  (forall t k, (k < H)%nat ->
     pre_activation (vt t) X i k = pre_activation v X i k + a k * (t - x)) ->
  (forall k, (k < H)%nat -> a k = 0 \/ pre_activation v X i k <> 0) ->
  score (vt x) X i j = score v X i j /\
  derivable_pt_lim (fun t => score (vt t) X i j) x
    (sum_upto H (fun k => gate v X i k * a k * get (wW2 v) k j)).
Proof.
  intros HW2 Hb2 HH Hpre Hkink.
  assert (Hscore : forall t,
            score (vt t) X i j
            = sum_upto H (fun k =>
                Rmax 0 (pre_activation v X i k + a k * (t - x))
                * get (wW2 v) k j)
              + get (wb2 v) 0 j).
  { intros t. unfold score. rewrite HW2, Hb2, HH. f_equal.
    apply sum_upto_ext. intros k Hk. unfold hidden.
    rewrite (Hpre t k Hk). reflexivity. }
  split.
  - rewrite Hscore. unfold score. rewrite HH. f_equal.
    apply sum_upto_ext. intros k Hk. unfold hidden.
    replace (pre_activation v X i k + a k * (x - x))
      with (pre_activation v X i k) by lra. reflexivity.
  - assert (Hterm : forall k, (k < H)%nat ->
              derivable_pt_lim
                (fun t => Rmax 0 (pre_activation v X i k + a k * (t - x))
                          * get (wW2 v) k j) x
                (gate v X i k * a k * get (wW2 v) k j)).
    { intros k Hk. apply derivative_scal_r.
      destruct (Hkink k Hk) as [Ha|Hne].
      - eapply derivative_ext; [| |apply (derivative_const
                                            (Rmax 0 (pre_activation v X i k)) x)].
        + intros t. cbv beta. rewrite Ha. f_equal. lra.
        + rewrite Ha. lra.
      - assert (Hne' : pre_activation v X i k + a k * (x - x) <> 0)
          by (replace (pre_activation v X i k + a k * (x - x))
                with (pre_activation v X i k) by lra; exact Hne).
        eapply derivative_ext;
          [| |apply (@derivative_relu
                       (fun t => pre_activation v X i k + a k * (t - x)) x (a k)
                       (derivative_affine _ _ _ _) Hne')].
        + intros t. reflexivity.
        + cbv beta. unfold gate.
          replace (pre_activation v X i k + a k * (x - x))
            with (pre_activation v X i k) by lra.
          destruct (Rle_dec (pre_activation v X i k) 0); lra. }
    eapply derivative_ext;
      [intros t; symmetry; apply Hscore | |
       apply (derivative_plus
                (derivative_sum
                   (fun k t => Rmax 0 (pre_activation v X i k + a k * (t - x))
                               * get (wW2 v) k j)
                   (fun k => gate v X i k * a k * get (wW2 v) k j) Hterm)
                (derivative_const (get (wb2 v) 0 j) x))].
    lra.
Qed.

Lemma gated_formula_gate v X y i k :
  gated_formula v X y i k = gate v X i k * dhidden_formula v X y i k.
Proof.
  unfold gated_formula, gate.
  destruct (Rle_dec (pre_activation v X i k) 0); lra.
Qed.

Lemma derivative_loss_b1 v X y reg N D H C k :
  nrows X = N -> weights_shape D H C v ->
  length y = N -> valid_labels C y -> (k < H)%nat ->
  (forall i, (i < N)%nat -> pre_activation v X i k <> 0) ->
  derivable_pt_lim (fun t => loss_formula (set_b1 v k t) X y reg)
    (get (wb1 v) 0 k) (grad_b1_formula v X y 0 k).
Proof.
  intros HN Hshape Hy Hv Hk Hkink.
  pose proof (@ncols_W2 v D H C Hshape) as EC.
  destruct (weights_shape_arrays Hshape) as (_ & _ & (Wn & Wm & _) & _).
  assert (Hl : forall i, (i < nrows X)%nat -> (label y i < C)%nat)
    by (intros i Hi; apply (valid_label_lt Hv); lia).
  assert (Hsc : forall i j, (i < nrows X)%nat -> (j < C)%nat ->
            score (set_b1 v k (get (wb1 v) 0 k)) X i j = score v X i j /\
            derivable_pt_lim (fun t => score (set_b1 v k t) X i j)
              (get (wb1 v) 0 k)
              (sum_upto H (fun k' =>
                 gate v X i k' * (if (k' =? k)%nat then 1 else 0)
                 * get (wW2 v) k' j))).
  { intros i j Hi Hj.
    apply (@derivative_score_hidden (fun t => set_b1 v k t) v X
             (get (wb1 v) 0 k) H (fun k' => if (k' =? k)%nat then 1 else 0) i j);
      try reflexivity; [exact Wn | |].
    - intros t k' Hk'. apply (@pre_activation_set_b1 v X D H C k t i k' Hshape Hk').
    - intros k' Hk'. destruct (k' =? k)%nat eqn:E; [right|left; reflexivity].
      apply Nat.eqb_eq in E. subst k'. apply Hkink. lia. }
  unfold loss_formula.
  eapply derivative_ext;
    [| |apply (derivative_plus
                 (@derivative_data_loss (fun t => set_b1 v k t) v X y
                    (get (wb1 v) 0 k) C _
                    (fun t => EC) EC Hl
                    (fun i j Hi Hj => proj1 (Hsc i j Hi Hj))
                    (fun i j Hi Hj => proj2 (Hsc i j Hi Hj)))
                 (derivative_const (reg_loss_formula v reg) (get (wb1 v) 0 k)))].
  - intros t. reflexivity.
  - rewrite Rplus_0_r. unfold grad_b1_formula. rewrite HN.
    apply sum_upto_ext. intros i Hi.
    rewrite gated_formula_gate. unfold dhidden_formula. rewrite EC.
    rewrite <- sum_upto_scale. apply sum_upto_ext. intros j Hj.
    rewrite (@sum_upto_ext H
               (fun k' => gate v X i k' * (if (k' =? k)%nat then 1 else 0)
                          * get (wW2 v) k' j)
               (fun k' => if (k' =? k)%nat
                          then gate v X i k' * get (wW2 v) k' j else 0)).
    + rewrite (sum_upto_single _ Hk). lra.
    + intros k' _. destruct (k' =? k)%nat; lra.
Qed.

Lemma derivative_loss_W1 v X y reg N D H C d k :
  shape X = (N, D) -> weights_shape D H C v ->
  length y = N -> valid_labels C y -> (d < D)%nat -> (k < H)%nat ->
  (forall i, (i < N)%nat -> get X i d = 0 \/ pre_activation v X i k <> 0) ->
  derivable_pt_lim (fun t => loss_formula (set_W1 v d k t) X y reg)
    (get (wW1 v) d k) (grad_W1_formula v X y reg d k).
Proof.
  intros Hsh Hshape Hy Hv Hd Hk Hkink.
  assert (HN : nrows X = N) by exact (f_equal fst Hsh).
  assert (HD : ncols X = D) by exact (f_equal snd Hsh).
  pose proof (@ncols_W2 v D H C Hshape) as EC.
  destruct (weights_shape_arrays Hshape)
    as ((W1n & W1m & _) & _ & (Wn & Wm & _) & _).
  assert (Hl : forall i, (i < nrows X)%nat -> (label y i < C)%nat)
    by (intros i Hi; apply (valid_label_lt Hv); lia).
  assert (Hsc : forall i j, (i < nrows X)%nat -> (j < C)%nat ->
            score (set_W1 v d k (get (wW1 v) d k)) X i j = score v X i j /\
            derivable_pt_lim (fun t => score (set_W1 v d k t) X i j)
              (get (wW1 v) d k)
              (sum_upto H (fun k' =>
                 gate v X i k' * (if (k' =? k)%nat then get X i d else 0)
                 * get (wW2 v) k' j))).
  { intros i j Hi Hj.
    apply (@derivative_score_hidden (fun t => set_W1 v d k t) v X
             (get (wW1 v) d k) H
             (fun k' => if (k' =? k)%nat then get X i d else 0) i j);
      try reflexivity; [exact Wn | |].
    - intros t k' Hk'. apply (@pre_activation_set_W1 v X D H C d k t i k' Hshape HD Hd Hk').
    - intros k' Hk'. destruct (k' =? k)%nat eqn:E; [|left; reflexivity].
      apply Nat.eqb_eq in E. subst k'. apply Hkink. lia. }
  unfold loss_formula.
  eapply derivative_ext;
    [| |apply (derivative_plus
                 (@derivative_data_loss (fun t => set_W1 v d k t) v X y
                    (get (wW1 v) d k) C _
                    (fun t => EC) EC Hl
                    (fun i j Hi Hj => proj1 (Hsc i j Hi Hj))
                    (fun i j Hi Hj => proj2 (Hsc i j Hi Hj)))
                 (derivative_plus
                    (derivative_scal (0.5 * reg)
                       (@derivative_sum_squares (wW1 v) d k
                          ltac:(lia) ltac:(lia)))
                    (derivative_const (0.5 * reg * sum_squares (wW2 v))
                       (get (wW1 v) d k))))].
  - intros t. reflexivity.
  - unfold grad_W1_formula. rewrite HN.
    replace (0.5 * reg * (2 * get (wW1 v) d k) + 0)
      with (reg * get (wW1 v) d k) by lra.
    f_equal. apply sum_upto_ext. intros i Hi.
    rewrite gated_formula_gate. unfold dhidden_formula. rewrite EC.
    rewrite <- !sum_upto_scale. apply sum_upto_ext. intros j Hj.
    rewrite (@sum_upto_ext H
               (fun k' => gate v X i k'
                          * (if (k' =? k)%nat then get X i d else 0)
                          * get (wW2 v) k' j)
               (fun k' => if (k' =? k)%nat
                          then gate v X i k' * get X i d * get (wW2 v) k' j
                          else 0)).
    + rewrite (sum_upto_single _ Hk). lra.
    + intros k' _. destruct (k' =? k)%nat; lra.
Qed.

(** ** The gradients that [loss] returns *)

Lemma loss_returns_formula self X XA v y reg N D H C w :
  lookup w X = Some XA -> net_holds w (params self) v ->
  shape XA = (N, D) -> weights_shape D H C v ->
  (1 <= N)%nat -> length y = N -> valid_labels C y ->
  returns (loss self X (Some y) reg) w
    (fun r _ => exists g, r = LossGrads (loss_formula v XA y reg) g).
Proof.
  intros HX Hnet Hsh Hshape HN1 Hy Hv.
  eapply loss_spec;
    [exact HX | exact Hnet | exact (f_equal fst Hsh) | exact (f_equal snd Hsh)
    | exact Hshape | exact HN1 | exact Hy | exact Hv |].
  intros g w' _ _ _ _. exists g. reflexivity.
Qed.

(** X17. The gradients that [loss] returns for the output layer are the
    partial derivatives of the loss it returns: for every entry of [W2] and
    of [b2], the function that maps a value [t] of that entry (the other
    entries and parameters being fixed) to the loss is differentiable at
    the current value, and its derivative there is the corresponding entry
    of [grads['W2']], of [grads['b2']].  The loss as a function of the
    parameters is [loss_formula]: it is what [loss] returns for any
    parameters of these shapes. *)
Theorem output_gradients_are_derivatives self X XA v y reg N D H C w :
  lookup w X = Some XA -> net_holds w (params self) v ->
  shape XA = (N, D) -> weights_shape D H C v ->
  (1 <= N)%nat -> length y = N -> valid_labels C y ->
  returns (loss self X (Some y) reg) w
    (fun r w' => exists l g G2 GB2,
       r = LossGrads l g /\
       lookup w' (W2 g) = Some G2 /\ lookup w' (b2 g) = Some GB2 /\
       (forall k c, (k < H)%nat -> (c < C)%nat ->
          derivable_pt_lim (fun t => loss_formula (set_W2 v k c t) XA y reg)
            (get (wW2 v) k c) (get G2 k c)) /\
       (forall c, (c < C)%nat ->
          derivable_pt_lim (fun t => loss_formula (set_b2 v c t) XA y reg)
            (get (wb2 v) 0 c) (get GB2 0 c)))
  /\ (forall v' w2,
        lookup w2 X = Some XA -> net_holds w2 (params self) v' ->
        weights_shape D H C v' ->
        returns (loss self X (Some y) reg) w2
          (fun r _ => exists g, r = LossGrads (loss_formula v' XA y reg) g))
  /\ (forall k c t,
        weights_shape D H C (set_W2 v k c t) /\
        weights_shape D H C (set_b2 v c t)).
Proof.
  intros HX Hnet Hsh Hshape HN1 Hy Hv.
  assert (HN : nrows XA = N) by exact (f_equal fst Hsh).
  split; [|split].
  - eapply loss_spec;
      [exact HX | exact Hnet | exact HN | exact (f_equal snd Hsh)
      | exact Hshape | exact HN1 | exact Hy | exact Hv |].
    intros g w' _ _ (G1 & GB1 & G2 & GB2 & _ & _ & [L2 A2] & [LB2 AB2]) _.
    exists (loss_formula v XA y reg), g, G2, GB2.
    split; [reflexivity|]. split; [exact L2|]. split; [exact LB2|]. split.
    + intros k c Hk Hc. rewrite (is_array_at A2 Hk Hc).
      apply (@derivative_loss_W2 v XA y reg N D H C k c HN Hshape Hy Hv Hk Hc).
    + intros c Hc. rewrite (is_array_at AB2 (Nat.lt_0_1) Hc).
      apply (@derivative_loss_b2 v XA y reg N D H C c HN Hshape Hy Hv Hc).
  - intros v' w2 HX2 Hnet2 Hshape2.
    apply (@loss_returns_formula self X XA v' y reg N D H C w2
             HX2 Hnet2 Hsh Hshape2 HN1 Hy Hv).
  - intros k c t. destruct (set_entry_shapes Hshape) as (_ & _ & S2 & SB2).
    split; [apply S2 | apply SB2].
Qed.

Lemma output_gradients_are_derivatives_witness :
  returns (loss example_net 0%nat (Some example_y) 1) example_world
    (fun r w' => exists l g G2 GB2,
       r = LossGrads l g /\
       lookup w' (W2 g) = Some G2 /\ lookup w' (b2 g) = Some GB2 /\
       derivable_pt_lim
         (fun t => loss_formula (set_W2 example_weights 1 0 t) example_X
                     example_y 1)
         (get (wW2 example_weights) 1 0) (get G2 1 0) /\
       derivable_pt_lim
         (fun t => loss_formula (set_b2 example_weights 1 t) example_X
                     example_y 1)
         (get (wb2 example_weights) 0 1) (get GB2 0 1)).
Proof.
  eapply returns_mono.
  - apply (proj1 (@output_gradients_are_derivatives example_net 0%nat example_X
             example_weights example_y 1 2%nat 2%nat 2%nat 2%nat example_world
             eq_refl (conj eq_refl (conj eq_refl (conj eq_refl eq_refl)))
             eq_refl (conj eq_refl (conj eq_refl (conj eq_refl eq_refl)))
             (le_S _ _ (le_n 1)) eq_refl example_valid_labels)).
  - intros r w' (l & g & G2 & GB2 & E & L2 & LB2 & D2 & DB2).
    exists l, g, G2, GB2.
    split; [exact E|]. split; [exact L2|]. split; [exact LB2|]. split.
    + apply (D2 1%nat 0%nat); lia.
    + apply (DB2 1%nat); lia.
Defined.

(** X18. The gradients that [loss] returns for the first layer are the
    partial derivatives of the loss it returns wherever the loss is
    differentiable in them: for an entry of [b1], if no example has a
    pre-activation of exactly 0 at that hidden unit, and for an entry
    [W1[d, k]], if that holds of every example with [X[i, d] <> 0], the
    loss as a function of that entry has, at the current value, the
    derivative [grads['b1'][0, k]], resp. [grads['W1'][d, k]].  (At a
    pre-activation of exactly 0 the rectifier has a kink and the code
    passes no gradient.) *)
Theorem hidden_gradients_are_derivatives self X XA v y reg N D H C w :
  lookup w X = Some XA -> net_holds w (params self) v ->
  shape XA = (N, D) -> weights_shape D H C v ->
  (1 <= N)%nat -> length y = N -> valid_labels C y ->
  returns (loss self X (Some y) reg) w
    (fun r w' => exists l g G1 GB1,
       r = LossGrads l g /\
       lookup w' (W1 g) = Some G1 /\ lookup w' (b1 g) = Some GB1 /\
       (forall d k, (d < D)%nat -> (k < H)%nat ->
          (forall i, (i < N)%nat ->
             get XA i d = 0 \/ pre_activation v XA i k <> 0) ->
          derivable_pt_lim (fun t => loss_formula (set_W1 v d k t) XA y reg)
            (get (wW1 v) d k) (get G1 d k)) /\
       (forall k, (k < H)%nat ->
          (forall i, (i < N)%nat -> pre_activation v XA i k <> 0) ->
          derivable_pt_lim (fun t => loss_formula (set_b1 v k t) XA y reg)
            (get (wb1 v) 0 k) (get GB1 0 k)))
  /\ (forall v' w2,
        lookup w2 X = Some XA -> net_holds w2 (params self) v' ->
        weights_shape D H C v' ->
        returns (loss self X (Some y) reg) w2
          (fun r _ => exists g, r = LossGrads (loss_formula v' XA y reg) g))
  /\ (forall d k t,
        weights_shape D H C (set_W1 v d k t) /\
        weights_shape D H C (set_b1 v k t)).
Proof.
  intros HX Hnet Hsh Hshape HN1 Hy Hv.
  assert (HN : nrows XA = N) by exact (f_equal fst Hsh).
  split; [|split].
  - eapply loss_spec;
      [exact HX | exact Hnet | exact HN | exact (f_equal snd Hsh)
      | exact Hshape | exact HN1 | exact Hy | exact Hv |].
    intros g w' _ _ (G1 & GB1 & G2 & GB2 & [L1 A1] & [LB1 AB1] & _) _.
    exists (loss_formula v XA y reg), g, G1, GB1.
    split; [reflexivity|]. split; [exact L1|]. split; [exact LB1|]. split.
    + intros d k Hd Hk Hkink. rewrite (is_array_at A1 Hd Hk).
      apply (@derivative_loss_W1 v XA y reg N D H C d k Hsh Hshape Hy Hv Hd Hk
               Hkink).
    + intros k Hk Hkink. rewrite (is_array_at AB1 (Nat.lt_0_1) Hk).
      apply (@derivative_loss_b1 v XA y reg N D H C k HN Hshape Hy Hv Hk Hkink).
  - intros v' w2 HX2 Hnet2 Hshape2.
    apply (@loss_returns_formula self X XA v' y reg N D H C w2
             HX2 Hnet2 Hsh Hshape2 HN1 Hy Hv).
  - intros d k t. destruct (set_entry_shapes Hshape) as (S1 & SB1 & _).
    split; [apply S1 | apply SB1].
Qed.

Lemma example_pre_activation i :
  (i < 2)%nat -> pre_activation example_weights example_X i 0 <> 0.
Proof.
  intros Hi. unfold pre_activation, sum_upto, sumR, get.
  destruct i as [|[|i]]; [simpl; lra | simpl; lra | lia].
Qed.

Lemma hidden_gradients_are_derivatives_witness :
  returns (loss example_net 0%nat (Some example_y) 1) example_world
    (fun r w' => exists l g G1 GB1,
       r = LossGrads l g /\
       lookup w' (W1 g) = Some G1 /\ lookup w' (b1 g) = Some GB1 /\
       derivable_pt_lim
         (fun t => loss_formula (set_W1 example_weights 1 0 t) example_X
                     example_y 1)
         (get (wW1 example_weights) 1 0) (get G1 1 0) /\
       derivable_pt_lim
         (fun t => loss_formula (set_b1 example_weights 0 t) example_X
                     example_y 1)
         (get (wb1 example_weights) 0 0) (get GB1 0 0)).
Proof.
  eapply returns_mono.
  - apply (proj1 (@hidden_gradients_are_derivatives example_net 0%nat example_X
             example_weights example_y 1 2%nat 2%nat 2%nat 2%nat example_world
             eq_refl (conj eq_refl (conj eq_refl (conj eq_refl eq_refl)))
             eq_refl (conj eq_refl (conj eq_refl (conj eq_refl eq_refl)))
             (le_S _ _ (le_n 1)) eq_refl example_valid_labels)).
  - intros r w' (l & g & G1 & GB1 & E & L1 & LB1 & D1 & DB1).
    exists l, g, G1, GB1.
    split; [exact E|]. split; [exact L1|]. split; [exact LB1|]. split.
    + apply (D1 1%nat 0%nat); [lia | lia |].
      intros i Hi. right. apply example_pre_activation, Hi.
    + apply (DB1 0%nat); [lia|]. apply example_pre_activation.
Defined.

(** * Beyond the specification: further properties of [loss] and [ReLU] *)

(** ** The loss of a network that does not tell the classes apart *)

Lemma softmax_constant C b j : (0 < C)%nat -> softmax C (fun _ => b) j = / INR C.
Proof.
  intros HC. unfold softmax. rewrite sum_upto_constant.
  pose proof (exp_pos b). assert (0 < INR C) by (apply lt_0_INR; exact HC).
  unfold Rdiv. rewrite Rinv_mult, (Rmult_comm (/ INR C)), <- Rmult_assoc.
  rewrite Rinv_r by lra. lra.
Qed.

Lemma uniform_loss_formula v X y reg N D H C b :
  nrows X = N -> weights_shape D H C v ->
  (1 <= N)%nat -> length y = N -> valid_labels C y ->
  zero_entries (wW2 v) H C ->
  (forall j, (j < C)%nat -> get (wb2 v) 0 j = b) ->
  loss_formula v X y reg = ln (INR C) + 0.5 * reg * sum_squares (wW1 v).
Proof.
  intros HN Hshape HN1 Hy Hv Z2 Hb.
  destruct (weights_shape_arrays Hshape) as (_ & _ & (Wn & Wm & _) & _).
  assert (HC : (0 < C)%nat) by (apply (valid_labels_classes Hv); lia).
  assert (HNpos : 0 < INR N) by (apply lt_0_INR; lia).
  assert (HCpos : 0 < INR C) by (apply lt_0_INR; lia).
  assert (Hscore : forall i j, (j < C)%nat -> score v X i j = b).
  { intros i j Hj. unfold score. rewrite Wn, (Hb j Hj).
    rewrite sum_upto_zero; [lra|].
    intros k Hk. rewrite (Z2 k j Hk Hj). lra. }
  assert (Hce : forall i, (i < N)%nat -> cross_entropy v X y i = ln (INR C)).
  { intros i Hi. unfold cross_entropy, prob. rewrite Wm.
    assert (Hl : (label y i < C)%nat) by (apply (valid_label_lt Hv); lia).
    rewrite (softmax_ext (score v X i) (fun _ => b)
               (fun c Hc => Hscore i c Hc) Hl).
    rewrite (softmax_constant b (label y i) HC), ln_Rinv by exact HCpos. lra. }
  assert (Hsq : sum_squares (wW2 v) = 0).
  { unfold sum_squares. rewrite Wn, Wm. apply sum_upto_zero. intros k Hk.
    apply sum_upto_zero. intros j Hj. rewrite (Z2 k j Hk Hj). lra. }
  unfold loss_formula, data_loss_formula, reg_loss_formula.
  rewrite HN, Hsq, (@sum_upto_ext N _ (fun _ => ln (INR C)) Hce), sum_upto_constant.
  field. lra.
Qed.

(** X19. The sanity check of a fresh classifier, in exact real arithmetic:
    if [W2] is zero and the entries of [b2] are all equal (as they are
    right after construction with [std = 0]), every class gets probability
    [1/C] on every example, and [loss] returns
    [ln C + 0.5 * reg * sum(W1^2)] whatever the data and the labels. *)
Theorem loss_of_uniform_scores self X XA v y reg N D H C b w :
  lookup w X = Some XA -> net_holds w (params self) v ->
  shape XA = (N, D) -> weights_shape D H C v ->
  (1 <= N)%nat -> length y = N -> valid_labels C y ->
  zero_entries (wW2 v) H C ->
  (forall j, (j < C)%nat -> get (wb2 v) 0 j = b) ->
  returns (loss self X (Some y) reg) w
    (fun r _ => exists g,
       r = LossGrads (ln (INR C) + 0.5 * reg * sum_squares (wW1 v)) g).
Proof.
  intros HX Hnet Hsh Hshape HN1 Hy Hv Z2 Hb.
  rewrite <- (@uniform_loss_formula v XA y reg N D H C b
                (f_equal fst Hsh) Hshape HN1 Hy Hv Z2 Hb).
  eapply loss_spec;
    [exact HX | exact Hnet | exact (f_equal fst Hsh) | exact (f_equal snd Hsh)
    | exact Hshape | exact HN1 | exact Hy | exact Hv |].
  intros g w' _ _ _ _. exists g. reflexivity.
Qed.

Lemma loss_of_uniform_scores_witness :
  returns (loss example_net 0%nat (Some [1%Z]) 3) uniform_world
    (fun r _ => exists g,
       r = LossGrads (ln (INR 2) + 0.5 * 3 * sum_squares (wW1 uniform_weights))
             g).
Proof.
  apply (@loss_of_uniform_scores example_net 0%nat (mkArr 1%nat 1%nat [[5]])
           uniform_weights [1%Z] 3 1%nat 1%nat 1%nat 2%nat 0 uniform_world).
  - reflexivity.
  - repeat split.
  - reflexivity.
  - repeat split.
  - lia.
  - reflexivity.
  - repeat constructor; simpl; lia.
  - intros i j Hi Hj. unfold get; simpl.
    destruct i as [|i]; [|lia]. destruct j as [|[|j]]; [reflexivity..|lia].
  - intros j Hj. unfold get; simpl. destruct j as [|[|j]]; [reflexivity..|lia].
Defined.

(** ** Hidden units that are off on the whole batch *)

(** X20. A hidden unit whose pre-activation is [<= 0] on every example of
    the batch gets no gradient from the data: [loss] returns, for that
    unit, [grads['b1'] = 0], and in [grads['W1']] and [grads['W2']] only the
    regularisation term [reg * W]. *)
Theorem dead_unit_gradients self X XA v y reg N D H C k w :
  lookup w X = Some XA -> net_holds w (params self) v ->
  shape XA = (N, D) -> weights_shape D H C v ->
  (1 <= N)%nat -> length y = N -> valid_labels C y ->
  (k < H)%nat -> (forall i, (i < N)%nat -> pre_activation v XA i k <= 0) ->
  returns (loss self X (Some y) reg) w
    (fun r w' => exists l g G1 GB1 G2,
       r = LossGrads l g /\
       lookup w' (W1 g) = Some G1 /\ lookup w' (b1 g) = Some GB1 /\
       lookup w' (W2 g) = Some G2 /\
       (forall d, (d < D)%nat -> get G1 d k = reg * get (wW1 v) d k) /\
       get GB1 0 k = 0 /\
       (forall c, (c < C)%nat -> get G2 k c = reg * get (wW2 v) k c)).
Proof.
  intros HX Hnet Hsh Hshape HN1 Hy Hv Hk Hoff.
  assert (HN : nrows XA = N) by exact (f_equal fst Hsh).
  eapply loss_spec;
    [exact HX | exact Hnet | exact HN | exact (f_equal snd Hsh)
    | exact Hshape | exact HN1 | exact Hy | exact Hv |].
  intros g w' _ _ (G1 & GB1 & G2 & GB2 & [L1 A1] & [LB1 AB1] & [L2 A2] & _) _.
  assert (Hg : forall i, (i < N)%nat -> gated_formula v XA y i k = 0).
  { intros i Hi. unfold gated_formula.
    destruct (Rle_dec (pre_activation v XA i k) 0) as [_|Hn];
      [reflexivity | exfalso; apply Hn, Hoff, Hi]. }
  exists (loss_formula v XA y reg), g, G1, GB1, G2.
  split; [reflexivity|]. split; [exact L1|]. split; [exact LB1|].
  split; [exact L2|]. split; [|split].
  - intros d Hd. rewrite (is_array_at A1 Hd Hk). unfold grad_W1_formula.
    rewrite HN, sum_upto_zero; [lra|].
    intros i Hi. rewrite (Hg i Hi). lra.
  - rewrite (is_array_at AB1 Nat.lt_0_1 Hk). unfold grad_b1_formula.
    rewrite HN. apply sum_upto_zero. exact Hg.
  - intros c Hc. rewrite (is_array_at A2 Hk Hc). unfold grad_W2_formula.
    rewrite HN, sum_upto_zero; [lra|].
    intros i Hi. unfold hidden. rewrite Rmax_left by (apply Hoff, Hi). lra.
Qed.

Lemma dead_unit_gradients_witness :
  returns (loss example_net 0%nat (Some [1%Z]) 3) uniform_world
    (fun r w' => exists l g G1 GB1 G2,
       r = LossGrads l g /\
       lookup w' (W1 g) = Some G1 /\ lookup w' (b1 g) = Some GB1 /\
       lookup w' (W2 g) = Some G2 /\
       (forall d, (d < 1)%nat ->
          get G1 d 0 = 3 * get (wW1 uniform_weights) d 0) /\
       get GB1 0 0 = 0 /\
       (forall c, (c < 2)%nat ->
          get G2 0 c = 3 * get (wW2 uniform_weights) 0 c)).
Proof.
  apply (@dead_unit_gradients example_net 0%nat (mkArr 1%nat 1%nat [[5]])
           uniform_weights [1%Z] 3 1%nat 1%nat 1%nat 2%nat 0%nat uniform_world).
  - reflexivity.
  - repeat split.
  - reflexivity.
  - repeat split.
  - lia.
  - reflexivity.
  - repeat constructor; simpl; lia.
  - lia.
  - intros i Hi. unfold pre_activation, sum_upto, sumR, get.
    destruct i as [|i]; [simpl; lra | lia].
Defined.

(** ** The rectifier *)

(** X21. [ReLU(x)] returns a new array of the shape of [x] whose entries
    are [max(0, x[i, j])], all non-negative; [x] itself is not modified;
    and applying [ReLU] to the result changes no entry. *)
Theorem ReLU_spec x A w :
  lookup w x = Some A ->
  returns (ReLU x) w
    (fun r w' => exists B,
       r = length (heap w) /\ lookup w' r = Some B /\ shape B = shape A /\
       (forall i j, (i < nrows A)%nat -> (j < ncols A)%nat ->
          get B i j = Rmax 0 (get A i j) /\ 0 <= get B i j) /\
       lookup w' x = Some A /\
       returns (ReLU r) w'
         (fun r2 w2 => exists B2,
            lookup w2 r2 = Some B2 /\ shape B2 = shape A /\
            forall i j, (i < nrows A)%nat -> (j < ncols A)%nat ->
              get B2 i j = get B i j)).
Proof.
  intros Hx. pose proof (lookup_lt _ _ Hx) as Lx.
  unfold ReLU, npy.maximum.
  eapply returns_fresh1_map; [exact Hx | apply is_array_self|].
  intros r B Hr AB. exists B.
  assert (LB : lookup (allocated w B) r = Some B)
    by (subst r; apply lookup_allocated_new; reflexivity).
  split; [exact Hr|]. split; [exact LB|].
  split; [apply (is_array_shape AB)|]. split; [|split].
  - intros i j Hi Hj. rewrite (is_array_at AB Hi Hj).
    split; [reflexivity | apply Rmax_l].
  - rewrite lookup_allocated_old by exact Lx. exact Hx.
  - eapply returns_fresh1_map; [exact LB | exact AB|].
    intros r2 B2 Hr2 AB2. exists B2.
    split; [subst r2; apply lookup_allocated_new; reflexivity|].
    split; [apply (is_array_shape AB2)|].
    intros i j Hi Hj. rewrite (is_array_at AB2 Hi Hj), (is_array_at AB Hi Hj).
    apply Rmax_right, Rmax_l.
Qed.

Lemma ReLU_spec_witness :
  returns (ReLU 0%nat) example_world
    (fun r w' => exists B,
       r = 7%nat /\ lookup w' r = Some B /\ shape B = (2%nat, 2%nat) /\
       (forall i j, (i < 2)%nat -> (j < 2)%nat ->
          get B i j = Rmax 0 (get example_X i j) /\ 0 <= get B i j) /\
       lookup w' 0%nat = Some example_X /\
       returns (ReLU r) w'
         (fun r2 w2 => exists B2,
            lookup w2 r2 = Some B2 /\ shape B2 = (2%nat, 2%nat) /\
            forall i j, (i < 2)%nat -> (j < 2)%nat ->
              get B2 i j = get B i j)).
Proof.
  apply (@ReLU_spec 0%nat example_X example_world). reflexivity.
Defined.

(** * Beyond the specification: what [verbose] and the validation data change *)

(** ** The formulas depend on the parameters through their entries *)

Section SameWeights.

Variables (va vb : weights) (X : ndarray) (y : list Z) (reg : R).
Variables (D H C : nat).
Hypothesis Hsa : weights_shape D H C va.
Hypothesis Hsb : weights_shape D H C vb.
Hypothesis Hsame : same_weights D H C va vb.
Hypothesis HD : ncols X = D.
Hypothesis Hlabel : forall i, (i < nrows X)%nat -> (label y i < C)%nat.

Lemma same_pre_activation i k :
  (k < H)%nat -> pre_activation va X i k = pre_activation vb X i k.
Proof.
  intros Hk. destruct Hsame as (S1 & SB1 & _). unfold pre_activation.
  rewrite HD, (SB1 0%nat k Nat.lt_0_1 Hk). f_equal.
  apply sum_upto_ext. intros d Hd. rewrite (S1 d k Hd Hk). reflexivity.
Qed.

Lemma same_hidden i k : (k < H)%nat -> hidden va X i k = hidden vb X i k.
Proof. intros Hk. unfold hidden. rewrite (same_pre_activation i Hk). reflexivity. Qed.

Lemma same_score i j : (j < C)%nat -> score va X i j = score vb X i j.
Proof.
  intros Hj. destruct Hsame as (_ & _ & S2 & SB2).
  destruct (weights_shape_arrays Hsa) as (_ & _ & (Wna & _) & _).
  destruct (weights_shape_arrays Hsb) as (_ & _ & (Wnb & _) & _).
  unfold score. rewrite Wna, Wnb, (SB2 0%nat j Nat.lt_0_1 Hj). f_equal.
  apply sum_upto_ext. intros k Hk.
  rewrite (same_hidden i Hk), (S2 k j Hk Hj). reflexivity.
Qed.

Lemma same_predictions : predictions va X = predictions vb X.
Proof.
  unfold predictions.
  rewrite (@ncols_W2 va D H C Hsa), (@ncols_W2 vb D H C Hsb).
  apply map_ext. intros i. do 2 f_equal.
  apply map_ext_in. intros j Hj. apply in_seq in Hj. apply same_score. lia.
Qed.

Lemma same_prob i j : (j < C)%nat -> prob va X i j = prob vb X i j.
Proof.
  intros Hj. unfold prob.
  rewrite (@ncols_W2 va D H C Hsa), (@ncols_W2 vb D H C Hsb).
  apply softmax_ext; [|exact Hj]. intros c Hc. apply same_score, Hc.
Qed.

Lemma same_dscores i j :
  (j < C)%nat -> dscores_formula va X y i j = dscores_formula vb X y i j.
Proof. intros Hj. unfold dscores_formula. rewrite (same_prob i Hj). reflexivity. Qed.

Lemma same_sum_squares A B n m :
  shape A = (n, m) -> shape B = (n, m) -> same_entries A B n m ->
  sum_squares A = sum_squares B.
Proof.
  intros EA EB HS. unfold sum_squares.
  rewrite (f_equal fst EA : nrows A = n), (f_equal snd EA : ncols A = m),
          (f_equal fst EB : nrows B = n), (f_equal snd EB : ncols B = m).
  apply sum_upto_ext. intros i Hi. apply sum_upto_ext. intros j Hj.
  rewrite (HS i j Hi Hj). reflexivity.
Qed.

Lemma same_loss_formula : loss_formula va X y reg = loss_formula vb X y reg.
Proof.
  unfold loss_formula, data_loss_formula, reg_loss_formula.
  destruct Hsa as (A1 & _ & A2 & _). destruct Hsb as (B1 & _ & B2 & _).
  destruct Hsame as (S1 & _ & S2 & _).
  rewrite (same_sum_squares A1 B1 S1), (same_sum_squares A2 B2 S2).
  do 2 f_equal. apply sum_upto_ext. intros i Hi.
  unfold cross_entropy. rewrite (same_prob i (Hlabel Hi)). reflexivity.
Qed.

Lemma same_gated i k :
  (k < H)%nat -> gated_formula va X y i k = gated_formula vb X y i k.
Proof.
  intros Hk. destruct Hsame as (_ & _ & S2 & _).
  unfold gated_formula, dhidden_formula.
  rewrite (same_pre_activation i Hk).
  rewrite (@ncols_W2 va D H C Hsa), (@ncols_W2 vb D H C Hsb).
  destruct (Rle_dec (pre_activation vb X i k) 0); [reflexivity|].
  apply sum_upto_ext. intros j Hj.
  rewrite (same_dscores i Hj), (S2 k j Hk Hj). reflexivity.
Qed.

Lemma same_gradients :
  (forall d k, (d < D)%nat -> (k < H)%nat ->
     grad_W1_formula va X y reg d k = grad_W1_formula vb X y reg d k) /\
  (forall i k, (k < H)%nat ->
     grad_b1_formula va X y i k = grad_b1_formula vb X y i k) /\
  (forall k j, (k < H)%nat -> (j < C)%nat ->
     grad_W2_formula va X y reg k j = grad_W2_formula vb X y reg k j) /\
  (forall i j, (j < C)%nat ->
     grad_b2_formula va X y i j = grad_b2_formula vb X y i j).
Proof.
  destruct Hsame as (S1 & _ & S2 & _).
  split; [|split; [|split]].
  - intros d k Hd Hk. unfold grad_W1_formula. rewrite (S1 d k Hd Hk). f_equal.
    apply sum_upto_ext. intros i _. rewrite (same_gated i Hk). reflexivity.
  - intros i k Hk. unfold grad_b1_formula.
    apply sum_upto_ext. intros i' _. apply same_gated, Hk.
  - intros k j Hk Hj. unfold grad_W2_formula. rewrite (S2 k j Hk Hj). f_equal.
    apply sum_upto_ext. intros i _.
    rewrite (same_hidden i Hk), (same_dscores i Hj). reflexivity.
  - intros i j Hj. unfold grad_b2_formula.
    apply sum_upto_ext. intros i' _. apply same_dscores, Hj.
Qed.

End SameWeights.

(** ** Two runs in lockstep *)

Lemma for_each_lockstep
    (R : loop_state -> world -> loop_state -> world -> Prop)
    body_a body_b its :
  (forall it sa wa sb wb, R sa wa sb wb ->
     returns (body_a it sa) wa (fun sa' wa' =>
       returns (body_b it sb) wb (fun sb' wb' => R sa' wa' sb' wb'))) ->
  forall sa wa sb wb, R sa wa sb wb ->
    returns (for_each body_a its sa) wa (fun sa' wa' =>
      returns (for_each body_b its sb) wb (fun sb' wb' => R sa' wa' sb' wb')).
Proof.
  intros Hstep. induction its as [|it its IH]; intros sa wa sb wb HR; simpl.
  - apply returns_ret. apply returns_ret. exact HR.
  - apply returns_bind.
    eapply returns_mono; [apply (Hstep it sa wa sb wb HR)|].
    intros sa1 wa1 (sb1 & wb1 & Eb & HR1).
    eapply returns_mono; [apply (IH sa1 wa1 sb1 wb1 HR1)|].
    intros sa2 wa2 (sb2 & wb2 & Eb2 & HR2).
    exists sb2, wb2. split; [|exact HR2].
    unfold bind. rewrite Eb. exact Eb2.
Qed.

(** The same momentum update, applied in two worlds to velocities and
    parameters with the same entries. *)
Lemma same_update wa wa' wb wb' olda oldb newa newb Pa Pb Pa' Pb' n m mu0 lr
    (ga gb : nat -> nat -> R) :
  same_velocity wa olda wb oldb n m -> same_entries Pa Pb n m ->
  (forall i j, (i < n)%nat -> (j < m)%nat -> ga i j = gb i j) ->
  vel_is wa' newa n m (new_velocity wa olda mu0 lr ga) ->
  is_array Pa' n m (fun i j => get Pa i j + new_velocity wa olda mu0 lr ga i j) ->
  vel_is wb' newb n m (new_velocity wb oldb mu0 lr gb) ->
  is_array Pb' n m (fun i j => get Pb i j + new_velocity wb oldb mu0 lr gb i j) ->
  same_velocity wa' newa wb' newb n m /\ same_entries Pa' Pb' n m.
Proof.
  intros HV HP Hg Va Aa Vb Ab.
  assert (E : forall i j, (i < n)%nat -> (j < m)%nat ->
                new_velocity wa olda mu0 lr ga i j
                = new_velocity wb oldb mu0 lr gb i j).
  { intros i j Hi Hj. unfold new_velocity.
    rewrite (HV i j Hi Hj), (Hg i j Hi Hj). reflexivity. }
  split; intros i j Hi Hj.
  - rewrite (vel_is_entry Va Hi Hj), (vel_is_entry Vb Hi Hj). apply E; assumption.
  - rewrite (is_array_at Aa Hi Hj), (is_array_at Ab Hi Hj), (HP i j Hi Hj),
            (E i j Hi Hj). reflexivity.
Qed.

(** One iteration of two runs that are in lockstep and whose schedules
    apply the same factors at this iteration: the runs stay in lockstep,
    and if both record accuracies, they record the same accuracy on the
    minibatch. *)
Lemma lockstep_step self X XA y N D H C batch_size reg
    Xv_a XvA_a yv_a Nv_a decay_a inc_a verbose_a
    Xv_b XvA_b yv_b Nv_b decay_b inc_b verbose_b
    v w ipe it sa wa sb wb :
  train_ready self X XA y Xv_a XvA_a yv_a batch_size N D H C Nv_a v w ->
  train_ready self X XA y Xv_b XvA_b yv_b batch_size N D H C Nv_b v w ->
  epoch_factor verbose_a ipe it decay_a = epoch_factor verbose_b ipe it decay_b ->
  epoch_factor verbose_a ipe it inc_a = epoch_factor verbose_b ipe it inc_b ->
  lockstep self X XA Xv_a XvA_a Xv_b XvA_b D H C sa wa sb wb ->
  returns (train_step self X y Xv_a yv_a decay_a reg inc_a batch_size
             verbose_a N ipe it sa) wa
    (fun sa' wa' =>
       returns (train_step self X y Xv_b yv_b decay_b reg inc_b batch_size
                  verbose_b N ipe it sb) wb
         (fun sb' wb' =>
            lockstep self X XA Xv_a XvA_a Xv_b XvA_b D H C sa' wa' sb' wb' /\
            (verbose_a = verbose_b ->
             train_acc_history sa = train_acc_history sb ->
             train_acc_history sa' = train_acc_history sb'))).
Proof.
  intros Hra Hrb Hdecay Hinc
    (va & vb & Inva & Invb & Hrand & Hsame & S2 & SB2 & S1 & SB1 & Elr & Emu & EL).
  eapply returns_mono;
    [apply (train_ready_step_inv ipe it decay_a reg inc_a verbose_a Hra Inva)|].
  intros sa' wa' (va' & Inva' & Ra & _ & ELa & [V2a P2a] & [VB2a PB2a]
                  & [V1a P1a] & [VB1a PB1a] & Hifa).
  eapply returns_mono;
    [apply (train_ready_step_inv ipe it decay_b reg inc_b verbose_b Hrb Invb)|].
  intros sb' wb' (vb' & Invb' & Rb & _ & ELb & [V2b P2b] & [VB2b PB2b]
                  & [V1b P1b] & [VB1b PB1b] & Hifb).
  assert (EX : batch_X XA batch_size N wa = batch_X XA batch_size N wb)
    by (unfold batch_X, batch_index; rewrite Hrand; reflexivity).
  assert (Ey : batch_y y batch_size N wa = batch_y y batch_size N wb)
    by (unfold batch_y, batch_index; rewrite Hrand; reflexivity).
  rewrite EX, Ey in *.
  destruct (batch_ready wb Hra) as (BN & B1 & By & Bv).
  pose proof Hra as (_ & _ & _ & _ & HXs & _).
  pose proof (f_equal snd (@batch_X_shape XA batch_size N D HXs wb)) as BD.
  simpl in BD.
  pose proof Inva as (_ & Hsha & _). pose proof Invb as (_ & Hshb & _).
  destruct (@same_gradients va vb (batch_X XA batch_size N wb)
              (batch_y y batch_size N wb) reg D H C Hsha Hshb Hsame BD)
    as (G1 & GB1 & G2 & GB2).
  assert (Hl : forall i, (i < nrows (batch_X XA batch_size N wb))%nat ->
                 (label (batch_y y batch_size N wb) i < C)%nat).
  { intros i Hi. apply (valid_label_lt Bv). rewrite By, <- BN. exact Hi. }
  pose proof (@same_loss_formula va vb (batch_X XA batch_size N wb)
                (batch_y y batch_size N wb) reg D H C Hsha Hshb Hsame BD Hl)
    as EF.
  destruct Hsame as (W1s & B1s & W2s & B2s).
  rewrite <- Elr, <- Emu in V2b, P2b, VB2b, PB2b, V1b, P1b, VB1b, PB1b.
  destruct (same_update S2 W2s G2 V2a P2a V2b P2b) as [S2' W2s'].
  destruct (same_update SB2 B2s (fun i j (_ : (i < 1)%nat) Hj => GB2 i j Hj)
              VB2a PB2a VB2b PB2b) as [SB2' B2s'].
  destruct (same_update S1 W1s G1 V1a P1a V1b P1b) as [S1' W1s'].
  destruct (same_update SB1 B1s (fun i j (_ : (i < 1)%nat) Hj => GB1 i j Hj)
              VB1a PB1a VB1b PB1b) as [SB1' B1s'].
  assert (Hsame' : same_weights D H C va' vb') by (repeat split; assumption).
  assert (Ha : learning_rate sa' = learning_rate sa * epoch_factor verbose_a ipe it decay_a
               /\ mu sa' = mu sa * epoch_factor verbose_a ipe it inc_a).
  { unfold epoch_factor. destruct (verbose_a && (it mod ipe =? 0)%Z);
      destruct Hifa as (_ & _ & -> & ->); split; lra. }
  assert (Hb : learning_rate sb' = learning_rate sb * epoch_factor verbose_b ipe it decay_b
               /\ mu sb' = mu sb * epoch_factor verbose_b ipe it inc_b).
  { unfold epoch_factor. destruct (verbose_b && (it mod ipe =? 0)%Z);
      destruct Hifb as (_ & _ & -> & ->); split; lra. }
  destruct Ha as [Elra Emua]. destruct Hb as [Elrb Emub].
  split.
  - exists va', vb'.
    split; [exact Inva'|]. split; [exact Invb'|].
    split; [rewrite Ra, Rb, Hrand; reflexivity|].
    split; [exact Hsame'|].
    repeat (split; [assumption|]).
    split; [rewrite Elra, Elrb, Hdecay, Elr; reflexivity|].
    split; [rewrite Emua, Emub, Hinc, Emu; reflexivity|].
    rewrite ELa, ELb, EL, EF. reflexivity.
  - intros Ev ET. subst verbose_b.
    pose proof Inva' as (_ & Hsha' & _). pose proof Invb' as (_ & Hshb' & _).
    pose proof (@same_predictions va' vb' (batch_X XA batch_size N wb)
                  D H C Hsha' Hshb' Hsame' BD) as EP.
    destruct (verbose_a && (it mod ipe =? 0)%Z).
    + destruct Hifa as (-> & _). destruct Hifb as (-> & _).
      rewrite ET, EP. reflexivity.
    + destruct Hifa as (-> & _). destruct Hifb as (-> & _). exact ET.
Qed.

(** Two calls of [train] on the same training data, in the same world,
    whose schedules apply the same factors. *)
Lemma train_lockstep self X XA y N D H C batch_size lr reg mu0 num_epochs
    Xv_a XvA_a yv_a Nv_a decay_a inc_a verbose_a
    Xv_b XvA_b yv_b Nv_b decay_b inc_b verbose_b v w :
  train_ready self X XA y Xv_a XvA_a yv_a batch_size N D H C Nv_a v w ->
  train_ready self X XA y Xv_b XvA_b yv_b batch_size N D H C Nv_b v w ->
  (forall ipe it,
     epoch_factor verbose_a ipe it decay_a = epoch_factor verbose_b ipe it decay_b /\
     epoch_factor verbose_a ipe it inc_a = epoch_factor verbose_b ipe it inc_b) ->
  returns (train self X y Xv_a yv_a lr decay_a reg mu0 num_epochs inc_a
             batch_size verbose_a) w
    (fun hist_a w_a =>
       returns (train self X y Xv_b yv_b lr decay_b reg mu0 num_epochs inc_b
                  batch_size verbose_b) w
         (fun hist_b w_b =>
            h_loss_history hist_a = h_loss_history hist_b /\
            (verbose_a = verbose_b ->
             h_train_acc_history hist_a = h_train_acc_history hist_b) /\
            exists v_a v_b,
              net_holds w_a (params self) v_a /\
              net_holds w_b (params self) v_b /\
              same_weights D H C v_a v_b)).
Proof.
  intros Hra Hrb Hsched.
  pose proof (train_ready_inv lr mu0 Hra) as Inva.
  pose proof (train_ready_inv lr mu0 Hrb) as Invb.
  pose proof Hra as (HX & _ & _ & _ & HXs & _ & _ & _ & Hb & _).
  assert (Hb0 : (batch_size =? 0)%Z = false) by (apply Z.eqb_neq; lia).
  set (R := fun sa wa sb wb =>
              lockstep self X XA Xv_a XvA_a Xv_b XvA_b D H C sa wa sb wb /\
              (verbose_a = verbose_b ->
               train_acc_history sa = train_acc_history sb)).
  assert (Hstart : R (initial_loop_state lr mu0) w (initial_loop_state lr mu0) w).
  { split; [|reflexivity].
    exists v, v. split; [exact Inva|]. split; [exact Invb|].
    split; [reflexivity|].
    split; [repeat split; apply same_entries_refl|].
    repeat (split; [intros i j _ _; reflexivity|]).
    repeat split. }
  unfold train, train_run.
  apply returns_bind.
  apply returns_bind. eapply returns_load; [exact HX|].
  rewrite (f_equal fst HXs : nrows XA = N).
  apply returns_bind. unfold int_div. rewrite Hb0. apply returns_ret.
  eapply returns_mono.
  - apply (@for_each_lockstep R
             (train_step self X y Xv_a yv_a decay_a reg inc_a batch_size
                verbose_a N (Z.max (Z.of_nat N / batch_size) 1))
             (train_step self X y Xv_b yv_b decay_b reg inc_b batch_size
                verbose_b N (Z.max (Z.of_nat N / batch_size) 1))
             (xrange 1 (num_epochs * Z.max (Z.of_nat N / batch_size) 1 + 1)));
      [|exact Hstart].
    intros it sa wa sb wb [HL HT].
    destruct (Hsched (Z.max (Z.of_nat N / batch_size) 1) it) as [Hd Hi].
    eapply returns_mono;
      [apply (@lockstep_step self X XA y N D H C batch_size reg
                Xv_a XvA_a yv_a Nv_a decay_a inc_a verbose_a
                Xv_b XvA_b yv_b Nv_b decay_b inc_b verbose_b
                v w _ it sa wa sb wb Hra Hrb Hd Hi HL)|].
    intros sa' wa' Hb'. eapply returns_mono; [exact Hb'|].
    intros sb' wb' [HL' HT']. split; [exact HL'|].
    intros Ev. apply (HT' Ev (HT Ev)).
  - intros sa' wa' (sb' & wb' & Eb & (va & vb & Ia & Ib & _ & Hsame & _ & _
                    & _ & _ & _ & _ & EL) & HT).
    apply returns_ret.
    apply returns_bind.
    apply returns_bind. eapply returns_load; [exact HX|].
    rewrite (f_equal fst HXs : nrows XA = N).
    apply returns_bind. apply returns_ret.
    exists sb', wb'. split; [exact Eb|].
    apply returns_ret. simpl. split; [exact EL|]. split; [exact HT|].
    exists va, vb. split; [apply Ia|]. split; [apply Ib | exact Hsame].
Qed.

(** X22. What [verbose] changes, it changes through the decay of the
    learning rate and the increase of the momentum: with both factors equal
    to 1, a run with [verbose] on and a run with [verbose] off (whatever
    its two factors), started in the same world, record the same losses
    and end with parameters that have the same entries. *)
Theorem verbose_changes_only_the_schedule self X XA y X_val XvA y_val lr decay
    reg mu0 num_epochs mu_increase batch_size N D H C Nv v w :
  train_ready self X XA y X_val XvA y_val batch_size N D H C Nv v w ->
  returns (train self X y X_val y_val lr 1 reg mu0 num_epochs 1 batch_size true)
    w
    (fun hist_on w_on =>
       returns (train self X y X_val y_val lr decay reg mu0 num_epochs
                  mu_increase batch_size false) w
         (fun hist_off w_off =>
            h_loss_history hist_on = h_loss_history hist_off /\
            exists v_on v_off,
              net_holds w_on (params self) v_on /\
              net_holds w_off (params self) v_off /\
              same_weights D H C v_on v_off)).
Proof.
  intros Hready.
  eapply returns_mono.
  - apply (@train_lockstep self X XA y N D H C batch_size lr reg mu0 num_epochs
             X_val XvA y_val Nv 1 1 true
             X_val XvA y_val Nv decay mu_increase false v w Hready Hready).
    intros ipe it. unfold epoch_factor. simpl.
    destruct (it mod ipe =? 0)%Z; split; reflexivity.
  - intros hist_on w_on Hoff. eapply returns_mono; [exact Hoff|].
    intros hist_off w_off (EL & _ & Hv). split; [exact EL | exact Hv].
Qed.

Lemma verbose_changes_only_the_schedule_witness :
  returns (train example_net 0%nat example_y 5%nat example_y 1 1 0 0.5 3%Z 1 1%Z
             true) example_world
    (fun hist_on w_on =>
       returns (train example_net 0%nat example_y 5%nat example_y 1 0.5 0 0.5
                  3%Z 2 1%Z false) example_world
         (fun hist_off w_off =>
            h_loss_history hist_on = h_loss_history hist_off /\
            exists v_on v_off,
              net_holds w_on (params example_net) v_on /\
              net_holds w_off (params example_net) v_off /\
              same_weights 2 2 2 v_on v_off)).
Proof.
  apply (@verbose_changes_only_the_schedule example_net 0%nat example_X
           example_y 5%nat example_X example_y 1 0.5 0 0.5 3%Z 2 1%Z
           2%nat 2%nat 2%nat 2%nat 2%nat example_weights example_world
           (example_train_ready (Z.le_refl 1))).
Defined.

(** X26. The validation data do not leak into what is learned: two calls
    of [train] that differ only in [X_val] and [y_val], started in the same
    world, record the same losses and the same minibatch accuracies and end
    with parameters that have the same entries; only [val_acc_history]
    can differ. *)
Theorem validation_does_not_leak self X XA y X_val XvA y_val X_val' XvA' y_val'
    lr decay reg mu0 num_epochs mu_increase batch_size verbose
    N D H C Nv Nv' v w :
  train_ready self X XA y X_val XvA y_val batch_size N D H C Nv v w ->
  train_ready self X XA y X_val' XvA' y_val' batch_size N D H C Nv' v w ->
  returns (train self X y X_val y_val lr decay reg mu0 num_epochs mu_increase
             batch_size verbose) w
    (fun hist w1 =>
       returns (train self X y X_val' y_val' lr decay reg mu0 num_epochs
                  mu_increase batch_size verbose) w
         (fun hist' w2 =>
            h_loss_history hist = h_loss_history hist' /\
            h_train_acc_history hist = h_train_acc_history hist' /\
            exists v1 v2,
              net_holds w1 (params self) v1 /\
              net_holds w2 (params self) v2 /\
              same_weights D H C v1 v2)).
Proof.
  intros Hra Hrb.
  eapply returns_mono.
  - apply (@train_lockstep self X XA y N D H C batch_size lr reg mu0 num_epochs
             X_val XvA y_val Nv decay mu_increase verbose
             X_val' XvA' y_val' Nv' decay mu_increase verbose v w Hra Hrb).
    intros ipe it. split; reflexivity.
  - intros hist w1 Hb. eapply returns_mono; [exact Hb|].
    intros hist' w2 (EL & ET & Hv).
    split; [exact EL|]. split; [apply ET; reflexivity | exact Hv].
Qed.

Lemma example_train_ready_swapped :
  train_ready example_net 0%nat example_X example_y 6%nat example_X_swapped
    [0%Z; 0%Z] 1%Z 2%nat 2%nat 2%nat 2%nat 2%nat example_weights example_world.
Proof.
  unfold train_ready.
  split; [reflexivity|]. split; [reflexivity|].
  split; [repeat split|]. split; [repeat split|].
  split; [reflexivity|]. split; [lia|]. split; [reflexivity|].
  split; [exact example_valid_labels|]. split; [lia|].
  split; [reflexivity|]. split; [reflexivity|].
  split; [repeat constructor; simpl; lia|].
  split; simpl; lia.
Qed.

Lemma validation_does_not_leak_witness :
  returns (train example_net 0%nat example_y 5%nat example_y 1 0.5 0 0.5 3%Z 2
             1%Z true) example_world
    (fun hist w1 =>
       returns (train example_net 0%nat example_y 6%nat [0%Z; 0%Z] 1 0.5 0 0.5
                  3%Z 2 1%Z true) example_world
         (fun hist' w2 =>
            h_loss_history hist = h_loss_history hist' /\
            h_train_acc_history hist = h_train_acc_history hist' /\
            exists v1 v2,
              net_holds w1 (params example_net) v1 /\
              net_holds w2 (params example_net) v2 /\
              same_weights 2 2 2 v1 v2)).
Proof.
  apply (@validation_does_not_leak example_net 0%nat example_X example_y
           5%nat example_X example_y 6%nat example_X_swapped [0%Z; 0%Z]
           1 0.5 0 0.5 3%Z 2 1%Z true
           2%nat 2%nat 2%nat 2%nat 2%nat 2%nat example_weights example_world
           (example_train_ready (Z.le_refl 1)) example_train_ready_swapped).
Defined.

(** * Beyond the specification: a classifier that ignores its input *)

Lemma map_constant (S T : Type) (f : S -> T) (c : T) (l : list S) :
  (forall x, In x l -> f x = c) -> map f l = repeat c (length l).
Proof.
  induction l as [|a l IH]; intros Hf; [reflexivity|].
  simpl. rewrite (Hf a) by (left; reflexivity).
  rewrite IH by (intros x Hx; apply Hf; right; exact Hx). reflexivity.
Qed.

Lemma zero_W2_predictions v X D H C :
  weights_shape D H C v -> zero_entries (wW2 v) H C ->
  predictions v X
  = repeat (Z.of_nat (np.argmax_list (map (get (wb2 v) 0) (seq 0 C))))
      (nrows X).
Proof.
  intros Hshape Z2.
  destruct (weights_shape_arrays Hshape) as (_ & _ & (Wn & Wm & _) & _).
  unfold predictions. rewrite Wm.
  replace (nrows X) with (length (seq 0 (nrows X))) at 2 by apply length_seq.
  apply map_constant. intros i _. do 2 f_equal.
  apply map_ext_in. intros j Hj. apply in_seq in Hj.
  unfold score. rewrite Wn, sum_upto_zero; [lra|].
  intros k Hk. rewrite (Z2 k j Hk) by lia. lra.
Qed.

Lemma train_keeps_heap self X XA y X_val XvA y_val lr decay reg mu0 num_epochs
    mu_increase batch_size verbose N D H C Nv v w :
  train_ready self X XA y X_val XvA y_val batch_size N D H C Nv v w ->
  returns (train self X y X_val y_val lr decay reg mu0 num_epochs mu_increase
             batch_size verbose) w
    (fun _ w' => kept_but (param_locs (params self)) w w').
Proof.
  intros Hready. unfold train. apply returns_bind.
  eapply returns_mono;
    [apply (train_run_spec lr decay reg mu0 num_epochs mu_increase verbose Hready)|].
  intros s' w' (v' & ls & ta & va & _ & _ & _ & _ & _ & _ & _ & _ & _ & _ & KP).
  apply returns_ret. exact KP.
Qed.

(** X23. A network whose [W2] is zero ignores its input: [predict] returns
    the same class, the first maximum of [b2], for every row.  Since
    training keeps a network of zeros ([W1], [b1] and [W2] zero) a network
    of zeros, such a network, however it is trained, predicts one and the
    same class for all the rows of any input. *)
Theorem zero_network_predicts_one_class self X XA y X_val XvA y_val lr decay
    reg mu0 num_epochs mu_increase batch_size verbose N D H C Nv v w
    X' XA' M :
  lookup w X' = Some XA' -> shape XA' = (M, D) ->
  net_holds w (params self) v -> weights_shape D H C v -> (1 <= C)%nat ->
  zero_entries (wW2 v) H C ->
  returns (predict self X') w
    (fun y_pred _ =>
       y_pred
       = repeat (Z.of_nat (np.argmax_list (map (get (wb2 v) 0) (seq 0 C)))) M)
  /\ (train_ready self X XA y X_val XvA y_val batch_size N D H C Nv v w ->
      zero_entries (wW1 v) D H -> zero_entries (wb1 v) 1 H ->
      ~ In X' (param_locs (params self)) ->
      returns (train self X y X_val y_val lr decay reg mu0 num_epochs
                 mu_increase batch_size verbose ;;;
               predict self X') w
        (fun y_pred _ => exists k,
           (k < C)%nat /\ y_pred = repeat (Z.of_nat k) M)).
Proof.
  intros HX' Hsh' Hnet Hshape HC Z2.
  assert (Hpred : forall v0 w0,
            lookup w0 X' = Some XA' -> net_holds w0 (params self) v0 ->
            weights_shape D H C v0 -> zero_entries (wW2 v0) H C ->
            returns (predict self X') w0
              (fun y_pred _ =>
                 y_pred
                 = repeat (Z.of_nat (np.argmax_list
                                       (map (get (wb2 v0) 0) (seq 0 C)))) M)).
  { intros v0 w0 HX0 Hnet0 Hshape0 Z0.
    eapply predict_spec;
      [exact HX0 | exact Hnet0 | exact Hsh' | exact Hshape0 | exact HC |].
    intros w1 _ _.
    rewrite (zero_W2_predictions XA' Hshape0 Z0),
            (f_equal fst Hsh' : nrows XA' = M).
    reflexivity. }
  split; [apply (Hpred v w HX' Hnet Hshape Z2)|].
  intros Hready Z1 ZB1 Hnot.
  apply returns_bind.
  eapply returns_mono.
  - apply (returns_unique
             (@train_zero_weights self X XA y X_val XvA y_val lr decay reg mu0
                num_epochs mu_increase batch_size verbose N D H C Nv v w
                Hready Z1 ZB1 Z2)
             (@train_keeps_heap self X XA y X_val XvA y_val lr decay reg mu0
                num_epochs mu_increase batch_size verbose N D H C Nv v w
                Hready)).
  - intros hist w1 [(v1 & Hnet1 & Hshape1 & _ & _ & Z2') KP].
    eapply returns_mono.
    + apply (Hpred v1 w1); [|exact Hnet1 | exact Hshape1 | exact Z2'].
      apply (@kept_but_lookup (param_locs (params self)) w w1 X' XA' KP Hnot HX').
    + intros y_pred w2 ->.
      exists (np.argmax_list (map (get (wb2 v1) 0) (seq 0 C))).
      split; [|reflexivity].
      assert (Hne : map (get (wb2 v1) 0) (seq 0 C) <> [])
        by (destruct C; [lia | discriminate]).
      destruct (argmax_list_spec Hne) as (Hlt & _).
      rewrite length_map, length_seq in Hlt. exact Hlt.
Qed.

Lemma zero_network_predicts_one_class_witness :
  returns (predict example_net 0%nat) uniform_world
    (fun y_pred _ =>
       y_pred
       = repeat (Z.of_nat (np.argmax_list
                             (map (get (wb2 uniform_weights) 0) (seq 0 2))))
           1)
  /\ returns (train example_net 0%nat [0%Z] 0%nat [0%Z] 1 0.5 1 0.9 3%Z 1 1%Z
                true ;;;
              predict example_net 0%nat) uniform_world
       (fun y_pred _ => exists k,
          (k < 2)%nat /\ y_pred = repeat (Z.of_nat k) 1).
Proof.
  assert (Z2 : zero_entries (wW2 uniform_weights) 1 2).
  { intros i j Hi Hj. unfold get; simpl.
    destruct i as [|i]; [|lia]. destruct j as [|[|j]]; [reflexivity..|lia]. }
  destruct (@zero_network_predicts_one_class example_net 0%nat
              (mkArr 1%nat 1%nat [[5]]) [0%Z] 0%nat (mkArr 1%nat 1%nat [[5]])
              [0%Z] 1 0.5 1 0.9 3%Z 1 1%Z true 1%nat 1%nat 1%nat 2%nat 1%nat
              uniform_weights uniform_world 0%nat (mkArr 1%nat 1%nat [[5]])
              1%nat eq_refl eq_refl
              (conj eq_refl (conj eq_refl (conj eq_refl eq_refl)))
              (conj eq_refl (conj eq_refl (conj eq_refl eq_refl)))
              (le_S _ _ (le_n 1)) Z2) as [P1 P2].
  split; [exact P1|].
  apply P2.
  - exact uniform_train_ready.
  - apply zero_cell_entries.
  - apply zero_cell_entries.
  - simpl. lia.
Defined.

(** * Beyond the specification: a conservation law of the output weights *)

Lemma grad_W2_row_sum v X y reg k :
  (forall i, (i < nrows X)%nat -> (label y i < ncols (wW2 v))%nat) ->
  sum_upto (ncols (wW2 v)) (fun j => grad_W2_formula v X y reg k j)
  = reg * sum_upto (ncols (wW2 v)) (fun j => get (wW2 v) k j).
Proof.
  intros Hl. unfold grad_W2_formula.
  rewrite (sum_upto_plus (ncols (wW2 v))
             (fun j => sum_upto (nrows X)
                         (fun i => hidden v X i k * dscores_formula v X y i j))
             (fun j => reg * get (wW2 v) k j)).
  rewrite (sum_upto_scale (ncols (wW2 v)) (fun j => get (wW2 v) k j) reg).
  rewrite <- (sum_upto_swap (nrows X) (ncols (wW2 v))
                (fun i j => hidden v X i k * dscores_formula v X y i j)).
  rewrite sum_upto_zero; [lra|].
  intros i Hi.
  rewrite (sum_upto_scale (ncols (wW2 v)) (dscores_formula v X y i)
             (hidden v X i k)).
  rewrite (dscores_row_sum v X y i (Hl i Hi)). lra.
Qed.

(** X24. The softmax does not see a constant added to all the scores of an
    example, and the gradients show it: in [grads['W2']] every row sums to
    [reg] times the sum of that row of [W2].  So with [reg = 0] training
    never changes the sum of any row of [W2], whatever the data and the
    other hyperparameters. *)
Theorem train_keeps_W2_row_sums self X XA y X_val XvA y_val lr decay reg mu0
    num_epochs mu_increase batch_size verbose N D H C Nv v w :
  train_ready self X XA y X_val XvA y_val batch_size N D H C Nv v w ->
  returns (loss self X (Some y) reg) w
    (fun r w' => exists l g G2,
       r = LossGrads l g /\ lookup w' (W2 g) = Some G2 /\
       forall k, (k < H)%nat ->
         sum_upto C (fun j => get G2 k j)
         = reg * sum_upto C (fun j => get (wW2 v) k j))
  /\ returns (train self X y X_val y_val lr decay 0 mu0 num_epochs mu_increase
                batch_size verbose) w
       (fun _ w' => exists v',
          net_holds w' (params self) v' /\ weights_shape D H C v' /\
          forall k, (k < H)%nat ->
            sum_upto C (fun j => get (wW2 v') k j)
            = sum_upto C (fun j => get (wW2 v) k j)).
Proof.
  intros Hready. split.
  - pose proof Hready as (HX & _ & Hnet & Hshape & HXs & HN1 & Hy & Hv & _).
    pose proof (@ncols_W2 v D H C Hshape) as EC.
    eapply loss_spec;
      [exact HX | exact Hnet | exact (f_equal fst HXs) | exact (f_equal snd HXs)
      | exact Hshape | exact HN1 | exact Hy | exact Hv |].
    intros g w' _ _ (G1 & GB1 & G2 & GB2 & _ & _ & [L2 A2] & _) _.
    exists (loss_formula v XA y reg), g, G2.
    split; [reflexivity|]. split; [exact L2|].
    intros k Hk.
    rewrite (@sum_upto_ext C (fun j => get G2 k j)
               (fun j => grad_W2_formula v XA y reg k j))
      by (intros j Hj; apply (is_array_at A2 Hk Hj)).
    rewrite <- EC. apply grad_W2_row_sum. intros i Hi. rewrite EC.
    apply (valid_label_lt Hv). rewrite Hy, <- (f_equal fst HXs : nrows XA = N).
    exact Hi.
  - eapply returns_mono.
    + apply (@train_invariant self X XA y X_val XvA y_val lr decay 0 mu0
               num_epochs mu_increase batch_size verbose N D H C Nv v w
               (fun w0 s v0 =>
                  forall k, (k < H)%nat ->
                    sum_upto C (fun j => vel_entry w0 (v_W2 s) k j) = 0 /\
                    sum_upto C (fun j => get (wW2 v0) k j)
                    = sum_upto C (fun j => get (wW2 v) k j))
               Hready).
      * intros k Hk. split; [|reflexivity].
        apply sum_upto_zero. intros j _. reflexivity.
      * intros ipe it w0 s0 v0 s' w' Inv0 HJ
          (v' & Inv' & _ & _ & _ & [V2 P2] & _).
        exists v'. split; [exact Inv'|].
        intros k Hk. destruct (HJ k Hk) as [ZV SW].
        destruct (batch_ready w0 Hready) as (BN & B1 & By & Bv).
        destruct Inv0 as (_ & Hshape0 & _).
        assert (EC : ncols (wW2 v0) = C) by apply (weights_shape_arrays Hshape0).
        set (g := grad_W2_formula v0 (batch_X XA batch_size N w0)
                    (batch_y y batch_size N w0) 0) in *.
        assert (Hg : sum_upto C (fun j => g k j) = 0).
        { unfold g. rewrite <- EC, grad_W2_row_sum; [lra|].
          intros i Hi. rewrite EC. apply (valid_label_lt Bv).
          rewrite By, <- BN. exact Hi. }
        assert (Hnew : sum_upto C (fun j =>
                  new_velocity w0 (v_W2 s0) (mu s0) (learning_rate s0) g k j) = 0).
        { unfold new_velocity.
          rewrite (sum_upto_minus C
                     (fun j => mu s0 * vel_entry w0 (v_W2 s0) k j)
                     (fun j => learning_rate s0 * g k j)).
          rewrite (sum_upto_scale C (fun j => vel_entry w0 (v_W2 s0) k j) (mu s0)).
          rewrite (sum_upto_scale C (fun j => g k j) (learning_rate s0)).
          rewrite ZV, Hg. lra. }
        split.
        -- rewrite <- Hnew. apply sum_upto_ext. intros j Hj.
           apply (vel_is_entry V2 Hk Hj).
        -- rewrite <- SW.
           rewrite (@sum_upto_ext C (fun j => get (wW2 v') k j)
                      (fun j => get (wW2 v0) k j +
                         new_velocity w0 (v_W2 s0) (mu s0) (learning_rate s0)
                           g k j))
             by (intros j Hj; apply (is_array_at P2 Hk Hj)).
           rewrite (sum_upto_plus C (fun j => get (wW2 v0) k j)
                      (fun j => new_velocity w0 (v_W2 s0) (mu s0)
                                  (learning_rate s0) g k j)).
           rewrite Hnew. lra.
    + intros hist w' (s' & v' & _ & Hnet & Hshape & HJ).
      exists v'. split; [exact Hnet|]. split; [exact Hshape|].
      intros k Hk. apply (proj2 (HJ k Hk)).
Qed.

Lemma train_keeps_W2_row_sums_witness :
  returns (loss example_net 0%nat (Some example_y) 3) example_world
    (fun r w' => exists l g G2,
       r = LossGrads l g /\ lookup w' (W2 g) = Some G2 /\
       forall k, (k < 2)%nat ->
         sum_upto 2 (fun j => get G2 k j)
         = 3 * sum_upto 2 (fun j => get (wW2 example_weights) k j))
  /\ returns (train example_net 0%nat example_y 5%nat example_y 1 0.5 0 0.9 3%Z
                1 1%Z true) example_world
       (fun _ w' => exists v',
          net_holds w' (params example_net) v' /\
          weights_shape 2%nat 2%nat 2%nat v' /\
          forall k, (k < 2)%nat ->
            sum_upto 2 (fun j => get (wW2 v') k j)
            = sum_upto 2 (fun j => get (wW2 example_weights) k j)).
Proof.
  apply (@train_keeps_W2_row_sums example_net 0%nat example_X example_y
           5%nat example_X example_y 1 0.5 3 0.9 3%Z 1 1%Z true
           2%nat 2%nat 2%nat 2%nat 2%nat example_weights example_world
           (example_train_ready (Z.le_refl 1))).
Defined.

(** * Beyond the specification: rows are classified one by one *)

Lemma rows_score v X idx i j :
  (i < length idx)%nat ->
  score v (reordered_X X idx) i j = score v X (nth i idx 0%nat) j.
Proof.
  intros Hi. unfold score, hidden, pre_activation.
  change (ncols (reordered_X X idx)) with (ncols X).
  f_equal. apply sum_upto_ext. intros k _. do 3 f_equal.
  apply sum_upto_ext. intros d Hd. unfold reordered_X.
  rewrite get_tabulate; [reflexivity | exact Hi | exact Hd].
Qed.

Lemma map_seq_nth (S T : Type) (f : S -> T) (l : list S) (d : S) :
  map (fun i => f (nth i l d)) (seq 0 (length l)) = map f l.
Proof.
  rewrite <- (map_map (fun i => nth i l d) f), map_nth_seq. reflexivity.
Qed.

Lemma predictions_rows v X idx :
  (forall k, In k idx -> (k < nrows X)%nat) ->
  predictions v (reordered_X X idx)
  = map (fun k => nth k (predictions v X) 0%Z) idx.
Proof.
  intros Hidx. unfold predictions at 1.
  change (nrows (reordered_X X idx)) with (length idx).
  rewrite <- (map_seq_nth (fun k => nth k (predictions v X) 0%Z) idx 0%nat).
  apply map_ext_in. intros i Hi. apply in_seq in Hi.
  assert (Hk : (nth i idx 0 < nrows X)%nat) by (apply Hidx, nth_In; lia).
  unfold predictions.
  rewrite (nth_map_seq
             (fun i0 => Z.of_nat (np.argmax_list
                                    (map (score v X i0) (seq 0 (ncols (wW2 v))))))
             0%Z Hk).
  do 2 f_equal. apply map_ext. intros j. apply rows_score. lia.
Qed.

(** X25. [predict] classifies each row on its own: the predictions for
    the rows [X[idx, :]] selected by any vector of row numbers (with
    repetitions, in any order), as [train] selects its minibatches, are the
    predictions for [X] at those numbers. *)
Theorem predict_is_row_wise self X XA v idx M D H C w :
  lookup w X = Some XA -> net_holds w (params self) v ->
  shape XA = (M, D) -> weights_shape D H C v -> (1 <= C)%nat ->
  (forall k, In k idx -> (k < M)%nat) ->
  returns (X_batch <- npy.take_rows X idx ;; predict self X_batch) w
    (fun batch_pred _ =>
       returns (predict self X) w
         (fun y_pred _ =>
            batch_pred = map (fun k => nth k y_pred 0%Z) idx)).
Proof.
  intros HX Hnet Hsh Hshape HC Hidx.
  assert (HM : nrows XA = M) by exact (f_equal fst Hsh).
  assert (Hidx' : forall k, In k idx -> (k < nrows XA)%nat)
    by (intros k Hk; rewrite HM; apply Hidx, Hk).
  pose proof (lookup_lt _ _ HX) as LX.
  apply returns_bind. unfold npy.take_rows.
  eapply returns_fresh1; [exact HX | apply (@take_rows_below XA idx Hidx')|].
  eapply predict_spec with (XA := reordered_X XA idx) (M := length idx).
  - apply lookup_allocated_new. reflexivity.
  - apply (net_holds_kept (heap_kept_allocated (reordered_X XA idx)
                             (heap_kept_refl w)) Hnet).
  - unfold shape. simpl. rewrite (f_equal snd Hsh : ncols XA = D). reflexivity.
  - exact Hshape.
  - exact HC.
  - intros w1 _ _.
    eapply predict_spec;
      [exact HX | exact Hnet | exact Hsh | exact Hshape | exact HC |].
    intros w2 _ _. apply (@predictions_rows v XA idx Hidx').
Qed.

Lemma predict_is_row_wise_witness :
  returns (X_batch <- npy.take_rows 0%nat [1; 1; 0]%nat ;;
           predict example_net X_batch) example_world
    (fun batch_pred _ =>
       returns (predict example_net 0%nat) example_world
         (fun y_pred _ =>
            batch_pred = map (fun k => nth k y_pred 0%Z) [1; 1; 0]%nat)).
Proof.
  apply (@predict_is_row_wise example_net 0%nat example_X example_weights
           [1; 1; 0]%nat 2%nat 2%nat 2%nat 2%nat example_world).
  - reflexivity.
  - repeat split.
  - reflexivity.
  - repeat split.
  - lia.
  - simpl. intros k [<-|[<-|[<-|[]]]]; lia.
Defined.

(** * The training run as a recurrence *)

(** ** One parameter, one iteration *)

Lemma get_moved A vel n m i j :
  shape A = (n, m) -> (i < n)%nat -> (j < m)%nat ->
  get (moved A vel) i j = get A i j + vel i j.
Proof.
  intros E Hi Hj. unfold moved.
  rewrite (f_equal fst E : nrows A = n), (f_equal snd E : ncols A = m).
  apply get_tabulate; assumption.
Qed.

Lemma shape_moved A vel : shape (moved A vel) = shape A.
Proof. reflexivity. Qed.

(** The update the code makes to one parameter is the update of the
    recurrence, when the parameter and the velocity had the same entries
    before. *)
Lemma follows_update w0 w' old new P P' Pm n m mu0 lr grad vel gradm :
  shape Pm = (n, m) -> same_entries P Pm n m ->
  (forall i j, (i < n)%nat -> (j < m)%nat -> vel_entry w0 old i j = vel i j) ->
  (forall i j, (i < n)%nat -> (j < m)%nat -> grad i j = gradm i j) ->
  vel_is w' new n m (new_velocity w0 old mu0 lr grad) ->
  is_array P' n m (fun i j => get P i j + new_velocity w0 old mu0 lr grad i j) ->
  same_entries P' (moved Pm (momentum_rule mu0 lr vel gradm)) n m /\
  (forall i j, (i < n)%nat -> (j < m)%nat ->
     vel_entry w' new i j = momentum_rule mu0 lr vel gradm i j).
Proof.
  intros HS HP HV HG Vn An.
  assert (E : forall i j, (i < n)%nat -> (j < m)%nat ->
                new_velocity w0 old mu0 lr grad i j
                = momentum_rule mu0 lr vel gradm i j).
  { intros i j Hi Hj. unfold new_velocity, momentum_rule.
    rewrite (HV i j Hi Hj), (HG i j Hi Hj). reflexivity. }
  split; intros i j Hi Hj.
  - rewrite (is_array_at An Hi Hj), (get_moved _ HS Hi Hj), (HP i j Hi Hj),
            (E i j Hi Hj). reflexivity.
  - rewrite (vel_is_entry Vn Hi Hj). apply E; assumption.
Qed.

Lemma follows_start D H C w v lr mu0 :
  weights_shape D H C v ->
  follows D H C w (initial_loop_state lr mu0) v (sgd_start v lr mu0).
Proof.
  intros Hshape. unfold follows, sgd_start, initial_loop_state; simpl.
  split; [exact Hshape|].
  split; [repeat split; apply same_entries_refl|].
  repeat split.
Qed.

(** One iteration of [train], started in a state of the recurrence, ends in
    the next state of the recurrence, on the sample drawn in that
    iteration. *)
Lemma follows_step self X XA y X_val XvA y_val batch_size N D H C Nv v w
    ipe it decay reg mu_increase verbose w0 s0 v0 m :
  train_ready self X XA y X_val XvA y_val batch_size N D H C Nv v w ->
  train_inv self X XA X_val XvA D H C w0 s0 v0 ->
  follows D H C w0 s0 v0 m ->
  returns (train_step self X y X_val y_val decay reg mu_increase batch_size
             verbose N ipe it s0) w0
    (fun s' w' => exists v',
       train_inv self X XA X_val XvA D H C w' s' v' /\
       follows D H C w' s' v'
         (sgd_step XA y reg decay mu_increase verbose ipe it
            (batch_index batch_size N w0) m) /\
       random w' = skip_ints (random w0) (Z.to_nat batch_size) /\
       loss_history s' =
         loss_history s0 ++
         [loss_formula (sgd_weights m) (batch_X XA batch_size N w0)
            (batch_y y batch_size N w0) reg]).
Proof.
  intros Hready Inv (Hsm & Hsame & F2 & FB2 & F1 & FB1 & Flr & Fmu).
  eapply returns_mono;
    [apply (train_ready_step_inv ipe it decay reg mu_increase verbose Hready Inv)|].
  intros s' w' (v' & Inv' & Hr & _ & EL & [V2 P2] & [VB2 PB2] & [V1 P1]
                & [VB1 PB1] & Hif).
  destruct (batch_ready w0 Hready) as (BN & B1 & By & Bv).
  pose proof Hready as (_ & _ & _ & _ & HXs & _).
  pose proof (f_equal snd (@batch_X_shape XA batch_size N D HXs w0)) as BD.
  simpl in BD.
  pose proof Inv as (_ & Hsh0 & _).
  destruct (@same_gradients v0 (sgd_weights m) (batch_X XA batch_size N w0)
              (batch_y y batch_size N w0) reg D H C Hsh0 Hsm Hsame BD)
    as (G1 & GB1 & G2 & GB2).
  assert (Hl : forall i, (i < nrows (batch_X XA batch_size N w0))%nat ->
                 (label (batch_y y batch_size N w0) i < C)%nat).
  { intros i Hi. apply (valid_label_lt Bv). rewrite By, <- BN. exact Hi. }
  pose proof (@same_loss_formula v0 (sgd_weights m)
                (batch_X XA batch_size N w0) (batch_y y batch_size N w0)
                reg D H C Hsh0 Hsm Hsame BD Hl) as EF.
  destruct Hsame as (W1s & B1s & W2s & B2s).
  destruct Hsm as (M1 & MB1 & M2 & MB2).
  rewrite Flr, Fmu in V2, P2, VB2, PB2, V1, P1, VB1, PB1.
  destruct (follows_update _ _ M2 W2s F2 G2 V2 P2) as [W2' F2'].
  destruct (follows_update _ _ MB2 B2s FB2
              (fun i j (_ : (i < 1)%nat) Hj => GB2 i j Hj) VB2 PB2)
    as [B2' FB2'].
  destruct (follows_update _ _ M1 W1s F1 G1 V1 P1) as [W1' F1'].
  destruct (follows_update _ _ MB1 B1s FB1
              (fun i j (_ : (i < 1)%nat) Hj => GB1 i j Hj) VB1 PB1)
    as [B1' FB1'].
  exists v'. split; [exact Inv'|]. split; [|split; [exact Hr|]].
  - unfold follows, sgd_step; cbn [sgd_weights sgd_vel_W2 sgd_vel_b2
                                   sgd_vel_W1 sgd_vel_b1 sgd_lr sgd_mu].
    split; [repeat split; cbn [wW1 wb1 wW2 wb2]; rewrite shape_moved;
            assumption|].
    split; [repeat split; cbn [wW1 wb1 wW2 wb2]; assumption|].
    do 4 (split; [assumption|]).
    unfold epoch_factor.
    destruct (verbose && (it mod ipe =? 0)%Z);
      destruct Hif as (_ & _ & -> & ->); rewrite Flr, Fmu; split; lra.
  - rewrite EL, EF. reflexivity.
Qed.

(** ** The loop *)

Lemma run_sample_batch r N batch_size k w :
  random w = skip_ints r (k * Z.to_nat batch_size) ->
  batch_index batch_size N w = run_sample r N batch_size k.
Proof. intros E. unfold batch_index, run_sample. rewrite E. reflexivity. Qed.

Lemma for_each_follows self X XA y X_val XvA y_val batch_size N D H C Nv v w
    decay reg mu_increase verbose lr mu0 r n :
  train_ready self X XA y X_val XvA y_val batch_size N D H C Nv v w ->
  forall k s0 w0 v0,
    train_inv self X XA X_val XvA D H C w0 s0 v0 ->
    follows D H C w0 s0 v0
      (sgd_after XA y reg decay mu_increase batch_size verbose N v lr mu0 r k) ->
    random w0 = skip_ints r (k * Z.to_nat batch_size) ->
    loss_history s0 =
      map (run_loss XA y reg decay mu_increase batch_size verbose N v lr mu0 r)
          (seq 0 k) ->
    returns
      (for_each (train_step self X y X_val y_val decay reg mu_increase
                   batch_size verbose N (Z.max (Z.of_nat N / batch_size) 1))
         (map (fun j => (1 + Z.of_nat j)%Z) (seq k n)) s0) w0
      (fun s' w' => exists v',
         train_inv self X XA X_val XvA D H C w' s' v' /\
         follows D H C w' s' v'
           (sgd_after XA y reg decay mu_increase batch_size verbose N v lr mu0
              r (k + n)) /\
         random w' = skip_ints r ((k + n) * Z.to_nat batch_size) /\
         loss_history s' =
           map (run_loss XA y reg decay mu_increase batch_size verbose N v lr
                  mu0 r) (seq 0 (k + n))).
Proof.
  intros Hready. induction n as [|n IH]; intros k s0 w0 v0 Inv Hf Hr HL.
  - simpl. apply returns_ret. exists v0. rewrite Nat.add_0_r. auto.
  - cbn [seq map for_each]. apply returns_bind.
    eapply returns_mono;
      [apply (follows_step _ (1 + Z.of_nat k) decay reg mu_increase verbose
                Hready Inv Hf)|].
    intros s1 w1 (v1 & Inv1 & Hf1 & Hr1 & HL1).
    rewrite (@run_sample_batch r N batch_size k w0 Hr) in Hf1.
    eapply returns_mono; [apply (IH (S k) s1 w1 v1 Inv1 Hf1)|].
    + rewrite Hr1, Hr, skip_ints_skip. f_equal. simpl. lia.
    + rewrite HL1, HL, seq_S, map_app. cbn [map]. do 2 f_equal.
      unfold run_loss, batch_X, batch_y.
      rewrite (@run_sample_batch r N batch_size k w0 Hr). reflexivity.
    + intros s2 w2 (v2 & Inv2 & Hf2 & Hr2 & HL2).
      exists v2. replace (k + S n)%nat with (S k + n)%nat by lia. auto.
Qed.

(** A run of [train] goes through the states of the recurrence. *)
Lemma train_run_follows self X XA y X_val XvA y_val lr decay reg mu0
    num_epochs mu_increase batch_size verbose N D H C Nv v w :
  train_ready self X XA y X_val XvA y_val batch_size N D H C Nv v w ->
  returns (train_run self X y X_val y_val lr decay reg mu0 num_epochs
             mu_increase batch_size verbose) w
    (fun s' w' => exists v',
       train_inv self X XA X_val XvA D H C w' s' v' /\
       follows D H C w' s' v'
         (sgd_after XA y reg decay mu_increase batch_size verbose N v lr mu0
            (random w) (iterations N num_epochs batch_size)) /\
       random w' =
         skip_ints (random w)
           (iterations N num_epochs batch_size * Z.to_nat batch_size) /\
       loss_history s' =
         map (run_loss XA y reg decay mu_increase batch_size verbose N v lr mu0
                (random w))
             (seq 0 (iterations N num_epochs batch_size))).
Proof.
  intros Hready.
  pose proof (train_ready_inv lr mu0 Hready) as Inv.
  pose proof Hready as (HX & _ & _ & Hshape & HXs & _ & _ & _ & Hb & _).
  unfold train_run.
  apply returns_bind. eapply returns_load; [exact HX|].
  rewrite (f_equal fst HXs : nrows XA = N).
  apply returns_bind. unfold int_div.
  replace (batch_size =? 0)%Z with false by (symmetry; apply Z.eqb_neq; lia).
  apply returns_ret.
  replace (xrange 1 (num_epochs * Z.max (Z.of_nat N / batch_size) 1 + 1))
    with (map (fun j => (1 + Z.of_nat j)%Z)
              (seq 0 (iterations N num_epochs batch_size)))
    by (unfold xrange, iterations; do 3 f_equal; lia).
  apply (@for_each_follows self X XA y X_val XvA y_val batch_size N D H C Nv v w
           decay reg mu_increase verbose lr mu0 (random w)
           (iterations N num_epochs batch_size) Hready 0%nat
           (initial_loop_state lr mu0) w v Inv).
  - apply follows_start, Hshape.
  - simpl. rewrite skip_ints_0. reflexivity.
  - reflexivity.
Qed.

Lemma train_follows self X XA y X_val XvA y_val lr decay reg mu0
    num_epochs mu_increase batch_size verbose N D H C Nv v w :
  train_ready self X XA y X_val XvA y_val batch_size N D H C Nv v w ->
  returns (train self X y X_val y_val lr decay reg mu0 num_epochs
             mu_increase batch_size verbose) w
    (fun hist w' =>
       h_loss_history hist =
         map (run_loss XA y reg decay mu_increase batch_size verbose N v lr mu0
                (random w))
             (seq 0 (iterations N num_epochs batch_size)) /\
       exists v',
         net_holds w' (params self) v' /\ weights_shape D H C v' /\
         same_weights D H C v'
           (sgd_weights
              (sgd_after XA y reg decay mu_increase batch_size verbose N v lr
                 mu0 (random w) (iterations N num_epochs batch_size)))).
Proof.
  intros Hready. unfold train. apply returns_bind.
  eapply returns_mono;
    [apply (train_run_follows lr decay reg mu0 num_epochs mu_increase verbose
              Hready)|].
  intros s' w' (v' & Inv' & (_ & Hsame & _) & _ & HL).
  apply returns_ret. cbn [h_loss_history]. split; [exact HL|].
  exists v'. split; [apply Inv'|]. split; [apply Inv' | exact Hsame].
Qed.

(** ** Samples and raw draws *)

Lemma map_shift_seq (T : Type) (f : nat -> T) n k :
  map f (seq n k) = map (fun j => f (n + j)%nat) (seq 0 k).
Proof.
  revert f. induction n as [|n IH]; intros f; [reflexivity|].
  rewrite <- seq_shift, map_map, (IH (fun x => f (S x))). reflexivity.
Qed.

(** Drawing [n + k] indices is drawing [n] and then [k]. *)
Lemma draw_ints_app r a n k :
  draw_ints r a (n + k) = draw_ints r a n ++ draw_ints (skip_ints r n) a k.
Proof.
  unfold draw_ints. rewrite seq_app, map_app. f_equal.
  rewrite map_shift_seq. apply map_ext. intros j. cbn [skip_ints used_int raw_int].
  do 2 f_equal. lia.
Qed.

(** The samples of the first [T] iterations are the consecutive blocks of
    one draw of [T * batch_size] indices. *)
Lemma run_samples_concat r N batch_size T :
  concat (map (run_sample r N batch_size) (seq 0 T))
  = draw_ints r N (T * Z.to_nat batch_size).
Proof.
  induction T as [|T IH]; [reflexivity|].
  rewrite seq_S, map_app, concat_app, IH. cbn [map concat plus].
  rewrite app_nil_r. unfold run_sample.
  replace (S T * Z.to_nat batch_size)%nat
    with (T * Z.to_nat batch_size + Z.to_nat batch_size)%nat by lia.
  symmetry. apply draw_ints_app.
Qed.

(** The indices drawn are the raw draws reduced modulo the bound. *)
Lemma draw_ints_with_draws r t a :
  draw_ints (with_draws r t) a (length t) = map (fun x => x mod a)%nat t.
Proof.
  unfold draw_ints, with_draws; cbn [raw_int used_int].
  rewrite <- (map_nth_seq t 0%nat) at 2. rewrite map_map.
  apply map_ext_in. intros k Hk. apply in_seq in Hk.
  replace (used_int r + k <? used_int r)%nat with false
    by (symmetry; apply Nat.ltb_ge; lia).
  replace (used_int r + k - used_int r)%nat with k by lia.
  f_equal. apply nth_indep. lia.
Qed.

Lemma raw_tuples_length B n t : In t (raw_tuples B n) -> length t = n.
Proof.
  revert t. induction n as [|n IH]; intros t Ht.
  - destruct Ht as [<-|[]]. reflexivity.
  - cbn [raw_tuples] in Ht. apply in_flat_map in Ht.
    destruct Ht as (x & _ & Ht). apply in_map_iff in Ht.
    destruct Ht as (t' & <- & Ht'). simpl. f_equal. apply IH, Ht'.
Qed.

Lemma length_flat_map_const (S T : Type) (f : S -> list T) c l :
  (forall x, In x l -> length (f x) = c) ->
  length (flat_map f l) = (length l * c)%nat.
Proof.
  induction l as [|x l IH]; intros Hc; [reflexivity|].
  cbn [flat_map]. rewrite length_app, IH, Hc by (intros; try apply Hc; simpl; auto).
  simpl. lia.
Qed.

(** There are [B ^ n] sequences of [n] raw draws below [B]. *)
Lemma raw_tuples_count B n : length (raw_tuples B n) = (B ^ n)%nat.
Proof.
  induction n as [|n IH]; [reflexivity|].
  cbn [raw_tuples]. rewrite (@length_flat_map_const _ _ _ (B ^ n)%nat).
  - rewrite length_seq. reflexivity.
  - intros x _. rewrite length_map. exact IH.
Qed.

Lemma same_sample_true a b : same_sample a b = true <-> a = b.
Proof.
  unfold same_sample. destruct (list_eq_dec Nat.eq_dec a b); split;
    intros; congruence.
Qed.

Lemma same_sample_cons x a y b :
  same_sample (x :: a) (y :: b) = (x =? y)%nat && same_sample a b.
Proof.
  destruct (same_sample (x :: a) (y :: b)) eqn:E.
  - apply same_sample_true in E. inversion E; subst.
    rewrite Nat.eqb_refl. symmetry. apply same_sample_true. reflexivity.
  - symmetry. apply andb_false_iff.
    destruct (x =? y)%nat eqn:Exy; [right|left; reflexivity].
    apply Nat.eqb_eq in Exy. subst y.
    destruct (same_sample a b) eqn:Eab; [|reflexivity].
    apply same_sample_true in Eab. subst b.
    assert (T : same_sample (x :: a) (x :: a) = true)
      by (apply same_sample_true; reflexivity).
    congruence.
Qed.

(** Exactly one of [a] consecutive numbers has a given remainder modulo
    [a]. *)
Lemma count_eq_seq i s a :
  length (filter (fun x => x =? i)%nat (seq s a))
  = if ((s <=? i) && (i <? s + a))%nat then 1%nat else 0%nat.
Proof.
  revert s. induction a as [|a IH]; intros s.
  - simpl. replace (i <? s + 0)%nat with (i <? s)%nat by (f_equal; lia).
    destruct (s <=? i)%nat eqn:E1, (i <? s)%nat eqn:E2; try reflexivity.
    apply Nat.leb_le in E1. apply Nat.ltb_lt in E2. lia.
  - cbn [seq filter]. destruct (s =? i)%nat eqn:E.
    + apply Nat.eqb_eq in E. subst s. cbn [length]. rewrite IH.
      replace (S i <=? i)%nat with false by (symmetry; apply Nat.leb_gt; lia).
      replace (i <=? i)%nat with true by (symmetry; apply Nat.leb_le; lia).
      replace (i <? i + S a)%nat with true by (symmetry; apply Nat.ltb_lt; lia).
      reflexivity.
    + apply Nat.eqb_neq in E. rewrite IH.
      destruct (S s <=? i)%nat eqn:E1, (s <=? i)%nat eqn:E2,
               (i <? S s + a)%nat eqn:E3, (i <? s + S a)%nat eqn:E4;
        try reflexivity; exfalso;
        repeat match goal with
               | H : (_ <=? _)%nat = true |- _ => apply Nat.leb_le in H
               | H : (_ <=? _)%nat = false |- _ => apply Nat.leb_gt in H
               | H : (_ <? _)%nat = true |- _ => apply Nat.ltb_lt in H
               | H : (_ <? _)%nat = false |- _ => apply Nat.ltb_ge in H
               end; lia.
Qed.

Lemma count_remainder a m i :
  (i < a)%nat ->
  length (filter (fun x => x mod a =? i)%nat (seq 0 (a * m))) = m.
Proof.
  intros Hi. induction m as [|m IH].
  - rewrite Nat.mul_0_r. reflexivity.
  - replace (a * S m)%nat with (a * m + a)%nat by lia.
    rewrite seq_app, filter_app, length_app, IH. cbn [plus].
    assert (E : filter (fun x => x mod a =? i)%nat (seq (a * m) a)
                = filter (fun x => x =? a * m + i)%nat (seq (a * m) a)).
    { apply filter_ext_in. intros x Hx. apply in_seq in Hx.
      replace x with ((x - a * m) + m * a)%nat at 1 by lia.
      rewrite Nat.Div0.mod_add, Nat.mod_small by lia.
      destruct (x - a * m =? i)%nat eqn:E1, (x =? a * m + i)%nat eqn:E2;
        try reflexivity; exfalso;
        repeat match goal with
               | H : (_ =? _)%nat = true |- _ => apply Nat.eqb_eq in H
               | H : (_ =? _)%nat = false |- _ => apply Nat.eqb_neq in H
               end; lia. }
    rewrite E, count_eq_seq.
    replace ((a * m <=? a * m + i) && (a * m + i <? a * m + a))%nat with true;
      [lia|].
    symmetry. apply andb_true_iff. split; [apply Nat.leb_le | apply Nat.ltb_lt]; lia.
Qed.

Lemma count_cons (p : list nat -> bool) (q : nat -> bool) (p' : list nat -> bool)
    (T : list (list nat)) l :
  (forall x t, p (x :: t) = q x && p' t) ->
  length (filter p (flat_map (fun x => map (cons x) T) l))
  = (length (filter q l) * length (filter p' T))%nat.
Proof.
  intros Hp. induction l as [|x l IH]; [reflexivity|].
  cbn [flat_map filter]. rewrite filter_app, length_app, IH.
  assert (E : length (filter p (map (cons x) T))
              = if q x then length (filter p' T) else 0%nat).
  { clear IH. induction T as [|t T IHT]; [destruct (q x); reflexivity|].
    cbn [map filter]. rewrite Hp.
    destruct (q x); cbn [andb]; [|exact IHT].
    destruct (p' t); cbn [length]; [f_equal|]; exact IHT. }
  rewrite E. destruct (q x); cbn [length]; lia.
Qed.

(** Every sample of [n] indices below [a] comes from the same number of
    sequences of raw draws below [a * m]. *)
Lemma count_samples a m idx :
  (forall k, In k idx -> (k < a)%nat) ->
  length (filter (fun t => same_sample (map (fun x => x mod a)%nat t) idx)
            (raw_tuples (a * m) (length idx)))
  = (m ^ length idx)%nat.
Proof.
  induction idx as [|i idx IH]; intros Hidx; [reflexivity|].
  cbn [length raw_tuples].
  rewrite (@count_cons _ (fun x => x mod a =? i)%nat
             (fun t => same_sample (map (fun x => x mod a)%nat t) idx)).
  - rewrite count_remainder by (apply Hidx; left; reflexivity).
    rewrite IH by (intros k Hk; apply Hidx; right; exact Hk).
    reflexivity.
  - intros x t. cbn [map]. apply same_sample_cons.
Qed.

Lemma supplies_giving_count r a m idx :
  (forall k, In k idx -> (k < a)%nat) ->
  length (supplies_giving r a (length idx) (a * m) idx) = (m ^ length idx)%nat.
Proof.
  intros Hidx. unfold supplies_giving.
  rewrite <- (@count_samples a m idx Hidx). f_equal.
  apply filter_ext_in. intros t Ht.
  rewrite <- (@raw_tuples_length _ _ t Ht), draw_ints_with_draws. reflexivity.
Qed.

(** Under raw draws that are uniform below [a * m], every sample of [n]
    indices below [a] has probability [1 / a ^ n]. *)
Lemma sample_probability r a m idx :
  (1 <= a)%nat -> (1 <= m)%nat -> (forall k, In k idx -> (k < a)%nat) ->
  INR (length (supplies_giving r a (length idx) (a * m) idx))
  / INR (length (raw_tuples (a * m) (length idx)))
  = 1 / INR a ^ length idx.
Proof.
  intros Ha Hm Hidx.
  rewrite (@supplies_giving_count r a m idx Hidx), raw_tuples_count.
  rewrite !pow_INR, mult_INR, Rpow_mult_distr.
  assert (INR a <> 0) by (apply not_0_INR; lia).
  assert (INR m <> 0) by (apply not_0_INR; lia).
  field. split; apply pow_nonzero; assumption.
Qed.

(** ** The momentum recurrence *)

(** C3. [train] follows the classical-momentum recurrence.  Every iteration
    sets, for each of the four parameters, the velocity to
    [mu * velocity - learning_rate * gradient] and the parameter to the old
    one plus that velocity, the gradient being the one [loss] returns for
    the minibatch; with [mu = 0] the updated parameter is
    [old - learning_rate * gradient].  Over a whole call the iterations
    chain: the velocities start at zero and each iteration reads the
    velocity the previous one wrote, so that after the loop the parameters,
    the velocities, the learning rate and the momentum coefficient are
    those of the recurrence [sgd_after] after as many steps as the loop
    made.  In a call that makes one iteration the parameters end as
    [old - learning_rate * gradient] whatever [mu] is. *)
Theorem train_momentum self X XA y X_val XvA y_val lr decay reg mu0
    num_epochs mu_increase batch_size verbose N D H C Nv v w :
  train_ready self X XA y X_val XvA y_val batch_size N D H C Nv v w ->
  (forall ipe it w0 s0 v0,
      train_inv self X XA X_val XvA D H C w0 s0 v0 ->
      returns (train_step self X y X_val y_val decay reg mu_increase batch_size
                 verbose N ipe it s0) w0
        (fun s' w' =>
           momentum_post self XA y reg batch_size N D H C w0 s0 v0 s' w' /\
           (mu s0 = 0 ->
            gradient_step_post self XA y reg batch_size N D H C
              (learning_rate s0) w0 v0 w')))
  /\ returns (train_run self X y X_val y_val lr decay reg mu0 num_epochs
                mu_increase batch_size verbose) w
       (fun s' w' => exists v',
          net_holds w' (params self) v' /\
          follows D H C w' s' v'
            (sgd_after XA y reg decay mu_increase batch_size verbose N v lr mu0
               (random w) (iterations N num_epochs batch_size)))
  /\ returns (train self X y X_val y_val lr decay reg mu0 num_epochs
                mu_increase batch_size verbose) w
       (fun _ w' => exists v',
          net_holds w' (params self) v' /\ weights_shape D H C v' /\
          same_weights D H C v'
            (sgd_weights
               (sgd_after XA y reg decay mu_increase batch_size verbose N v lr
                  mu0 (random w) (iterations N num_epochs batch_size))))
  /\ (iterations N num_epochs batch_size = 1%nat ->
      returns (train self X y X_val y_val lr decay reg mu0 num_epochs
                 mu_increase batch_size verbose) w
        (fun _ w' =>
           gradient_step_post self XA y reg batch_size N D H C lr w v w')).
Proof.
  intros Hready. split; [|split; [|split]].
  - intros ipe it w0 s0 v0 Inv.
    eapply returns_mono;
      [apply (train_ready_step_inv ipe it decay reg mu_increase verbose Hready Inv)|].
    intros s' w' Hpost. apply step_post_momentum in Hpost.
    split; [exact Hpost|]. intros Hmu.
    apply (momentum_gradient_step Hpost). left; exact Hmu.
  - eapply returns_mono;
      [apply (train_run_follows lr decay reg mu0 num_epochs mu_increase verbose
                Hready)|].
    intros s' w' (v' & Inv' & Hf & _). exists v'.
    split; [apply Inv' | exact Hf].
  - eapply returns_mono;
      [apply (train_follows lr decay reg mu0 num_epochs mu_increase verbose
                Hready)|].
    intros hist w' (_ & Hv). exact Hv.
  - intros Hone.
    pose proof (train_ready_inv lr mu0 Hready) as Inv.
    pose proof Hready as (HX & _ & _ & _ & HXs & _ & _ & _ & Hb & _).
    unfold train, train_run.
    apply returns_bind.
    apply returns_bind. eapply returns_load; [exact HX|].
    rewrite (f_equal fst HXs : nrows XA = N).
    apply returns_bind. unfold int_div.
    replace (batch_size =? 0)%Z with false by (symmetry; apply Z.eqb_neq; lia).
    apply returns_ret.
    rewrite (xrange_single _ Hone). simpl for_each.
    apply returns_bind.
    eapply returns_mono;
      [apply (train_ready_step_inv _ 1%Z decay reg mu_increase verbose Hready Inv)|].
    intros s' w' Hpost. apply step_post_momentum in Hpost.
    apply returns_ret. apply returns_ret.
    apply (momentum_gradient_step Hpost). right. repeat split.
Qed.

Lemma train_momentum_witness :
  returns (train example_net 0%nat example_y 5%nat example_y
             0.5 0.9 0 0.5 3%Z 1 1%Z true) example_world
    (fun _ w' => exists v',
       net_holds w' (params example_net) v' /\
       weights_shape 2%nat 2%nat 2%nat v' /\
       same_weights 2%nat 2%nat 2%nat v'
         (sgd_weights
            (sgd_after example_X example_y 0 0.9 1 1%Z true 2%nat
               example_weights 0.5 0.5 example_random
               (iterations 2%nat 3%Z 1%Z)))).
Proof.
  apply (proj1 (proj2 (proj2 (@train_momentum example_net 0%nat example_X
           example_y 5%nat example_X example_y 0.5 0.9 0 0.5 3%Z 1 1%Z true
           2%nat 2%nat 2%nat 2%nat 2%nat example_weights example_world
           (example_train_ready (Z.le_refl 1)))))).
Defined.

(** The recurrence on a run of two iterations with momentum 0.5: the second
    velocity carries half of the first. *)
Example sgd_after_two XA y reg batch_size N v lr r i j :
  sgd_vel_b2 (sgd_after XA y reg 1 1 batch_size false N v lr 0.5 r 2) i j
  = 0.5 * (- (lr * grad_b2_formula v
                     (reordered_X XA (run_sample r N batch_size 0))
                     (reordered_y y (run_sample r N batch_size 0)) i j))
    - lr * grad_b2_formula
             (sgd_weights (sgd_after XA y reg 1 1 batch_size false N v lr 0.5 r 1))
             (reordered_X XA (run_sample r N batch_size 1))
             (reordered_y y (run_sample r N batch_size 1)) i j.
Proof.
  cbn [sgd_after sgd_step sgd_vel_b2 sgd_mu sgd_lr sgd_start sgd_weights].
  unfold momentum_rule, epoch_factor. cbn [andb]. lra.
Qed.

(** ** The iterations of a run and their samples *)

(** C4. [train] runs its loop [num_epochs * max(N / batch_size, 1)] times.
    Each iteration draws [batch_size] indices below [N] from the random
    state (repetitions allowed), takes those rows and labels as the
    minibatch, computes the loss on it and appends that one number to the
    loss history; the returned loss history has one entry per iteration,
    the [k]-th being the loss on the [k]-th sample.  The samples are drawn
    uniformly: they are the consecutive blocks of one draw of indices, the
    indices are the raw draws of the generator reduced modulo [N], and each
    sequence of [n] indices below [N] comes from equally many, [m ^ n], of
    the [(N * m) ^ n] sequences of [n] raw draws below [N * m]: under
    uniform raw draws it has probability [1 / N ^ n]. *)
Theorem train_iterations self X XA y X_val XvA y_val lr decay reg mu0
    num_epochs mu_increase batch_size verbose N D H C Nv v w :
  train_ready self X XA y X_val XvA y_val batch_size N D H C Nv v w ->
  (forall ipe it w0 s0 v0,
      train_inv self X XA X_val XvA D H C w0 s0 v0 ->
      returns (train_step self X y X_val y_val decay reg mu_increase batch_size
                 verbose N ipe it s0) w0
        (fun s' w' =>
           let sample_index := draw_ints (random w0) N (Z.to_nat batch_size) in
           length sample_index = Z.to_nat batch_size /\
           (forall k, In k sample_index -> (k < N)%nat) /\
           np.take_rows XA sample_index = Ok (batch_X XA batch_size N w0) /\
           np.take y sample_index = Ok (batch_y y batch_size N w0) /\
           loss_history s' =
             loss_history s0 ++
             [loss_formula v0 (batch_X XA batch_size N w0)
                (batch_y y batch_size N w0) reg] /\
           random w' = skip_ints (random w0) (Z.to_nat batch_size) /\
           exists v', train_inv self X XA X_val XvA D H C w' s' v'))
  /\ length (xrange 1 (num_epochs * Z.max (Z.of_nat N / batch_size) 1 + 1))
     = Z.to_nat (num_epochs * Z.max (Z.of_nat N / batch_size) 1)
  /\ returns (train self X y X_val y_val lr decay reg mu0 num_epochs
                mu_increase batch_size verbose) w
       (fun hist w' =>
          length (h_loss_history hist)
          = Z.to_nat (num_epochs * Z.max (Z.of_nat N / batch_size) 1) /\
          random w' =
            skip_ints (random w)
              (Z.to_nat (num_epochs * Z.max (Z.of_nat N / batch_size) 1)
               * Z.to_nat batch_size) /\
          h_loss_history hist =
            map (fun k =>
                   loss_formula
                     (sgd_weights
                        (sgd_after XA y reg decay mu_increase batch_size
                           verbose N v lr mu0 (random w) k))
                     (reordered_X XA (run_sample (random w) N batch_size k))
                     (reordered_y y (run_sample (random w) N batch_size k))
                     reg)
                (seq 0 (Z.to_nat
                          (num_epochs * Z.max (Z.of_nat N / batch_size) 1))))
  /\ (forall r T,
        concat (map (run_sample r N batch_size) (seq 0 T))
        = draw_ints r N (T * Z.to_nat batch_size))
  /\ (forall r t,
        draw_ints (with_draws r t) N (length t) = map (fun x => x mod N)%nat t)
  /\ (forall r m idx,
        (1 <= m)%nat -> (forall k, In k idx -> (k < N)%nat) ->
        length (supplies_giving r N (length idx) (N * m) idx)
        = (m ^ length idx)%nat /\
        length (raw_tuples (N * m) (length idx))
        = ((N * m) ^ length idx)%nat /\
        INR (length (supplies_giving r N (length idx) (N * m) idx))
        / INR (length (raw_tuples (N * m) (length idx)))
        = 1 / INR N ^ length idx).
Proof.
  intros Hready. split; [|split; [|split; [|split; [|split]]]].
  - intros ipe it w0 s0 v0 Inv.
    eapply returns_mono; [apply (train_ready_step_inv ipe it decay reg mu_increase verbose Hready Inv)|].
    intros s' w' (v' & Inv' & Hr & _ & EL & _).
    destruct Hready as (_ & _ & _ & _ & HXs & HN1 & Hy & _).
    assert (Hbelow : forall k,
              In k (draw_ints (random w0) N (Z.to_nat batch_size)) -> (k < N)%nat)
      by (intros k; apply draw_ints_below; lia).
    simpl. split; [apply draw_ints_length|]. split; [exact Hbelow|].
    split; [apply take_rows_below; rewrite (f_equal fst HXs : nrows XA = N); exact Hbelow|].
    split; [apply take_below; rewrite Hy; exact Hbelow|].
    split; [exact EL|]. split; [exact Hr|]. exists v'. exact Inv'.
  - exact (xrange_iterations N num_epochs batch_size).
  - unfold train. apply returns_bind.
    eapply returns_mono;
      [apply (train_run_follows lr decay reg mu0 num_epochs mu_increase verbose
                Hready)|].
    intros s' w' (v' & _ & _ & Hr & HL).
    apply returns_ret. cbn [h_loss_history]. unfold iterations in Hr, HL.
    split; [rewrite HL, length_map, length_seq; reflexivity|].
    split; [exact Hr | exact HL].
  - intros r T. apply run_samples_concat.
  - intros r t. apply draw_ints_with_draws.
  - intros r m idx Hm Hidx.
    destruct Hready as (_ & _ & _ & _ & _ & HN1 & _).
    split; [apply supplies_giving_count, Hidx|].
    split; [apply raw_tuples_count|].
    apply sample_probability; assumption.
Qed.

Lemma train_iterations_witness :
  returns (train example_net 0%nat example_y 5%nat example_y
             1 1 0 0 3%Z 1 1%Z false) example_world
    (fun hist _ => length (h_loss_history hist) = 6%nat).
Proof.
  eapply returns_mono.
  - apply (proj1 (proj2 (proj2 (@train_iterations example_net 0%nat example_X
             example_y 5%nat example_X example_y 1 1 0 0 3%Z 1 1%Z false
             2%nat 2%nat 2%nat 2%nat 2%nat example_weights example_world
             (example_train_ready (Z.le_refl 1)))))).
  - intros hist w' [Hlen _]. exact Hlen.
Defined.

(** With two rows and raw draws below 4, each of the four samples of two
    indices comes from four of the sixteen sequences of raw draws. *)
Example samples_of_two_rows :
  map (fun idx => length (supplies_giving example_random 2 2 4 idx))
      [[0; 0]; [0; 1]; [1; 0]; [1; 1]]%nat
  = [4; 4; 4; 4]%nat.
Proof. reflexivity. Qed.
